(** * The JerryScript heap allocator of IoT.js (jerry-core/jmem/jmem-heap.c)

    A shallow embedding of the free-list allocator: the intrusive,
    address-ordered free list with compressed [next_offset] links, the skip
    pointer, the first-fit allocation with its fast path, the coalescing
    free, the per-segment occupancy walk of the segmented heap, the
    GC-and-allocate ladder and the statistics counters.

    Build selection.  The file embeds the two free-list back ends, the
    static heap and the segmented heap ([JMEM_SEGMENTED_HEAP]), with
    [JMEM_STATS] on; the branches under [JMEM_DYNAMIC_HEAP_EMUL] are not
    selected.  The branches under [JERRY_SYSTEM_ALLOCATOR], which keep
    counters only, are embedded apart, in the module [SystemAllocator].
    Profiling and printing calls have no effect on the heap and are left
    out.

    Numbers.  [static_compress_pointer_internal] casts pointers to
    [uint32_t]: the code is written for a 32-bit target, so [size_t],
    [uint32_t], [int] and pointers are 32 bits wide and their arithmetic
    wraps.  Pointers are addresses in [Z], between 0 and 2^32;
    [static_decompress_pointer_internal], which adds any 32-bit offset to
    the address of the area, wraps at 2^32: the end-of-list offset
    [0xffffffff] decompresses to the address one byte below the area.

    Context fields.  [jmem_heap_init_size_metrics] writes
    [jmem_allocated_heap_size] and [jmem_segment_allocator_metadata_size],
    which the static and the segmented back end of this file never read;
    they are part of the context of [SystemAllocator] only. *)

From Stdlib Require Import ZArith List Lia Bool.
Import ListNotations.
Local Open Scope Z_scope.

(** ** Machine integers *)

Definition WORD : Z := 4294967296.

(** [uint32_t] arithmetic: the result of [+], [-], [*] reduced modulo 2^32. *)
Definition u32 (z : Z) : Z := z mod WORD.

(** [size_t] arithmetic (32 bits on the target). *)
Definition size_t (z : Z) : Z := z mod WORD.

(** The cast [(int)] and [int] arithmetic, two's complement. *)
Definition int32 (z : Z) : Z := (z + 2147483648) mod WORD - 2147483648.

Definition NULL : Z := 0.

Definition UINT16_MAX : Z := 65535.

(** Pointer arithmetic of the 32-bit target: the sum reduced modulo 2^32. *)
Definition ptr32 (z : Z) : Z := z mod WORD.

(** ** Build configuration

    The constants and macros below are declared in headers that are not
    part of the file under study (jmem.h, jcontext.h, config.h,
    jmem-heap-segmented.h); they are parameters of the development. *)

Record config : Type := mkConfig {
  JMEM_ALIGNMENT : Z;
  JMEM_HEAP_AREA_SIZE : Z;
  JMEM_HEAP_SIZE : Z;
  CONFIG_MEM_HEAP_DESIRED_LIMIT : Z;
  JMEM_HEAP_END_OF_LIST : Z;
  JMEM_SEGMENTED_HEAP : bool;
  SEG_SEGMENT_SIZE : Z;
  SEG_NUM_SEGMENTS : Z;
  JMEM_GC_BEFORE_EACH_ALLOC : bool;
  JMEM_LAZY_GC : bool;
  JERRY_NDEBUG : bool;
  JERRY_CPOINTER_32_BIT : bool;
  JMEM_ALIGNMENT_LOG : Z;
  (** address of [JERRY_HEAP_CONTEXT(area)] *)
  area : Z;
  (** address of [JERRY_HEAP_CONTEXT(first)] *)
  first_p : Z
}.

(** ** Data model *)

(** Free region header, [jmem_heap_free_t]: two [uint32_t] fields. *)
Record jmem_heap_free_t : Type := mkFree {
  next_offset : Z;
  size : Z
}.

(** Memory, read and written one header at a time.  As long as the skip
    pointer is [&first] or a node of the free list, every address the
    allocator dereferences is [&first] or an aligned address of the area,
    and a header is no larger than the alignment granule, so two headers at
    different addresses never overlap.  A release of a static build that
    starts its search from any other skip pointer reads a header that
    overlaps others; such a read is outside what this memory describes, and
    no theorem on this memory is about it: the release is followed there on
    a memory of bytes ([ByteLevel], below). *)
Definition memory : Type := Z -> jmem_heap_free_t.

Definition set_size (m : memory) (p v : Z) : memory :=
  fun q => if q =? p then mkFree (next_offset (m q)) v else m q.

Definition set_next_offset (m : memory) (p v : Z) : memory :=
  fun q => if q =? p then mkFree v (size (m q)) else m q.

(** [jmem_heap_stats_t], the counters this file updates. *)
Record jmem_heap_stats_t : Type := mkStats {
  stat_size : Z;
  allocated_bytes : Z;
  peak_allocated_bytes : Z;
  waste_bytes : Z;
  peak_waste_bytes : Z;
  alloc_count : Z;
  free_count : Z;
  skip_count : Z;
  nonskip_count : Z;
  alloc_iter_count : Z;
  free_iter_count : Z
}.

(** The heap and the context fields the allocator owns.  [segments] holds
    [occupied_size] of each [jmem_segment_t] (a [uint32_t]). *)
Record heap : Type := mkHeap {
  mem : memory;
  jmem_heap_list_skip_p : Z;
  jmem_heap_blocks_size : Z;
  jmem_heap_allocated_blocks_count : Z;
  jmem_heap_limit : Z;
  segments : list Z;
  jmem_heap_stats : jmem_heap_stats_t
}.

Definition with_mem (st : heap) (m : memory) : heap :=
  mkHeap m (jmem_heap_list_skip_p st) (jmem_heap_blocks_size st)
         (jmem_heap_allocated_blocks_count st) (jmem_heap_limit st)
         (segments st) (jmem_heap_stats st).

Definition with_skip (st : heap) (p : Z) : heap :=
  mkHeap (mem st) p (jmem_heap_blocks_size st)
         (jmem_heap_allocated_blocks_count st) (jmem_heap_limit st)
         (segments st) (jmem_heap_stats st).

Definition with_blocks (st : heap) (bs cnt : Z) : heap :=
  mkHeap (mem st) (jmem_heap_list_skip_p st) bs cnt (jmem_heap_limit st)
         (segments st) (jmem_heap_stats st).

Definition with_limit (st : heap) (l : Z) : heap :=
  mkHeap (mem st) (jmem_heap_list_skip_p st) (jmem_heap_blocks_size st)
         (jmem_heap_allocated_blocks_count st) l
         (segments st) (jmem_heap_stats st).

Definition with_segments (st : heap) (s : list Z) : heap :=
  mkHeap (mem st) (jmem_heap_list_skip_p st) (jmem_heap_blocks_size st)
         (jmem_heap_allocated_blocks_count st) (jmem_heap_limit st)
         s (jmem_heap_stats st).

Definition with_stats (st : heap) (s : jmem_heap_stats_t) : heap :=
  mkHeap (mem st) (jmem_heap_list_skip_p st) (jmem_heap_blocks_size st)
         (jmem_heap_allocated_blocks_count st) (jmem_heap_limit st)
         (segments st) s.

(** ** Outcomes

    A loop of the source is a recursion on fuel; [Stuck OutOfFuel] stands for
    a loop that has not finished within the fuel given.  A failed
    [JERRY_ASSERT] of a debug build and an access outside the segment table
    stop the run as well. *)

Inductive fault : Type := OutOfFuel | AssertFailed | OutOfBounds.

Inductive res (A : Type) : Type :=
| Done (a : A)
| Stuck (f : fault).
Arguments Done {A} a.
Arguments Stuck {A} f.

Definition bind {A B : Type} (r : res A) (k : A -> res B) : res B :=
  match r with
  | Done a => k a
  | Stuck f => Stuck f
  end.

Notation "'do' x <- r ; k" := (bind r (fun x => k))
  (at level 10, x pattern, r at level 100, k at level 200).

Definition JERRY_ASSERT (ndebug : bool) (c : bool) : res unit :=
  if ndebug || c then Done tt else Stuck AssertFailed.

(** [jmem_free_unused_memory_severity_t] *)
Inductive jmem_free_unused_memory_severity_t : Type :=
| JMEM_FREE_UNUSED_MEMORY_SEVERITY_LOW
| JMEM_FREE_UNUSED_MEMORY_SEVERITY_HIGH.

(** [jerry_fatal_code_t], the one code this file raises. *)
Inductive jerry_fatal_code_t : Type := ERR_OUT_OF_MEMORY.

(** How a call of the public allocation entry ends: it returns a pointer
    (possibly [NULL]) or ends the process through [jerry_fatal]. *)
Inductive alloc_outcome : Type :=
| Returned (p : Z)
| Fatal (code : jerry_fatal_code_t).

(** Replace element [i] of the segment table. *)
Fixpoint list_set (l : list Z) (i : nat) (v : Z) : list Z :=
  match l, i with
  | [], _ => []
  | _ :: t, O => v :: t
  | h :: t, S i' => h :: list_set t i' v
  end.

Definition sum_list (l : list Z) : Z := fold_right Z.add 0 l.

(** ** The allocator *)

Section Allocator.

Variable cfg : config.

Local Abbreviation A := (JMEM_ALIGNMENT cfg).
Local Abbreviation END_OF_LIST := (JMEM_HEAP_END_OF_LIST cfg).
Local Abbreviation SEG := (SEG_SEGMENT_SIZE cfg).
Local Abbreviation LIMIT := (CONFIG_MEM_HEAP_DESIRED_LIMIT cfg).
Local Abbreviation first := (first_p cfg).

(** [static_compress_pointer_internal]; the segmented back end is modelled
    by its logical offsets, which compress and decompress the same way. *)
Definition JMEM_COMPRESS_POINTER_INTERNAL (p : Z) : Z := u32 (u32 p - u32 (area cfg)).

(** [static_decompress_pointer_internal]: the sum of a pointer and a
    [uint32_t] on the 32-bit target. *)
Definition JMEM_DECOMPRESS_POINTER_INTERNAL (cp : Z) : Z := ptr32 (area cfg + cp).

(** [jmem_heap_get_region_end]: again the sum of a pointer and a
    [uint32_t]. *)
Definition jmem_heap_get_region_end (m : memory) (curr_p : Z) : Z :=
  ptr32 (curr_p + size (m curr_p)).

(** The expression [(size + JMEM_ALIGNMENT - 1) / JMEM_ALIGNMENT *
    JMEM_ALIGNMENT], which the source writes out at every use. *)
Definition jmem_align (sz : Z) : Z := size_t (size_t (sz + A - 1) / A * A).

(** *** Statistics *)

Definition jmem_heap_stat_alloc (sz : Z) (s : jmem_heap_stats_t) : jmem_heap_stats_t :=
  let aligned_size := jmem_align sz in
  let waste := size_t (aligned_size - sz) in
  let allocated := size_t (allocated_bytes s + aligned_size) in
  let wasted := size_t (waste_bytes s + waste) in
  mkStats (stat_size s)
          allocated
          (if allocated >? peak_allocated_bytes s then allocated
           else peak_allocated_bytes s)
          wasted
          (if wasted >? peak_waste_bytes s then wasted else peak_waste_bytes s)
          (size_t (alloc_count s + 1))
          (free_count s) (skip_count s) (nonskip_count s)
          (alloc_iter_count s) (free_iter_count s).

Definition jmem_heap_stat_free (sz : Z) (s : jmem_heap_stats_t) : jmem_heap_stats_t :=
  let aligned_size := jmem_align sz in
  let waste := size_t (aligned_size - sz) in
  mkStats (stat_size s)
          (size_t (allocated_bytes s - aligned_size))
          (peak_allocated_bytes s)
          (size_t (waste_bytes s - waste))
          (peak_waste_bytes s)
          (alloc_count s)
          (size_t (free_count s + 1))
          (skip_count s) (nonskip_count s)
          (alloc_iter_count s) (free_iter_count s).

Definition jmem_heap_stat_skip (s : jmem_heap_stats_t) : jmem_heap_stats_t :=
  mkStats (stat_size s) (allocated_bytes s) (peak_allocated_bytes s)
          (waste_bytes s) (peak_waste_bytes s) (alloc_count s) (free_count s)
          (size_t (skip_count s + 1)) (nonskip_count s)
          (alloc_iter_count s) (free_iter_count s).

Definition jmem_heap_stat_nonskip (s : jmem_heap_stats_t) : jmem_heap_stats_t :=
  mkStats (stat_size s) (allocated_bytes s) (peak_allocated_bytes s)
          (waste_bytes s) (peak_waste_bytes s) (alloc_count s) (free_count s)
          (skip_count s) (size_t (nonskip_count s + 1))
          (alloc_iter_count s) (free_iter_count s).

Definition jmem_heap_stat_alloc_iter (s : jmem_heap_stats_t) : jmem_heap_stats_t :=
  mkStats (stat_size s) (allocated_bytes s) (peak_allocated_bytes s)
          (waste_bytes s) (peak_waste_bytes s) (alloc_count s) (free_count s)
          (skip_count s) (nonskip_count s)
          (size_t (alloc_iter_count s + 1)) (free_iter_count s).

Definition jmem_heap_stat_free_iter (s : jmem_heap_stats_t) : jmem_heap_stats_t :=
  mkStats (stat_size s) (allocated_bytes s) (peak_allocated_bytes s)
          (waste_bytes s) (peak_waste_bytes s) (alloc_count s) (free_count s)
          (skip_count s) (nonskip_count s)
          (alloc_iter_count s) (size_t (free_iter_count s + 1)).

Definition jmem_heap_stat_init (s : jmem_heap_stats_t) : jmem_heap_stats_t :=
  mkStats (JMEM_HEAP_AREA_SIZE cfg) (allocated_bytes s) (peak_allocated_bytes s)
          (waste_bytes s) (peak_waste_bytes s) (alloc_count s) (free_count s)
          (skip_count s) (nonskip_count s)
          (alloc_iter_count s) (free_iter_count s).

Definition on_stats (f : jmem_heap_stats_t -> jmem_heap_stats_t) (st : heap) : heap :=
  with_stats st (f (jmem_heap_stats st)).

(** *** Start-up *)

(** [jmem_heap_init_first_free_region] *)
Definition jmem_heap_init_first_free_region (st : heap) : heap :=
  let region_p :=
    if JMEM_SEGMENTED_HEAP cfg then area cfg + A else area cfg in
  let m1 :=
    set_size (mem st) region_p
             (if JMEM_SEGMENTED_HEAP cfg then u32 (SEG - A)
              else u32 (JMEM_HEAP_AREA_SIZE cfg)) in
  let m2 := set_next_offset m1 region_p END_OF_LIST in
  let m3 := set_size m2 first 0 in
  let m4 := set_next_offset m3 first (JMEM_COMPRESS_POINTER_INTERNAL region_p) in
  with_skip (with_mem st m4) first.

(** Modelled from the spec: [init_segmented_heap] is defined in
    jmem-heap-segmented.c; at start-up every segment has no occupied byte. *)
Definition init_segmented_heap (st : heap) : heap :=
  with_segments st (repeat 0 (Z.to_nat (SEG_NUM_SEGMENTS cfg))).

(** [jmem_heap_init], on the context [st] it is called with.  It writes
    the limit, the two headers, the skip pointer and the heap size of the
    statistics; [jmem_heap_blocks_size], [jmem_heap_allocated_blocks_count]
    and the other statistics are left as they are. *)
Definition jmem_heap_init (st : heap) : res heap :=
  do _ <- (if JERRY_CPOINTER_32_BIT cfg then Done tt
           else JERRY_ASSERT (JERRY_NDEBUG cfg)
                             (int32 (Z.shiftl (UINT16_MAX + 1) (JMEM_ALIGNMENT_LOG cfg))
                              >=? JMEM_HEAP_SIZE cfg));
  do _ <- JERRY_ASSERT (JERRY_NDEBUG cfg) (area cfg mod A =? 0);
  let st := if JMEM_SEGMENTED_HEAP cfg then init_segmented_heap st else st in
  let st := with_limit st LIMIT in
  let st := jmem_heap_init_first_free_region st in
  Done (on_stats jmem_heap_stat_init st).

(** *** Allocation

    [is_small_block] only matters under [JMEM_DYNAMIC_HEAP_EMUL]; the
    back ends embedded here pass it along unused ([JERRY_UNUSED]). *)

(** The occupancy walk of [jmem_heap_alloc_block_internal_slow]: the
    [while (size_to_alloc > 0)] loop over the segments a block touches. *)
Fixpoint alloc_occupancy_loop (fuel : nat) (size_to_alloc : Z)
         (block_end_offset fragment_start_offset : Z) (segs : list Z)
  : res (list Z) :=
  match fuel with
  | O => Stuck OutOfFuel
  | S fuel' =>
    if size_to_alloc >? 0 then
      let sidx := fragment_start_offset / SEG in
      let segment_end_offset := u32 ((sidx + 1) * SEG - A) in
      let fragment_end_offset :=
        if block_end_offset <? segment_end_offset then block_end_offset
        else segment_end_offset in
      let size_to_alloc_in_segment :=
        u32 (fragment_end_offset - fragment_start_offset + A) in
      match nth_error segs (Z.to_nat sidx) with
      | None => Stuck OutOfBounds
      | Some occupied_size =>
        alloc_occupancy_loop fuel'
          (int32 (size_to_alloc - int32 size_to_alloc_in_segment))
          block_end_offset
          (u32 (fragment_end_offset + A))
          (list_set segs (Z.to_nat sidx)
                    (u32 (occupied_size + size_to_alloc_in_segment)))
      end
    else Done segs
  end.

(** [jmem_heap_alloc_block_internal_fast] *)
Definition jmem_heap_alloc_block_internal_fast (is_small_block : bool)
           (st : heap) : res (Z * heap) :=
  let data_space_p :=
    JMEM_DECOMPRESS_POINTER_INTERNAL (next_offset (mem st first)) in
  let st := with_blocks st (size_t (jmem_heap_blocks_size st + A))
                        (size_t (jmem_heap_allocated_blocks_count st + 1)) in
  let block_offset := next_offset (mem st first) in
  do st <-
     (if JMEM_SEGMENTED_HEAP cfg then
        let sidx := block_offset / SEG in
        match nth_error (segments st) (Z.to_nat sidx) with
        | None => Stuck OutOfBounds
        | Some occupied_size =>
          Done (with_segments st (list_set (segments st) (Z.to_nat sidx)
                                           (u32 (occupied_size + A))))
        end
      else Done st);
  let st := on_stats jmem_heap_stat_alloc_iter st in
  let m := mem st in
  let m :=
    if size (m data_space_p) =? A then
      set_next_offset m first (next_offset (m data_space_p))
    else
      let remaining_offset := u32 (block_offset + A) in
      let remaining_p := JMEM_DECOMPRESS_POINTER_INTERNAL remaining_offset in
      let m := set_size m remaining_p (u32 (size (m data_space_p) - A)) in
      let m := set_next_offset m remaining_p (next_offset (m data_space_p)) in
      set_next_offset m first remaining_offset in
  let st := with_mem st m in
  let st :=
    if data_space_p =? jmem_heap_list_skip_p st then
      with_skip st (JMEM_DECOMPRESS_POINTER_INTERNAL (next_offset (mem st first)))
    else st in
  Done (data_space_p, st).

(** The statements under the comments "Region was larger than necessary."
    and "Block is an exact fit." of [jmem_heap_alloc_block_internal_slow]. *)
Definition slow_relink (m : memory)
           (required_size current_offset prev_p next_offset' : Z) : memory :=
  let current_p := JMEM_DECOMPRESS_POINTER_INTERNAL current_offset in
  if size (m current_p) >? required_size then
    let remaining_p := current_p + required_size in
    let m := set_size m remaining_p (u32 (size (m current_p) - u32 required_size)) in
    let m := set_next_offset m remaining_p next_offset' in
    if JMEM_SEGMENTED_HEAP cfg then
      set_next_offset m prev_p (u32 (current_offset + u32 required_size))
    else
      set_next_offset m prev_p (JMEM_COMPRESS_POINTER_INTERNAL remaining_p)
  else
    set_next_offset m prev_p next_offset'.

(** The body of the [if (current_p->size >= required_size)] branch of
    [jmem_heap_alloc_block_internal_slow]: the region at [current_offset]
    is taken. *)
Definition slow_take (fuel : nat) (required_size current_offset prev_p : Z)
           (st : heap) : res (Z * heap) :=
  let current_p := JMEM_DECOMPRESS_POINTER_INTERNAL current_offset in
  let next_offset' := next_offset (mem st current_p) in
  let data_space_p := current_p in
  let st := with_blocks st (size_t (jmem_heap_blocks_size st + required_size))
                        (size_t (jmem_heap_allocated_blocks_count st + 1)) in
  do st <-
     (if JMEM_SEGMENTED_HEAP cfg then
        let size_to_alloc := int32 required_size in
        let block_start_offset := current_offset in
        let block_end_offset := u32 (block_start_offset + u32 size_to_alloc - A) in
        do segs <- alloc_occupancy_loop fuel size_to_alloc block_end_offset
                                        block_start_offset (segments st);
        Done (with_segments st segs)
      else Done st);
  let m := slow_relink (mem st) required_size current_offset prev_p next_offset' in
  let st := with_skip (with_mem st m) prev_p in
  Done (data_space_p, st).

(** The list walk of [jmem_heap_alloc_block_internal_slow]:
    [while (current_offset != JMEM_HEAP_END_OF_LIST)]. *)
Fixpoint slow_loop (fuel : nat) (required_size current_offset prev_p : Z)
         (st : heap) : res (Z * heap) :=
  match fuel with
  | O => Stuck OutOfFuel
  | S fuel' =>
    if current_offset =? END_OF_LIST then Done (NULL, st)
    else
      let current_p := JMEM_DECOMPRESS_POINTER_INTERNAL current_offset in
      let st := on_stats jmem_heap_stat_alloc_iter st in
      let next_offset' := next_offset (mem st current_p) in
      if size (mem st current_p) >=? required_size then
        slow_take fuel' required_size current_offset prev_p st
      else
        slow_loop fuel' required_size next_offset' current_p st
  end.

(** [jmem_heap_alloc_block_internal_slow] *)
Definition jmem_heap_alloc_block_internal_slow (fuel : nat) (required_size : Z)
           (is_small_block : bool) (st : heap) : res (Z * heap) :=
  slow_loop fuel required_size (next_offset (mem st first)) first st.

(** The loop [while (jmem_heap_blocks_size >= jmem_heap_limit)] of
    [jmem_heap_alloc_block_internal]. *)
Fixpoint raise_limit (fuel : nat) (blocks_size limit : Z) : res Z :=
  match fuel with
  | O => Stuck OutOfFuel
  | S fuel' =>
    if blocks_size >=? limit then
      raise_limit fuel' blocks_size (size_t (limit + LIMIT))
    else Done limit
  end.

(** The end of [jmem_heap_alloc_block_internal], after the fast or the
    slow path has produced [data_space_p]: the limit is raised, and a
    successful allocation is counted in the statistics. *)
Definition alloc_finish (fuel : nat) (sz : Z) (r : Z * heap) : res (Z * heap) :=
  let '(data_space_p, st) := r in
  do limit <- raise_limit fuel (jmem_heap_blocks_size st) (jmem_heap_limit st);
  let st := with_limit st limit in
  if data_space_p =? NULL then Done (NULL, st)
  else
    let st := on_stats (jmem_heap_stat_alloc sz) st in
    Done (data_space_p, st).

(** [jmem_heap_alloc_block_internal] *)
Definition jmem_heap_alloc_block_internal (fuel : nat) (sz : Z)
           (is_small_block : bool) (st : heap) : res (Z * heap) :=
  let required_size := jmem_align sz in
  do r <-
     (if (required_size =? A)
           && negb (next_offset (mem st first) =? END_OF_LIST) then
        jmem_heap_alloc_block_internal_fast is_small_block st
      else
        jmem_heap_alloc_block_internal_slow fuel required_size is_small_block st);
  alloc_finish fuel sz r.

(** *** Release *)

(** [jmem_is_heap_pointer] (debug builds only) *)
Definition jmem_is_heap_pointer (pointer : Z) : bool :=
  if JMEM_SEGMENTED_HEAP cfg then negb (pointer =? NULL)
  else (pointer >=? area cfg)
         && (pointer <=? area cfg + JMEM_HEAP_AREA_SIZE cfg).

(** The loop [while (prev_p->next_offset < block_offset)] of
    [jmem_heap_free_block_internal]. *)
Fixpoint free_find_prev (fuel : nat) (block_offset prev_p : Z) (st : heap)
  : res (Z * heap) :=
  match fuel with
  | O => Stuck OutOfFuel
  | S fuel' =>
    if next_offset (mem st prev_p) <? block_offset then
      let next_cp := next_offset (mem st prev_p) in
      let next_p := JMEM_DECOMPRESS_POINTER_INTERNAL next_cp in
      free_find_prev fuel' block_offset next_p
                     (on_stats jmem_heap_stat_free_iter st)
    else Done (prev_p, st)
  end.

(** The occupancy walk of [jmem_heap_free_block_internal]: the
    [while (size_to_free > 0)] loop. *)
Fixpoint free_occupancy_loop (fuel : nat) (size_to_free : Z)
         (block_end_offset fragment_start_offset : Z) (segs : list Z)
  : res (list Z) :=
  match fuel with
  | O => Stuck OutOfFuel
  | S fuel' =>
    if size_to_free >? 0 then
      let sidx := fragment_start_offset / SEG in
      let segment_end_offset := u32 ((sidx + 1) * SEG - A) in
      let fragment_end_offset :=
        if block_end_offset <? segment_end_offset then block_end_offset
        else segment_end_offset in
      let size_to_free_in_segment :=
        u32 (fragment_end_offset - fragment_start_offset + A) in
      match nth_error segs (Z.to_nat sidx) with
      | None => Stuck OutOfBounds
      | Some occupied_size =>
        free_occupancy_loop fuel'
          (int32 (size_to_free - int32 size_to_free_in_segment))
          block_end_offset
          (u32 (fragment_end_offset + A))
          (list_set segs (Z.to_nat sidx)
                    (u32 (occupied_size - size_to_free_in_segment)))
      end
    else Done segs
  end.

(** The loop [while (jmem_heap_blocks_size + CONFIG_MEM_HEAP_DESIRED_LIMIT
    <= jmem_heap_limit)] of [jmem_heap_free_block_internal]. *)
Fixpoint lower_limit (fuel : nat) (blocks_size limit : Z) : res Z :=
  match fuel with
  | O => Stuck OutOfFuel
  | S fuel' =>
    if size_t (blocks_size + LIMIT) <=? limit then
      lower_limit fuel' blocks_size (size_t (limit - LIMIT))
    else Done limit
  end.

(** The statement under the comment "Update prev." of
    [jmem_heap_free_block_internal]; it yields the memory and the new
    [block_p]. *)
Definition free_update_prev (m : memory)
           (prev_p block_p block_offset aligned_size : Z) : memory * Z :=
  if jmem_heap_get_region_end m prev_p =? block_p then
    (set_size m prev_p (u32 (size (m prev_p) + u32 aligned_size)), prev_p)
  else
    let m := set_size m block_p (u32 aligned_size) in
    (set_next_offset m prev_p block_offset, block_p).

(** The statement under the comment "Update next." *)
Definition free_update_next (m : memory) (block_p next_p next_cp : Z) : memory :=
  if jmem_heap_get_region_end m block_p =? next_p then
    let m := set_size m block_p (u32 (size (m block_p) + size (m next_p))) in
    set_next_offset m block_p (next_offset (m next_p))
  else set_next_offset m block_p next_cp.

(** The choice of the node the search of the release starts from: the
    statements from [is_skip_ok] to the end of the [if (is_skip_ok)]
    of [jmem_heap_free_block_internal].  It yields [prev_p]. *)
Definition free_search_start (block_p : Z) (st : heap) : Z * heap :=
  let is_skip_ok :=
    if JMEM_SEGMENTED_HEAP cfg then
      JMEM_COMPRESS_POINTER_INTERNAL block_p
        >? JMEM_COMPRESS_POINTER_INTERNAL (jmem_heap_list_skip_p st)
    else block_p >? jmem_heap_list_skip_p st in
  if is_skip_ok then
    (jmem_heap_list_skip_p st, on_stats jmem_heap_stat_skip st)
  else (first, on_stats jmem_heap_stat_nonskip st).

(** [jmem_heap_free_block_internal] *)
Definition jmem_heap_free_block_internal (fuel : nat) (ptr sz : Z)
           (is_small_object : bool) (st : heap) : res heap :=
  do _ <- JERRY_ASSERT (JERRY_NDEBUG cfg) (jmem_is_heap_pointer ptr);
  do _ <- JERRY_ASSERT (JERRY_NDEBUG cfg) (sz >? 0);
  do _ <- JERRY_ASSERT (JERRY_NDEBUG cfg)
                       (jmem_heap_limit st >=? jmem_heap_blocks_size st);
  let st := on_stats jmem_heap_stat_free_iter st in
  let block_p := ptr in
  let '(prev_p, st) := free_search_start block_p st in
  let block_offset := JMEM_COMPRESS_POINTER_INTERNAL block_p in
  do r <- free_find_prev fuel block_offset prev_p st;
  let '(prev_p, st) := r in
  let next_cp := next_offset (mem st prev_p) in
  let next_p := JMEM_DECOMPRESS_POINTER_INTERNAL next_cp in
  let aligned_size := jmem_align sz in
  let '(m, block_p) :=
    free_update_prev (mem st) prev_p block_p block_offset aligned_size in
  let m := free_update_next m block_p next_p next_cp in
  let st := with_skip (with_mem st m) prev_p in
  do st <-
     (if JMEM_SEGMENTED_HEAP cfg then
        let size_to_free := int32 aligned_size in
        let block_start_offset := block_offset in
        let block_end_offset := u32 (block_start_offset + u32 size_to_free - A) in
        do segs <- free_occupancy_loop fuel size_to_free block_end_offset
                                       block_start_offset (segments st);
        Done (with_segments st segs)
      else Done st);
  let st := with_blocks st (size_t (jmem_heap_blocks_size st - aligned_size))
                        (size_t (jmem_heap_allocated_blocks_count st - 1)) in
  do limit <- lower_limit fuel (jmem_heap_blocks_size st) (jmem_heap_limit st);
  let st := with_limit st limit in
  Done (on_stats (jmem_heap_stat_free sz) st).

(** [jmem_heap_free_block] *)
Definition jmem_heap_free_block (fuel : nat) (ptr sz : Z) (st : heap) : res heap :=
  jmem_heap_free_block_internal fuel ptr sz false st.

(** [jmem_heap_free_block_small_object] *)
Definition jmem_heap_free_block_small_object (fuel : nat) (ptr sz : Z) (st : heap)
  : res heap :=
  jmem_heap_free_block_internal fuel ptr sz true st.

(** *** The GC-and-allocate ladder

    [jmem_run_free_unused_memory_callbacks] (jmem-allocator.c) runs the
    registered callback, which may release blocks; [alloc_a_segment_group]
    (jmem-heap-segmented.c) attaches segments and returns [NULL] when it
    cannot.  Both are outside this file and are parameters here.  The
    severities the callback was run with are recorded, in order, next to
    the heap. *)

Section Ladder.

Variable jmem_run_free_unused_memory_callbacks :
  jmem_free_unused_memory_severity_t -> heap -> heap.
Variable alloc_a_segment_group : Z -> heap -> Z * heap.

Definition gc_trace : Type := list jmem_free_unused_memory_severity_t.

Definition run_gc (severity : jmem_free_unused_memory_severity_t)
           (w : heap * gc_trace) : heap * gc_trace :=
  (jmem_run_free_unused_memory_callbacks severity (fst w), snd w ++ [severity]).

(** The block [if (alloc_a_segment_group(size) != NULL) { ...; return
    data_space_p; }], present in segmented builds: [Some p] when the
    function returns [p] from inside it. *)
Definition segment_group_retry (fuel : nat) (sz : Z) (is_small_block : bool)
           (st : heap) : res (option Z * heap) :=
  if JMEM_SEGMENTED_HEAP cfg then
    let '(group, st) := alloc_a_segment_group sz st in
    if negb (group =? NULL) then
      do r <- jmem_heap_alloc_block_internal fuel sz is_small_block st;
      let '(data_space_p, st) := r in
      Done (Some data_space_p, st)
    else Done (None, st)
  else Done (None, st).

(** The loop [for (severity = LOW; severity <= HIGH; severity + 1)]:
    [Some p] when an attempt succeeds and the function returns [p]. *)
Fixpoint gc_retry (severities : gc_trace) (fuel : nat) (sz : Z)
         (is_small_block : bool) (w : heap * gc_trace)
  : res (option Z * (heap * gc_trace)) :=
  match severities with
  | [] => Done (None, w)
  | severity :: rest =>
    let w := run_gc severity w in
    do r <- jmem_heap_alloc_block_internal fuel sz is_small_block (fst w);
    let '(data_space_p, st) := r in
    if negb (data_space_p =? NULL) then Done (Some data_space_p, (st, snd w))
    else gc_retry rest fuel sz is_small_block (st, snd w)
  end.

(** [jmem_heap_gc_and_alloc_block] *)
Definition jmem_heap_gc_and_alloc_block (fuel : nat) (required_size : Z)
           (ret_null_on_error is_small_block : bool) (st : heap)
  : res (alloc_outcome * (heap * gc_trace)) :=
  if required_size =? 0 then Done (Returned NULL, (st, []))
  else
    let sz := jmem_align required_size in
    let w := (st, []) in
    let w :=
      if JMEM_GC_BEFORE_EACH_ALLOC cfg then
        run_gc JMEM_FREE_UNUSED_MEMORY_SEVERITY_HIGH w
      else w in
    let allocated_size := size_t (jmem_heap_blocks_size (fst w) + sz) in
    let w :=
      if (if JMEM_LAZY_GC cfg then allocated_size >? JMEM_HEAP_SIZE cfg
          else allocated_size >? jmem_heap_limit (fst w)) then
        run_gc JMEM_FREE_UNUSED_MEMORY_SEVERITY_LOW w
      else w in
    do r <- jmem_heap_alloc_block_internal fuel sz is_small_block (fst w);
    let '(data_space_p, st) := r in
    if negb (data_space_p =? NULL) then Done (Returned data_space_p, (st, snd w))
    else
      do r <- segment_group_retry fuel sz is_small_block st;
      match r with
      | (Some p, st) => Done (Returned p, (st, snd w))
      | (None, st) =>
        do r <- gc_retry [JMEM_FREE_UNUSED_MEMORY_SEVERITY_LOW;
                          JMEM_FREE_UNUSED_MEMORY_SEVERITY_HIGH]
                         fuel sz is_small_block (st, snd w);
        match r with
        | (Some p, w) => Done (Returned p, w)
        | (None, w) =>
          do r <- segment_group_retry fuel sz is_small_block (fst w);
          match r with
          | (Some p, st) => Done (Returned p, (st, snd w))
          | (None, st) =>
            if negb ret_null_on_error then Done (Fatal ERR_OUT_OF_MEMORY, (st, snd w))
            else Done (Returned NULL, (st, snd w))
          end
        end
      end.

(** [jmem_heap_alloc_block] *)
Definition jmem_heap_alloc_block (fuel : nat) (sz : Z) (st : heap) :=
  jmem_heap_gc_and_alloc_block fuel sz false false st.

(** [jmem_heap_alloc_block_null_on_error] *)
Definition jmem_heap_alloc_block_null_on_error (fuel : nat) (sz : Z) (st : heap) :=
  jmem_heap_gc_and_alloc_block fuel sz true false st.

(** [jmem_heap_alloc_block_small_object] *)
Definition jmem_heap_alloc_block_small_object (fuel : nat) (sz : Z) (st : heap) :=
  jmem_heap_gc_and_alloc_block fuel sz false true st.

End Ladder.

(** ** Specification vocabulary *)

(** The logical size of the heap: the static area, or all segments. *)
Definition heap_size : Z :=
  if JMEM_SEGMENTED_HEAP cfg then SEG * SEG_NUM_SEGMENTS cfg
  else JMEM_HEAP_AREA_SIZE cfg.

(** A free region, as (offset, size); [node r] is the address of its header. *)
Definition region : Type := (Z * Z)%type.

Definition node (r : region) : Z := area cfg + fst r.

(** [lseg m cp l e]: starting from the compressed pointer [cp], the headers
    in [m] link the regions [l], in this order, and the last link is [e]. *)
Fixpoint lseg (m : memory) (cp : Z) (l : list region) (e : Z) : Prop :=
  match l with
  | [] => cp = e
  | r :: t =>
    cp = fst r /\ size (m (node r)) = snd r
    /\ lseg m (next_offset (m (node r))) t e
  end.

(** The free list of a heap: what hangs off [first]. *)
Definition free_list (st : heap) (l : list region) : Prop :=
  lseg (mem st) (next_offset (mem st first)) l END_OF_LIST.

Definition region_ok (r : region) : Prop :=
  0 <= fst r /\ 0 < snd r /\ fst r + snd r <= heap_size.

(** Strictly ascending, and no region ends where the next begins. *)
Fixpoint gaps (l : list region) : Prop :=
  match l with
  | r1 :: t =>
    match t with
    | r2 :: _ => fst r1 + snd r1 < fst r2 /\ gaps t
    | [] => True
    end
  | [] => True
  end.

Definition regions_ok (l : list region) : Prop :=
  Forall region_ok l /\ gaps l.

(** Byte [x] of the heap lies in a free region. *)
Definition covers (l : list region) (x : Z) : Prop :=
  Exists (fun r => fst r <= x < fst r + snd r) l.

(** The skip pointer is the sentinel, a node of the list, or the value
    the fast path leaves when it empties the list. *)
Definition skip_ok (st : heap) (l : list region) : Prop :=
  jmem_heap_list_skip_p st = first
  \/ jmem_heap_list_skip_p st = JMEM_DECOMPRESS_POINTER_INTERNAL END_OF_LIST
  \/ exists r, In r l /\ jmem_heap_list_skip_p st = node r.

(** The skip pointer as the spec wants it: the sentinel or a node. *)
Definition skip_valid (st : heap) (l : list region) : Prop :=
  jmem_heap_list_skip_p st = first
  \/ exists r, In r l /\ jmem_heap_list_skip_p st = node r.

(** What the release needs of the skip pointer.  A static build compares
    addresses ([block_p > jmem_heap_list_skip_p]) and then reads the header
    the skip pointer refers to: the skip pointer has to be the sentinel or a
    node.  A segmented build compares offsets, and every skip pointer that
    [skip_ok] admits will do: the value the fast path leaves when it empties
    the list compresses to the end-of-list offset, above every block, so
    the search starts from the sentinel. *)
Definition skip_usable (st : heap) (l : list region) : Prop :=
  JMEM_SEGMENTED_HEAP cfg = false -> skip_valid st l.

Definition counters_ok (st : heap) : Prop :=
  0 <= jmem_heap_blocks_size st <= heap_size
  /\ jmem_heap_blocks_size st <= jmem_heap_limit st < WORD.

(** What the operations keep true between calls. *)
Definition heap_inv (st : heap) (l : list region) : Prop :=
  free_list st l /\ regions_ok l /\ size (mem st first) = 0
  /\ skip_ok st l /\ counters_ok st
  /\ (JMEM_SEGMENTED_HEAP cfg = true ->
      length (segments st) = Z.to_nat (SEG_NUM_SEGMENTS cfg)).

(** The regions below, and from, offset [bo]. *)
Fixpoint before (bo : Z) (l : list region) : list region :=
  match l with
  | r :: t => if fst r <? bo then r :: before bo t else []
  | [] => []
  end.

Fixpoint after (bo : Z) (l : list region) : list region :=
  match l with
  | r :: t => if fst r <? bo then after bo t else l
  | [] => []
  end.

(** The address the search of the release stops at, starting from the
    node at [p] and passing the regions [l]. *)
Fixpoint walk_end (p : Z) (l : list region) : Z :=
  match l with
  | r :: t => walk_end (node r) t
  | [] => p
  end.

(** First fit: the first region of the list that holds [need] bytes. *)
Definition first_fit (need : Z) (l : list region) : option region :=
  find (fun r => need <=? snd r) l.

(** Offsets and sizes are multiples of the alignment. *)
Definition aligned_regions (l : list region) : Prop :=
  Forall (fun r => fst r mod A = 0 /\ snd r mod A = 0) l.

(** Header addresses strictly ascending, all above [p]. *)
Fixpoint ascending_from (p : Z) (l : list region) : Prop :=
  match l with
  | r :: t => p < node r /\ ascending_from (node r) t
  | [] => True
  end.

(** The release as the specification words it (section 4.2, steps 4 and
    5).  Step 4: the block joins the predecessor iff the predecessor ends
    at the block, else it becomes a region of its own. *)
Definition merge_prev (l1 : list region) (bo n : Z) : list region * region :=
  match rev l1 with
  | p :: r1 =>
    if fst p + snd p =? bo then (rev r1, (fst p, snd p + n))
    else (l1, (bo, n))
  | [] => (l1, (bo, n))
  end.

(** Step 5: the merged region absorbs the successor iff it ends there. *)
Definition merge_next (b : region) (l2 : list region) : list region :=
  match l2 with
  | nx :: t =>
    if fst b + snd b =? fst nx then (fst b, snd b + snd nx) :: t
    else b :: l2
  | [] => [b]
  end.

Definition coalesce (bo n : Z) (l : list region) : list region :=
  let '(l1, b) := merge_prev (before bo l) bo n in
  l1 ++ merge_next b (after bo l).

(** A block [(ptr, sz)] that may be released: it lies in the heap, its
    size is positive and does not overflow the alignment, it is counted in
    [jmem_heap_blocks_size] and it shares no byte with a free region. *)
Definition block_offset_of (ptr : Z) : Z := ptr - area cfg.

Definition releasable (l : list region) (bs : Z) (b : Z * Z) : Prop :=
  let bo := block_offset_of (fst b) in
  let n := jmem_align (snd b) in
  0 < snd b /\ snd b + A - 1 < WORD
  /\ 0 <= bo /\ bo + n <= heap_size
  /\ n <= bs
  /\ Forall (fun r => fst r + snd r <= bo \/ bo + n <= fst r) l.

(** The span of a block, as (offset, aligned size). *)
Definition block_span (b : Z * Z) : region :=
  (block_offset_of (fst b), jmem_align (snd b)).

Definition in_span (r : region) (x : Z) : Prop := fst r <= x < fst r + snd r.

Definition apart (r1 r2 : region) : Prop :=
  fst r1 + snd r1 <= fst r2 \/ fst r2 + snd r2 <= fst r1.

(** Blocks that are allocated: each lies in the heap and shares no byte
    with a free region, no two of them share a byte, and all are counted
    in [jmem_heap_blocks_size]. *)
Definition live_blocks (l : list region) (bs : Z) (blocks : list (Z * Z)) : Prop :=
  Forall (fun b =>
            0 < snd b /\ snd b + A - 1 < WORD
            /\ 0 <= fst (block_span b)
            /\ fst (block_span b) + snd (block_span b) <= heap_size
            /\ Forall (apart (block_span b)) l) blocks
  /\ ForallOrdPairs (fun b1 b2 => apart (block_span b1) (block_span b2)) blocks
  /\ sum_list (map (fun b => snd (block_span b)) blocks) <= bs.

(** The same, byte by byte. *)
Definition live_bytes (l : list region) (bs : Z) (blocks : list (Z * Z)) : Prop :=
  Forall (fun b =>
            0 < snd b /\ snd b + A - 1 < WORD
            /\ 0 <= fst (block_span b)
            /\ fst (block_span b) + snd (block_span b) <= heap_size
            /\ forall x, in_span (block_span b) x -> ~ covers l x) blocks
  /\ ForallOrdPairs
       (fun b1 b2 => forall x, in_span (block_span b1) x ->
                               ~ in_span (block_span b2) x) blocks
  /\ sum_list (map (fun b => snd (block_span b)) blocks) <= bs.

(** The free list after releasing the blocks one after the other, each
    release coalescing as the specification says. *)
Definition coalesce_all (l : list region) (blocks : list (Z * Z)) : list region :=
  fold_left (fun l b => coalesce (fst (block_span b)) (snd (block_span b)) l)
            blocks l.

(** Releasing the blocks of a list, first to last. *)
Fixpoint free_blocks (fuel : nat) (blocks : list (Z * Z)) (st : heap) : res heap :=
  match blocks with
  | [] => Done st
  | b :: rest =>
    do st <- jmem_heap_free_block fuel (fst b) (snd b) st;
    free_blocks fuel rest st
  end.

(** The two occupancy walks of the source, written once: [op] is [+] on
    allocation and [-] on release. *)
Fixpoint occupancy_walk (op : Z -> Z -> Z) (fuel : nat) (size_left : Z)
         (block_end_offset fragment_start_offset : Z) (segs : list Z)
  : res (list Z) :=
  match fuel with
  | O => Stuck OutOfFuel
  | S fuel' =>
    if size_left >? 0 then
      let sidx := fragment_start_offset / SEG in
      let segment_end_offset := u32 ((sidx + 1) * SEG - A) in
      let fragment_end_offset :=
        if block_end_offset <? segment_end_offset then block_end_offset
        else segment_end_offset in
      let size_in_segment :=
        u32 (fragment_end_offset - fragment_start_offset + A) in
      match nth_error segs (Z.to_nat sidx) with
      | None => Stuck OutOfBounds
      | Some occupied_size =>
        occupancy_walk op fuel'
          (int32 (size_left - int32 size_in_segment))
          block_end_offset
          (u32 (fragment_end_offset + A))
          (list_set segs (Z.to_nat sidx)
                    (u32 (op occupied_size size_in_segment)))
      end
    else Done segs
  end.

(** The bytes of segment [i] inside the block [[start, start + n)]. *)
Definition seg_share (start n i : Z) : Z :=
  Z.max 0 (Z.min (start + n) ((i + 1) * SEG) - Z.max start (i * SEG)).

(** A heap that differs from [st] in the statistics and in a limit that
    stays at or above the block size: what failed allocations leave. *)
Definition retried (st s : heap) : Prop :=
  exists stats lim, s = with_limit (with_stats st stats) lim
                    /\ jmem_heap_blocks_size st <= lim < WORD.


(** The test of [jmem_heap_gc_and_alloc_block] that runs the callback at
    LOW before the first attempt: the block size with the aligned request
    exceeds the limit (the heap size, under [JMEM_LAZY_GC]). *)
Definition over_budget (need : Z) (st : heap) : bool :=
  let allocated_size := size_t (jmem_heap_blocks_size st + need) in
  if JMEM_LAZY_GC cfg then allocated_size >? JMEM_HEAP_SIZE cfg
  else allocated_size >? jmem_heap_limit st.

(** *** The heap in use

    Vocabulary for sequences of allocations and releases. *)

(** The bytes on the free list. *)
Definition free_bytes (l : list region) : Z := sum_list (map snd l).

(** What is left of a region once its first [need] bytes are taken. *)
Definition carve (need : Z) (r : region) : list region :=
  if snd r =? need then [] else [(fst r + need, snd r - need)].

(** The free list after [need] bytes are cut from the first region that
    holds them. *)
Fixpoint allocate_from (need : Z) (l : list region) : list region :=
  match l with
  | [] => []
  | r :: t =>
    if need <=? snd r then carve need r ++ t else r :: allocate_from need t
  end.

(** The bytes of a list of blocks, each counted with its aligned size. *)
Definition live_size (blocks : list (Z * Z)) : Z :=
  sum_list (map (fun b => snd (block_span b)) blocks).

(** What a user of the heap can rely on between calls: the invariant, with
    a skip pointer that may be the one the fast path leaves; aligned
    regions; the blocks in use, which share no byte with each other or with
    a free region; and every byte of the heap either in a block in use or
    on the free list. *)
Definition heap_in_use (st : heap) (l : list region) (live : list (Z * Z)) : Prop :=
  heap_inv st l /\ aligned_regions l
  /\ live_blocks l (jmem_heap_blocks_size st) live
  /\ Forall (fun b => fst (block_span b) mod A = 0) live
  /\ jmem_heap_blocks_size st = live_size live
  /\ jmem_heap_blocks_size st + free_bytes l = heap_size.

(** The heaps that calls of [jmem_heap_alloc_block_internal] and
    [jmem_heap_free_block_internal] reach from [jmem_heap_init], when the
    context [jmem_heap_init] starts from counts no block, every allocation
    asks for a positive size whose rounding does not overflow, every
    release gives back a block that an allocation returned, with the size
    that was asked for, and finds a skip pointer it can use, and every call
    has the fuel to finish.  The list of free regions and the blocks in use
    are carried along. *)
Inductive reachable : heap -> list region -> list (Z * Z) -> Prop :=
| reach_init (ctx st : heap) :
    jmem_heap_init ctx = Done st ->
    jmem_heap_blocks_size ctx = 0 ->
    reachable st [(0, JMEM_HEAP_AREA_SIZE cfg)] []
| reach_alloc (st : heap) (l : list region) (live : list (Z * Z))
              (fuel : nat) (sz : Z) (small : bool) (p : Z) (st' : heap) :
    reachable st l live ->
    0 < sz -> sz + A - 1 < WORD ->
    (length l + Z.to_nat (2 * heap_size + 1) < fuel)%nat ->
    jmem_heap_alloc_block_internal fuel sz small st = Done (p, st') ->
    p <> NULL ->
    reachable st' (allocate_from (jmem_align sz) l) ((p, sz) :: live)
| reach_alloc_null (st : heap) (l : list region) (live : list (Z * Z))
                   (fuel : nat) (sz : Z) (small : bool) (st' : heap) :
    reachable st l live ->
    0 < sz -> sz + A - 1 < WORD ->
    (length l + Z.to_nat (2 * heap_size + 1) < fuel)%nat ->
    jmem_heap_alloc_block_internal fuel sz small st = Done (NULL, st') ->
    reachable st' l live
| reach_free (st : heap) (l : list region) (la : list (Z * Z)) (b : Z * Z)
             (lb : list (Z * Z)) (fuel : nat) (small : bool) (st' : heap) :
    reachable st l (la ++ b :: lb) ->
    skip_usable st l ->
    (length l + Z.to_nat (jmem_heap_limit st) + Z.to_nat heap_size < fuel)%nat ->
    jmem_heap_free_block_internal fuel (fst b) (snd b) small st = Done st' ->
    reachable st' (coalesce (fst (block_span b)) (snd (block_span b)) l) (la ++ lb).

(** *** Shut-down

    [free_empty_segment_groups] and [free_initial_segment_group]
    (jmem-heap-segmented.c) are outside this file: [free_segment_groups]
    stands for the two calls and yields the heap they leave and the value
    of [segments_count] that the assertion reads. *)

Section Finalize.

Variable free_segment_groups : heap -> heap * Z.

(** [jmem_heap_finalize] *)
Definition jmem_heap_finalize (st : heap) : res heap :=
  do st <-
     (if JMEM_SEGMENTED_HEAP cfg then
        let '(st, segments_count) := free_segment_groups st in
        do _ <- JERRY_ASSERT (JERRY_NDEBUG cfg) (segments_count =? 0);
        Done st
      else Done st);
  do _ <- JERRY_ASSERT (JERRY_NDEBUG cfg) (jmem_heap_blocks_size st =? 0);
  Done st.

End Finalize.

(** *** Checks that compute

    Boolean forms of the invariant and of the conditions on blocks, for
    concrete heaps. *)

Fixpoint lsegb (m : memory) (cp : Z) (l : list region) (e : Z) : bool :=
  match l with
  | [] => cp =? e
  | r :: t =>
    (cp =? fst r) && (size (m (node r)) =? snd r)
    && lsegb m (next_offset (m (node r))) t e
  end.

Definition region_okb (r : region) : bool :=
  (0 <=? fst r) && (0 <? snd r) && (fst r + snd r <=? heap_size).

Fixpoint gapsb (l : list region) : bool :=
  match l with
  | r1 :: t =>
    match t with
    | r2 :: _ => (fst r1 + snd r1 <? fst r2) && gapsb t
    | [] => true
    end
  | [] => true
  end.

Definition skip_okb (st : heap) (l : list region) : bool :=
  (jmem_heap_list_skip_p st =? first)
  || (jmem_heap_list_skip_p st =? JMEM_DECOMPRESS_POINTER_INTERNAL END_OF_LIST)
  || existsb (fun r => jmem_heap_list_skip_p st =? node r) l.

Definition skip_validb (st : heap) (l : list region) : bool :=
  (jmem_heap_list_skip_p st =? first)
  || existsb (fun r => jmem_heap_list_skip_p st =? node r) l.

Definition counters_okb (st : heap) : bool :=
  (0 <=? jmem_heap_blocks_size st) && (jmem_heap_blocks_size st <=? heap_size)
  && (jmem_heap_blocks_size st <=? jmem_heap_limit st)
  && (jmem_heap_limit st <? WORD).

Definition heap_invb (st : heap) (l : list region) : bool :=
  lsegb (mem st) (next_offset (mem st first)) l END_OF_LIST
  && forallb region_okb l && gapsb l
  && (size (mem st first) =? 0)
  && skip_okb st l && counters_okb st
  && (if JMEM_SEGMENTED_HEAP cfg
      then Nat.eqb (length (segments st)) (Z.to_nat (SEG_NUM_SEGMENTS cfg))
      else true).

Definition aligned_regionsb (l : list region) : bool :=
  forallb (fun r => (fst r mod A =? 0) && (snd r mod A =? 0)) l.

Definition apartb (r1 r2 : region) : bool :=
  (fst r1 + snd r1 <=? fst r2) || (fst r2 + snd r2 <=? fst r1).

Definition block_okb (l : list region) (b : Z * Z) : bool :=
  (0 <? snd b) && (snd b + A - 1 <? WORD)
  && (0 <=? fst (block_span b))
  && (fst (block_span b) + snd (block_span b) <=? heap_size)
  && forallb (apartb (block_span b)) l.

Fixpoint pairwise_apartb (blocks : list (Z * Z)) : bool :=
  match blocks with
  | [] => true
  | b :: t =>
    forallb (fun c => apartb (block_span b) (block_span c)) t && pairwise_apartb t
  end.

Definition live_blocksb (l : list region) (bs : Z) (blocks : list (Z * Z)) : bool :=
  forallb (block_okb l) blocks && pairwise_apartb blocks
  && (sum_list (map (fun b => snd (block_span b)) blocks) <=? bs).

(** The build is consistent. *)
Record config_ok : Prop := mkConfigOk {
  ok_align : 0 < A;
  ok_granule : A <= heap_size;
  ok_heap : 0 < heap_size;
  ok_limit : 0 < LIMIT;
  ok_small : heap_size + LIMIT < 2147483648;
  ok_end : heap_size < END_OF_LIST < WORD;
  ok_first : 0 < first < area cfg;
  ok_area : area cfg + heap_size < WORD;
  ok_seg : JMEM_SEGMENTED_HEAP cfg = true ->
           0 < SEG /\ SEG mod A = 0 /\ 0 <= SEG_NUM_SEGMENTS cfg
}.

End Allocator.

(** ** The system allocator back end

    Under [JERRY_SYSTEM_ALLOCATOR] the free list is not used: blocks come
    from [malloc], and the file only keeps four counters of the context.
    [malloc] and [free] and the constants [SYSTEM_ALLOCATOR_METADATA_SIZE]
    and [SYSTEM_ALLOCATOR_ALIGN_BYTES] are declared outside the file and
    are parameters; [free] does not touch the counters. *)

Module SystemAllocator.

Record context : Type := mkContext {
  jmem_heap_blocks_size : Z;
  jmem_allocated_heap_size : Z;
  jmem_system_allocator_metadata_size : Z;
  jmem_heap_allocated_blocks_count : Z
}.

Section Calls.

Variable SYSTEM_ALLOCATOR_METADATA_SIZE : Z.
Variable SYSTEM_ALLOCATOR_ALIGN_BYTES : Z.
Variable malloc : Z -> Z.

(** The two statements that compute [aligned_size], the same in the
    allocation and in the release. *)
Definition aligned_size_of (sz : Z) : Z :=
  let aligned_size := size_t (sz + SYSTEM_ALLOCATOR_METADATA_SIZE) in
  size_t (size_t (aligned_size + SYSTEM_ALLOCATOR_ALIGN_BYTES - 1)
          / SYSTEM_ALLOCATOR_ALIGN_BYTES * SYSTEM_ALLOCATOR_ALIGN_BYTES).

(** [jmem_heap_alloc_block_internal_dynamic_real] *)
Definition jmem_heap_alloc_block_internal_dynamic_real (sz : Z)
           (is_small_block : bool) (c : context) : Z * context :=
  let data_space_p := malloc sz in
  let aligned_size := aligned_size_of sz in
  (data_space_p,
   mkContext (size_t (jmem_heap_blocks_size c + sz))
             (size_t (jmem_allocated_heap_size c + aligned_size))
             (size_t (jmem_system_allocator_metadata_size c
                      + SYSTEM_ALLOCATOR_METADATA_SIZE))
             (size_t (jmem_heap_allocated_blocks_count c + 1))).

(** [jmem_heap_alloc_block_internal], the branch under
    [JERRY_SYSTEM_ALLOCATOR]. *)
Definition jmem_heap_alloc_block_internal (sz : Z) (is_small_block : bool)
           (c : context) : Z * context :=
  jmem_heap_alloc_block_internal_dynamic_real sz is_small_block c.

(** [jmem_heap_free_block_internal], the branch under
    [JERRY_SYSTEM_ALLOCATOR]. *)
Definition jmem_heap_free_block_internal (ptr sz : Z) (is_small_object : bool)
           (c : context) : context :=
  let aligned_size := aligned_size_of sz in
  mkContext (size_t (jmem_heap_blocks_size c - sz))
            (size_t (jmem_allocated_heap_size c - aligned_size))
            (size_t (jmem_system_allocator_metadata_size c
                     - SYSTEM_ALLOCATOR_METADATA_SIZE))
            (size_t (jmem_heap_allocated_blocks_count c - 1)).

(** Every counter is a value of [size_t]. *)
Definition counters_in_range (c : context) : Prop :=
  0 <= jmem_heap_blocks_size c < WORD
  /\ 0 <= jmem_allocated_heap_size c < WORD
  /\ 0 <= jmem_system_allocator_metadata_size c < WORD
  /\ 0 <= jmem_heap_allocated_blocks_count c < WORD.

End Calls.

End SystemAllocator.

(** ** The release on a memory of bytes

    The memory of the allocator above holds one header per address.  To
    follow the code where headers overlap, the statements of
    [jmem_heap_free_block_internal] that work on the free list in a static
    build, from [is_skip_ok] to the store of the skip pointer, are embedded
    a second time on a memory of bytes.  A [uint32_t] is four bytes, the
    lowest first, and a header is its [next_offset] followed by its [size],
    as on the 32-bit target.  The assertions, the counters and the
    statistics of the function do not touch the memory; they are in the
    function above. *)

Module ByteLevel.

Definition bytes : Type := Z -> Z.

Definition byte_of (v i : Z) : Z := (v / 256 ^ i) mod 256.

Definition load32 (b : bytes) (p : Z) : Z :=
  b p + 256 * b (ptr32 (p + 1)) + 65536 * b (ptr32 (p + 2))
  + 16777216 * b (ptr32 (p + 3)).

Definition store32 (b : bytes) (p v : Z) : bytes :=
  fun q => let i := ptr32 (q - p) in if i <? 4 then byte_of v i else b q.

(** The fields of the header at [p]. *)
Definition next_offset_at (b : bytes) (p : Z) : Z := load32 b p.

Definition size_at (b : bytes) (p : Z) : Z := load32 b (ptr32 (p + 4)).

Definition set_next_offset_at (b : bytes) (p v : Z) : bytes := store32 b p v.

Definition set_size_at (b : bytes) (p v : Z) : bytes := store32 b (ptr32 (p + 4)) v.

Section Release.

Variable cfg : config.

(** [jmem_heap_get_region_end] *)
Definition jmem_heap_get_region_end (b : bytes) (curr_p : Z) : Z :=
  ptr32 (curr_p + size_at b curr_p).

(** The loop [while (prev_p->next_offset < block_offset)]. *)
Fixpoint free_find_prev (fuel : nat) (b : bytes) (block_offset prev_p : Z)
  : res Z :=
  match fuel with
  | O => Stuck OutOfFuel
  | S fuel' =>
    if next_offset_at b prev_p <? block_offset then
      let next_cp := next_offset_at b prev_p in
      let next_p := JMEM_DECOMPRESS_POINTER_INTERNAL cfg next_cp in
      free_find_prev fuel' b block_offset next_p
    else Done prev_p
  end.

(** [jmem_heap_free_block_internal], static build, from [is_skip_ok] to
    the store of the skip pointer; [skip_p] is the skip pointer of the
    context, and the result is the memory and the new skip pointer. *)
Definition jmem_heap_free_block_internal (fuel : nat) (ptr sz : Z)
           (skip_p : Z) (b : bytes) : res (bytes * Z) :=
  let block_p := ptr in
  let is_skip_ok := block_p >? skip_p in
  let prev_p := if is_skip_ok then skip_p else first_p cfg in
  let block_offset := JMEM_COMPRESS_POINTER_INTERNAL cfg block_p in
  do prev_p <- free_find_prev fuel b block_offset prev_p;
  let next_cp := next_offset_at b prev_p in
  let next_p := JMEM_DECOMPRESS_POINTER_INTERNAL cfg next_cp in
  let aligned_size := jmem_align cfg sz in
  let '(b, block_p) :=
    if jmem_heap_get_region_end b prev_p =? block_p then
      (set_size_at b prev_p (u32 (size_at b prev_p + u32 aligned_size)), prev_p)
    else
      let b := set_size_at b block_p (u32 aligned_size) in
      (set_next_offset_at b prev_p block_offset, block_p) in
  let b :=
    if jmem_heap_get_region_end b block_p =? next_p then
      let b := set_size_at b block_p (u32 (size_at b block_p + size_at b next_p)) in
      set_next_offset_at b block_p (next_offset_at b next_p)
    else set_next_offset_at b block_p next_cp in
  Done (b, prev_p).

(** The bytes of a memory of headers, for a build whose headers lie at
    multiples of eight bytes from the sentinel. *)
Definition bytes_of (m : memory) : bytes :=
  fun q =>
    let k := (q - first_p cfg) mod 8 in
    let h := m (q - k) in
    if k <? 4 then byte_of (next_offset h) k else byte_of (size h) (k - 4).

(** The free list read off a memory of bytes, for inspection. *)
Fixpoint read_list (fuel : nat) (b : bytes) (cp : Z) : list region :=
  match fuel with
  | O => []
  | S fuel' =>
    if cp =? JMEM_HEAP_END_OF_LIST cfg then []
    else (cp, size_at b (area cfg + cp))
           :: read_list fuel' b (next_offset_at b (area cfg + cp))
  end.

End Release.

End ByteLevel.

(** ** A concrete build

    The static heap of the end-to-end scenarios of the specification:
    [A = 8], 256 bytes, release build. *)

Definition cfg256 : config :=
  mkConfig 8 256 256 8 4294967295 false 0 0 false false true true 3 4096 4088.

(** The same build with assertions on. *)
Definition cfg256_debug : config :=
  mkConfig 8 256 256 8 4294967295 false 0 0 false false false true 3 4096 4088.

(** A segmented build: four segments of 128 bytes. *)
Definition cfg_seg : config :=
  mkConfig 8 512 512 64 4294967295 true 128 4 false false true true 3 4096 4088.

Definition blank_memory : memory := fun _ => mkFree 0 0.

Definition zero_stats : jmem_heap_stats_t := mkStats 0 0 0 0 0 0 0 0 0 0 0.

(** The context as the C start-up code leaves static storage: every field
    zero. *)
Definition blank_context : heap := mkHeap blank_memory NULL 0 0 0 [] zero_stats.

(** Callbacks that release nothing and a segment allocator that has no
    segment to give. *)
Definition gc_nothing (severity : jmem_free_unused_memory_severity_t)
           (st : heap) : heap := st.

Definition no_segment (sz : Z) (st : heap) : Z * heap := (NULL, st).


(** A call of a public entry point, and a run of such calls with callbacks
    that release nothing and no segment to attach; allocations go through
    [jmem_heap_alloc_block_null_on_error]. *)
Inductive heap_op : Type :=
| Alloc (sz : Z)
| Free (ptr sz : Z).

Definition run_op (cfg : config) (fuel : nat) (o : heap_op) (st : heap) : res heap :=
  match o with
  | Alloc sz =>
    do r <- jmem_heap_alloc_block_null_on_error cfg gc_nothing no_segment fuel sz st;
    Done (fst (snd r))
  | Free ptr sz => jmem_heap_free_block cfg fuel ptr sz st
  end.

Fixpoint run_ops (cfg : config) (fuel : nat) (ops : list heap_op) (st : heap)
  : res heap :=
  match ops with
  | [] => Done st
  | o :: rest => do st <- run_op cfg fuel o st; run_ops cfg fuel rest st
  end.

(** The free list read off a memory, for inspection. *)
Fixpoint read_list (fuel : nat) (cfg : config) (m : memory) (cp : Z)
  : list region :=
  match fuel with
  | O => []
  | S fuel' =>
    if cp =? JMEM_HEAP_END_OF_LIST cfg then []
    else (cp, size (m (area cfg + cp)))
           :: read_list fuel' cfg m (next_offset (m (area cfg + cp)))
  end.

Definition heap_of {A : Type} (r : res A) (f : A -> heap) (d : heap) : heap :=
  match r with
  | Done a => f a
  | Stuck _ => d
  end.

Definition returns {A : Type} (r : res A) : bool :=
  match r with
  | Done _ => true
  | Stuck _ => false
  end.

(** A run from start-up: [jmem_heap_init] on the blank context, then the
    calls. *)
Definition run_from_init (cfg : config) (fuel : nat) (ops : list heap_op)
  : res heap :=
  do st0 <- jmem_heap_init cfg blank_context; run_ops cfg fuel ops st0.

Definition state_after (cfg : config) (ops : list heap_op) : heap :=
  heap_of (run_from_init cfg 64 ops) (fun st => st) blank_context.

(** The static heap right after start-up, in the release and in the debug
    build. *)
Definition st_init : heap := state_after cfg256 [].

Definition st_init_debug : heap := state_after cfg256_debug [].

(** The static heap with two blocks of 16 bytes allocated. *)
Definition st_two_blocks : heap := state_after cfg256 [Alloc 16; Alloc 16].

(** The static heap with one block of 8 bytes allocated. *)
Definition st_one_block : heap := state_after cfg256 [Alloc 8].


(** The static heap filled by two blocks of 128 bytes. *)
Definition st_full : heap := state_after cfg256 [Alloc 128; Alloc 128].

(** A callback that releases nothing at LOW and the block at the start of
    the area, 128 bytes long, at HIGH. *)
Definition gc_release_first (severity : jmem_free_unused_memory_severity_t)
           (st : heap) : heap :=
  match severity with
  | JMEM_FREE_UNUSED_MEMORY_SEVERITY_LOW => st
  | JMEM_FREE_UNUSED_MEMORY_SEVERITY_HIGH =>
    heap_of (jmem_heap_free_block cfg256 (S (Z.to_nat (jmem_heap_limit st) + 256))
                                  4096 128 st)
            (fun st' => st') st
  end.

(** The static heap filled by three blocks of 8 bytes and one of 232
    bytes. *)
Definition st_packed : heap :=
  state_after cfg256 [Alloc 8; Alloc 8; Alloc 8; Alloc 232].

(** A callback that releases nothing at LOW and, at HIGH, the first and
    the third block of [st_packed]: 16 bytes that do not lie together. *)
Definition gc_release_apart (severity : jmem_free_unused_memory_severity_t)
           (st : heap) : heap :=
  match severity with
  | JMEM_FREE_UNUSED_MEMORY_SEVERITY_LOW => st
  | JMEM_FREE_UNUSED_MEMORY_SEVERITY_HIGH =>
    heap_of (do st1 <- jmem_heap_free_block cfg256 600 4096 8 st;
             jmem_heap_free_block cfg256 600 4112 8 st1)
            (fun st' => st') st
  end.

(** The segmented heap at start-up. *)
Definition st_seg_init : heap := state_after cfg_seg [].

(** ** Proofs *)

Section Proofs.

Variable cfg : config.
Hypothesis cfg_ok : config_ok cfg.

Local Abbreviation A := (JMEM_ALIGNMENT cfg).
Local Abbreviation END_OF_LIST := (JMEM_HEAP_END_OF_LIST cfg).
Local Abbreviation SEG := (SEG_SEGMENT_SIZE cfg).
Local Abbreviation LIMIT := (CONFIG_MEM_HEAP_DESIRED_LIMIT cfg).
Local Abbreviation first := (first_p cfg).

(** *** Machine arithmetic *)

Lemma u32_small (z : Z) : 0 <= z < WORD -> u32 z = z.
Proof. intros H. unfold u32. apply Z.mod_small. exact H. Qed.

Lemma ptr32_small (z : Z) : 0 <= z < WORD -> ptr32 z = z.
Proof. intros H. unfold ptr32. apply Z.mod_small. exact H. Qed.

Lemma size_t_small (z : Z) : 0 <= z < WORD -> size_t z = z.
Proof. intros H. unfold size_t. apply Z.mod_small. exact H. Qed.

Lemma int32_small (z : Z) : -2147483648 <= z < 2147483648 -> int32 z = z.
Proof.
  intros H. unfold int32, WORD. rewrite Z.mod_small; lia.
Qed.

Lemma compress_decompress (o : Z) :
  0 <= o < WORD ->
  JMEM_COMPRESS_POINTER_INTERNAL cfg (JMEM_DECOMPRESS_POINTER_INTERNAL cfg o) = o.
Proof.
  intros H.
  unfold JMEM_COMPRESS_POINTER_INTERNAL, JMEM_DECOMPRESS_POINTER_INTERNAL, u32, ptr32.
  rewrite Z.mod_mod by (unfold WORD; lia).
  rewrite <- Zminus_mod.
  replace (area cfg + o - area cfg) with o by lia.
  apply Z.mod_small. exact H.
Qed.

(** Offsets of the heap decompress without wrapping. *)
Lemma decompress_in_heap (o : Z) :
  0 <= o <= heap_size cfg ->
  JMEM_DECOMPRESS_POINTER_INTERNAL cfg o = area cfg + o.
Proof.
  intros H. pose proof (ok_area cfg cfg_ok). pose proof (ok_first cfg cfg_ok).
  unfold JMEM_DECOMPRESS_POINTER_INTERNAL, ptr32. apply Z.mod_small. lia.
Qed.

Lemma decompress_node (r : region) :
  region_ok cfg r -> JMEM_DECOMPRESS_POINTER_INTERNAL cfg (fst r) = node cfg r.
Proof.
  intros (H1 & H2 & H3). unfold node. apply decompress_in_heap. lia.
Qed.

(** The end-of-list offset decompresses to an address outside the heap:
    below the area when the sum wraps, beyond its end when it does not. *)
Lemma decompress_end_outside :
  JMEM_DECOMPRESS_POINTER_INTERNAL cfg END_OF_LIST < area cfg
  \/ area cfg + heap_size cfg < JMEM_DECOMPRESS_POINTER_INTERNAL cfg END_OF_LIST.
Proof.
  pose proof (ok_end cfg cfg_ok). pose proof (ok_first cfg cfg_ok).
  pose proof (ok_area cfg cfg_ok). pose proof (ok_heap cfg cfg_ok).
  unfold JMEM_DECOMPRESS_POINTER_INTERNAL, ptr32.
  destruct (Z_lt_dec (area cfg + END_OF_LIST) WORD) as [Hlt|Hge].
  - right. rewrite Z.mod_small by lia. lia.
  - left. replace (area cfg + END_OF_LIST) with (area cfg + END_OF_LIST - WORD + 1 * WORD) by lia.
    rewrite Z.mod_add by (unfold WORD; lia). rewrite Z.mod_small by lia. lia.
Qed.

Lemma decompress_end_not_node (r : region) :
  region_ok cfg r -> JMEM_DECOMPRESS_POINTER_INTERNAL cfg END_OF_LIST <> node cfg r.
Proof.
  intros (H1 & H2 & H3). unfold node.
  destruct decompress_end_outside; lia.
Qed.

Lemma compress_decompress_end :
  JMEM_COMPRESS_POINTER_INTERNAL cfg (JMEM_DECOMPRESS_POINTER_INTERNAL cfg END_OF_LIST)
  = END_OF_LIST.
Proof.
  apply compress_decompress. pose proof (ok_end cfg cfg_ok). pose proof (ok_heap cfg cfg_ok). lia.
Qed.

Lemma jmem_align_bounds (sz : Z) :
  0 < sz -> sz + A - 1 < WORD ->
  sz <= jmem_align cfg sz < sz + A /\ jmem_align cfg sz mod A = 0.
Proof.
  intros Hs Hw. pose proof (ok_align cfg cfg_ok) as HA.
  unfold jmem_align.
  rewrite (size_t_small (sz + A - 1)) by lia.
  pose proof (Z.div_mod (sz + A - 1) A ltac:(lia)) as Hd.
  pose proof (Z.mod_pos_bound (sz + A - 1) A HA) as Hm.
  assert (Hq : 0 <= (sz + A - 1) / A) by (apply Z.div_pos; lia).
  rewrite size_t_small by nia.
  split; [nia|]. apply Z.mod_mul. lia.
Qed.

Lemma aligned_ge (n : Z) : 0 < n -> n mod A = 0 -> A <= n.
Proof.
  intros Hn Hm. pose proof (ok_align cfg cfg_ok) as HA.
  pose proof (Z.div_mod n A ltac:(lia)) as Hd. rewrite Hm in Hd.
  assert (0 < n / A) by nia. nia.
Qed.

(** *** Memory *)

Lemma size_set_size (m : memory) (p v q : Z) :
  size (set_size m p v q) = if q =? p then v else size (m q).
Proof. unfold set_size. destruct (q =? p); reflexivity. Qed.

Lemma next_set_size (m : memory) (p v q : Z) :
  next_offset (set_size m p v q) = next_offset (m q).
Proof. unfold set_size. destruct (q =? p); reflexivity. Qed.

Lemma size_set_next (m : memory) (p v q : Z) :
  size (set_next_offset m p v q) = size (m q).
Proof. unfold set_next_offset. destruct (q =? p); reflexivity. Qed.

Lemma next_set_next (m : memory) (p v q : Z) :
  next_offset (set_next_offset m p v q) = if q =? p then v else next_offset (m q).
Proof. unfold set_next_offset. destruct (q =? p); reflexivity. Qed.

Ltac mem_read :=
  repeat first [ rewrite size_set_size | rewrite next_set_size
               | rewrite size_set_next | rewrite next_set_next
               | rewrite Z.eqb_refl ].

Lemma with_stats_same (st : heap) : with_stats st (jmem_heap_stats st) = st.
Proof. destruct st; reflexivity. Qed.

(** *** Lists of regions *)

Lemma before_after (bo : Z) (l : list region) : before bo l ++ after bo l = l.
Proof.
  induction l as [|r t IH]; simpl; [reflexivity|].
  destruct (fst r <? bo); simpl; [rewrite IH|]; reflexivity.
Qed.

Lemma before_below (bo : Z) (l : list region) :
  Forall (fun r => fst r < bo) (before bo l).
Proof.
  induction l as [|r t IH]; simpl; [constructor|].
  destruct (fst r <? bo) eqn:E; [|constructor].
  constructor; [apply Z.ltb_lt; exact E|exact IH].
Qed.

Lemma after_head (bo : Z) (l : list region) (r : region) (t : list region) :
  after bo l = r :: t -> bo <= fst r.
Proof.
  induction l as [|r0 t0 IH]; simpl; [discriminate|].
  destruct (fst r0 <? bo) eqn:E; [exact IH|].
  intros H. injection H as -> _. apply Z.ltb_ge. exact E.
Qed.

Lemma gaps_tail (r : region) (l : list region) : gaps (r :: l) -> gaps l.
Proof. destruct l; simpl; tauto. Qed.

Lemma gaps_app_l (l1 l2 : list region) : gaps (l1 ++ l2) -> gaps l1.
Proof.
  induction l1 as [|r t IH]; simpl; [trivial|].
  destruct t as [|r2 t]; simpl in *; [trivial|].
  intros [H1 H2]. split; [exact H1|apply IH; exact H2].
Qed.

Lemma gaps_app_r (l1 l2 : list region) : gaps (l1 ++ l2) -> gaps l2.
Proof.
  induction l1 as [|r t IH]; simpl; [trivial|].
  intros H. apply IH. destruct (t ++ l2); simpl in *; tauto.
Qed.

(** In a list with gaps whose regions have positive size, every later
    region starts beyond the end of the first. *)
Lemma gaps_beyond (r : region) (l : list region) :
  gaps (r :: l) -> Forall (fun x => 0 < snd x) l ->
  Forall (fun x => fst r + snd r < fst x) l.
Proof.
  revert r. induction l as [|r2 t IH]; intros r Hg Hp; [constructor|].
  simpl in Hg. destruct Hg as [H1 H2]. inversion Hp as [|? ? Hp2 Hpt]; subst.
  constructor; [exact H1|].
  specialize (IH r2 H2 Hpt).
  eapply Forall_impl; [|exact IH]. simpl. intros x Hx. lia.
Qed.

Lemma gaps_join (l1 : list region) (r : region) (l2 : list region) :
  gaps (l1 ++ [r]) -> gaps (r :: l2) -> gaps (l1 ++ r :: l2).
Proof.
  induction l1 as [|a t IH]; simpl; intros H1 H2; [exact H2|].
  destruct t as [|b t]; simpl in *.
  - destruct l2; simpl in *; tauto.
  - destruct H1 as [H1 H1']. split; [exact H1|]. apply IH; assumption.
Qed.

Lemma gaps_snoc (l1 : list region) (r : region) (l2 : list region) :
  gaps (l1 ++ r :: l2) -> gaps (l1 ++ [r]).
Proof.
  intros H. change (l1 ++ r :: l2) with (l1 ++ [r] ++ l2) in H.
  rewrite app_assoc in H. apply gaps_app_l in H. exact H.
Qed.

Lemma regions_pos (l : list region) :
  Forall (region_ok cfg) l -> Forall (fun x => 0 < snd x) l.
Proof. apply Forall_impl. intros r (_ & H & _). exact H. Qed.

(** *** The list in memory *)

Lemma lseg_frame (m m' : memory) (l : list region) (cp e : Z) :
  (forall r, In r l -> m' (node cfg r) = m (node cfg r)) ->
  lseg cfg m cp l e -> lseg cfg m' cp l e.
Proof.
  revert cp. induction l as [|r t IH]; simpl; intros cp Hm H; [exact H|].
  destruct H as (H1 & H2 & H3).
  rewrite (Hm r) by (left; reflexivity).
  repeat split; try assumption.
  apply IH; [|exact H3]. intros r' Hr'. apply Hm. right. exact Hr'.
Qed.

Lemma lseg_app (m : memory) (l1 l2 : list region) (cp e : Z) :
  lseg cfg m cp (l1 ++ l2) e <->
  exists mid, lseg cfg m cp l1 mid /\ lseg cfg m mid l2 e.
Proof.
  revert cp. induction l1 as [|r t IH]; simpl; intros cp.
  - split.
    + intros H. exists cp. split; [reflexivity|exact H].
    + intros (mid & -> & H). exact H.
  - split.
    + intros (H1 & H2 & H3). apply IH in H3. destruct H3 as (mid & H3 & H4).
      exists mid. repeat split; assumption.
    + intros (mid & (H1 & H2 & H3) & H4). repeat split; try assumption.
      apply IH. exists mid. split; assumption.
Qed.

(** The walk over [l] from the node at [p] ends at [walk_end p l], whose
    link is the end of the segment. *)
Lemma lseg_walk_end (m : memory) (l : list region) (p e : Z) :
  lseg cfg m (next_offset (m p)) l e -> next_offset (m (walk_end cfg p l)) = e.
Proof.
  revert p. induction l as [|r t IH]; simpl; intros p H; [exact H|].
  destruct H as (_ & _ & H). apply IH. exact H.
Qed.

Lemma walk_end_app (l1 l2 : list region) (p : Z) :
  walk_end cfg p (l1 ++ l2) = walk_end cfg (walk_end cfg p l1) l2.
Proof.
  revert p. induction l1 as [|r t IH]; simpl; intros p; [reflexivity|apply IH].
Qed.


Lemma ascending_of_gaps (l : list region) (p : Z) (r : region) :
  Forall (fun x => 0 < snd x) (r :: l) -> gaps (r :: l) -> p < node cfg r ->
  ascending_from cfg p (r :: l).
Proof.
  revert p r. induction l as [|r2 t IH]; intros p r Hp Hg Hlt; simpl.
  - split; [exact Hlt|trivial].
  - split; [exact Hlt|].
    inversion Hp as [|? ? Hr Hp']; subst. simpl in Hg. destruct Hg as [Hg1 Hg2].
    apply IH; [exact Hp'|exact Hg2|]. unfold node. lia.
Qed.

Lemma ascending_regions (l : list region) :
  regions_ok cfg l -> ascending_from cfg first l.
Proof.
  intros [Hf Hg]. destruct l as [|r t]; [exact I|].
  apply ascending_of_gaps; [apply regions_pos; exact Hf|exact Hg|].
  inversion Hf as [|? ? (H0 & _) _]; subst.
  pose proof (ok_first cfg cfg_ok). unfold node. lia.
Qed.

Lemma ascending_above (l : list region) (p : Z) :
  ascending_from cfg p l -> Forall (fun r => p < node cfg r) l.
Proof.
  revert p. induction l as [|r t IH]; simpl; intros p H; [constructor|].
  destruct H as [H1 H2]. constructor; [exact H1|].
  eapply Forall_impl; [|apply IH; exact H2]. simpl. intros x Hx. lia.
Qed.

Lemma walk_end_ge (l : list region) (p : Z) :
  ascending_from cfg p l -> p <= walk_end cfg p l.
Proof.
  revert p. induction l as [|r t IH]; simpl; intros p H; [lia|].
  destruct H as [H1 H2]. specialize (IH _ H2). lia.
Qed.

Lemma ascending_app_l (l1 l2 : list region) (p : Z) :
  ascending_from cfg p (l1 ++ l2) -> ascending_from cfg p l1.
Proof.
  revert p. induction l1 as [|r t IH]; simpl; intros p H; [exact I|].
  destruct H as [H1 H2]. split; [exact H1|apply IH; exact H2].
Qed.

Lemma ascending_app_r (l1 l2 : list region) (p : Z) :
  ascending_from cfg p (l1 ++ l2) -> ascending_from cfg (walk_end cfg p l1) l2.
Proof.
  revert p. induction l1 as [|r t IH]; simpl; intros p H; [exact H|].
  destruct H as [H1 H2]. apply IH. exact H2.
Qed.

(** Writing the link of the last node of a segment redirects its end and
    nothing else. *)
Lemma lseg_set_last (l : list region) (m : memory) (p v e : Z) :
  ascending_from cfg p l ->
  lseg cfg m (next_offset (m p)) l e ->
  let m' := set_next_offset m (walk_end cfg p l) v in
  lseg cfg m' (next_offset (m' p)) l v.
Proof.
  revert p. induction l as [|r t IH]; simpl; intros p Ha H.
  - rewrite next_set_next, Z.eqb_refl. reflexivity.
  - destruct Ha as [Ha1 Ha2]. destruct H as (H1 & H2 & H3).
    pose proof (walk_end_ge t _ Ha2) as Hge.
    rewrite next_set_next. replace (p =? walk_end cfg (node cfg r) t) with false
      by (symmetry; apply Z.eqb_neq; lia).
    rewrite size_set_next.
    repeat split; try assumption.
    apply (IH (node cfg r) Ha2 H3).
Qed.

(** *** The search of the release *)

Lemma free_find_prev_walk (bo : Z) (l : list region) :
  Forall (region_ok cfg) l ->
  forall (p e : Z) (st : heap),
    lseg cfg (mem st) (next_offset (mem st p)) l e -> bo <= e ->
    exists s, forall fuel, (length l < fuel)%nat ->
      free_find_prev cfg fuel bo p st
      = Done (walk_end cfg p (before bo l), with_stats st s).
Proof.
  induction l as [|r t IH]; intros Hok p e st H He.
  - exists (jmem_heap_stats st). intros [|fuel] Hf; [simpl in Hf; lia|]. simpl in *.
    rewrite H. replace (e <? bo) with false by (symmetry; apply Z.ltb_ge; lia).
    rewrite with_stats_same. reflexivity.
  - simpl in H. destruct H as (H1 & H2 & H3).
    inversion Hok as [|? ? Hr Hok']; subst.
    destruct (fst r <? bo) eqn:E.
    + destruct (IH Hok' (node cfg r) e (on_stats jmem_heap_stat_free_iter st))
        as [s Hs]; [exact H3|exact He|].
      exists s. intros [|fuel] Hf; [simpl in Hf; lia|]. simpl in *.
      rewrite H1, E. rewrite (decompress_node r Hr).
      rewrite Hs by lia. reflexivity.
    + exists (jmem_heap_stats st). intros [|fuel] Hf; [simpl in Hf; lia|]. simpl.
      rewrite H1, E. rewrite with_stats_same. reflexivity.
Qed.

(** With ascending offsets, the regions before [bo] are cut at any region
    below [bo]. *)
Lemma before_split (bo : Z) (la lb : list region) (r : region) :
  gaps (la ++ r :: lb) -> Forall (fun x => 0 < snd x) (la ++ r :: lb) ->
  fst r < bo ->
  before bo (la ++ r :: lb) = la ++ r :: before bo lb.
Proof.
  induction la as [|a t IH]; simpl; intros Hg Hp Hr.
  - replace (fst r <? bo) with true by (symmetry; apply Z.ltb_lt; lia). reflexivity.
  - inversion Hp as [|? ? Ha Hp']; subst.
    pose proof (gaps_beyond a (t ++ r :: lb) Hg Hp') as Hb.
    rewrite Forall_forall in Hb. specialize (Hb r ltac:(apply in_elt)).
    replace (fst a <? bo) with true by (symmetry; apply Z.ltb_lt; lia).
    f_equal. apply IH; [eapply gaps_tail; exact Hg|exact Hp'|exact Hr].
Qed.

(** *** Coalescing, on lists *)

Lemma list_last_case {T : Type} (l : list T) :
  l = [] \/ exists l' x, l = l' ++ [x].
Proof.
  destruct l as [|a t]; [left; reflexivity|right].
  destruct (exists_last (l := a :: t)) as (l' & x & E); [discriminate|].
  exists l', x. exact E.
Qed.

Lemma merge_prev_nil (bo n : Z) : merge_prev [] bo n = ([], (bo, n)).
Proof. reflexivity. Qed.

Lemma merge_prev_snoc (l' : list region) (p : region) (bo n : Z) :
  merge_prev (l' ++ [p]) bo n =
  if fst p + snd p =? bo then (l', (fst p, snd p + n))
  else (l' ++ [p], (bo, n)).
Proof.
  unfold merge_prev. rewrite rev_unit.
  destruct (fst p + snd p =? bo); [rewrite rev_involutive|]; reflexivity.
Qed.

Lemma gaps_split (la : list region) (r : region) (lb : list region) :
  gaps (la ++ r :: lb) <-> gaps (la ++ [r]) /\ gaps (r :: lb).
Proof.
  split.
  - intros H. split; [eapply gaps_snoc; exact H|eapply gaps_app_r; exact H].
  - intros [H1 H2]. apply gaps_join; assumption.
Qed.

Lemma gaps_resize_last (la : list region) (r r' : region) :
  fst r' = fst r -> gaps (la ++ [r]) -> gaps (la ++ [r']).
Proof.
  intros E. induction la as [|a t IH]; simpl; [trivial|].
  destruct t as [|b t]; simpl in *.
  - rewrite E. trivial.
  - intros [H1 H2]. split; [exact H1|apply IH; exact H2].
Qed.

Lemma gaps_resize_head (r r' : region) (lb : list region) :
  fst r' + snd r' = fst r + snd r -> gaps (r :: lb) -> gaps (r' :: lb).
Proof.
  intros E. destruct lb as [|b t]; simpl; [trivial|]. rewrite E. trivial.
Qed.

Lemma gaps_pair (r1 r2 : region) : gaps [r1; r2] <-> fst r1 + snd r1 < fst r2.
Proof. simpl. tauto. Qed.

(** What is known of the two halves of the list around a releasable block. *)
Lemma before_ends (bo n : Z) (l : list region) :
  0 < n ->
  Forall (fun r => fst r + snd r <= bo \/ bo + n <= fst r) l ->
  Forall (fun r => fst r + snd r <= bo) (before bo l).
Proof.
  intros Hn Hd.
  assert (Hin : forall r, In r (before bo l) -> In r l).
  { intros r Hr. rewrite <- (before_after bo l). apply in_or_app. left. exact Hr. }
  pose proof (before_below bo l) as Hb.
  rewrite Forall_forall in *. intros r Hr.
  specialize (Hb r Hr). specialize (Hd r (Hin r Hr)). simpl in *. lia.
Qed.

Lemma after_starts (bo n : Z) (l : list region) :
  regions_ok cfg l ->
  Forall (fun r => fst r + snd r <= bo \/ bo + n <= fst r) l ->
  Forall (fun r => bo + n <= fst r) (after bo l).
Proof.
  intros [Hf Hg] Hd.
  assert (Hin : forall r, In r (after bo l) -> In r l).
  { intros r Hr. rewrite <- (before_after bo l). apply in_or_app. right. exact Hr. }
  assert (Hg2 : gaps (after bo l)).
  { rewrite <- (before_after bo l) in Hg. eapply gaps_app_r. exact Hg. }
  assert (Hp2 : Forall (fun x => 0 < snd x) (after bo l)).
  { apply regions_pos. rewrite Forall_forall in *. intros r Hr. apply Hf, Hin, Hr. }
  destruct (after bo l) as [|r2 t] eqn:E; [constructor|].
  pose proof (after_head bo l r2 t E) as Hh.
  inversion Hp2 as [|? ? Hp Hpt]; subst.
  pose proof (gaps_beyond r2 t Hg2 Hpt) as Hb.
  rewrite Forall_forall in *.
  intros r [<-|Hr].
  - specialize (Hd r2 (Hin r2 (or_introl eq_refl))). simpl in Hd. lia.
  - specialize (Hb r Hr). specialize (Hd r (Hin r (or_intror Hr))).
    specialize (Hp2 r (or_intror Hr)). simpl in *. lia.
Qed.

Lemma regions_ok_app_l (l1 l2 : list region) :
  regions_ok cfg (l1 ++ l2) -> regions_ok cfg l1.
Proof.
  intros [Hf Hg]. split; [|eapply gaps_app_l; exact Hg].
  apply Forall_app in Hf. tauto.
Qed.

Lemma regions_ok_app_r (l1 l2 : list region) :
  regions_ok cfg (l1 ++ l2) -> regions_ok cfg l2.
Proof.
  intros [Hf Hg]. split; [|eapply gaps_app_r; exact Hg].
  apply Forall_app in Hf. tauto.
Qed.

(** Step 5 keeps the list in order. *)
Lemma merge_next_ok (b : region) (l2 : list region) :
  region_ok cfg b -> regions_ok cfg l2 ->
  Forall (fun r => fst b + snd b <= fst r) l2 ->
  regions_ok cfg (merge_next b l2)
  /\ exists b' t, merge_next b l2 = b' :: t /\ fst b' = fst b.
Proof.
  intros Hb [Hf Hg] Hs. unfold merge_next.
  destruct l2 as [|nx t].
  - split; [|exists b, []; split; reflexivity].
    split; [constructor; [exact Hb|constructor]|exact I].
  - inversion Hf as [|? ? Hnx Hft]; subst. inversion Hs as [|? ? Hs1 Hst]; subst.
    destruct (fst b + snd b =? fst nx) eqn:E.
    + apply Z.eqb_eq in E.
      split; [|eexists; eexists; split; reflexivity].
      split.
      * constructor; [|exact Hft].
        destruct Hb as (B1 & B2 & B3), Hnx as (N1 & N2 & N3).
        unfold region_ok; simpl. lia.
      * apply (gaps_resize_head nx); [simpl; lia|exact Hg].
    + apply Z.eqb_neq in E.
      split; [|exists b, (nx :: t); split; reflexivity].
      split; [constructor; [exact Hb|exact Hf]|].
      simpl. split; [lia|exact Hg].
Qed.

Lemma merge_next_covers (b : region) (l2 : list region) (x : Z) :
  Forall (fun r => 0 < snd r) (b :: l2) ->
  covers (merge_next b l2) x <-> (fst b <= x < fst b + snd b) \/ covers l2 x.
Proof.
  intros Hp. unfold merge_next, covers.
  destruct l2 as [|nx t].
  - rewrite Exists_cons, Exists_nil. tauto.
  - inversion Hp as [|? ? Hb Hp']; subst. inversion Hp' as [|? ? Hnx _]; subst.
    destruct (fst b + snd b =? fst nx) eqn:E.
    + apply Z.eqb_eq in E. rewrite !Exists_cons. simpl. split.
      * intros [H|H]; [|tauto].
        destruct (Z_lt_ge_dec x (fst nx)); [left; lia|right; left; lia].
      * intros [H|[H|H]]; [left; lia|left; lia|right; exact H].
    + rewrite !Exists_cons. tauto.
Qed.

(** The release keeps the list ordered, inside the heap and free of
    adjacent regions. *)
Lemma coalesce_regions_ok (bo n : Z) (l : list region) :
  regions_ok cfg l -> 0 <= bo -> 0 < n -> bo + n <= heap_size cfg ->
  Forall (fun r => fst r + snd r <= bo \/ bo + n <= fst r) l ->
  regions_ok cfg (coalesce bo n l).
Proof.
  intros Hok H0 Hn Hh Hd.
  pose proof (before_ends bo n l Hn Hd) as He.
  pose proof (after_starts bo n l Hok Hd) as Hs.
  pose proof Hok as Hok'. rewrite <- (before_after bo l) in Hok'.
  pose proof (regions_ok_app_l _ _ Hok') as Hok1.
  pose proof (regions_ok_app_r _ _ Hok') as Hok2.
  unfold coalesce.
  destruct (list_last_case (before bo l)) as [E|(l1' & p & E)]; rewrite E in *.
  - rewrite merge_prev_nil. simpl.
    apply merge_next_ok; [unfold region_ok; simpl; lia|exact Hok2|exact Hs].
  - rewrite merge_prev_snoc.
    apply Forall_app in He. destruct He as [_ Hp]. inversion Hp as [|? ? Hp1 _]; subst.
    destruct Hok1 as [Hf1 Hg1]. apply Forall_app in Hf1. destruct Hf1 as [Hf1 Hfp].
    inversion Hfp as [|? ? (P1 & P2 & P3) _]; subst.
    destruct (fst p + snd p =? bo) eqn:Ep.
    + apply Z.eqb_eq in Ep.
      destruct (merge_next_ok (fst p, snd p + n) (after bo l)) as [[Hfm Hgm] (b' & t & Em & Eb)];
        [unfold region_ok; simpl; lia|exact Hok2|
         eapply Forall_impl; [|exact Hs]; simpl; intros; lia|].
      rewrite Em in *. split.
      * apply Forall_app. split; assumption.
      * apply gaps_split. split; [|exact Hgm].
        apply (gaps_resize_last l1' p); [simpl in *; exact Eb|exact Hg1].
    + apply Z.eqb_neq in Ep.
      destruct (merge_next_ok (bo, n) (after bo l)) as [[Hfm Hgm] (b' & t & Em & Eb)];
        [unfold region_ok; simpl; lia|exact Hok2|exact Hs|].
      rewrite Em in *. split.
      * apply Forall_app. split; [apply Forall_app; split; assumption|exact Hfm].
      * rewrite <- app_assoc. simpl. apply gaps_split. split; [exact Hg1|].
        simpl. split; [simpl in Eb; lia|exact Hgm].
Qed.

(** The release adds the bytes of the block to the free bytes, no more. *)
Lemma coalesce_covers (bo n : Z) (l : list region) (x : Z) :
  regions_ok cfg l -> 0 < n ->
  covers (coalesce bo n l) x <-> covers l x \/ bo <= x < bo + n.
Proof.
  intros Hok Hn.
  assert (Hp : Forall (fun r => 0 < snd r) l) by (apply regions_pos, Hok).
  rewrite <- (before_after bo l) in Hp. apply Forall_app in Hp. destruct Hp as [Hp1 Hp2].
  rewrite <- (before_after bo l) at 2.
  unfold coalesce, covers. rewrite Exists_app.
  destruct (list_last_case (before bo l)) as [E|(l1' & p & E)]; rewrite E in *.
  - rewrite merge_prev_nil. simpl. fold (covers (merge_next (bo, n) (after bo l)) x).
    rewrite merge_next_covers by (constructor; [simpl; lia|exact Hp2]).
    unfold covers. rewrite Exists_nil. simpl. tauto.
  - rewrite merge_prev_snoc.
    apply Forall_app in Hp1. destruct Hp1 as [_ Hpp]. inversion Hpp as [|? ? Hpp1 _]; subst.
    destruct (fst p + snd p =? bo) eqn:Ep.
    + apply Z.eqb_eq in Ep. rewrite !Exists_app.
      fold (covers (merge_next (fst p, snd p + n) (after bo l)) x).
      rewrite merge_next_covers by (constructor; [simpl; lia|exact Hp2]).
      unfold covers. rewrite Exists_cons, Exists_nil. simpl.
      split; [intros [H|[H|H]]|intros [[[H|[H|[]]]|H]|H]]; try tauto.
      * destruct (Z_lt_ge_dec x bo); [left; left; right; left; lia|right; lia].
      * right; left; lia.
      * right; left; lia.
    + rewrite !Exists_app.
      fold (covers (merge_next (bo, n) (after bo l)) x).
      rewrite merge_next_covers by (constructor; [simpl; lia|exact Hp2]).
      unfold covers. simpl. tauto.
Qed.

(** *** Coalescing, in memory *)

Lemma walk_end_snoc (l : list region) (p : region) (q : Z) :
  walk_end cfg q (l ++ [p]) = node cfg p.
Proof. rewrite walk_end_app. reflexivity. Qed.

Lemma walk_end_cases (l : list region) (q : Z) :
  walk_end cfg q l = q \/ exists r, In r l /\ walk_end cfg q l = node cfg r.
Proof.
  destruct (list_last_case l) as [->|(l' & p & ->)]; [left; reflexivity|right].
  exists p. split; [apply in_or_app; right; left; reflexivity|apply walk_end_snoc].
Qed.

Lemma ascending_snoc (l : list region) (p : region) (q : Z) :
  ascending_from cfg q (l ++ [p]) ->
  q < node cfg p /\ Forall (fun r => node cfg r < node cfg p) l.
Proof.
  revert q. induction l as [|r t IH]; simpl; intros q H.
  - split; [tauto|constructor].
  - destruct H as [H1 H2]. destruct (IH _ H2) as [H3 H4].
    split; [lia|]. constructor; assumption.
Qed.

(** "Update next.": the region at [B] gets its link, and absorbs the
    successor iff it ends where the successor starts. *)
Lemma free_update_next_spec (m1 : memory) (b : region) (l2 : list region) (mid : Z) :
  size (m1 (node cfg b)) = snd b ->
  0 <= fst b -> 0 < snd b -> fst b + snd b <= heap_size cfg ->
  lseg cfg m1 mid l2 END_OF_LIST ->
  Forall (region_ok cfg) l2 ->
  Forall (fun r => fst b + snd b <= fst r) l2 ->
  let m2 := free_update_next m1 (node cfg b)
                             (JMEM_DECOMPRESS_POINTER_INTERNAL cfg mid) mid in
  lseg cfg m2 (fst b) (merge_next b l2) END_OF_LIST
  /\ forall q, q <> node cfg b -> m2 q = m1 q.
Proof.
  intros Hsz H0 Hlen Hh Hl Hok Hs m2.
  pose proof (ok_end cfg cfg_ok) as Hend.
  assert (Hframe : forall q, q <> node cfg b -> m2 q = m1 q).
  { intros q Hq. unfold m2, free_update_next, set_next_offset, set_size.
    apply Z.eqb_neq in Hq.
    destruct (_ =? JMEM_DECOMPRESS_POINTER_INTERNAL cfg mid); rewrite !Hq; reflexivity. }
  split; [|exact Hframe].
  assert (Htail : forall t c, Forall (fun r => fst b + snd b <= fst r) t ->
                              lseg cfg m1 c t END_OF_LIST -> lseg cfg m2 c t END_OF_LIST).
  { intros t c Hst Ht. eapply lseg_frame; [|exact Ht].
    intros r Hr. rewrite Forall_forall in Hst. specialize (Hst r Hr).
    apply Hframe. unfold node. lia. }
  assert (HB : m2 (node cfg b) =
               match l2 with
               | nx :: _ =>
                 if fst b + snd b =? fst nx
                 then mkFree (next_offset (m1 (node cfg nx))) (snd b + snd nx)
                 else mkFree mid (snd b)
               | [] => mkFree mid (snd b)
               end).
  { unfold m2, free_update_next, jmem_heap_get_region_end.
    rewrite Hsz.
    rewrite (ptr32_small (node cfg b + snd b))
      by (pose proof (ok_area cfg cfg_ok); pose proof (ok_first cfg cfg_ok);
          unfold node; lia).
    destruct l2 as [|nx t]; simpl in Hl.
    - subst mid.
      replace (node cfg b + snd b =? JMEM_DECOMPRESS_POINTER_INTERNAL cfg END_OF_LIST)
        with false
        by (symmetry; apply Z.eqb_neq; unfold node;
            destruct decompress_end_outside; lia).
      unfold set_next_offset. rewrite Z.eqb_refl, Hsz. reflexivity.
    - destruct Hl as (-> & Hsn & Ht).
      inversion Hok as [|? ? Hnx _]; subst. pose proof Hnx as (N1 & N2 & N3).
      rewrite (decompress_node nx Hnx).
      replace (node cfg b + snd b =? node cfg nx) with (fst b + snd b =? fst nx)
        by (unfold node; destruct (Z.eqb_spec (fst b + snd b) (fst nx));
            symmetry; [apply Z.eqb_eq|apply Z.eqb_neq]; lia).
      destruct (fst b + snd b =? fst nx) eqn:E.
      + apply Z.eqb_eq in E.
        unfold set_next_offset, set_size. rewrite !Z.eqb_refl. simpl.
        replace (node cfg nx =? node cfg b) with false
          by (symmetry; apply Z.eqb_neq; unfold node; lia).
        rewrite Hsn, u32_small by (unfold WORD in *; lia). reflexivity.
      + unfold set_next_offset. rewrite Z.eqb_refl, Hsz. reflexivity. }
  clearbody m2. unfold merge_next.
  destruct l2 as [|nx t]; simpl in Hl.
  - subst mid. simpl. rewrite HB. simpl. auto.
  - destruct Hl as (-> & Hsn & Ht).
    inversion Hs as [|? ? Hs1 Hst]; subst.
    destruct (fst b + snd b =? fst nx) eqn:E.
    + simpl. change (node cfg (fst b, snd b + snd nx)) with (node cfg b).
      rewrite HB. simpl. split; [reflexivity|]. split; [reflexivity|].
      apply Htail; assumption.
    + simpl. rewrite HB. simpl. split; [reflexivity|]. split; [reflexivity|].
      apply (Htail (nx :: t) (fst nx) Hs). simpl. auto.
Qed.

(** "Update prev.", when the block does not touch its predecessor: a
    fresh header is written at the block and linked behind the
    predecessor. *)
Lemma free_update_prev_fresh (m : memory) (l1 : list region) (mid bo n : Z) :
  ascending_from cfg first l1 ->
  lseg cfg m (next_offset (m first)) l1 mid ->
  Forall (fun r => 0 <= fst r /\ 0 < snd r /\ fst r + snd r <= bo) l1 ->
  size (m first) = 0 -> 0 <= bo -> 0 < n -> bo + n <= heap_size cfg ->
  let ptr := area cfg + bo in
  let m1 := set_next_offset (set_size m ptr (u32 n)) (walk_end cfg first l1) bo in
  size (m1 ptr) = n
  /\ lseg cfg m1 (next_offset (m1 first)) l1 bo
  /\ size (m1 first) = 0
  /\ (forall q, q <> ptr -> q <> walk_end cfg first l1 -> m1 q = m q)
  /\ first < ptr /\ Forall (fun r => node cfg r < ptr) l1.
Proof.
  intros Ha Hl Hf Hz H0 Hn Hh ptr m1.
  pose proof (ok_first cfg cfg_ok) as Hfst.
  pose proof (ok_end cfg cfg_ok) as Hend.
  assert (Hlow : Forall (fun r => node cfg r < ptr) l1).
  { eapply Forall_impl; [|exact Hf]. unfold node, ptr. simpl. intros; lia. }
  split; [|split; [|split; [|split; [|split]]]].
  - unfold m1. mem_read. apply u32_small. unfold WORD in *. lia.
  - unfold m1. apply (lseg_set_last l1 (set_size m ptr (u32 n)) first bo mid Ha).
    rewrite next_set_size. eapply lseg_frame; [|exact Hl].
    intros r Hr. rewrite Forall_forall in Hlow. specialize (Hlow r Hr).
    unfold set_size. replace (node cfg r =? ptr) with false
      by (symmetry; apply Z.eqb_neq; lia). reflexivity.
  - unfold m1. mem_read.
    replace (first =? ptr) with false
      by (symmetry; apply Z.eqb_neq; unfold ptr; lia). exact Hz.
  - intros q Hq1 Hq2. unfold m1, set_next_offset, set_size.
    apply Z.eqb_neq in Hq1, Hq2. rewrite Hq1, Hq2. reflexivity.
  - unfold ptr. lia.
  - exact Hlow.
Qed.

(** "Update prev.", when the predecessor ends at the block: the
    predecessor grows by the block. *)
Lemma free_update_prev_merged (m : memory) (l1 : list region) (p : region)
      (mid bo n : Z) :
  ascending_from cfg first (l1 ++ [p]) ->
  lseg cfg m (next_offset (m first)) (l1 ++ [p]) mid ->
  0 <= fst p -> fst p + snd p = bo -> 0 < snd p ->
  size (m first) = 0 -> 0 < n -> bo + n <= heap_size cfg ->
  let m1 := set_size m (node cfg p) (u32 (size (m (node cfg p)) + u32 n)) in
  size (m1 (node cfg p)) = snd p + n
  /\ lseg cfg m1 (next_offset (m1 first)) l1 (fst p)
  /\ size (m1 first) = 0
  /\ (forall q, q <> node cfg p -> m1 q = m q)
  /\ first < node cfg p /\ Forall (fun r => node cfg r < node cfg p) l1.
Proof.
  intros Ha Hl H0 He Hp Hz Hn Hh m1.
  pose proof (ok_end cfg cfg_ok) as Hend.
  apply ascending_snoc in Ha. destruct Ha as [Ha1 Ha2].
  apply lseg_app in Hl. destruct Hl as (mid' & Hl1 & Hl2).
  simpl in Hl2. destruct Hl2 as (-> & Hsz & Hnx).
  assert (Hframe : forall q, q <> node cfg p -> m1 q = m q).
  { intros q Hq. unfold m1, set_size. apply Z.eqb_neq in Hq. rewrite Hq. reflexivity. }
  split; [|split; [|split; [|split; [|split]]]]; try assumption.
  - unfold m1. mem_read. rewrite Hsz.
    rewrite (u32_small n) by (unfold WORD in *; lia).
    apply u32_small. unfold WORD in *. lia.
  - unfold m1 at 2. rewrite next_set_size.
    eapply lseg_frame; [|exact Hl1].
    intros r Hr. rewrite Forall_forall in Ha2. specialize (Ha2 r Hr).
    apply Hframe. lia.
  - rewrite Hframe by lia. exact Hz.
Qed.

(** The memory after the two updates of a release holds the coalesced
    list, and the predecessor found by the search is still a node of it. *)
Lemma free_links (m : memory) (l : list region) (bo n : Z) :
  lseg cfg m (next_offset (m first)) l END_OF_LIST ->
  regions_ok cfg l -> size (m first) = 0 ->
  0 <= bo -> 0 < n -> bo + n <= heap_size cfg ->
  Forall (fun r => fst r + snd r <= bo \/ bo + n <= fst r) l ->
  let prev_p := walk_end cfg first (before bo l) in
  let next_cp := next_offset (m prev_p) in
  let mb := free_update_prev m prev_p (area cfg + bo) bo n in
  let m2 := free_update_next (fst mb) (snd mb)
                             (JMEM_DECOMPRESS_POINTER_INTERNAL cfg next_cp) next_cp in
  lseg cfg m2 (next_offset (m2 first)) (coalesce bo n l) END_OF_LIST
  /\ size (m2 first) = 0
  /\ (prev_p = first \/ exists r, In r (coalesce bo n l) /\ prev_p = node cfg r).
Proof.
  intros Hl Hok Hz H0 Hn Hh Hd prev_p next_cp mb m2.
  pose proof (ok_first cfg cfg_ok) as Hfst.
  pose proof (before_ends bo n l Hn Hd) as He.
  pose proof (after_starts bo n l Hok Hd) as Hs.
  pose proof (ascending_regions l Hok) as Ha.
  pose proof Hok as Hok'. rewrite <- (before_after bo l) in Hok', Ha, Hl.
  pose proof (regions_ok_app_l _ _ Hok') as [Hf1 Hg1].
  pose proof (regions_ok_app_r _ _ Hok') as [Hf2 Hg2].
  apply ascending_app_l in Ha.
  apply lseg_app in Hl. destruct Hl as (mid & Hl1 & Hl2).
  assert (Hmid : next_cp = mid) by (apply lseg_walk_end; exact Hl1).
  assert (Hf1' : Forall (fun r => 0 <= fst r /\ 0 < snd r /\ fst r + snd r <= bo)
                        (before bo l)).
  { rewrite Forall_forall in *. intros r Hr.
    destruct (Hf1 r Hr) as (R1 & R2 & _). specialize (He r Hr). simpl in He. tauto. }
  (* the first update *)
  assert (H1 : exists l1x b,
             merge_prev (before bo l) bo n = (l1x, b)
             /\ snd mb = node cfg b /\ size (fst mb (node cfg b)) = snd b
             /\ lseg cfg (fst mb) (next_offset (fst mb first)) l1x (fst b)
             /\ size (fst mb first) = 0
             /\ (forall q, q <> area cfg + bo -> q <> prev_p -> fst mb q = m q)
             /\ first < node cfg b /\ Forall (fun r => node cfg r < node cfg b) l1x
             /\ 0 <= fst b /\ 0 < snd b /\ fst b + snd b = bo + n
             /\ (prev_p = first \/ prev_p = node cfg b
                 \/ exists r, In r l1x /\ prev_p = node cfg r)).
  { unfold mb, free_update_prev, jmem_heap_get_region_end.
    destruct (list_last_case (before bo l)) as [E|(l1' & p & E)].
    - unfold prev_p. rewrite E in *. simpl. rewrite Hz.
      rewrite (ptr32_small (first + 0))
        by (pose proof (ok_area cfg cfg_ok); pose proof (ok_first cfg cfg_ok);
            pose proof (ok_heap cfg cfg_ok); lia).
      replace (first + 0 =? area cfg + bo) with false
        by (symmetry; apply Z.eqb_neq; lia).
      destruct (free_update_prev_fresh m [] mid bo n) as (F1 & F2 & F3 & F4 & F5 & F6);
        try assumption.
      exists [], (bo, n). simpl in *. repeat split; auto.
    - unfold prev_p. rewrite E in *. rewrite walk_end_snoc, merge_prev_snoc.
      apply Forall_app in Hf1'. destruct Hf1' as [_ Hp].
      apply Forall_inv in Hp. destruct Hp as (P1 & P2 & P3).
      pose proof Hl1 as Hl1'. apply lseg_app in Hl1'.
      destruct Hl1' as (mid' & _ & Hl1'). simpl in Hl1'. destruct Hl1' as (_ & Hsz & _).
      rewrite Hsz.
      rewrite (ptr32_small (node cfg p + snd p))
        by (pose proof (ok_area cfg cfg_ok); pose proof (ok_first cfg cfg_ok);
            unfold node; lia).
      replace (node cfg p + snd p =? area cfg + bo) with (fst p + snd p =? bo)
        by (unfold node; destruct (Z.eqb_spec (fst p + snd p) bo);
            symmetry; [apply Z.eqb_eq|apply Z.eqb_neq]; lia).
      destruct (fst p + snd p =? bo) eqn:Ep.
      + apply Z.eqb_eq in Ep.
        destruct (free_update_prev_merged m l1' p mid bo n)
          as (F1 & F2 & F3 & F4 & F5 & F6); try assumption.
        rewrite Hsz in *.
        exists l1', (fst p, snd p + n). simpl.
        change (node cfg (fst p, snd p + n)) with (node cfg p).
        repeat split; auto; lia.
      + apply Z.eqb_neq in Ep.
        destruct (free_update_prev_fresh m (l1' ++ [p]) mid bo n)
          as (F1 & F2 & F3 & F4 & F5 & F6); try assumption.
        { apply Forall_app. split; [|constructor; [tauto|constructor]].
          rewrite Forall_forall in *. intros r Hr.
          destruct (Hf1 r (in_or_app _ _ _ (or_introl Hr))) as (R1 & R2 & _).
          specialize (He r (in_or_app _ _ _ (or_introl Hr))). simpl in He. tauto. }
        rewrite walk_end_snoc in *.
        exists (l1' ++ [p]), (bo, n). simpl.
        change (node cfg (bo, n)) with (area cfg + bo).
        repeat split; auto; try lia.
        right. right. exists p. split; [apply in_or_app; right; left|]; reflexivity. }
  destruct H1 as (l1x & b & Em & EB & Hsz & Hl1x & Hz1 & Hfr1 & HfB & Hlow & B0 & B1 & B2 & Hprev).
  (* the second update *)
  assert (Hl2' : lseg cfg (fst mb) mid (after bo l) END_OF_LIST).
  { eapply lseg_frame; [|exact Hl2]. intros r Hr.
    rewrite Forall_forall in Hs. specialize (Hs r Hr). simpl in Hs.
    apply Hfr1; [unfold node; lia|].
    destruct (walk_end_cases (before bo l) first) as [Ew|(r0 & Hr0 & Ew)];
      unfold prev_p; rewrite Ew.
    - rewrite Forall_forall in Hf2. destruct (Hf2 r Hr) as (R1 & _). unfold node. lia.
    - rewrite Forall_forall in Hf1'. destruct (Hf1' r0 Hr0) as (_ & Q1 & Q2).
      unfold node. lia. }
  destruct (free_update_next_spec (fst mb) b (after bo l) mid Hsz B0 B1 ltac:(lia) Hl2' Hf2)
    as [Hn1 Hn2].
  { eapply Forall_impl; [|exact Hs]. simpl. intros; lia. }
  unfold m2. rewrite EB, Hmid. unfold coalesce. rewrite Em.
  split; [|split].
  - apply lseg_app. exists (fst b). split; [|exact Hn1].
    rewrite Hn2 by lia. eapply lseg_frame; [|exact Hl1x].
    intros r Hr. rewrite Forall_forall in Hlow. specialize (Hlow r Hr).
    apply Hn2. lia.
  - rewrite Hn2 by lia. exact Hz1.
  - destruct Hprev as [Hp|[Hp|(r & Hr & Hp)]]; [left; exact Hp| |].
    + right.
      destruct (merge_next_ok b (after bo l)) as [_ (b' & t & Eb & Efb)];
        [unfold region_ok; lia|split; assumption|
         eapply Forall_impl; [|exact Hs]; simpl; intros; lia|].
      exists b'. split; [rewrite Eb; apply in_or_app; right; left; reflexivity|].
      rewrite Hp. unfold node. rewrite Efb. reflexivity.
    + right. exists r. split; [apply in_or_app; left; exact Hr|exact Hp].
Qed.

(** *** The occupancy walk *)

Lemma alloc_occupancy_loop_walk (fuel : nat) :
  forall left e fs segs,
    alloc_occupancy_loop cfg fuel left e fs segs
    = occupancy_walk cfg Z.add fuel left e fs segs.
Proof.
  induction fuel as [|fuel IH]; intros; simpl; [reflexivity|].
  destruct (left >? 0); [|reflexivity].
  destruct (nth_error _ _); [apply IH|reflexivity].
Qed.

Lemma free_occupancy_loop_walk (fuel : nat) :
  forall left e fs segs,
    free_occupancy_loop cfg fuel left e fs segs
    = occupancy_walk cfg Z.sub fuel left e fs segs.
Proof.
  induction fuel as [|fuel IH]; intros; simpl; [reflexivity|].
  destruct (left >? 0); [|reflexivity].
  destruct (nth_error _ _); [apply IH|reflexivity].
Qed.

Lemma length_list_set (l : list Z) (i : nat) (v : Z) :
  length (list_set l i v) = length l.
Proof.
  revert i. induction l as [|a t IH]; intros [|i]; simpl; try reflexivity.
  rewrite IH. reflexivity.
Qed.

Lemma nth_list_set (l : list Z) (i j : nat) (v : Z) :
  (i < length l)%nat ->
  nth j (list_set l i v) 0 = if Nat.eqb j i then v else nth j l 0.
Proof.
  revert i j. induction l as [|a t IH]; intros i j Hi; simpl in Hi; [lia|].
  destruct i as [|i], j as [|j]; simpl; try reflexivity.
  apply IH. lia.
Qed.

Lemma nth_error_nth_lt (l : list Z) (i : nat) :
  (i < length l)%nat -> nth_error l i = Some (nth i l 0).
Proof.
  revert i. induction l as [|a t IH]; intros i Hi; simpl in Hi; [lia|].
  destruct i as [|i]; simpl; [reflexivity|apply IH; lia].
Qed.

(** Position of an offset in the segment table. *)
Lemma segment_index (x segs_n : Z) :
  0 < SEG -> 0 <= x < SEG * segs_n ->
  0 <= x / SEG < segs_n /\ (x / SEG) * SEG <= x < (x / SEG + 1) * SEG.
Proof.
  intros Hs Hx.
  pose proof (Z.div_mod x SEG ltac:(lia)) as Hd.
  pose proof (Z.mod_pos_bound x SEG Hs) as Hm.
  assert (Hq : 0 <= x / SEG) by (apply Z.div_pos; lia).
  split; [split; [exact Hq|]|lia].
  apply Z.div_lt_upper_bound; lia.
Qed.

(** The first fragment of a block and the rest of it share the block
    between the segments. *)
Lemma seg_share_step (fs left i : Z) :
  0 < SEG -> 0 <= fs -> 0 < left ->
  let sidx := fs / SEG in
  let sz := Z.min (fs + left) ((sidx + 1) * SEG) - fs in
  0 < sz <= left
  /\ seg_share cfg fs left i
     = (if i =? sidx then sz else 0) + seg_share cfg (fs + sz) (left - sz) i
  /\ (i = sidx -> seg_share cfg (fs + sz) (left - sz) i = 0).
Proof.
  intros Hs H0 Hl sidx sz.
  pose proof (Z.div_mod fs SEG ltac:(lia)) as Hd.
  pose proof (Z.mod_pos_bound fs SEG Hs) as Hm.
  fold sidx in Hd.
  assert (Hlo : sidx * SEG <= fs) by lia.
  assert (Hhi : fs < (sidx + 1) * SEG) by lia.
  unfold seg_share. subst sz.
  destruct (Z.eqb_spec i sidx) as [->|Hne].
  - lia.
  - assert (Hi : (i + 1) * SEG <= sidx * SEG \/ (sidx + 1) * SEG <= i * SEG)
      by (destruct (Z_lt_ge_dec i sidx); [left|right]; nia).
    lia.
Qed.

Lemma occupancy_walk_spec (op : Z -> Z -> Z) (e : Z) :
  JMEM_SEGMENTED_HEAP cfg = true ->
  A <= e <= heap_size cfg ->
  forall (k : nat) (fs left : Z) (segs : list Z),
    (Z.to_nat left <= k)%nat ->
    0 <= fs -> 0 <= left -> fs + left = e ->
    length segs = Z.to_nat (SEG_NUM_SEGMENTS cfg) ->
    exists segs',
      (forall fuel, (k < fuel)%nat ->
                    occupancy_walk cfg op fuel left (e - A) fs segs = Done segs')
      /\ length segs' = length segs
      /\ forall i, nth i segs' 0 =
                   if 0 <? seg_share cfg fs left (Z.of_nat i)
                   then u32 (op (nth i segs 0) (seg_share cfg fs left (Z.of_nat i)))
                   else nth i segs 0.
Proof.
  intros Hseg He.
  pose proof (ok_align cfg cfg_ok) as HA.
  pose proof (ok_small cfg cfg_ok) as Hsmall.
  pose proof (ok_limit cfg cfg_ok) as Hlim.
  destruct (ok_seg cfg cfg_ok Hseg) as (HS & HSA & HN).
  assert (Hhs : heap_size cfg = SEG * SEG_NUM_SEGMENTS cfg)
    by (unfold heap_size; rewrite Hseg; reflexivity).
  induction k as [|k IH]; intros fs left segs Hk H0 Hl Hfe Hlen.
  - assert (left = 0) by lia. subst left.
    exists segs. split; [|split; [reflexivity|]].
    + intros [|fuel] Hf; [lia|]. reflexivity.
    + intros i. unfold seg_share.
      replace (0 <? _) with false by (symmetry; apply Z.ltb_ge; lia). reflexivity.
  - destruct (Z.eq_dec left 0) as [->|Hnz].
    { exists segs. split; [|split; [reflexivity|]].
      + intros [|fuel] Hf; [lia|]. reflexivity.
      + intros i. unfold seg_share.
        replace (0 <? _) with false by (symmetry; apply Z.ltb_ge; lia). reflexivity. }
    assert (Hpos : 0 < left) by lia.
    destruct (segment_index fs (SEG_NUM_SEGMENTS cfg) HS ltac:(lia)) as [Hix Hbd].
    set (sidx := fs / SEG) in *.
    set (sz := Z.min (fs + left) ((sidx + 1) * SEG) - fs).
    assert (Hsz : 0 < sz <= left) by (apply (seg_share_step fs left 0); assumption).
    assert (Hup : (sidx + 1) * SEG <= heap_size cfg) by (rewrite Hhs; nia).
    assert (Hsa : A <= SEG).
    { pose proof (Z.div_mod SEG A ltac:(lia)) as Hd. rewrite HSA in Hd.
      assert (0 < SEG / A) by nia. nia. }
    assert (Hix' : (Z.to_nat sidx < length segs)%nat) by (rewrite Hlen; lia).
    set (segs1 := list_set segs (Z.to_nat sidx)
                           (u32 (op (nth (Z.to_nat sidx) segs 0) sz))).
    destruct (IH (fs + sz) (left - sz) segs1) as (segs' & Hrun & Hlen' & Hnth);
      try lia.
    { unfold segs1. rewrite length_list_set. exact Hlen. }
    exists segs'. split; [|split].
    + intros [|fuel] Hf; [lia|]. simpl.
      replace (left >? 0) with true by (symmetry; apply Z.gtb_lt; lia).
      fold sidx.
      assert (E1 : u32 ((sidx + 1) * SEG - A) = (sidx + 1) * SEG - A)
        by (apply u32_small; unfold WORD; nia).
      rewrite E1.
      assert (E2 : (if e - A <? (sidx + 1) * SEG - A then e - A
                    else (sidx + 1) * SEG - A) = fs + sz - A).
      { unfold sz. destruct (Z.ltb_spec (e - A) ((sidx + 1) * SEG - A)); lia. }
      rewrite E2.
      replace (fs + sz - A - fs + A) with sz by lia.
      replace (fs + sz - A + A) with (fs + sz) by lia.
      rewrite (u32_small sz) by (unfold WORD; lia).
      rewrite (u32_small (fs + sz)) by (unfold WORD; lia).
      rewrite (int32_small sz) by lia.
      rewrite (int32_small (left - sz)) by lia.
      rewrite (nth_error_nth_lt segs _ Hix').
      apply Hrun. lia.
    + rewrite Hlen'. unfold segs1. apply length_list_set.
    + intros i. rewrite Hnth.
      destruct (seg_share_step fs left (Z.of_nat i) HS H0 Hpos) as (_ & Hdec & Hzero).
      fold sidx in Hdec, Hzero. fold sz in Hdec, Hzero.
      unfold segs1. rewrite nth_list_set by exact Hix'.
      destruct (Nat.eqb_spec i (Z.to_nat sidx)) as [Ei|Ei].
      * assert (Hi : Z.of_nat i = sidx) by lia.
        rewrite (Hzero Hi) in *. rewrite Hdec.
        replace (Z.of_nat i =? sidx) with true by (symmetry; apply Z.eqb_eq; exact Hi).
        simpl. replace (0 <? sz + 0) with true by (symmetry; apply Z.ltb_lt; lia).
        rewrite Ei, Z.add_0_r. reflexivity.
      * assert (Hi : Z.of_nat i <> sidx) by lia.
        rewrite Hdec.
        replace (Z.of_nat i =? sidx) with false by (symmetry; apply Z.eqb_neq; exact Hi).
        reflexivity.
Qed.

(** *** The limit loops *)

Lemma lower_limit_spec (bs : Z) :
  0 <= bs -> bs + LIMIT < WORD ->
  forall (k : nat) (lim : Z),
    (Z.to_nat lim <= k)%nat -> bs <= lim < WORD ->
    exists lim',
      (forall fuel, (k < fuel)%nat -> lower_limit cfg fuel bs lim = Done lim')
      /\ bs <= lim' <= lim /\ lim' < bs + LIMIT
      /\ lim' mod LIMIT = lim mod LIMIT.
Proof.
  intros Hbs Hw. pose proof (ok_limit cfg cfg_ok) as HL.
  induction k as [|k IH]; intros lim Hk Hlim.
  - assert (lim = 0) by lia. subst lim.
    exists 0. split; [|lia].
    intros [|fuel] Hf; [lia|]. simpl.
    rewrite size_t_small by lia.
    replace (bs + LIMIT <=? 0) with false by (symmetry; apply Z.leb_gt; lia).
    reflexivity.
  - destruct (Z_le_gt_dec (bs + LIMIT) lim) as [Hle|Hgt].
    + destruct (IH (lim - LIMIT)) as (lim' & Hrun & Hb1 & Hb2 & Hm); try lia.
      exists lim'. split; [|split; [lia|split; [exact Hb2|]]].
      * intros [|fuel] Hf; [lia|]. simpl.
        rewrite size_t_small by lia.
        replace (bs + LIMIT <=? lim) with true by (symmetry; apply Z.leb_le; lia).
        rewrite size_t_small by lia. apply Hrun. lia.
      * rewrite Hm. replace (lim - LIMIT) with (lim + (-1) * LIMIT) by lia.
        apply Z_mod_plus_full.
    + exists lim. split; [|lia].
      intros [|fuel] Hf; [lia|]. simpl.
      rewrite size_t_small by lia.
      replace (bs + LIMIT <=? lim) with false by (symmetry; apply Z.leb_gt; lia).
      reflexivity.
Qed.

Lemma raise_limit_spec (bs : Z) :
  0 <= bs -> bs + LIMIT < WORD ->
  forall (k : nat) (lim : Z),
    (Z.to_nat (bs + 1 - lim) <= k)%nat -> 0 <= lim < WORD ->
    exists lim',
      (forall fuel, (k < fuel)%nat -> raise_limit cfg fuel bs lim = Done lim')
      /\ bs < lim' /\ lim <= lim' /\ (lim' <= lim \/ lim' <= bs + LIMIT)
      /\ (bs < lim -> lim' = lim)
      /\ lim' mod LIMIT = lim mod LIMIT.
Proof.
  intros Hbs Hw. pose proof (ok_limit cfg cfg_ok) as HL.
  induction k as [|k IH]; intros lim Hk Hlim.
  - exists lim. split; [|lia].
    intros [|fuel] Hf; [lia|]. simpl.
    replace (bs >=? lim) with false by (symmetry; rewrite Z.geb_leb; apply Z.leb_gt; lia).
    reflexivity.
  - destruct (Z_lt_ge_dec bs lim) as [Hlt|Hge].
    + exists lim. split; [|lia].
      intros [|fuel] Hf; [lia|]. simpl.
      replace (bs >=? lim) with false by (symmetry; rewrite Z.geb_leb; apply Z.leb_gt; lia).
      reflexivity.
    + destruct (IH (lim + LIMIT)) as (lim' & Hrun & Hb1 & Hb2 & Hb3 & Hb4 & Hm); try lia.
      exists lim'. split; [|split; [lia|split; [lia|split; [lia|split; [lia|]]]]].
      * intros [|fuel] Hf; [lia|]. simpl.
        replace (bs >=? lim) with true by (symmetry; rewrite Z.geb_leb; apply Z.leb_le; lia).
        rewrite size_t_small by lia. apply Hrun. lia.
      * rewrite Hm. replace (lim + LIMIT) with (lim + 1 * LIMIT) by lia.
        apply Z_mod_plus_full.
Qed.

(** *** Sums over the segment table *)

Lemma sum_list_pointwise (l : list Z) :
  forall (l' : list Z) (f : nat -> Z) (i0 : nat),
    length l' = length l ->
    (forall i, (i < length l)%nat -> nth i l' 0 = nth i l 0 + f (i0 + i)%nat) ->
    sum_list l' = sum_list l + sum_list (map f (seq i0 (length l))).
Proof.
  induction l as [|a t IH]; intros l' f i0 Hlen Hnth.
  - destruct l'; [reflexivity|discriminate].
  - destruct l' as [|a' t']; [discriminate|]. simpl in *.
    pose proof (Hnth 0%nat ltac:(lia)) as H0. simpl in H0. rewrite Nat.add_0_r in H0.
    rewrite (IH t' f (S i0)); [lia|lia|].
    intros i Hi. specialize (Hnth (S i) ltac:(lia)). simpl in Hnth.
    rewrite Nat.add_succ_r in Hnth. exact Hnth.
Qed.

Lemma seg_share_total (start n : Z) :
  0 < SEG ->
  forall (k i0 : nat),
    sum_list (map (fun i => seg_share cfg start n (Z.of_nat i)) (seq i0 k))
    = Z.max 0 (Z.min (start + n) ((Z.of_nat i0 + Z.of_nat k) * SEG)
               - Z.max start (Z.of_nat i0 * SEG)).
Proof.
  intros HS. induction k as [|k IH]; intros i0.
  - simpl. lia.
  - simpl. rewrite IH. unfold seg_share.
    replace (Z.of_nat (S i0)) with (Z.of_nat i0 + 1) by lia.
    replace (Z.of_nat i0 + 1 + Z.of_nat k) with (Z.of_nat i0 + Z.of_nat (S k)) by lia.
    assert (Hk : (Z.of_nat i0 + 1) * SEG <= (Z.of_nat i0 + Z.of_nat (S k)) * SEG) by nia.
    assert (H1 : (Z.of_nat i0 + 1) * SEG = Z.of_nat i0 * SEG + SEG) by lia.
    lia.
Qed.

Lemma nth_le_sum (l : list Z) (i : nat) :
  Forall (fun v => 0 <= v) l -> 0 <= nth i l 0 <= sum_list l.
Proof.
  revert i. induction l as [|a t IH]; intros i Hf.
  - destruct i; simpl; lia.
  - inversion Hf as [|? ? Ha Ht]; subst. simpl.
    assert (0 <= sum_list t) by (specialize (IH 0%nat Ht); destruct t; simpl in *; lia).
    destruct i as [|i]; [simpl; lia|]. specialize (IH i Ht). simpl. lia.
Qed.

(** *** Where the search of the release starts and ends *)

Lemma free_search (st : heap) (l : list region) (bo : Z) :
  free_list cfg st l -> regions_ok cfg l -> skip_ok cfg st l ->
  skip_usable cfg st l ->
  0 <= bo < heap_size cfg ->
  let start := free_search_start cfg (area cfg + bo) st in
  exists s, forall fuel, (length l < fuel)%nat ->
    free_find_prev cfg fuel bo (fst start) (snd start)
    = Done (walk_end cfg first (before bo l), with_stats st s).
Proof.
  intros Hl Hok Hskip Huse Hbo start.
  set (block_p := area cfg + bo) in *.
  set (is_skip_ok :=
         if JMEM_SEGMENTED_HEAP cfg then
           JMEM_COMPRESS_POINTER_INTERNAL cfg block_p
             >? JMEM_COMPRESS_POINTER_INTERNAL cfg (jmem_heap_list_skip_p st)
         else block_p >? jmem_heap_list_skip_p st).
  assert (Estart : start = if is_skip_ok
                           then (jmem_heap_list_skip_p st, on_stats jmem_heap_stat_skip st)
                           else (first, on_stats jmem_heap_stat_nonskip st))
    by reflexivity.
  clearbody start. subst start.
  pose proof (ok_end cfg cfg_ok) as Hend.
  pose proof (ok_area cfg cfg_ok) as Harea.
  pose proof (ok_first cfg cfg_ok) as Hfst.
  assert (Hfirst : forall st0 s0, st0 = with_stats st s0 ->
            exists s, forall fuel, (length l < fuel)%nat ->
                      free_find_prev cfg fuel bo first st0
                      = Done (walk_end cfg first (before bo l), with_stats st s)).
  { intros st0 s0 ->.
    destruct (free_find_prev_walk bo l (proj1 Hok) first END_OF_LIST (with_stats st s0))
      as [s Hs]; [exact Hl|lia|].
    exists s. exact Hs. }
  assert (Hcb : JMEM_COMPRESS_POINTER_INTERNAL cfg block_p = bo).
  { unfold block_p. rewrite <- (decompress_in_heap bo) by lia.
    apply (compress_decompress bo). unfold WORD in *. lia. }
  assert (Hcases : jmem_heap_list_skip_p st = first
                   \/ (JMEM_SEGMENTED_HEAP cfg = true
                       /\ jmem_heap_list_skip_p st
                          = JMEM_DECOMPRESS_POINTER_INTERNAL cfg END_OF_LIST)
                   \/ exists r, In r l /\ jmem_heap_list_skip_p st = node cfg r).
  { destruct (JMEM_SEGMENTED_HEAP cfg) eqn:Eseg.
    - destruct Hskip as [Hs|[Hs|Hs]]; [left; exact Hs|right; left; split; [reflexivity|exact Hs]|
                                        right; right; exact Hs].
    - destruct (Huse Eseg) as [Hs|Hs]; [left; exact Hs|right; right; exact Hs]. }
  destruct Hcases as [Hs|[[Eseg Hs]|(r & Hr & Hs)]].
  - (* the sentinel *)
    rewrite Hs.
    destruct is_skip_ok; simpl; eapply Hfirst; reflexivity.
  - (* a segmented build and the value the fast path leaves *)
    assert (E : is_skip_ok = false).
    { unfold is_skip_ok. rewrite Eseg, Hs, Hcb, compress_decompress_end.
      rewrite Z.gtb_ltb. apply Z.ltb_ge. lia. }
    rewrite E. simpl. eapply Hfirst; reflexivity.
  - (* a node of the list *)
    assert (Hr_ok : region_ok cfg r)
      by (destruct Hok as [Hfa _]; rewrite Forall_forall in Hfa; apply Hfa, Hr).
    pose proof Hr_ok as (R1 & R2 & R3).
    assert (E : is_skip_ok = (bo >? fst r)).
    { unfold is_skip_ok. rewrite Hs, Hcb.
      rewrite <- (decompress_node r Hr_ok).
      rewrite (compress_decompress (fst r)) by (unfold WORD in *; lia).
      rewrite (decompress_node r Hr_ok). unfold node, block_p.
      destruct (JMEM_SEGMENTED_HEAP cfg); [reflexivity|].
      destruct (Z.gtb_spec bo (fst r)); [apply Z.gtb_lt|rewrite Z.gtb_ltb; apply Z.ltb_ge]; lia. }
    rewrite E.
    destruct (Z.gtb_spec bo (fst r)) as [Hgt|Hle];
      [|simpl; eapply Hfirst; reflexivity].
    simpl. rewrite Hs.
    apply in_split in Hr. destruct Hr as (la & lb & ->).
    unfold free_list in Hl. apply lseg_app in Hl. destruct Hl as (mid & _ & Hl).
    simpl in Hl. destruct Hl as (_ & _ & Hl).
    destruct Hok as [Hfa Hg].
    rewrite before_split; [|exact Hg|apply regions_pos; exact Hfa|lia].
    rewrite walk_end_app. simpl.
    assert (Hfb : Forall (region_ok cfg) lb).
    { apply Forall_app in Hfa. destruct Hfa as [_ Hfa]. inversion Hfa; assumption. }
    destruct (free_find_prev_walk bo lb Hfb (node cfg r) END_OF_LIST
                                  (on_stats jmem_heap_stat_skip st))
      as [s Hsx]; [exact Hl|lia|].
    exists s. intros fuel Hf. apply Hsx.
    rewrite length_app in Hf. simpl in Hf. lia.
Qed.

(** *** One release *)

Lemma jerry_assert_true (nd : bool) : JERRY_ASSERT nd true = Done tt.
Proof. unfold JERRY_ASSERT. rewrite orb_true_r. reflexivity. Qed.

Lemma jerry_assert_release (c : bool) : JERRY_ASSERT true c = Done tt.
Proof. reflexivity. Qed.

Lemma free_block_spec (st : heap) (l : list region) (ptr sz : Z) (small : bool) :
  heap_inv cfg st l ->
  skip_usable cfg st l ->
  releasable cfg l (jmem_heap_blocks_size st) (ptr, sz) ->
  let bo := block_offset_of cfg ptr in
  let n := jmem_align cfg sz in
  exists st',
    (forall fuel,
        (length l + Z.to_nat (jmem_heap_limit st) + Z.to_nat (heap_size cfg) < fuel)%nat ->
        jmem_heap_free_block_internal cfg fuel ptr sz small st = Done st')
    /\ heap_inv cfg st' (coalesce bo n l)
    /\ skip_valid cfg st' (coalesce bo n l)
    /\ jmem_heap_blocks_size st' = jmem_heap_blocks_size st - n
    /\ jmem_heap_allocated_blocks_count st'
       = size_t (jmem_heap_allocated_blocks_count st - 1)
    /\ jmem_heap_limit st' <= jmem_heap_limit st
    /\ jmem_heap_limit st' < jmem_heap_blocks_size st' + LIMIT
    /\ jmem_heap_limit st' mod LIMIT = jmem_heap_limit st mod LIMIT
    /\ length (segments st') = length (segments st)
    /\ (forall i, nth i (segments st') 0 =
                  if JMEM_SEGMENTED_HEAP cfg && (0 <? seg_share cfg bo n (Z.of_nat i))
                  then u32 (nth i (segments st) 0 - seg_share cfg bo n (Z.of_nat i))
                  else nth i (segments st) 0).
Proof.
  intros (Hl & Hok & Hz & Hskip & (Hbs & Hlim) & Hsegs) Huse
         (Hsz & Hov & Hbo & Hend' & Hn & Hd) bo n.
  simpl in Hsz, Hov, Hbo, Hend', Hn, Hd. fold bo in Hbo, Hend', Hd. fold n in Hend', Hn, Hd.
  pose proof (ok_align cfg cfg_ok) as HA.
  pose proof (ok_small cfg cfg_ok) as Hsmall.
  pose proof (ok_limit cfg cfg_ok) as HL.
  pose proof (ok_first cfg cfg_ok) as Hfst.
  pose proof (ok_end cfg cfg_ok) as Hend.
  destruct (jmem_align_bounds sz Hsz Hov) as [Hnb Hna]. fold n in Hnb, Hna.
  assert (HnA : A <= n) by (apply aligned_ge; lia).
  assert (Hptr : ptr = area cfg + bo) by (unfold bo, block_offset_of; lia).
  (* the search *)
  destruct (free_search (on_stats jmem_heap_stat_free_iter st) l bo Hl Hok Hskip Huse
                        ltac:(lia))
    as [s1 Hsearch].
  cbv zeta in Hsearch. rewrite <- Hptr in Hsearch.
  (* the links *)
  destruct (free_links (mem st) l bo n Hl Hok Hz Hbo ltac:(lia) Hend' Hd)
    as (Hl2 & Hz2 & Hprev).
  cbv zeta in Hl2, Hz2, Hprev. rewrite <- Hptr in Hl2, Hz2.
  set (prev_p := walk_end cfg first (before bo l)) in *.
  set (mb := free_update_prev (mem st) prev_p ptr bo n) in *.
  set (m2 := free_update_next (fst mb) (snd mb)
               (JMEM_DECOMPRESS_POINTER_INTERNAL cfg (next_offset (mem st prev_p)))
               (next_offset (mem st prev_p))) in *.
  (* the occupancy walk *)
  assert (Hwalk : exists segs',
             (forall fuel, (Z.to_nat (heap_size cfg) < fuel)%nat ->
                (if JMEM_SEGMENTED_HEAP cfg then
                   occupancy_walk cfg Z.sub fuel n (bo + n - A) bo (segments st)
                 else Done (segments st)) = Done segs')
             /\ length segs' = length (segments st)
             /\ forall i, nth i segs' 0 =
                  if JMEM_SEGMENTED_HEAP cfg && (0 <? seg_share cfg bo n (Z.of_nat i))
                  then u32 (nth i (segments st) 0 - seg_share cfg bo n (Z.of_nat i))
                  else nth i (segments st) 0).
  { destruct (JMEM_SEGMENTED_HEAP cfg) eqn:Eseg.
    - destruct (occupancy_walk_spec Z.sub (bo + n) Eseg ltac:(lia)
                  (Z.to_nat n) bo n (segments st) ltac:(lia) Hbo ltac:(lia) eq_refl
                  (Hsegs eq_refl)) as (segs' & Hrun & Hlen & Hnth).
      exists segs'. split; [|split; [exact Hlen|exact Hnth]].
      intros fuel Hf. apply Hrun. lia.
    - exists (segments st). split; [reflexivity|split; [reflexivity|]].
      intros i. reflexivity. }
  destruct Hwalk as (segs' & Hwalk & Hlen' & Hnth').
  (* the limit *)
  destruct (lower_limit_spec (jmem_heap_blocks_size st - n) ltac:(lia)
              ltac:(unfold WORD; lia) (Z.to_nat (jmem_heap_limit st))
              (jmem_heap_limit st) ltac:(lia) ltac:(lia))
    as (lim' & Hlower & Hlb1 & Hlb2 & Hlm).
  eexists. split; [|].
  - intros fuel Hf. unfold jmem_heap_free_block_internal.
    assert (Hhp : jmem_is_heap_pointer cfg ptr = true).
    { unfold jmem_is_heap_pointer, heap_size, NULL in *.
      destruct (JMEM_SEGMENTED_HEAP cfg).
      - apply negb_true_iff, Z.eqb_neq. lia.
      - apply andb_true_iff. split; [rewrite Z.geb_leb|]; apply Z.leb_le; lia. }
    rewrite Hhp, jerry_assert_true.
    replace (sz >? 0) with true by (symmetry; apply Z.gtb_lt; lia).
    rewrite jerry_assert_true.
    replace (jmem_heap_limit st >=? jmem_heap_blocks_size st) with true
      by (symmetry; rewrite Z.geb_leb; apply Z.leb_le; lia).
    rewrite jerry_assert_true. simpl bind. cbv beta.
    specialize (Hsearch fuel ltac:(lia)).
    assert (Hcp : JMEM_COMPRESS_POINTER_INTERNAL cfg ptr = bo).
    { rewrite Hptr, <- (decompress_in_heap bo) by lia.
      apply (compress_decompress bo). unfold WORD in *. lia. }
    match type of Hsearch with
    | free_find_prev _ _ _ (fst ?x) (snd ?x) = _ => destruct x as [p0 st0]
    end.
    rewrite Hcp. simpl in Hsearch. rewrite Hsearch. simpl bind. cbv beta iota.
    change (mem (with_stats (on_stats jmem_heap_stat_free_iter st) s1)) with (mem st).
    fold prev_p. fold n. fold mb.
    rewrite (surjective_pairing mb). fold m2.
    cbn [segments with_skip with_mem with_stats on_stats jmem_heap_blocks_size
         jmem_heap_allocated_blocks_count jmem_heap_limit].
    rewrite (int32_small n) by lia. rewrite (u32_small n) by (unfold WORD; lia).
    rewrite (u32_small (bo + n - A)) by (unfold WORD; lia).
    rewrite free_occupancy_loop_walk.
    specialize (Hwalk fuel ltac:(lia)).
    destruct (JMEM_SEGMENTED_HEAP cfg); rewrite ?Hwalk; simpl bind; cbv beta;
      cbn [segments with_skip with_mem with_stats on_stats with_segments with_blocks
           jmem_heap_blocks_size jmem_heap_allocated_blocks_count jmem_heap_limit];
      rewrite (size_t_small (jmem_heap_blocks_size st - n)) by (unfold WORD; lia);
      rewrite (Hlower fuel ltac:(lia)); simpl bind; cbv beta.
    + reflexivity.
    + injection Hwalk as <-. reflexivity.
  - cbn [segments with_skip with_mem with_stats on_stats with_segments with_blocks
         with_limit jmem_heap_blocks_size jmem_heap_allocated_blocks_count
         jmem_heap_limit jmem_heap_list_skip_p mem].
    assert (Hsv : skip_valid cfg
                    (on_stats (jmem_heap_stat_free cfg sz)
                       (with_limit
                          (with_blocks
                             (with_segments
                                (with_skip
                                   (with_mem
                                      (with_stats (on_stats jmem_heap_stat_free_iter st) s1)
                                      m2) prev_p) segs')
                             (jmem_heap_blocks_size st - n)
                             (size_t (jmem_heap_allocated_blocks_count st - 1))) lim'))
                    (coalesce bo n l)).
    { unfold skip_valid. simpl. exact Hprev. }
    split; [|split; [exact Hsv|repeat split; try assumption; try lia]].
    unfold heap_inv. split; [exact Hl2|]. split.
    { apply coalesce_regions_ok; try assumption; lia. }
    split; [exact Hz2|]. split.
    { destruct Hsv as [H|H]; [left; exact H|right; right; exact H]. }
    split.
    { unfold counters_ok. simpl. unfold WORD in *. lia. }
    intros Eseg. simpl. rewrite Hlen'. apply Hsegs. exact Eseg.
Qed.

(** *** Releasing a set of blocks *)

Lemma length_before_after (bo : Z) (l : list region) :
  (length (before bo l) + length (after bo l) = length l)%nat.
Proof. rewrite <- length_app, before_after. reflexivity. Qed.

Lemma length_coalesce (bo n : Z) (l : list region) :
  (length (coalesce bo n l) <= S (length l))%nat.
Proof.
  pose proof (length_before_after bo l) as H.
  unfold coalesce.
  assert (Hm : forall b l2, (length (merge_next b l2) <= S (length l2))%nat).
  { intros b [|nx t]; simpl; [lia|]. destruct (_ =? _); simpl; lia. }
  destruct (list_last_case (before bo l)) as [E|(l1' & p & E)]; rewrite E in *.
  - rewrite merge_prev_nil. simpl. specialize (Hm (bo, n) (after bo l)). simpl in H. lia.
  - rewrite merge_prev_snoc. rewrite length_app in H. simpl in H.
    destruct (_ =? bo); rewrite !length_app.
    + specialize (Hm (fst p, snd p + n) (after bo l)). lia.
    + specialize (Hm (bo, n) (after bo l)). simpl. lia.
Qed.

(** A block without a free byte is apart from every free region. *)
Lemma apart_of_pointwise (l : list region) (o n : Z) :
  Forall (fun r => 0 < snd r) l -> 0 < n ->
  (forall x, o <= x < o + n -> ~ covers l x) ->
  Forall (fun r => fst r + snd r <= o \/ o + n <= fst r) l.
Proof.
  intros Hp Hn Hc. rewrite Forall_forall in *. intros r Hr.
  specialize (Hp r Hr). simpl in Hp.
  destruct (Z_le_gt_dec (fst r + snd r) o) as [H1|H1]; [left; exact H1|].
  destruct (Z_le_gt_dec (o + n) (fst r)) as [H2|H2]; [right; exact H2|].
  exfalso. apply (Hc (Z.max o (fst r))); [lia|].
  unfold covers. apply Exists_exists. exists r. split; [exact Hr|lia].
Qed.

(** Two regions of a list with gaps are the same or lie apart. *)
Lemma gaps_apart (l : list region) (r1 r2 : region) :
  gaps l -> Forall (fun r => 0 < snd r) l -> In r1 l -> In r2 l ->
  r1 = r2 \/ fst r1 + snd r1 < fst r2 \/ fst r2 + snd r2 < fst r1.
Proof.
  induction l as [|a t IH]; intros Hg Hp H1 H2; [contradiction|].
  inversion Hp as [|? ? Ha Hpt]; subst.
  pose proof (gaps_beyond a t Hg Hpt) as Hb. rewrite Forall_forall in Hb.
  destruct H1 as [<-|H1], H2 as [<-|H2].
  - left; reflexivity.
  - right; left. apply Hb, H2.
  - right; right. apply Hb, H1.
  - apply IH; [eapply gaps_tail; exact Hg|assumption..].
Qed.

(** A range of free bytes lies in one free region, the only one it meets. *)
Lemma covered_range_single (l : list region) (a b : Z) :
  regions_ok cfg l -> a < b ->
  (forall x, a <= x < b -> covers l x) ->
  exists r, In r l /\ fst r <= a /\ b <= fst r + snd r
            /\ forall r', In r' l -> (exists x, a <= x < b /\ in_span r' x) -> r' = r.
Proof.
  intros [Hf Hg] Hab Hc.
  pose proof (regions_pos l Hf) as Hp.
  destruct (proj1 (Exists_exists _ _) (Hc a ltac:(lia))) as (r & Hr & Hra).
  assert (Hend : b <= fst r + snd r).
  { destruct (Z_le_gt_dec b (fst r + snd r)) as [H|H]; [exact H|exfalso].
    destruct (proj1 (Exists_exists _ _) (Hc (fst r + snd r) ltac:(lia)))
      as (r2 & Hr2 & Hr2x).
    destruct (gaps_apart l r r2 Hg Hp Hr Hr2) as [E|[E|E]]; [subst r2|..]; lia. }
  exists r. repeat split; [exact Hr|lia|exact Hend|].
  intros r' Hr' (x & Hx & Hrx). unfold in_span in Hrx.
  destruct (gaps_apart l r r' Hg Hp Hr Hr') as [E|[E|E]]; [symmetry; exact E|lia..].
Qed.

Lemma free_blocks_spec (blocks : list (Z * Z)) :
  forall (st : heap) (l : list region),
    heap_inv cfg st l ->
    skip_usable cfg st l ->
    live_bytes cfg l (jmem_heap_blocks_size st) blocks ->
    exists st',
      (forall fuel,
          (length l + length blocks + Z.to_nat (jmem_heap_limit st)
           + Z.to_nat (heap_size cfg) < fuel)%nat ->
          free_blocks cfg fuel blocks st = Done st')
      /\ heap_inv cfg st' (coalesce_all cfg l blocks)
      /\ (blocks <> [] -> skip_valid cfg st' (coalesce_all cfg l blocks))
      /\ forall x, covers (coalesce_all cfg l blocks) x <->
                   covers l x \/ exists b, In b blocks /\ in_span (block_span cfg b) x.
Proof.
  induction blocks as [|b rest IH]; intros st l Hinv Huse (Hall & Hpair & Hsum).
  - exists st. split; [reflexivity|split; [exact Hinv|split; [congruence|]]].
    intros x. simpl. split; [tauto|intros [H|(b & [] & _)]; exact H].
  - inversion Hall as [|? ? (B1 & B2 & B3 & B4 & B5) Hall']; subst.
    inversion Hpair as [|? ? Hb Hpair']; subst.
    assert (Hsum' : snd (block_span cfg b)
                    + sum_list (map (fun b => snd (block_span cfg b)) rest)
                    <= jmem_heap_blocks_size st) by exact Hsum.
    clear Hsum.
    pose proof Hinv as (_ & Hok & _).
    destruct (jmem_align_bounds (snd b) B1 B2) as [Hnb _].
    assert (Hn : 0 < snd (block_span cfg b)) by (simpl; lia).
    assert (Hrest : 0 <= sum_list (map (fun b => snd (block_span cfg b)) rest)).
    { clear - Hall' cfg_ok. induction rest as [|c t IHt]; simpl; [lia|].
      inversion Hall' as [|? ? (C1 & C2 & _) Ht]; subst.
      destruct (jmem_align_bounds (snd c) C1 C2) as [Hc _]. specialize (IHt Ht).
      simpl in *. lia. }
    destruct (free_block_spec st l (fst b) (snd b) false Hinv Huse)
      as (st1 & Hrun1 & Hinv1 & Hsv1 & Hbs1 & _ & Hlim1 & _).
    { unfold releasable. simpl in *. repeat split; try assumption; try lia.
      apply apart_of_pointwise; [apply regions_pos, Hok|exact Hn|exact B5]. }
    cbv zeta in *.
    change (block_offset_of cfg (fst b)) with (fst (block_span cfg b)) in *.
    change (jmem_align cfg (snd b)) with (snd (block_span cfg b)) in *.
    set (l1 := coalesce (fst (block_span cfg b)) (snd (block_span cfg b)) l) in *.
    assert (Hcov1 : forall x, covers l1 x <-> covers l x \/ in_span (block_span cfg b) x).
    { intros x. unfold l1. rewrite coalesce_covers by assumption. reflexivity. }
    destruct (IH st1 l1 Hinv1 (fun _ => Hsv1)) as (st' & Hrun & Hinv' & Hsv' & Hcov').
    { split; [|split; [exact Hpair'|rewrite Hbs1; lia]].
      rewrite Forall_forall in *. intros c Hc.
      destruct (Hall' c Hc) as (C1 & C2 & C3 & C4 & C5).
      repeat split; try assumption.
      intros x Hx Hcx. apply Hcov1 in Hcx. destruct Hcx as [Hcx|Hcx].
      - exact (C5 x Hx Hcx).
      - exact (Hb c Hc x Hcx Hx). }
    exists st'. split; [|split; [exact Hinv'|split]].
    + intros fuel Hf. simpl. unfold jmem_heap_free_block.
      rewrite Hrun1 by (simpl in Hf; lia). simpl. apply Hrun.
      pose proof (length_coalesce (fst (block_span cfg b)) (snd (block_span cfg b)) l).
      fold l1 in H. simpl in Hf. lia.
    + intros _. change (coalesce_all cfg l (b :: rest)) with (coalesce_all cfg l1 rest).
      destruct rest as [|c rest']; [|apply Hsv'; discriminate].
      change (coalesce_all cfg l1 []) with l1.
      assert (st' = st1) by (specialize (Hrun _ (Nat.lt_succ_diag_r _)); simpl in Hrun; congruence).
      subst st'. exact Hsv1.
    + intros x. change (coalesce_all cfg l (b :: rest)) with (coalesce_all cfg l1 rest).
      rewrite Hcov', Hcov1. split.
      * intros [[H|H]|(c & Hc & H)].
        -- left; exact H.
        -- right. exists b. split; [left; reflexivity|exact H].
        -- right. exists c. split; [right; exact Hc|exact H].
      * intros [H|(c & [<-|Hc] & H)].
        -- left; left; exact H.
        -- left; right; exact H.
        -- right. exists c. split; assumption.
Qed.

Lemma live_blocks_bytes (l : list region) (bs : Z) (blocks : list (Z * Z)) :
  live_blocks cfg l bs blocks -> live_bytes cfg l bs blocks.
Proof.
  intros (Hall & Hpair & Hsum). split; [|split; [|exact Hsum]].
  - eapply Forall_impl; [|exact Hall]. simpl.
    intros b (B1 & B2 & B3 & B4 & B5). repeat split; try assumption.
    intros x Hx Hc. apply Exists_exists in Hc. destruct Hc as (r & Hr & Hrx).
    rewrite Forall_forall in B5. specialize (B5 r Hr).
    unfold apart, in_span in *. simpl in *. lia.
  - clear Hall Hsum. induction Hpair as [|b t Hb Ht IH]; [constructor|].
    constructor; [|exact IH].
    eapply Forall_impl; [|exact Hb]. simpl. intros c Hc x Hx1 Hx2.
    unfold apart, in_span in *. simpl in *. lia.
Qed.

(** Coalescing on release.  In a heap that satisfies the invariant and
    whose skip pointer the release can use (in a static build: the sentinel
    or a node of the list), releasing the blocks of any list of allocated
    blocks, in the order of the list, whose spans cover the range
    [[a, b)]: with enough fuel every release returns; the free list is then
    the one obtained by applying, release after release, the rule of the
    specification (the block joins its predecessor exactly when the
    predecessor ends at the block, and absorbs its successor exactly when
    the merged region ends at the successor); this list has no two adjacent
    regions; exactly one of its regions meets the range, and it contains
    the whole range; and when the blocks lie inside the range and the bytes
    next to it are not free, that region is exactly [[a, b)]. *)
Theorem coalescing_on_free (st : heap) (l : list region)
        (blocks : list (Z * Z)) (a b : Z) :
  heap_inv cfg st l ->
  skip_usable cfg st l ->
  live_blocks cfg l (jmem_heap_blocks_size st) blocks ->
  a < b ->
  (forall x, a <= x < b ->
             exists blk, In blk blocks /\ in_span (block_span cfg blk) x) ->
  exists st',
    (forall fuel,
        (length l + length blocks + Z.to_nat (jmem_heap_limit st)
         + Z.to_nat (heap_size cfg) < fuel)%nat ->
        free_blocks cfg fuel blocks st = Done st')
    /\ free_list cfg st' (coalesce_all cfg l blocks)
    /\ gaps (coalesce_all cfg l blocks)
    /\ (exists r,
           In r (coalesce_all cfg l blocks)
           /\ fst r <= a /\ b <= fst r + snd r
           /\ forall r', In r' (coalesce_all cfg l blocks) ->
                         (exists x, a <= x < b /\ in_span r' x) -> r' = r)
    /\ ((forall blk x, In blk blocks -> in_span (block_span cfg blk) x -> a <= x < b) ->
        ~ covers l (a - 1) -> ~ covers l b ->
        In (a, b - a) (coalesce_all cfg l blocks)).
Proof.
  intros Hinv Huse Hlive Hab Hcover.
  destruct (free_blocks_spec blocks st l Hinv Huse (live_blocks_bytes _ _ _ Hlive))
    as (st' & Hrun & Hinv' & _ & Hcov).
  destruct Hinv' as (Hl' & Hok' & _).
  assert (Hrange : forall x, a <= x < b -> covers (coalesce_all cfg l blocks) x).
  { intros x Hx. apply Hcov. right. apply Hcover. exact Hx. }
  destruct (covered_range_single _ a b Hok' Hab Hrange) as (r & Hr & Hra & Hrb & Huniq).
  exists st'. split; [exact Hrun|split; [exact Hl'|split; [apply Hok'|split]]].
  - exists r. repeat split; assumption.
  - intros Hin Hna Hnb.
    assert (Hnot : forall x, ~ a <= x < b -> ~ covers l x ->
                             ~ covers (coalesce_all cfg l blocks) x).
    { intros x Hx Hl Hc. apply Hcov in Hc. destruct Hc as [Hc|(blk & Hblk & Hc)].
      - exact (Hl Hc).
      - exact (Hx (Hin blk x Hblk Hc)). }
    assert (Hcr : forall x, in_span r x -> covers (coalesce_all cfg l blocks) x).
    { intros x Hx. apply Exists_exists. exists r. split; [exact Hr|exact Hx]. }
    destruct r as [o s]. simpl in *.
    assert (o = a).
    { destruct (Z.eq_dec o a) as [E|E]; [exact E|exfalso].
      apply (Hnot (a - 1)); [lia|exact Hna|]. apply Hcr. unfold in_span. simpl. lia. }
    assert (o + s = b).
    { destruct (Z.eq_dec (o + s) b) as [E|E]; [exact E|exfalso].
      apply (Hnot b); [lia|exact Hnb|]. apply Hcr. unfold in_span. simpl. lia. }
    replace (b - a) with s by lia. subst o. exact Hr.
Qed.

(** *** The walk of the allocation *)

Lemma slow_loop_fail (need : Z) (l : list region) :
  forall (cur prev : Z) (st : heap),
    lseg cfg (mem st) cur l END_OF_LIST ->
    Forall (fun r => region_ok cfg r /\ snd r < need) l ->
    exists s, forall fuel, (length l < fuel)%nat ->
      slow_loop cfg fuel need cur prev st = Done (NULL, with_stats st s).
Proof.
  pose proof (ok_end cfg cfg_ok) as Hend.
  induction l as [|r t IH]; intros cur prev st Hl Hf.
  - simpl in Hl. subst cur. exists (jmem_heap_stats st).
    intros [|fuel] Hfu; [simpl in Hfu; lia|]. simpl.
    rewrite Z.eqb_refl, with_stats_same. reflexivity.
  - simpl in Hl. destruct Hl as (-> & Hsz & Hl).
    inversion Hf as [|? ? (Hr & Hlt) Hf']; subst.
    destruct (IH (next_offset (mem st (node cfg r))) (node cfg r)
                 (on_stats jmem_heap_stat_alloc_iter st) Hl Hf') as [s Hs].
    exists s. intros [|fuel] Hfu; [simpl in Hfu; lia|]. simpl.
    replace (fst r =? END_OF_LIST) with false
      by (symmetry; apply Z.eqb_neq; destruct Hr as (R1 & R2 & R3); lia).
    rewrite (decompress_node r Hr). rewrite Hsz.
    replace (snd r >=? need) with false
      by (symmetry; rewrite Z.geb_leb; apply Z.leb_gt; lia).
    apply Hs. simpl in Hfu. lia.
Qed.

Lemma slow_loop_fit (need : Z) (la : list region) (r : region) (lb : list region) :
  forall (cur prev : Z) (st : heap),
    lseg cfg (mem st) cur (la ++ r :: lb) END_OF_LIST ->
    Forall (fun r => region_ok cfg r /\ snd r < need) la ->
    region_ok cfg r -> need <= snd r ->
    exists s, forall fuel,
      slow_loop cfg (length la + S fuel) need cur prev st
      = slow_take cfg fuel need (fst r) (walk_end cfg prev la) (with_stats st s).
Proof.
  pose proof (ok_end cfg cfg_ok) as Hend.
  induction la as [|a t IH]; intros cur prev st Hl Hf Hr Hfit.
  - simpl in Hl. destruct Hl as (-> & Hsz & Hl).
    exists (jmem_heap_stats (on_stats jmem_heap_stat_alloc_iter st)).
    intros fuel. simpl.
    replace (fst r =? END_OF_LIST) with false
      by (symmetry; apply Z.eqb_neq; destruct Hr as (R1 & R2 & R3); lia).
    rewrite (decompress_node r Hr). rewrite Hsz.
    replace (snd r >=? need) with true
      by (symmetry; rewrite Z.geb_leb; apply Z.leb_le; lia).
    reflexivity.
  - simpl in Hl. destruct Hl as (-> & Hsz & Hl).
    inversion Hf as [|? ? (Ha & Hlt) Hf']; subst.
    destruct (IH (next_offset (mem st (node cfg a))) (node cfg a)
                 (on_stats jmem_heap_stat_alloc_iter st) Hl Hf' Hr Hfit) as [s Hs].
    exists s. intros fuel. simpl.
    replace (fst a =? END_OF_LIST) with false
      by (symmetry; apply Z.eqb_neq; destruct Ha as (R1 & R2 & R3); lia).
    rewrite (decompress_node a Ha). rewrite Hsz.
    replace (snd a >=? need) with false
      by (symmetry; rewrite Z.geb_leb; apply Z.leb_gt; lia).
    apply Hs.
Qed.

(** The regions of a list that holds no fit, as the walk meets them. *)
Lemma regions_too_small (need : Z) (l : list region) :
  Forall (region_ok cfg) l -> Forall (fun r => snd r < need) l ->
  Forall (fun r => region_ok cfg r /\ snd r < need) l.
Proof.
  intros H1 H2. rewrite Forall_forall in *. intros r Hr.
  split; [apply H1|apply H2]; exact Hr.
Qed.

Lemma first_fit_none (need : Z) (l : list region) :
  first_fit need l = None -> Forall (fun r => snd r < need) l.
Proof.
  unfold first_fit. intros H. rewrite Forall_forall. intros r Hr.
  pose proof (find_none _ _ H r Hr) as Hx. simpl in Hx. apply Z.leb_gt in Hx. exact Hx.
Qed.

Lemma first_fit_some (need : Z) (l : list region) (r : region) :
  first_fit need l = Some r ->
  exists la lb, l = la ++ r :: lb /\ Forall (fun x => snd x < need) la /\ need <= snd r.
Proof.
  unfold first_fit. induction l as [|a t IH]; simpl; [discriminate|].
  destruct (need <=? snd a) eqn:E.
  - intros H. injection H as <-. exists [], t. simpl.
    split; [reflexivity|split; [constructor|apply Z.leb_le; exact E]].
  - intros H. destruct (IH H) as (la & lb & -> & Hla & Hr).
    exists (a :: la), lb. split; [reflexivity|split; [|exact Hr]].
    constructor; [apply Z.leb_gt; exact E|exact Hla].
Qed.

Lemma regions_not_end (l : list region) :
  Forall (region_ok cfg) l -> Forall (fun r => fst r <> END_OF_LIST) l.
Proof.
  pose proof (ok_end cfg cfg_ok) as Hend.
  apply Forall_impl. intros r (R1 & R2 & R3). lia.
Qed.

(** The region found is taken: the block counters, the occupancy of the
    segments it touches, the links and the skip pointer. *)
Lemma slow_take_spec (need : Z) (r : region) (prev : Z) (st : heap) :
  region_ok cfg r -> A <= need <= snd r ->
  0 <= jmem_heap_blocks_size st <= heap_size cfg ->
  (JMEM_SEGMENTED_HEAP cfg = true ->
   length (segments st) = Z.to_nat (SEG_NUM_SEGMENTS cfg)) ->
  exists segs',
    (forall fuel, (Z.to_nat (heap_size cfg) < fuel)%nat ->
       slow_take cfg fuel need (fst r) prev st
       = Done (node cfg r,
               with_skip
                 (with_mem
                    (with_segments
                       (with_blocks st (jmem_heap_blocks_size st + need)
                                    (size_t (jmem_heap_allocated_blocks_count st + 1)))
                       segs')
                    (slow_relink cfg (mem st) need (fst r) prev
                                 (next_offset (mem st (node cfg r)))))
                 prev))
    /\ length segs' = length (segments st)
    /\ forall i, nth i segs' 0 =
         if JMEM_SEGMENTED_HEAP cfg && (0 <? seg_share cfg (fst r) need (Z.of_nat i))
         then u32 (nth i (segments st) 0 + seg_share cfg (fst r) need (Z.of_nat i))
         else nth i (segments st) 0.
Proof.
  intros (R1 & R2 & R3) Hneed Hbs Hsegs.
  pose proof (ok_align cfg cfg_ok) as HA.
  pose proof (ok_small cfg cfg_ok) as Hsmall.
  pose proof (ok_limit cfg cfg_ok) as HL.
  assert (Hwalk : exists segs',
             (forall fuel, (Z.to_nat (heap_size cfg) < fuel)%nat ->
                (if JMEM_SEGMENTED_HEAP cfg then
                   occupancy_walk cfg Z.add fuel need (fst r + need - A) (fst r) (segments st)
                 else Done (segments st)) = Done segs')
             /\ length segs' = length (segments st)
             /\ forall i, nth i segs' 0 =
                  if JMEM_SEGMENTED_HEAP cfg && (0 <? seg_share cfg (fst r) need (Z.of_nat i))
                  then u32 (nth i (segments st) 0 + seg_share cfg (fst r) need (Z.of_nat i))
                  else nth i (segments st) 0).
  { destruct (JMEM_SEGMENTED_HEAP cfg) eqn:Eseg.
    - destruct (occupancy_walk_spec Z.add (fst r + need) Eseg ltac:(lia)
                  (Z.to_nat need) (fst r) need (segments st) ltac:(lia) R1 ltac:(lia) eq_refl
                  (Hsegs eq_refl)) as (segs' & Hrun & Hlen & Hnth).
      exists segs'. split; [|split; [exact Hlen|exact Hnth]].
      intros fuel Hf. apply Hrun. lia.
    - exists (segments st). split; [reflexivity|split; [reflexivity|]].
      intros i. reflexivity. }
  destruct Hwalk as (segs' & Hwalk & Hlen' & Hnth').
  exists segs'. split; [|split; [exact Hlen'|exact Hnth']].
  intros fuel Hf. specialize (Hwalk fuel Hf).
  unfold slow_take.
  cbn [segments with_blocks mem jmem_heap_blocks_size jmem_heap_allocated_blocks_count].
  rewrite (int32_small need) by lia. rewrite (u32_small need) by (unfold WORD; lia).
  rewrite (u32_small (fst r + need - A)) by (unfold WORD; lia).
  rewrite alloc_occupancy_loop_walk.
  rewrite (size_t_small (jmem_heap_blocks_size st + need)) by (unfold WORD; lia).
  rewrite (decompress_node r (conj R1 (conj R2 R3))).
  destruct (JMEM_SEGMENTED_HEAP cfg).
  - rewrite Hwalk. reflexivity.
  - injection Hwalk as <-. reflexivity.
Qed.

(** *** The fast path *)

(** A granule at an aligned offset lies in one segment. *)
Lemma seg_share_granule (o i : Z) :
  JMEM_SEGMENTED_HEAP cfg = true -> 0 <= o -> o mod A = 0 ->
  seg_share cfg o A i = if i =? o / SEG then A else 0.
Proof.
  intros Hseg H0 Hal.
  pose proof (ok_align cfg cfg_ok) as HA.
  destruct (ok_seg cfg cfg_ok Hseg) as (HS & HSA & HN).
  destruct (seg_share_step o A i HS H0 HA) as (Hsz & Hdec & _).
  cbv zeta in Hdec, Hsz.
  pose proof (Z.div_mod o SEG ltac:(lia)) as Hd.
  pose proof (Z.mod_pos_bound o SEG HS) as Hm.
  assert (Hfit : o + A <= (o / SEG + 1) * SEG).
  { pose proof (Z.div_mod o A ltac:(lia)) as Ho. rewrite Hal in Ho.
    pose proof (Z.div_mod SEG A ltac:(lia)) as Hs. rewrite HSA in Hs.
    assert (Hlt : o < (o / SEG + 1) * SEG) by lia.
    assert (Hk : (o / SEG + 1) * SEG = A * ((o / SEG + 1) * (SEG / A))) by nia.
    assert (o / A < (o / SEG + 1) * (SEG / A)) by nia.
    nia. }
  rewrite Hdec.
  replace (Z.min (o + A) ((o / SEG + 1) * SEG) - o) with A by lia.
  replace (A - A) with 0 by lia.
  unfold seg_share at 1.
  destruct (i =? o / SEG); lia.
Qed.

Lemma fast_path_spec (st : heap) (r : region) (t : list region) (small : bool) :
  heap_inv cfg st (r :: t) -> A <= snd r ->
  exists st',
    jmem_heap_alloc_block_internal_fast cfg small st = Done (node cfg r, st')
    /\ free_list cfg st' (if snd r =? A then t else (fst r + A, snd r - A) :: t)
    /\ (snd r <> A ->
        mem st' (node cfg r + A) = mkFree (next_offset (mem st (node cfg r))) (snd r - A))
    /\ size (mem st' first) = 0
    /\ jmem_heap_list_skip_p st'
       = (if node cfg r =? jmem_heap_list_skip_p st
          then JMEM_DECOMPRESS_POINTER_INTERNAL cfg (next_offset (mem st' first))
          else jmem_heap_list_skip_p st)
    /\ jmem_heap_blocks_size st' = jmem_heap_blocks_size st + A
    /\ jmem_heap_allocated_blocks_count st'
       = size_t (jmem_heap_allocated_blocks_count st + 1)
    /\ jmem_heap_limit st' = jmem_heap_limit st
    /\ length (segments st') = length (segments st)
    /\ (forall i, nth i (segments st') 0 =
                  if JMEM_SEGMENTED_HEAP cfg && (Z.of_nat i =? fst r / SEG)
                  then u32 (nth i (segments st) 0 + A)
                  else nth i (segments st) 0).
Proof.
  intros (Hl & Hok & Hz & Hskip & (Hbs & Hlim) & Hsegs) HAr.
  pose proof (ok_align cfg cfg_ok) as HA.
  pose proof (ok_small cfg cfg_ok) as Hsmall.
  pose proof (ok_limit cfg cfg_ok) as HL.
  pose proof (ok_first cfg cfg_ok) as Hfst.
  pose proof (ok_end cfg cfg_ok) as Hend.
  destruct Hok as [Hf Hg]. inversion Hf as [|? ? (R1 & R2 & R3) Hft]; subst.
  pose proof (gaps_beyond r t Hg (regions_pos t Hft)) as Hbeyond.
  unfold free_list in Hl. simpl in Hl. destruct Hl as (Hn & Hsz & Hl).
  (* the segment table *)
  assert (Hseg : exists segs',
             (if JMEM_SEGMENTED_HEAP cfg then
                match nth_error (segments st) (Z.to_nat (fst r / SEG)) with
                | Some occ => Some (list_set (segments st) (Z.to_nat (fst r / SEG))
                                             (u32 (occ + A)))
                | None => None
                end
              else Some (segments st)) = Some segs'
             /\ length segs' = length (segments st)
             /\ forall i, nth i segs' 0 =
                  if JMEM_SEGMENTED_HEAP cfg && (Z.of_nat i =? fst r / SEG)
                  then u32 (nth i (segments st) 0 + A)
                  else nth i (segments st) 0).
  { destruct (JMEM_SEGMENTED_HEAP cfg) eqn:Eseg.
    - destruct (ok_seg cfg cfg_ok Eseg) as (HS & HSA & HN).
      assert (Hhs : heap_size cfg = SEG * SEG_NUM_SEGMENTS cfg)
        by (unfold heap_size; rewrite Eseg; reflexivity).
      destruct (segment_index (fst r) (SEG_NUM_SEGMENTS cfg) HS ltac:(lia)) as [Hix _].
      assert (Hix' : (Z.to_nat (fst r / SEG) < length (segments st))%nat)
        by (rewrite (Hsegs eq_refl); lia).
      rewrite (nth_error_nth_lt _ _ Hix'). eexists. split; [reflexivity|].
      split; [apply length_list_set|].
      intros i. rewrite nth_list_set by exact Hix'. simpl.
      destruct (Nat.eqb_spec i (Z.to_nat (fst r / SEG))) as [E|E].
      + replace (Z.of_nat i =? fst r / SEG) with true
          by (symmetry; apply Z.eqb_eq; lia). rewrite E. reflexivity.
      + replace (Z.of_nat i =? fst r / SEG) with false
          by (symmetry; apply Z.eqb_neq; lia). reflexivity.
    - exists (segments st). split; [reflexivity|split; [reflexivity|]].
      intros i. reflexivity. }
  destruct Hseg as (segs' & Hseg & Hlen' & Hnth').
  unfold jmem_heap_alloc_block_internal_fast.
  cbn [mem with_blocks segments jmem_heap_blocks_size jmem_heap_allocated_blocks_count].
  rewrite Hn. rewrite (decompress_node r (conj R1 (conj R2 R3))).
  rewrite (size_t_small (jmem_heap_blocks_size st + A)) by (unfold WORD; lia).
  assert (Hbind : (if JMEM_SEGMENTED_HEAP cfg
                   then
                     match nth_error (segments st) (Z.to_nat (fst r / SEG)) with
                     | Some occupied_size =>
                       Done (with_segments
                               (with_blocks st (jmem_heap_blocks_size st + A)
                                  (size_t (jmem_heap_allocated_blocks_count st + 1)))
                               (list_set (segments st) (Z.to_nat (fst r / SEG))
                                         (u32 (occupied_size + A))))
                     | None => Stuck OutOfBounds
                     end
                   else Done (with_blocks st (jmem_heap_blocks_size st + A)
                                (size_t (jmem_heap_allocated_blocks_count st + 1))))
                  = Done (with_segments
                            (with_blocks st (jmem_heap_blocks_size st + A)
                               (size_t (jmem_heap_allocated_blocks_count st + 1)))
                            segs')).
  { destruct (JMEM_SEGMENTED_HEAP cfg).
    - destruct (nth_error _ _); [|discriminate]. injection Hseg as <-. reflexivity.
    - injection Hseg as <-. reflexivity. }
  rewrite Hbind. simpl bind. cbv beta.
  cbn [mem with_blocks with_segments with_mem with_skip on_stats with_stats segments
       jmem_heap_blocks_size jmem_heap_allocated_blocks_count jmem_heap_list_skip_p
       jmem_heap_limit].
  rewrite Hsz.
  assert (Htail : forall m', (forall q, q <> first -> q <> node cfg r + A -> m' q = mem st q) ->
                   lseg cfg m' (next_offset (mem st (node cfg r))) t END_OF_LIST).
  { intros m' Hm'. eapply lseg_frame; [|exact Hl]. intros x Hx.
    rewrite Forall_forall in Hbeyond, Hft.
    specialize (Hbeyond x Hx). destruct (Hft x Hx) as (X1 & _).
    apply Hm'; unfold node; lia. }
  eexists. split; [reflexivity|].
  cbn [mem with_blocks with_segments with_mem with_skip on_stats with_stats segments
       jmem_heap_blocks_size jmem_heap_allocated_blocks_count jmem_heap_list_skip_p
       jmem_heap_limit].
  unfold free_list.
  destruct (Z.eqb_spec (snd r) A) as [E|E].
  - (* the region is unlinked *)
    match goal with |- context [if ?c then with_skip ?s ?p else ?s'] =>
      assert (Hm : forall c0 : bool, mem (if c0 then with_skip s p else s') = mem s')
        by (intros []; reflexivity);
      assert (Hb : forall c0 : bool, jmem_heap_blocks_size (if c0 then with_skip s p else s')
                         = jmem_heap_blocks_size s') by (intros []; reflexivity);
      assert (Hc : forall c0 : bool, jmem_heap_allocated_blocks_count
                           (if c0 then with_skip s p else s')
                         = jmem_heap_allocated_blocks_count s') by (intros []; reflexivity);
      assert (Hli : forall c0 : bool, jmem_heap_limit (if c0 then with_skip s p else s')
                         = jmem_heap_limit s') by (intros []; reflexivity);
      assert (Hse : forall c0 : bool, segments (if c0 then with_skip s p else s')
                         = segments s') by (intros []; reflexivity);
      assert (Hsk : forall c0 : bool, jmem_heap_list_skip_p (if c0 then with_skip s p else s')
                         = if c0 then p else jmem_heap_list_skip_p s')
        by (intros []; reflexivity)
    end.
    rewrite Hm, Hb, Hc, Hli, Hse, Hsk. simpl.
    mem_read.
    repeat split; try assumption; try reflexivity; try congruence.
    + apply Htail. intros q Hq _. unfold set_next_offset.
      apply Z.eqb_neq in Hq. rewrite Hq. reflexivity.
  - (* the region shrinks in place *)
    match goal with |- context [if ?c then with_skip ?s ?p else ?s'] =>
      assert (Hm : forall c0 : bool, mem (if c0 then with_skip s p else s') = mem s')
        by (intros []; reflexivity);
      assert (Hb : forall c0 : bool, jmem_heap_blocks_size (if c0 then with_skip s p else s')
                         = jmem_heap_blocks_size s') by (intros []; reflexivity);
      assert (Hc : forall c0 : bool, jmem_heap_allocated_blocks_count
                           (if c0 then with_skip s p else s')
                         = jmem_heap_allocated_blocks_count s') by (intros []; reflexivity);
      assert (Hli : forall c0 : bool, jmem_heap_limit (if c0 then with_skip s p else s')
                         = jmem_heap_limit s') by (intros []; reflexivity);
      assert (Hse : forall c0 : bool, segments (if c0 then with_skip s p else s')
                         = segments s') by (intros []; reflexivity);
      assert (Hsk : forall c0 : bool, jmem_heap_list_skip_p (if c0 then with_skip s p else s')
                         = if c0 then p else jmem_heap_list_skip_p s')
        by (intros []; reflexivity)
    end.
    rewrite Hm, Hb, Hc, Hli, Hse, Hsk. simpl.
    rewrite (u32_small (fst r + A)) by (unfold WORD; lia).
    rewrite (u32_small (snd r - A)) by (unfold WORD; lia).
    rewrite (decompress_in_heap (fst r + A)) by lia.
    change (area cfg + (fst r + A)) with (node cfg (fst r + A, snd r - A)).
    assert (Hrem : node cfg (fst r + A, snd r - A) = node cfg r + A)
      by (unfold node; simpl; lia).
    assert (Hne : (first =? node cfg (fst r + A, snd r - A)) = false)
      by (apply Z.eqb_neq; unfold node; simpl; lia).
    assert (Hne' : (node cfg (fst r + A, snd r - A) =? first) = false)
      by (apply Z.eqb_neq; unfold node; simpl; lia).
    mem_read. rewrite ?Hne, ?Hne'.
    repeat split; try assumption; try reflexivity.
    + apply Htail. intros q Hq1 Hq2. unfold set_next_offset, set_size.
      rewrite Hrem. apply Z.eqb_neq in Hq1, Hq2. rewrite Hq1, Hq2. reflexivity.
    + intros _. rewrite <- Hrem. unfold set_next_offset at 1.
      rewrite Hne'. unfold set_next_offset, set_size. rewrite Z.eqb_refl. reflexivity.
Qed.

(** *** One allocation *)

Lemma bind_done {X Y : Type} (a : X) (k : X -> res Y) : bind (Done a) k = k a.
Proof. reflexivity. Qed.

Lemma jmem_align_idem (n : Z) :
  0 <= n -> n mod A = 0 -> n + A - 1 < WORD -> jmem_align cfg n = n.
Proof.
  intros H0 Hm Hw. pose proof (ok_align cfg cfg_ok) as HA.
  unfold jmem_align. rewrite (size_t_small (n + A - 1)) by lia.
  pose proof (Z.div_mod n A ltac:(lia)) as Hd. rewrite Hm in Hd.
  assert (Hq : (n + A - 1) / A = n / A).
  { symmetry. apply (Z.div_unique (n + A - 1) A (n / A) (A - 1)); lia. }
  rewrite Hq. rewrite size_t_small by lia. lia.
Qed.

Lemma alloc_finish_spec (sz p : Z) (st1 : heap) :
  0 <= jmem_heap_blocks_size st1 -> jmem_heap_blocks_size st1 + LIMIT < WORD ->
  0 <= jmem_heap_limit st1 < WORD ->
  exists lim',
    (forall fuel, (Z.to_nat (jmem_heap_blocks_size st1 + 1) < fuel)%nat ->
       alloc_finish cfg fuel sz (p, st1)
       = Done (p, if p =? NULL then with_limit st1 lim'
                  else on_stats (jmem_heap_stat_alloc cfg sz) (with_limit st1 lim')))
    /\ jmem_heap_blocks_size st1 < lim' < WORD
    /\ jmem_heap_limit st1 <= lim'
    /\ (jmem_heap_blocks_size st1 < jmem_heap_limit st1 -> lim' = jmem_heap_limit st1)
    /\ lim' mod LIMIT = jmem_heap_limit st1 mod LIMIT
    /\ (lim' <= jmem_heap_limit st1 \/ lim' <= jmem_heap_blocks_size st1 + LIMIT).
Proof.
  intros Hbs Hw Hlim.
  destruct (raise_limit_spec (jmem_heap_blocks_size st1) Hbs Hw
              (Z.to_nat (jmem_heap_blocks_size st1 + 1)) (jmem_heap_limit st1)
              ltac:(lia) Hlim) as (lim' & Hrun & H1 & H2 & H3 & H4 & H5).
  exists lim'. split; [|repeat split; try assumption; lia].
  intros fuel Hf. unfold alloc_finish. rewrite (Hrun fuel Hf). simpl.
  destruct (Z.eqb_spec p NULL) as [->|Hp]; reflexivity.
Qed.

Lemma heap_inv_retried (st s : heap) (l : list region) :
  retried st s -> heap_inv cfg st l -> heap_inv cfg s l.
Proof.
  intros (stats & lim & -> & Hlim) (Hl & Hok & Hz & Hskip & (Hbs & _) & Hsegs).
  unfold heap_inv. split; [exact Hl|]. split; [exact Hok|]. split; [exact Hz|].
  split; [exact Hskip|]. split; [|exact Hsegs].
  unfold counters_ok. simpl. lia.
Qed.

Lemma retried_refl (st : heap) (l : list region) : heap_inv cfg st l -> retried st st.
Proof.
  intros (_ & _ & _ & _ & (_ & Hlim) & _).
  exists (jmem_heap_stats st), (jmem_heap_limit st). split; [|exact Hlim].
  destruct st; reflexivity.
Qed.

Lemma retried_trans (st s1 s2 : heap) : retried st s1 -> retried s1 s2 -> retried st s2.
Proof.
  intros (a & b & -> & Hb) (c & d & -> & Hd). exists c, d. split; [reflexivity|].
  simpl in Hd. exact Hd.
Qed.

(** No region holds the request: the allocation returns [NULL]; the heap
    keeps everything but the statistics and, possibly, the limit. *)
Lemma alloc_fail (st : heap) (l : list region) (sz : Z) (small : bool) :
  heap_inv cfg st l ->
  first_fit (jmem_align cfg sz) l = None ->
  (jmem_align cfg sz = A -> l = []) ->
  exists stats lim',
    (forall fuel,
        (length l + Z.to_nat (jmem_heap_blocks_size st + 1) < fuel)%nat ->
        jmem_heap_alloc_block_internal cfg fuel sz small st
        = Done (NULL, with_limit (with_stats st stats) lim'))
    /\ jmem_heap_blocks_size st < lim' < WORD
    /\ jmem_heap_limit st <= lim'
    /\ (jmem_heap_blocks_size st < jmem_heap_limit st -> lim' = jmem_heap_limit st)
    /\ lim' mod LIMIT = jmem_heap_limit st mod LIMIT
    /\ (lim' <= jmem_heap_limit st \/ lim' <= jmem_heap_blocks_size st + LIMIT).
Proof.
  intros (Hl & Hok & Hz & Hskip & (Hbs & Hlim) & Hsegs) Hnone Hfast.
  pose proof (ok_small cfg cfg_ok) as Hsmall.
  pose proof (ok_limit cfg cfg_ok) as HL.
  destruct Hok as [Hf Hg].
  destruct (slow_loop_fail (jmem_align cfg sz) l (next_offset (mem st first)) first st Hl)
    as [stats Hslow].
  { apply regions_too_small; [exact Hf|apply first_fit_none; exact Hnone]. }
  destruct (alloc_finish_spec sz NULL (with_stats st stats))
    as (lim' & Hfin & F1 & F2 & F3 & F4 & F5); simpl; try lia.
  { unfold WORD; lia. }
  simpl in F1, F2, F3, F4, F5.
  exists stats, lim'. split; [|repeat split; try assumption; lia].
  intros fuel Hfu. unfold jmem_heap_alloc_block_internal.
  assert (Hcond : (jmem_align cfg sz =? A) && negb (next_offset (mem st first) =? END_OF_LIST)
                  = false).
  { destruct (Z.eqb_spec (jmem_align cfg sz) A) as [E|E]; [|reflexivity].
    specialize (Hfast E). subst l. unfold free_list in Hl. simpl in Hl.
    rewrite Hl, Z.eqb_refl. reflexivity. }
  rewrite Hcond. unfold jmem_heap_alloc_block_internal_slow.
  rewrite Hslow by lia. rewrite bind_done.
  rewrite Hfin by (simpl; lia). reflexivity.
Qed.

(** A region holds the request: the allocation returns the first such
    region; the block is counted, and charged to the segments it touches. *)
Lemma alloc_success (st : heap) (l : list region) (sz : Z) (small : bool) (r : region) :
  heap_inv cfg st l -> aligned_regions cfg l ->
  0 < sz -> sz + A - 1 < WORD ->
  first_fit (jmem_align cfg sz) l = Some r ->
  exists st',
    (forall fuel,
        (length l + Z.to_nat (2 * heap_size cfg + 1) < fuel)%nat ->
        jmem_heap_alloc_block_internal cfg fuel sz small st = Done (node cfg r, st'))
    /\ In r l /\ node cfg r <> NULL
    /\ jmem_heap_blocks_size st' = jmem_heap_blocks_size st + jmem_align cfg sz
    /\ jmem_heap_blocks_size st' < jmem_heap_limit st' < WORD
    /\ jmem_heap_limit st <= jmem_heap_limit st'
    /\ jmem_heap_limit st' mod LIMIT = jmem_heap_limit st mod LIMIT
    /\ length (segments st') = length (segments st)
    /\ (forall i, nth i (segments st') 0 =
                  if JMEM_SEGMENTED_HEAP cfg
                     && (0 <? seg_share cfg (fst r) (jmem_align cfg sz) (Z.of_nat i))
                  then u32 (nth i (segments st) 0
                            + seg_share cfg (fst r) (jmem_align cfg sz) (Z.of_nat i))
                  else nth i (segments st) 0)
    /\ (jmem_heap_blocks_size st' < jmem_heap_limit st ->
        jmem_heap_limit st' = jmem_heap_limit st)
    /\ (jmem_heap_limit st' <= jmem_heap_limit st
        \/ jmem_heap_limit st' <= jmem_heap_blocks_size st' + LIMIT).
Proof.
  intros Hinv Hal Hsz Hov Hfit.
  pose proof Hinv as (Hl & Hok & Hz & Hskip & (Hbs & Hlim) & Hsegs).
  pose proof (ok_align cfg cfg_ok) as HA.
  pose proof (ok_small cfg cfg_ok) as Hsmall.
  pose proof (ok_limit cfg cfg_ok) as HL.
  pose proof (ok_first cfg cfg_ok) as Hfst.
  destruct (jmem_align_bounds sz Hsz Hov) as [Hnb Hna].
  set (need := jmem_align cfg sz) in *.
  assert (HnA : A <= need) by (apply aligned_ge; lia).
  destruct (first_fit_some need l r Hfit) as (la & lb & El & Hla & Hr).
  assert (Hin : In r l) by (rewrite El; apply in_elt).
  destruct Hok as [Hf Hg].
  assert (Hrok : region_ok cfg r) by (rewrite Forall_forall in Hf; apply Hf, Hin).
  pose proof Hrok as (R1 & R2 & R3).
  assert (Hnn : node cfg r <> NULL) by (unfold node, NULL; lia).
  destruct (Z.eqb_spec need A) as [EA|EA].
  - (* the fast path *)
    destruct l as [|r0 t]; [contradiction|].
    assert (Hr0 : A <= snd r0).
    { unfold aligned_regions in Hal. apply Forall_inv in Hal. destruct Hal as [_ Hs0].
      apply Forall_inv in Hf. destruct Hf as (_ & Hp0 & _). apply aligned_ge; assumption. }
    assert (r = r0).
    { unfold first_fit in Hfit. simpl in Hfit.
      replace (need <=? snd r0) with true in Hfit by (symmetry; apply Z.leb_le; lia).
      congruence. }
    subst r0.
    destruct (fast_path_spec st r t small Hinv Hr0)
      as (st1 & Hrun & _ & _ & _ & _ & Hb1 & _ & Hl1 & Hlen1 & Hnth1).
    destruct (alloc_finish_spec sz (node cfg r) st1)
      as (lim' & Hfin & F1 & F2 & F3 & F4 & F5);
      try (rewrite ?Hb1, ?Hl1; unfold WORD in *; lia).
    eexists. split; [|split; [exact Hin|split; [exact Hnn|]]].
    + intros fuel Hfu. unfold jmem_heap_alloc_block_internal. fold need.
      replace ((need =? A) && negb (next_offset (mem st first) =? END_OF_LIST)) with true.
      * rewrite Hrun. rewrite bind_done. rewrite Hfin by (rewrite Hb1; lia).
        replace (node cfg r =? NULL) with false by (symmetry; apply Z.eqb_neq; exact Hnn).
        reflexivity.
      * symmetry. apply andb_true_iff. split; [apply Z.eqb_eq; exact EA|].
        apply negb_true_iff, Z.eqb_neq. unfold free_list in Hl. simpl in Hl.
        destruct Hl as (-> & _). pose proof (ok_end cfg cfg_ok). lia.
    + simpl. rewrite Hb1, Hl1 in *. fold need. rewrite EA.
      repeat split; try lia; try assumption.
      intros i. rewrite Hnth1.
      destruct (JMEM_SEGMENTED_HEAP cfg) eqn:Eseg; [|reflexivity]. simpl.
      rewrite seg_share_granule; try assumption.
      * destruct (Z.of_nat i =? fst r / SEG); [|reflexivity].
        replace (0 <? A) with true by (symmetry; apply Z.ltb_lt; lia). reflexivity.
      * unfold aligned_regions in Hal. apply Forall_inv in Hal. tauto.
  - (* the slow path *)
    subst l.
    destruct (slow_loop_fit need la r lb (next_offset (mem st first)) first st Hl)
      as [stats Hslow]; try assumption.
    { apply regions_too_small; [|exact Hla].
      apply Forall_app in Hf. apply Hf. }
    destruct (slow_take_spec need r (walk_end cfg first la) (with_stats st stats) Hrok
                             ltac:(lia) Hbs Hsegs)
      as (segs' & Htake & Hlen' & Hnth').
    match type of Htake with
    | forall fuel, _ -> _ = Done (_, ?s1) => set (st1 := s1) in *
    end.
    destruct (alloc_finish_spec sz (node cfg r) st1)
      as (lim' & Hfin & F1 & F2 & F3 & F4 & F5); try (simpl; unfold WORD in *; lia).
    eexists. split; [|split; [exact Hin|split; [exact Hnn|]]].
    + intros fuel Hfu. unfold jmem_heap_alloc_block_internal. fold need.
      replace ((need =? A) && negb (next_offset (mem st first) =? END_OF_LIST)) with false
        by (symmetry; apply andb_false_iff; left; apply Z.eqb_neq; exact EA).
      unfold jmem_heap_alloc_block_internal_slow.
      rewrite length_app in Hfu. cbn [length] in Hfu.
      replace fuel with (length la + S (fuel - length la - 1))%nat by lia.
      rewrite Hslow. rewrite Htake by lia. rewrite bind_done.
      rewrite Hfin by (simpl; lia).
      replace (node cfg r =? NULL) with false by (symmetry; apply Z.eqb_neq; exact Hnn).
      reflexivity.
    + simpl in *. repeat split; try lia; try assumption.
Qed.

(** *** The segment table after an operation *)

Lemma seg_share_bounds (o n i : Z) : 0 <= n -> 0 <= seg_share cfg o n i <= n.
Proof. intros Hn. unfold seg_share. lia. Qed.

Lemma sum_list_scale (c : Z) (f : nat -> Z) (l : list nat) :
  sum_list (map (fun i => c * f i) l) = c * sum_list (map f l).
Proof. induction l as [|a t IH]; simpl; [lia|]. rewrite IH. lia. Qed.

Lemma sum_after_walk (sign : Z) (segs segs' : list Z) (o n : Z) :
  JMEM_SEGMENTED_HEAP cfg = true ->
  length segs = Z.to_nat (SEG_NUM_SEGMENTS cfg) -> length segs' = length segs ->
  0 <= o -> 0 <= n -> o + n <= heap_size cfg ->
  (forall i, nth i segs' 0 = nth i segs 0 + sign * seg_share cfg o n (Z.of_nat i)) ->
  sum_list segs' = sum_list segs + sign * n.
Proof.
  intros Hseg Hlen Hlen' Ho Hn Hh Hnth.
  destruct (ok_seg cfg cfg_ok Hseg) as (HS & HSA & HN).
  rewrite (sum_list_pointwise segs segs'
             (fun i => sign * seg_share cfg o n (Z.of_nat i)) 0 Hlen').
  - rewrite (sum_list_scale sign (fun i => seg_share cfg o n (Z.of_nat i))).
    rewrite (seg_share_total o n HS), Hlen.
    unfold heap_size in Hh. rewrite Hseg in Hh.
    replace ((Z.of_nat 0 + Z.of_nat (Z.to_nat (SEG_NUM_SEGMENTS cfg))) * SEG)
      with (SEG * SEG_NUM_SEGMENTS cfg)
      by (change (Z.of_nat 0) with 0; rewrite Z2Nat.id by lia; lia).
    change (Z.of_nat 0) with 0. rewrite Z.mul_0_l.
    replace (Z.max 0 (Z.min (o + n) (SEG * SEG_NUM_SEGMENTS cfg) - Z.max o 0))
      with n by lia.
    reflexivity.
  - intros i _. apply Hnth.
Qed.

(** C2.  Segment occupancy.  In a segmented heap that satisfies the
    invariant, whose regions are aligned and whose occupancy counters are
    non-negative and sum to [jmem_heap_blocks_size]: an allocation of any
    size returns (given enough fuel), its walk adds to every segment the
    number of bytes of the block that lie in that segment, and the sum of
    the counters is again [jmem_heap_blocks_size]; a release of a block
    whose bytes are counted in the segments subtracts the same shares and
    keeps the sum equal to [jmem_heap_blocks_size]. *)
Theorem segment_occupancy_sum (st : heap) (l : list region) :
  JMEM_SEGMENTED_HEAP cfg = true ->
  heap_inv cfg st l -> aligned_regions cfg l ->
  Forall (fun v => 0 <= v) (segments st) ->
  sum_list (segments st) = jmem_heap_blocks_size st ->
  (forall sz small, 0 < sz -> sz + A - 1 < WORD ->
     exists p st',
       (forall fuel, (length l + Z.to_nat (2 * heap_size cfg + 1) < fuel)%nat ->
          jmem_heap_alloc_block_internal cfg fuel sz small st = Done (p, st'))
       /\ sum_list (segments st') = jmem_heap_blocks_size st'
       /\ Forall (fun v => 0 <= v) (segments st')
       /\ (p = NULL -> segments st' = segments st)
       /\ (p <> NULL ->
           jmem_heap_blocks_size st' = jmem_heap_blocks_size st + jmem_align cfg sz
           /\ forall i, nth i (segments st') 0
                        = nth i (segments st) 0
                          + seg_share cfg (p - area cfg) (jmem_align cfg sz) (Z.of_nat i)))
  /\ (forall ptr sz small,
        releasable cfg l (jmem_heap_blocks_size st) (ptr, sz) ->
        (forall i, seg_share cfg (ptr - area cfg) (jmem_align cfg sz) (Z.of_nat i)
                   <= nth i (segments st) 0) ->
        exists st',
          (forall fuel,
              (length l + Z.to_nat (jmem_heap_limit st) + Z.to_nat (heap_size cfg) < fuel)%nat ->
              jmem_heap_free_block_internal cfg fuel ptr sz small st = Done st')
          /\ sum_list (segments st') = jmem_heap_blocks_size st'
          /\ Forall (fun v => 0 <= v) (segments st')
          /\ jmem_heap_blocks_size st' = jmem_heap_blocks_size st - jmem_align cfg sz
          /\ forall i, nth i (segments st') 0
                       = nth i (segments st) 0
                         - seg_share cfg (ptr - area cfg) (jmem_align cfg sz) (Z.of_nat i)).
Proof.
  intros Hseg Hinv Hal Hnn Hsum.
  pose proof Hinv as (Hl & Hok & Hz & Hskip & (Hbs & Hlim) & Hsegs).
  pose proof (ok_align cfg cfg_ok) as HA.
  pose proof (ok_small cfg cfg_ok) as Hsmall.
  pose proof (ok_limit cfg cfg_ok) as HL.
  assert (Hnonneg : forall segs', length segs' = length (segments st) ->
             (forall i, 0 <= nth i segs' 0) -> Forall (fun v => 0 <= v) segs').
  { intros segs' _ Hn. apply Forall_forall. intros v Hv.
    destruct (In_nth _ _ 0 Hv) as (i & _ & <-). apply Hn. }
  split.
  - intros sz small Hsz Hov.
    destruct (jmem_align_bounds sz Hsz Hov) as [Hnb Hna].
    destruct (first_fit (jmem_align cfg sz) l) as [r|] eqn:Efit.
    + destruct (alloc_success st l sz small r Hinv Hal Hsz Hov Efit)
        as (st' & Hrun & Hin & Hnn' & Hb' & _ & _ & _ & Hlen' & Hnth' & _).
      destruct Hok as [Hf Hg].
      assert (Hrok : region_ok cfg r) by (rewrite Forall_forall in Hf; apply Hf, Hin).
      destruct Hrok as (R1 & R2 & R3).
      destruct (first_fit_some _ _ _ Efit) as (_ & _ & _ & _ & Hfits).
      assert (Hshare : forall i, nth i (segments st') 0
                 = nth i (segments st) 0
                   + 1 * seg_share cfg (fst r) (jmem_align cfg sz) (Z.of_nat i)).
      { intros i. rewrite Hnth', Hseg. cbn [andb].
        pose proof (seg_share_bounds (fst r) (jmem_align cfg sz) (Z.of_nat i) ltac:(lia)) as Hsb.
        pose proof (nth_le_sum (segments st) i Hnn) as Hle.
        destruct (Z.ltb_spec 0 (seg_share cfg (fst r) (jmem_align cfg sz) (Z.of_nat i))).
        - rewrite u32_small by (unfold WORD; lia). lia.
        - lia. }
      exists (node cfg r), st'.
      split; [exact Hrun|split; [|split; [|split; [intros E; contradiction|]]]].
      * rewrite (sum_after_walk 1 (segments st) (segments st') (fst r) (jmem_align cfg sz));
          try assumption; try lia. apply Hsegs, Hseg.
      * apply Hnonneg; [exact Hlen'|]. intros i. rewrite Hshare.
        pose proof (seg_share_bounds (fst r) (jmem_align cfg sz) (Z.of_nat i) ltac:(lia)).
        pose proof (nth_le_sum (segments st) i Hnn). lia.
      * intros _. split; [exact Hb'|]. intros i. rewrite Hshare.
        replace (node cfg r - area cfg) with (fst r) by (unfold node; lia). lia.
    + destruct (alloc_fail st l sz small Hinv Efit) as (stats & lim' & Hrun & _).
      { intros EA. destruct l as [|r0 t]; [reflexivity|exfalso].
        pose proof (first_fit_none _ _ Efit) as Hsm. apply Forall_inv in Hsm.
        unfold aligned_regions in Hal. apply Forall_inv in Hal. destruct Hal as [_ Hs0].
        destruct Hok as [Hf _]. apply Forall_inv in Hf. destruct Hf as (_ & Hp0 & _).
        pose proof (aligned_ge (snd r0) Hp0 Hs0). lia. }
      exists NULL, (with_limit (with_stats st stats) lim').
      split; [intros fuel Hfu; apply Hrun; lia|].
      cbn [segments jmem_heap_blocks_size with_limit with_stats].
      split; [exact Hsum|split; [exact Hnn|split; [reflexivity|]]].
      intros E. contradiction.
  - intros ptr sz small Hrel Hocc.
    assert (Huse : skip_usable cfg st l) by (intros E; congruence).
    destruct (free_block_spec st l ptr sz small Hinv Huse Hrel)
      as (st' & Hrun & _ & _ & Hb' & _ & _ & _ & _ & Hlen' & Hnth').
    cbv zeta in Hb', Hnth'. unfold block_offset_of in Hnth'.
    destruct Hrel as (Hsz & Hov & Hbo & Hend & Hn & _). simpl in *.
    unfold block_offset_of in Hbo, Hend.
    destruct (jmem_align_bounds sz Hsz Hov) as [Hnb Hna].
    assert (Hshare : forall i, nth i (segments st') 0
               = nth i (segments st) 0
                 + (-1) * seg_share cfg (ptr - area cfg) (jmem_align cfg sz) (Z.of_nat i)).
    { intros i. rewrite Hnth', Hseg. cbn [andb].
      pose proof (seg_share_bounds (ptr - area cfg) (jmem_align cfg sz) (Z.of_nat i)
                                   ltac:(lia)) as Hsb.
      pose proof (nth_le_sum (segments st) i Hnn) as Hle.
      specialize (Hocc i).
      destruct (Z.ltb_spec 0 (seg_share cfg (ptr - area cfg) (jmem_align cfg sz) (Z.of_nat i))).
      - rewrite u32_small by (unfold WORD; lia). lia.
      - lia. }
    exists st'. split; [exact Hrun|split; [|split; [|split; [exact Hb'|]]]].
    + rewrite (sum_after_walk (-1) (segments st) (segments st') (ptr - area cfg)
                              (jmem_align cfg sz)); try assumption; try lia.
      apply Hsegs, Hseg.
    + apply Hnonneg; [exact Hlen'|]. intros i. rewrite Hshare.
      specialize (Hocc i). lia.
    + intros i. rewrite Hshare. lia.
Qed.

(** *** The claims on the allocation paths *)

Lemma first_fit_aligned_head (l : list region) (need : Z) :
  Forall (region_ok cfg) l -> aligned_regions cfg l ->
  first_fit need l = None -> need = A -> l = [].
Proof.
  intros Hf Hal Hnone EA. destruct l as [|r0 t]; [reflexivity|exfalso].
  pose proof (first_fit_none _ _ Hnone) as Hsm. apply Forall_inv in Hsm.
  apply Forall_inv in Hal. destruct Hal as [_ Hs0].
  apply Forall_inv in Hf. destruct Hf as (_ & Hp0 & _).
  pose proof (aligned_ge (snd r0) Hp0 Hs0). lia.
Qed.

(** C4.  The fast path.  In a heap that satisfies the invariant, with
    aligned regions: [jmem_heap_alloc_block_internal] runs the fast path
    when the aligned request is one granule and the free list is not
    empty, and the slow path in every other case; the fast path returns
    (it has no loop) the address of the first free region; when that
    region is one granule long it leaves the list, otherwise its header
    moves one granule forward, with the size reduced by one granule and the
    same link. *)
Theorem fast_path_dispatch_and_effect (st : heap) (l : list region)
        (sz : Z) (small : bool) (fuel : nat) :
  heap_inv cfg st l -> aligned_regions cfg l ->
  (jmem_align cfg sz = A /\ l <> [] ->
   jmem_heap_alloc_block_internal cfg fuel sz small st
   = bind (jmem_heap_alloc_block_internal_fast cfg small st) (alloc_finish cfg fuel sz))
  /\ (~ (jmem_align cfg sz = A /\ l <> []) ->
      jmem_heap_alloc_block_internal cfg fuel sz small st
      = bind (jmem_heap_alloc_block_internal_slow cfg fuel (jmem_align cfg sz) small st)
             (alloc_finish cfg fuel sz))
  /\ (forall r t, l = r :: t ->
        exists st',
          jmem_heap_alloc_block_internal_fast cfg small st
          = Done (JMEM_DECOMPRESS_POINTER_INTERNAL cfg (fst r), st')
          /\ free_list cfg st' (if snd r =? A then t else (fst r + A, snd r - A) :: t)
          /\ (snd r <> A ->
              mem st' (JMEM_DECOMPRESS_POINTER_INTERNAL cfg (fst r) + A)
              = mkFree (next_offset (mem st (JMEM_DECOMPRESS_POINTER_INTERNAL cfg (fst r))))
                       (snd r - A))).
Proof.
  intros Hinv Hal.
  pose proof Hinv as (Hl & (Hf & Hg) & _).
  pose proof (ok_end cfg cfg_ok) as Hend.
  assert (Hempty : (next_offset (mem st first) =? END_OF_LIST) = true <-> l = []).
  { unfold free_list in Hl. destruct l as [|r t]; simpl in Hl.
    - rewrite Hl, Z.eqb_refl. tauto.
    - destruct Hl as (-> & _). apply Forall_inv in Hf. destruct Hf as (R1 & R2 & R3).
      split; [intros E; apply Z.eqb_eq in E; lia|discriminate]. }
  split; [|split].
  - intros [EA Hne]. unfold jmem_heap_alloc_block_internal.
    replace ((jmem_align cfg sz =? A) && negb (next_offset (mem st first) =? END_OF_LIST))
      with true; [reflexivity|].
    symmetry. apply andb_true_iff. split; [apply Z.eqb_eq; exact EA|].
    apply negb_true_iff. destruct (next_offset (mem st first) =? END_OF_LIST); [|reflexivity].
    exfalso. apply Hne, Hempty. reflexivity.
  - intros Hnot. unfold jmem_heap_alloc_block_internal.
    replace ((jmem_align cfg sz =? A) && negb (next_offset (mem st first) =? END_OF_LIST))
      with false; [reflexivity|].
    symmetry. apply andb_false_iff.
    destruct (Z.eqb_spec (jmem_align cfg sz) A) as [EA|EA]; [right|left; reflexivity].
    apply negb_false_iff.
    destruct (next_offset (mem st first) =? END_OF_LIST) eqn:E; [reflexivity|exfalso].
    apply Hnot. split; [exact EA|]. intros El. apply Hempty in El. congruence.
  - intros r t ->.
    assert (Hr : A <= snd r).
    { apply Forall_inv in Hal. destruct Hal as [_ Hs0].
      apply Forall_inv in Hf. destruct Hf as (_ & Hp0 & _). apply aligned_ge; assumption. }
    destruct (fast_path_spec st r t small Hinv Hr) as (st' & Hrun & Hl' & Hrem & _).
    rewrite (decompress_node r (Forall_inv Hf)).
    exists st'. split; [exact Hrun|split; [exact Hl'|exact Hrem]].
Qed.

Lemma same_residue_steps (a b : Z) :
  a <= b -> b mod LIMIT = a mod LIMIT -> exists k, 0 <= k /\ b = a + k * LIMIT.
Proof.
  intros Hab Hm. pose proof (ok_limit cfg cfg_ok) as HL.
  pose proof (Z.div_mod a LIMIT ltac:(lia)) as Ha.
  pose proof (Z.div_mod b LIMIT ltac:(lia)) as Hb.
  exists (b / LIMIT - a / LIMIT). split; [nia|nia].
Qed.

(** C5, as amended.  In a heap that satisfies the invariant, with aligned
    regions and a limit that is a multiple of the desired limit.  An
    allocation of any size returns (given enough fuel) and leaves the limit
    a multiple of the desired limit that exceeds the block size, hence
    positive: it is the old limit raised by a number of steps of the
    desired limit, the least number that takes it above the block size
    (none when the old limit already exceeds it).  A release that finds a
    skip pointer it can use returns and leaves the limit a multiple of the
    desired limit with [blocks_size <= limit < blocks_size + desired
    limit]: it is the old limit lowered by a number of steps of the desired
    limit (none when the old limit is already below [blocks_size + desired
    limit]), and it is zero when no block is left. *)
Theorem heap_limit_invariant (st : heap) (l : list region) :
  heap_inv cfg st l -> aligned_regions cfg l ->
  jmem_heap_limit st mod LIMIT = 0 ->
  (forall sz small, 0 < sz -> sz + A - 1 < WORD ->
     exists p st',
       (forall fuel, (length l + Z.to_nat (2 * heap_size cfg + 1) < fuel)%nat ->
          jmem_heap_alloc_block_internal cfg fuel sz small st = Done (p, st'))
       /\ jmem_heap_blocks_size st' < jmem_heap_limit st'
       /\ 0 < jmem_heap_limit st'
       /\ jmem_heap_limit st' mod LIMIT = 0
       /\ (exists k, 0 <= k
                     /\ jmem_heap_limit st' = jmem_heap_limit st + k * LIMIT
                     /\ forall j, 0 <= j ->
                                  jmem_heap_blocks_size st' < jmem_heap_limit st + j * LIMIT ->
                                  k <= j)
       /\ (jmem_heap_blocks_size st' < jmem_heap_limit st ->
           jmem_heap_limit st' = jmem_heap_limit st))
  /\ (forall ptr sz small,
        skip_usable cfg st l ->
        releasable cfg l (jmem_heap_blocks_size st) (ptr, sz) ->
        exists st',
          (forall fuel,
              (length l + Z.to_nat (jmem_heap_limit st) + Z.to_nat (heap_size cfg) < fuel)%nat ->
              jmem_heap_free_block_internal cfg fuel ptr sz small st = Done st')
          /\ jmem_heap_blocks_size st' <= jmem_heap_limit st'
          /\ jmem_heap_limit st' < jmem_heap_blocks_size st' + LIMIT
          /\ 0 <= jmem_heap_limit st'
          /\ jmem_heap_limit st' mod LIMIT = 0
          /\ (exists k, 0 <= k
                        /\ jmem_heap_limit st' = jmem_heap_limit st - k * LIMIT)
          /\ (jmem_heap_limit st < jmem_heap_blocks_size st' + LIMIT ->
              jmem_heap_limit st' = jmem_heap_limit st)
          /\ (jmem_heap_blocks_size st' = 0 -> jmem_heap_limit st' = 0)).
Proof.
  intros Hinv Hal Hmod.
  pose proof Hinv as (Hl & (Hf & Hg) & Hz & Hskip & (Hbs & Hlim) & Hsegs).
  pose proof (ok_limit cfg cfg_ok) as HL.
  assert (Hsteps : forall bs' lim',
             bs' < lim' -> jmem_heap_limit st <= lim' ->
             lim' mod LIMIT = jmem_heap_limit st mod LIMIT ->
             (lim' <= jmem_heap_limit st \/ lim' <= bs' + LIMIT) ->
             exists k, 0 <= k /\ lim' = jmem_heap_limit st + k * LIMIT
                       /\ forall j, 0 <= j -> bs' < jmem_heap_limit st + j * LIMIT -> k <= j).
  { intros bs' lim' H1 H2 H3 H4.
    destruct (same_residue_steps (jmem_heap_limit st) lim' H2 H3) as (k & Hk & Ek).
    exists k. split; [exact Hk|split; [exact Ek|]].
    intros j Hj Hlt. destruct (Z_le_gt_dec k j) as [Hle|Hgt]; [exact Hle|exfalso].
    assert (Hk1 : (j + 1) * LIMIT <= k * LIMIT) by nia.
    destruct H4 as [H4|H4]; nia. }
  split.
  - intros sz small Hsz Hov.
    destruct (jmem_align_bounds sz Hsz Hov) as [Hnb Hna].
    destruct (first_fit (jmem_align cfg sz) l) as [r|] eqn:Efit.
    + destruct (alloc_success st l sz small r Hinv Hal Hsz Hov Efit)
        as (st' & Hrun & _ & _ & Hb' & Hlt & Hle & Hm' & _ & _ & Hsame & Hover).
      exists (node cfg r), st'.
      split; [exact Hrun|]. split; [lia|]. split; [lia|]. split; [congruence|].
      split; [|exact Hsame].
      apply Hsteps; [lia|exact Hle|exact Hm'|exact Hover].
    + destruct (alloc_fail st l sz small Hinv Efit
                           (first_fit_aligned_head l _ Hf Hal Efit))
        as (stats & lim' & Hrun & Hlt & Hle & Hsame & Hm' & Hover).
      exists NULL, (with_limit (with_stats st stats) lim').
      split; [intros fuel Hfu; apply Hrun; lia|].
      cbn [jmem_heap_blocks_size jmem_heap_limit with_limit with_stats].
      split; [lia|]. split; [lia|]. split; [congruence|].
      split; [|exact Hsame].
      apply Hsteps; [lia|exact Hle|exact Hm'|exact Hover].
  - intros ptr sz small Huse Hrel.
    destruct (free_block_spec st l ptr sz small Hinv Huse Hrel)
      as (st' & Hrun & Hinv' & _ & Hb' & _ & Hle & Hlt & Hm' & _).
    destruct Hinv' as (_ & _ & _ & _ & (Hbs' & Hlim') & _).
    destruct (same_residue_steps (jmem_heap_limit st') (jmem_heap_limit st) Hle
                                 (eq_sym Hm')) as (k & Hk & Ek).
    exists st'. split; [exact Hrun|]. split; [lia|]. split; [exact Hlt|].
    split; [lia|]. split; [congruence|].
    split; [exists k; split; [exact Hk|lia]|].
    split.
    + intros Hnear. destruct (Z.eq_dec k 0) as [->|Hk0]; [lia|].
      assert (1 * LIMIT <= k * LIMIT) by (apply Z.mul_le_mono_nonneg_r; lia). lia.
    + intros E0. rewrite E0 in *.
      assert (Hm0 : jmem_heap_limit st' mod LIMIT = 0) by congruence.
      pose proof (Z.div_mod (jmem_heap_limit st') LIMIT ltac:(lia)) as Hd.
      rewrite Hm0 in Hd.
      destruct (Z.eq_dec (jmem_heap_limit st' / LIMIT) 0) as [Hq|Hq]; [lia|].
      assert (0 <= jmem_heap_limit st' / LIMIT) by (apply Z.div_pos; lia).
      assert (LIMIT * 1 <= LIMIT * (jmem_heap_limit st' / LIMIT))
        by (apply Z.mul_le_mono_nonneg_l; lia).
      lia.
Qed.


(** C9, as amended.  Releasing zero bytes is outside the contract of the
    release.  A debug build stops at an assertion.  A release build runs
    the release like any other: when it finds a skip pointer it can use,
    then given enough fuel it returns, with the block size and the
    occupancy of every segment unchanged, but the block count is
    decremented and the skip pointer is set to the predecessor found by the
    search (the free list and the limit may change too). *)
Theorem free_zero_size (st : heap) (l : list region) (ptr : Z) (small : bool) :
  heap_inv cfg st l ->
  0 <= ptr - area cfg < heap_size cfg ->
  (JERRY_NDEBUG cfg = false ->
   forall fuel, jmem_heap_free_block_internal cfg fuel ptr 0 small st = Stuck AssertFailed)
  /\ (JERRY_NDEBUG cfg = true ->
      skip_usable cfg st l ->
      exists st',
        (forall fuel,
            (length l + Z.to_nat (jmem_heap_limit st) < fuel)%nat ->
            jmem_heap_free_block_internal cfg fuel ptr 0 small st = Done st')
        /\ jmem_heap_blocks_size st' = jmem_heap_blocks_size st
        /\ segments st' = segments st
        /\ jmem_heap_allocated_blocks_count st'
           = size_t (jmem_heap_allocated_blocks_count st - 1)
        /\ jmem_heap_list_skip_p st' = walk_end cfg first (before (ptr - area cfg) l)).
Proof.
  intros (Hl & Hok & Hz & Hskip & (Hbs & Hlim) & Hsegs) Hbo.
  pose proof (ok_align cfg cfg_ok) as HA.
  pose proof (ok_granule cfg cfg_ok) as HG.
  pose proof (ok_small cfg cfg_ok) as Hsmall.
  pose proof (ok_limit cfg cfg_ok) as HL.
  pose proof (ok_area cfg cfg_ok) as Harea.
  split.
  - intros Hd fuel. unfold jmem_heap_free_block_internal, JERRY_ASSERT. rewrite Hd. simpl.
    destruct (jmem_is_heap_pointer cfg ptr); reflexivity.
  - intros Hnd Huse.
    set (bo := ptr - area cfg) in *.
    assert (Hptr : ptr = area cfg + bo) by (unfold bo; lia).
    assert (Hzero : jmem_align cfg 0 = 0).
    { unfold jmem_align. rewrite (size_t_small (0 + A - 1)) by (unfold WORD; lia).
      rewrite Z.div_small by lia. reflexivity. }
    destruct (free_search (on_stats jmem_heap_stat_free_iter st) l bo Hl Hok Hskip Huse Hbo)
      as [s1 Hsearch].
    cbv zeta in Hsearch. rewrite <- Hptr in Hsearch.
    destruct (lower_limit_spec (jmem_heap_blocks_size st) ltac:(lia)
                ltac:(unfold WORD; lia) (Z.to_nat (jmem_heap_limit st))
                (jmem_heap_limit st) ltac:(lia) ltac:(lia))
      as (lim' & Hlower & _).
    eexists. split.
    + intros fuel Hf. unfold jmem_heap_free_block_internal.
      rewrite Hnd. rewrite !jerry_assert_release, !bind_done.
      specialize (Hsearch fuel ltac:(lia)).
      assert (Hcp : JMEM_COMPRESS_POINTER_INTERNAL cfg ptr = bo).
      { rewrite Hptr, <- (decompress_in_heap bo) by lia.
        apply (compress_decompress bo). unfold WORD in *. lia. }
      match type of Hsearch with
      | free_find_prev _ _ _ (fst ?x) (snd ?x) = _ => destruct x as [p0 st0]
      end.
      rewrite Hcp, Hzero. simpl in Hsearch. rewrite Hsearch. rewrite bind_done.
      cbv beta iota.
      match goal with
      | |- context [free_update_prev ?a ?b ?c ?d ?e] =>
        rewrite (surjective_pairing (free_update_prev a b c d e))
      end.
      cbn [segments with_skip with_mem with_stats on_stats jmem_heap_blocks_size
           jmem_heap_allocated_blocks_count jmem_heap_limit].
      change (int32 0) with 0.
      assert (Hocc : forall e fs segs,
                 free_occupancy_loop cfg fuel 0 e fs segs = Done segs)
        by (destruct fuel; [lia|reflexivity]).
      rewrite Hocc.
      destruct (JMEM_SEGMENTED_HEAP cfg).
      * rewrite !bind_done.
        cbn [segments with_skip with_mem with_stats on_stats with_segments with_blocks
             jmem_heap_blocks_size jmem_heap_allocated_blocks_count jmem_heap_limit].
        rewrite Z.sub_0_r.
        rewrite (size_t_small (jmem_heap_blocks_size st)) by (unfold WORD; lia).
        rewrite (Hlower fuel ltac:(lia)), bind_done.
        reflexivity.
      * rewrite !bind_done.
        cbn [segments with_skip with_mem with_stats on_stats with_segments with_blocks
             jmem_heap_blocks_size jmem_heap_allocated_blocks_count jmem_heap_limit].
        rewrite Z.sub_0_r.
        rewrite (size_t_small (jmem_heap_blocks_size st)) by (unfold WORD; lia).
        rewrite (Hlower fuel ltac:(lia)), bind_done.
        reflexivity.
    + simpl. repeat split; reflexivity.
Qed.

(** *** The GC-and-allocate ladder *)

Section LadderProofs.

Variable gc : jmem_free_unused_memory_severity_t -> heap -> heap.
Variable seg_alloc : Z -> heap -> Z * heap.

Local Abbreviation LOW := JMEM_FREE_UNUSED_MEMORY_SEVERITY_LOW.
Local Abbreviation HIGH := JMEM_FREE_UNUSED_MEMORY_SEVERITY_HIGH.




Lemma gc_retry_some (need : Z) (small : bool) (fuel : nat) :
  forall (sevs : gc_trace) (w w' : heap * gc_trace) (q : Z),
    gc_retry cfg gc sevs fuel need small w = Done (Some q, w') -> q <> NULL.
Proof.
  induction sevs as [|sev rest IH]; intros w w' q H; [discriminate H|].
  cbn [gc_retry] in H.
  match type of H with
  | bind ?x _ = _ => destruct x as [[p s]|] eqn:E; [|discriminate H]
  end.
  rewrite bind_done in H. cbv beta iota in H.
  destruct (p =? NULL) eqn:Ep; cbn [negb] in H; cbv iota in H.
  - eapply IH. exact H.
  - inversion H; subst. apply Z.eqb_neq. exact Ep.
Qed.

Lemma segment_retry_some (need : Z) (small : bool) (fuel : nat) (s s' : heap) (q : Z) :
  segment_group_retry cfg seg_alloc fuel need small s = Done (Some q, s') ->
  JMEM_SEGMENTED_HEAP cfg = true
  /\ fst (seg_alloc need s) <> NULL
  /\ jmem_heap_alloc_block_internal cfg fuel need small (snd (seg_alloc need s))
     = Done (q, s').
Proof.
  unfold segment_group_retry.
  destruct (JMEM_SEGMENTED_HEAP cfg); [|discriminate].
  destruct (seg_alloc need s) as [group s1]. simpl.
  destruct (Z.eqb_spec group NULL) as [E|E]; simpl; [discriminate|].
  destruct (jmem_heap_alloc_block_internal cfg fuel need small s1) as [[p s2]|];
    [|discriminate].
  rewrite bind_done. intros H. injection H as <- <-.
  split; [reflexivity|split; [exact E|reflexivity]].
Qed.



(** C6, as amended.  GC escalation.  With no GC before each allocation,
    a request in a heap that has no region for it and no segment to attach,
    a callback that releases nothing at LOW and one that, at HIGH, leaves a
    heap with a free region that holds the request: the call (given enough
    fuel) returns a non-null pointer into the heap.  When the request stays
    within the budget the callback has run at LOW and then at HIGH, once
    each; when it exceeds the budget the callback has run at LOW once more,
    before the first attempt: LOW, LOW, HIGH. *)
Theorem gc_escalation_low_then_high (st : heap) (l : list region)
        (required : Z) (ret small : bool) :
  JMEM_GC_BEFORE_EACH_ALLOC cfg = false ->
  0 < required -> required + 2 * A <= WORD ->
  heap_inv cfg st l ->
  first_fit (jmem_align cfg required) l = None ->
  (jmem_align cfg required = A -> l = []) ->
  (JMEM_SEGMENTED_HEAP cfg = true ->
   forall s, seg_alloc (jmem_align cfg required) s = (NULL, s)) ->
  (forall s, gc LOW s = s) ->
  (forall s, retried st s ->
             exists l' r, heap_inv cfg (gc HIGH s) l' /\ aligned_regions cfg l'
                          /\ first_fit (jmem_align cfg required) l' = Some r) ->
  exists n p st',
    (forall fuel, (n < fuel)%nat ->
        jmem_heap_gc_and_alloc_block cfg gc seg_alloc fuel required ret small st
        = Done (Returned p,
                (st', (if over_budget cfg (jmem_align cfg required) st
                       then [LOW] else []) ++ [LOW; HIGH])))
    /\ p <> NULL
    /\ area cfg <= p < area cfg + heap_size cfg.
Proof.
  intros Hpre Hreq Hov Hinv Hnone Hfast Hseg Hlow Hhigh.
  pose proof (ok_align cfg cfg_ok) as HA.
  destruct (jmem_align_bounds required Hreq ltac:(lia)) as [Hnb Hna].
  set (need := jmem_align cfg required) in *.
  assert (Hid : jmem_align cfg need = need) by (apply jmem_align_idem; lia).
  (* the first attempt *)
  destruct (alloc_fail st l need small Hinv) as (stats1 & lim1 & Hrun1 & Hlt1 & _);
    [rewrite Hid; exact Hnone|rewrite Hid; exact Hfast|].
  set (s1 := with_limit (with_stats st stats1) lim1) in *.
  assert (Hr1 : retried st s1) by (exists stats1, lim1; split; [reflexivity|lia]).
  pose proof (heap_inv_retried st s1 l Hr1 Hinv) as Hinv1.
  assert (Hsr : forall fuel s, segment_group_retry cfg seg_alloc fuel need small s
                               = Done (None, s)).
  { intros fuel s. unfold segment_group_retry.
    destruct (JMEM_SEGMENTED_HEAP cfg); [|reflexivity].
    rewrite (Hseg eq_refl s). reflexivity. }
  (* the attempt after LOW *)
  destruct (alloc_fail s1 l need small Hinv1) as (stats2 & lim2 & Hrun2 & Hlt2 & _);
    [rewrite Hid; exact Hnone|rewrite Hid; exact Hfast|].
  set (s2 := with_limit (with_stats s1 stats2) lim2) in *.
  assert (Hr2 : retried st s2).
  { apply (retried_trans st s1 s2 Hr1). exists stats2, lim2. split; [reflexivity|lia]. }
  (* the attempt after HIGH *)
  destruct (Hhigh s2 Hr2) as (l' & r & Hinv' & Hal' & Hfit').
  destruct (alloc_success (gc HIGH s2) l' need small r Hinv' Hal' ltac:(lia) ltac:(lia))
    as (st' & Hrun3 & Hin & Hnn & _); [rewrite Hid; exact Hfit'|].
  exists (length l + Z.to_nat (jmem_heap_blocks_size st + 1)
          + (length l' + Z.to_nat (2 * heap_size cfg + 1)))%nat, (node cfg r), st'.
  split; [|split; [exact Hnn|]].
  - intros fuel Hf.
    unfold jmem_heap_gc_and_alloc_block.
    replace (required =? 0) with false by (symmetry; apply Z.eqb_neq; lia).
    fold need. rewrite Hpre. cbn [fst snd].
    change (if JMEM_LAZY_GC cfg
            then size_t (jmem_heap_blocks_size st + need) >? JMEM_HEAP_SIZE cfg
            else size_t (jmem_heap_blocks_size st + need) >? jmem_heap_limit st)
      with (over_budget cfg need st).
    assert (Hw : forall tr : gc_trace,
               (if over_budget cfg need st then run_gc gc LOW (st, tr) else (st, tr))
               = (st, tr ++ (if over_budget cfg need st then [LOW] else []))).
    { intros tr. destruct (over_budget cfg need st).
      - unfold run_gc. cbn [fst snd]. rewrite Hlow. reflexivity.
      - rewrite app_nil_r. reflexivity. }
    rewrite Hw. cbn [fst snd app].
    rewrite Hrun1 by lia. rewrite bind_done. cbv beta iota.
    change (negb (NULL =? NULL)) with false. cbv iota.
    rewrite Hsr, bind_done. cbv beta iota.
    cbn [gc_retry run_gc fst snd]. rewrite Hlow.
    rewrite Hrun2 by (simpl; lia). rewrite bind_done. cbv beta iota.
    change (negb (NULL =? NULL)) with false. cbv iota.
    cbn [fst snd].
    rewrite Hrun3 by lia. rewrite bind_done. cbv beta iota.
    replace (negb (node cfg r =? NULL)) with true
      by (symmetry; apply negb_true_iff, Z.eqb_neq; exact Hnn).
    cbv iota. rewrite bind_done. rewrite <- app_assoc. reflexivity.
  - destruct Hinv' as (_ & (Hf' & _) & _).
    rewrite Forall_forall in Hf'. destruct (Hf' r Hin) as (R1 & R2 & R3).
    unfold node. lia.
Qed.

End LadderProofs.

(** *** The checks that compute are sound *)

Lemma lsegb_sound (m : memory) (l : list region) (cp e : Z) :
  lsegb cfg m cp l e = true -> lseg cfg m cp l e.
Proof.
  revert cp. induction l as [|r t IH]; simpl; intros cp H.
  - apply Z.eqb_eq. exact H.
  - apply andb_true_iff in H. destruct H as [H H3].
    apply andb_true_iff in H. destruct H as [H1 H2].
    apply Z.eqb_eq in H1, H2. repeat split; try assumption. apply IH. exact H3.
Qed.

Lemma gapsb_sound (l : list region) : gapsb l = true -> gaps l.
Proof.
  induction l as [|r1 t IH]; simpl; [trivial|].
  destruct t as [|r2 t']; [trivial|].
  intros H. apply andb_true_iff in H. destruct H as [H1 H2].
  split; [apply Z.ltb_lt; exact H1|apply IH; exact H2].
Qed.

Lemma regions_okb_sound (l : list region) :
  forallb (region_okb cfg) l = true -> Forall (region_ok cfg) l.
Proof.
  intros H. rewrite forallb_forall in H. apply Forall_forall. intros r Hr.
  specialize (H r Hr). unfold region_okb in H.
  apply andb_true_iff in H. destruct H as [H H3].
  apply andb_true_iff in H. destruct H as [H1 H2].
  apply Z.leb_le in H1, H3. apply Z.ltb_lt in H2. repeat split; assumption.
Qed.

Lemma heap_invb_sound (st : heap) (l : list region) :
  heap_invb cfg st l = true -> heap_inv cfg st l.
Proof.
  unfold heap_invb. intros H.
  repeat match type of H with
         | _ && _ = true => apply andb_true_iff in H; destruct H as [H ?]
         end.
  unfold heap_inv. split; [apply lsegb_sound; exact H|].
  split; [split; [apply regions_okb_sound|apply gapsb_sound]; assumption|].
  split; [apply Z.eqb_eq; assumption|].
  split.
  { unfold skip_okb in *. unfold skip_ok.
    match goal with Hx : _ || _ || _ = true |- _ => rename Hx into Hs end.
    apply orb_true_iff in Hs. destruct Hs as [Hs|Hs];
      [apply orb_true_iff in Hs; destruct Hs as [Hs|Hs]|].
    - left. apply Z.eqb_eq. assumption.
    - right. left. apply Z.eqb_eq. assumption.
    - right. right. apply existsb_exists in Hs. destruct Hs as (r & Hr & Hs).
      exists r. split; [exact Hr|apply Z.eqb_eq; exact Hs]. }
  split.
  { unfold counters_okb in *. unfold counters_ok.
    match goal with Hx : _ && _ && _ && _ = true |- _ => rename Hx into Hc end.
    apply andb_true_iff in Hc. destruct Hc as [Hc C4].
    apply andb_true_iff in Hc. destruct Hc as [Hc C3].
    apply andb_true_iff in Hc. destruct Hc as [C1 C2].
    apply Z.leb_le in C1, C2, C3. apply Z.ltb_lt in C4. lia. }
  intros Eseg.
  match goal with Hx : (if JMEM_SEGMENTED_HEAP cfg then _ else _) = true |- _ =>
    rewrite Eseg in Hx; apply Nat.eqb_eq in Hx; exact Hx
  end.
Qed.

Lemma aligned_regionsb_sound (l : list region) :
  aligned_regionsb cfg l = true -> aligned_regions cfg l.
Proof.
  unfold aligned_regionsb, aligned_regions. intros H.
  rewrite forallb_forall in H. apply Forall_forall. intros r Hr.
  specialize (H r Hr). apply andb_true_iff in H. destruct H as [H1 H2].
  apply Z.eqb_eq in H1, H2. split; assumption.
Qed.

Lemma apartb_sound (r1 r2 : region) : apartb r1 r2 = true -> apart r1 r2.
Proof.
  unfold apartb, apart. intros H. apply orb_true_iff in H.
  destruct H as [H|H]; apply Z.leb_le in H; [left|right]; exact H.
Qed.

Lemma block_okb_sound (l : list region) (b : Z * Z) :
  block_okb cfg l b = true ->
  0 < snd b /\ snd b + A - 1 < WORD
  /\ 0 <= fst (block_span cfg b)
  /\ fst (block_span cfg b) + snd (block_span cfg b) <= heap_size cfg
  /\ Forall (apart (block_span cfg b)) l.
Proof.
  unfold block_okb. intros H.
  repeat match type of H with
         | _ && _ = true => apply andb_true_iff in H; destruct H as [H ?]
         end.
  repeat match goal with
         | Hx : (_ <? _) = true |- _ => apply Z.ltb_lt in Hx
         | Hx : (_ <=? _) = true |- _ => apply Z.leb_le in Hx
         end.
  repeat split; try assumption.
  match goal with Hx : forallb _ l = true |- _ => rewrite forallb_forall in Hx;
    apply Forall_forall; intros r Hr; apply apartb_sound, Hx, Hr end.
Qed.

Lemma pairwise_apartb_sound (blocks : list (Z * Z)) :
  pairwise_apartb cfg blocks = true ->
  ForallOrdPairs (fun b1 b2 => apart (block_span cfg b1) (block_span cfg b2)) blocks.
Proof.
  induction blocks as [|b t IH]; simpl; intros H; [constructor|].
  apply andb_true_iff in H. destruct H as [H1 H2].
  constructor; [|apply IH; exact H2].
  rewrite forallb_forall in H1. apply Forall_forall. intros c Hc.
  apply apartb_sound, H1, Hc.
Qed.

Lemma live_blocksb_sound (l : list region) (bs : Z) (blocks : list (Z * Z)) :
  live_blocksb cfg l bs blocks = true -> live_blocks cfg l bs blocks.
Proof.
  unfold live_blocksb, live_blocks. intros H.
  apply andb_true_iff in H. destruct H as [H H3].
  apply andb_true_iff in H. destruct H as [H1 H2].
  split; [|split; [apply pairwise_apartb_sound; exact H2|apply Z.leb_le; exact H3]].
  rewrite forallb_forall in H1. apply Forall_forall. intros b Hb.
  apply block_okb_sound, H1, Hb.
Qed.

Lemma releasable_of_block_okb (l : list region) (bs : Z) (b : Z * Z) :
  block_okb cfg l b = true -> snd (block_span cfg b) <= bs ->
  releasable cfg l bs b.
Proof.
  intros H Hbs. destruct (block_okb_sound l b H) as (B1 & B2 & B3 & B4 & B5).
  unfold releasable. simpl in *. repeat split; try assumption.
  revert B5. apply Forall_impl. intros r Hr. unfold apart in Hr. simpl in Hr. lia.
Qed.

Lemma skip_validb_sound (st : heap) (l : list region) :
  skip_validb cfg st l = true -> skip_valid cfg st l.
Proof.
  unfold skip_validb, skip_valid. intros H. apply orb_true_iff in H.
  destruct H as [H|H].
  - left. apply Z.eqb_eq. exact H.
  - right. apply existsb_exists in H. destruct H as (r & Hr & H).
    exists r. split; [exact Hr|apply Z.eqb_eq; exact H].
Qed.

Lemma skip_usable_of_valid (st : heap) (l : list region) :
  skip_valid cfg st l -> skip_usable cfg st l.
Proof. intros H _. exact H. Qed.

End Proofs.

(** ** The concrete builds *)

Lemma cfg256_ok : config_ok cfg256.
Proof.
  constructor; try (intros Hseg; discriminate Hseg);
    unfold heap_size, WORD; simpl; lia.
Defined.

Lemma cfg256_debug_ok : config_ok cfg256_debug.
Proof.
  constructor; try (intros Hseg; discriminate Hseg);
    unfold heap_size, WORD; simpl; lia.
Defined.

Lemma cfg_seg_ok : config_ok cfg_seg.
Proof.
  constructor; try (unfold heap_size, WORD; simpl; lia).
  intros _. simpl. repeat split; lia.
Defined.

Lemma st_two_blocks_inv : heap_inv cfg256 st_two_blocks [(32, 224)].
Proof. apply heap_invb_sound. vm_compute. reflexivity. Defined.

Lemma st_one_block_inv : heap_inv cfg256 st_one_block [(8, 248)].
Proof. apply heap_invb_sound. vm_compute. reflexivity. Defined.

Lemma st_one_block_inv_debug : heap_inv cfg256_debug st_one_block [(8, 248)].
Proof. apply heap_invb_sound. vm_compute. reflexivity. Defined.


Lemma st_full_inv : heap_inv cfg256 st_full [].
Proof. apply heap_invb_sound. vm_compute. reflexivity. Defined.

Lemma st_init_inv : heap_inv cfg256 st_init [(0, 256)].
Proof. apply heap_invb_sound. vm_compute. reflexivity. Defined.

Lemma st_packed_inv : heap_inv cfg256 st_packed [].
Proof. apply heap_invb_sound. vm_compute. reflexivity. Defined.

Lemma st_seg_init_inv : heap_inv cfg_seg st_seg_init [(8, 120)].
Proof. apply heap_invb_sound. vm_compute. reflexivity. Defined.

Lemma state_after_run (cfg : config) (ops : list heap_op) :
  returns (run_from_init cfg 64 ops) = true ->
  run_from_init cfg 64 ops = Done (state_after cfg ops).
Proof.
  unfold state_after.
  destruct (run_from_init cfg 64 ops); simpl; [reflexivity|discriminate].
Qed.

Lemma st_init_run : jmem_heap_init cfg256 blank_context = Done st_init.
Proof.
  assert (H : run_from_init cfg256 64 [] = Done st_init)
    by (apply state_after_run; vm_compute; reflexivity).
  unfold run_from_init in H.
  destruct (jmem_heap_init cfg256 blank_context); simpl in H; [|discriminate H].
  exact H.
Qed.

(** ** The claims on concrete heaps *)

(** The release on bytes and the release on headers agree where the skip
    pointer is the sentinel: the second block of [st_two_blocks] joins the
    free tail, in both. *)
Lemma byte_release_two_blocks :
  match ByteLevel.jmem_heap_free_block_internal
          cfg256 64 4112 16 (jmem_heap_list_skip_p st_two_blocks)
          (ByteLevel.bytes_of cfg256 (mem st_two_blocks)),
        jmem_heap_free_block_internal cfg256 64 4112 16 false st_two_blocks with
  | Done (b, skip_p), Done st' =>
    ByteLevel.read_list cfg256 10 b (ByteLevel.next_offset_at b (first_p cfg256))
    = [(16, 240)]
    /\ read_list 10 cfg256 (mem st') (next_offset (mem st' (first_p cfg256)))
       = [(16, 240)]
    /\ skip_p = jmem_heap_list_skip_p st'
  | _, _ => False
  end.
Proof. vm_compute. repeat split; reflexivity. Qed.

(** C1.  Coalescing on release, after the fast path has emptied the list
    (the defect of C3).  From the empty heap of 256 bytes, allocate 8, 8
    and 240 bytes, release the two blocks of 8 bytes and allocate 8 bytes
    twice.  Every call returns; the free list is empty and all 256 bytes
    are allocated.  The block of 240 bytes at offset 16 may be released,
    and the rule of the specification makes its release leave the one
    region [(16, 240)].  But the skip pointer is the address one byte below
    the area, the block lies above it, and so the search of the release
    starts there: at an address that is neither the sentinel nor a node, so
    that the header the release reads and writes there overlaps
    [first.size] and the first bytes of the area.  On the bytes of this
    heap the release reads [0xffffff00] as the link of that header, so the
    search stays there; it joins the block to nothing and writes the
    block's offset across [first.size].  Afterwards [first] still ends the
    list: the free list is empty, not the region [(16, 240)], the block is
    lost, and [first.size] is [0x10000000]. *)
Theorem release_search_from_dangling_skip :
  let ops := [Alloc 8; Alloc 8; Alloc 240; Free 4096 8; Free 4104 8; Alloc 8; Alloc 8] in
  let st := state_after cfg256 ops in
  run_from_init cfg256 64 ops = Done st
  /\ free_list cfg256 st []
  /\ jmem_heap_blocks_size st = 256
  /\ releasable cfg256 [] (jmem_heap_blocks_size st) (4112, 240)
  /\ coalesce (block_offset_of cfg256 4112) (jmem_align cfg256 240) [] = [(16, 240)]
  /\ jmem_heap_list_skip_p st = area cfg256 - 1
  /\ fst (free_search_start cfg256 4112 (on_stats jmem_heap_stat_free_iter st))
     = area cfg256 - 1
  /\ first_p cfg256 + 8 = area cfg256
  /\ ~ skip_usable cfg256 st []
  /\ ByteLevel.next_offset_at (ByteLevel.bytes_of cfg256 (mem st)) (area cfg256 - 1)
     = 4294967040
  /\ match ByteLevel.jmem_heap_free_block_internal
             cfg256 64 4112 240 (jmem_heap_list_skip_p st)
             (ByteLevel.bytes_of cfg256 (mem st)) with
     | Done (b, skip_p) =>
       ByteLevel.next_offset_at b (first_p cfg256) = JMEM_HEAP_END_OF_LIST cfg256
       /\ ByteLevel.read_list cfg256 10 b (ByteLevel.next_offset_at b (first_p cfg256))
          = []
       /\ ByteLevel.read_list cfg256 10 b (ByteLevel.next_offset_at b (first_p cfg256))
          <> [(16, 240)]
       /\ ByteLevel.size_at b (first_p cfg256) = 268435456
       /\ skip_p = area cfg256 - 1
     | Stuck _ => False
     end.
Proof.
  cbv zeta. split; [apply state_after_run; vm_compute; reflexivity|].
  split; [apply lsegb_sound; vm_compute; reflexivity|].
  split; [vm_compute; reflexivity|].
  split.
  { apply releasable_of_block_okb; [vm_compute; reflexivity|].
    apply Z.leb_le. vm_compute. reflexivity. }
  split; [vm_compute; reflexivity|].
  split; [vm_compute; reflexivity|].
  split; [vm_compute; reflexivity|].
  split; [reflexivity|].
  split.
  { intros H. destruct (H eq_refl) as [E|(r & [] & _)].
    vm_compute in E. discriminate E. }
  split; [vm_compute; reflexivity|].
  vm_compute. repeat split; try reflexivity. discriminate.
Qed.

(** Coalescing on the heap of 256 bytes with two blocks of 16 bytes:
    released second block first, the two blocks and the free tail become
    the one region that spans the heap. *)
Lemma coalescing_on_free_witness :
  exists st',
    free_blocks cfg256 600 [(4112, 16); (4096, 16)] st_two_blocks = Done st'
    /\ free_list cfg256 st' [(0, 256)]
    /\ gaps [(0, 256)].
Proof.
  destruct (coalescing_on_free cfg256 cfg256_ok st_two_blocks [(32, 224)]
              [(4112, 16); (4096, 16)] 0 32) as (st' & Hrun & Hlist & Hgaps & _).
  - exact st_two_blocks_inv.
  - apply skip_usable_of_valid, skip_validb_sound. vm_compute. reflexivity.
  - apply live_blocksb_sound. vm_compute. reflexivity.
  - lia.
  - intros x Hx. destruct (Z_lt_dec x 16) as [Hlt|Hge].
    + exists (4096, 16). split; [right; left; reflexivity|].
      change (block_span cfg256 (4096, 16)) with (0, 16).
      unfold in_span. simpl. lia.
    + exists (4112, 16). split; [left; reflexivity|].
      change (block_span cfg256 (4112, 16)) with (16, 16).
      unfold in_span. simpl. lia.
  - assert (E : coalesce_all cfg256 [(32, 224)] [(4112, 16); (4096, 16)] = [(0, 256)])
      by (vm_compute; reflexivity).
    rewrite E in Hlist, Hgaps.
    exists st'. split; [|split; assumption].
    apply Hrun. apply Nat.ltb_lt. vm_compute. reflexivity.
Defined.

(** C2 on the segmented heap at start-up: an allocation of 16 bytes. *)
Lemma segment_occupancy_sum_witness :
  exists p st',
    jmem_heap_alloc_block_internal cfg_seg 2000 16 false st_seg_init = Done (p, st')
    /\ sum_list (segments st') = jmem_heap_blocks_size st'.
Proof.
  destruct (segment_occupancy_sum cfg_seg cfg_seg_ok st_seg_init [(8, 120)])
    as [Halloc _].
  - reflexivity.
  - exact st_seg_init_inv.
  - apply aligned_regionsb_sound. vm_compute. reflexivity.
  - assert (E : segments st_seg_init = [0; 0; 0; 0]) by (vm_compute; reflexivity).
    rewrite E. repeat constructor; lia.
  - vm_compute. reflexivity.
  - destruct (Halloc 16 false) as (p & st' & Hrun & Hsum & _).
    + lia.
    + unfold WORD. simpl. lia.
    + exists p, st'. split; [|exact Hsum].
      apply Hrun. apply Nat.ltb_lt. vm_compute. reflexivity.
Defined.

(** C3.  The skip pointer after the fast path empties the list.  From the
    empty heap of 256 bytes, allocate 8, 8 and 240 bytes, release the two
    blocks of 8 bytes and allocate 8 bytes twice.  Every call returns; the
    free list is then empty, and the skip pointer is neither the sentinel
    nor a node of the list: it is the address that the end-of-list offset
    decompresses to, one byte below the area. *)
Theorem skip_pointer_after_emptying_fast_path :
  let ops := [Alloc 8; Alloc 8; Alloc 240; Free 4096 8; Free 4104 8; Alloc 8; Alloc 8] in
  let st := state_after cfg256 ops in
  run_from_init cfg256 64 ops = Done st
  /\ free_list cfg256 st []
  /\ jmem_heap_list_skip_p st
     = JMEM_DECOMPRESS_POINTER_INTERNAL cfg256 (JMEM_HEAP_END_OF_LIST cfg256)
  /\ jmem_heap_list_skip_p st = area cfg256 - 1
  /\ ~ skip_valid cfg256 st [].
Proof.
  cbv zeta. split; [apply state_after_run; vm_compute; reflexivity|].
  split; [apply lsegb_sound; vm_compute; reflexivity|].
  split; [vm_compute; reflexivity|].
  split; [vm_compute; reflexivity|].
  intros [H|(r & [] & _)]. vm_compute in H. discriminate H.
Qed.

(** C4 on the empty heap of 256 bytes: a request of 8 bytes takes the
    start of the only free region, whose header moves 8 bytes forward. *)
Lemma fast_path_dispatch_and_effect_witness :
  let st := st_init in
  jmem_heap_alloc_block_internal cfg256 10 8 false st
  = bind (jmem_heap_alloc_block_internal_fast cfg256 false st)
         (alloc_finish cfg256 10 8)
  /\ exists st',
      jmem_heap_alloc_block_internal_fast cfg256 false st = Done (4096, st')
      /\ free_list cfg256 st' [(8, 248)]
      /\ mem st' 4104 = mkFree 4294967295 248.
Proof.
  cbv zeta.
  destruct (fast_path_dispatch_and_effect cfg256 cfg256_ok
              st_init [(0, 256)] 8 false 10)
    as (Hfast & _ & Heffect).
  - exact st_init_inv.
  - apply aligned_regionsb_sound. vm_compute. reflexivity.
  - split.
    + apply Hfast. split; [vm_compute; reflexivity|discriminate].
    + destruct (Heffect (0, 256) [] eq_refl) as (st' & Hrun & Hlist & Hmem).
      exists st'.
      assert (Hne : snd (0, 256) <> JMEM_ALIGNMENT cfg256) by (simpl; lia).
      specialize (Hmem Hne).
      assert (E : next_offset (mem st_init
                                   (JMEM_DECOMPRESS_POINTER_INTERNAL cfg256 (fst (0, 256))))
                  = 4294967295) by (vm_compute; reflexivity).
      rewrite E in Hmem.
      assert (Ep : JMEM_DECOMPRESS_POINTER_INTERNAL cfg256 (fst (0, 256)) = 4096)
        by (vm_compute; reflexivity).
      rewrite Ep in Hrun, Hmem. exact (conj Hrun (conj Hlist Hmem)).
Defined.

(** C5 on the empty heap of 256 bytes: after an allocation of 8 bytes the
    limit is a positive multiple of the desired limit above the block
    size, one step above the limit of before; and after the release of the
    block of [st_one_block] the limit is zero. *)
Lemma heap_limit_invariant_witness :
  (exists p st',
      jmem_heap_alloc_block_internal cfg256 1000 8 false st_init = Done (p, st')
      /\ jmem_heap_blocks_size st' < jmem_heap_limit st'
      /\ 0 < jmem_heap_limit st'
      /\ jmem_heap_limit st' mod CONFIG_MEM_HEAP_DESIRED_LIMIT cfg256 = 0
      /\ exists k, 0 <= k
                   /\ jmem_heap_limit st'
                      = jmem_heap_limit st_init + k * CONFIG_MEM_HEAP_DESIRED_LIMIT cfg256)
  /\ (exists st',
         jmem_heap_free_block_internal cfg256 1000 4096 8 false st_one_block = Done st'
         /\ jmem_heap_blocks_size st' <= jmem_heap_limit st'
         /\ jmem_heap_limit st'
            < jmem_heap_blocks_size st' + CONFIG_MEM_HEAP_DESIRED_LIMIT cfg256).
Proof.
  split.
  - destruct (heap_limit_invariant cfg256 cfg256_ok st_init [(0, 256)]) as [Halloc _].
    + exact st_init_inv.
    + apply aligned_regionsb_sound. vm_compute. reflexivity.
    + vm_compute. reflexivity.
    + destruct (Halloc 8 false) as (p & st' & Hrun & H1 & H2 & H3 & (k & Hk & Ek & _) & _).
      * lia.
      * unfold WORD. simpl. lia.
      * exists p, st'. split; [|split; [exact H1|split; [exact H2|split; [exact H3|]]]].
        -- apply Hrun. apply Nat.ltb_lt. vm_compute. reflexivity.
        -- exists k. split; [exact Hk|exact Ek].
  - destruct (heap_limit_invariant cfg256 cfg256_ok st_one_block [(8, 248)]) as [_ Hfree].
    + exact st_one_block_inv.
    + apply aligned_regionsb_sound. vm_compute. reflexivity.
    + vm_compute. reflexivity.
    + destruct (Hfree 4096 8 false) as (st' & Hrun & H1 & H2 & _).
      * apply skip_usable_of_valid, skip_validb_sound. vm_compute. reflexivity.
      * apply releasable_of_block_okb; [vm_compute; reflexivity|].
        apply Z.leb_le. vm_compute. reflexivity.
      * exists st'. split; [|split; [exact H1|exact H2]].
        apply Hrun. apply Nat.ltb_lt. vm_compute. reflexivity.
Defined.

(** C5 as first stated fails: the release of the only block lowers the
    limit to zero, which is not positive. *)
Lemma heap_limit_zero_after_free :
  exists st,
    run_from_init cfg256 64 [Alloc 8; Free 4096 8] = Done st
    /\ jmem_heap_limit st = 0
    /\ ~ 0 < jmem_heap_limit st.
Proof.
  exists (state_after cfg256 [Alloc 8; Free 4096 8]).
  split; [apply state_after_run; vm_compute; reflexivity|].
  assert (E : jmem_heap_limit (state_after cfg256 [Alloc 8; Free 4096 8]) = 0)
    by (vm_compute; reflexivity).
  rewrite E. split; [reflexivity|lia].
Qed.

(** C6 on the full heap of 256 bytes, blocks of 128 bytes, with a
    callback that releases the first block at HIGH.  A request of 8 bytes
    stays within the limit: the callback runs at LOW, then at HIGH, and the
    block is allocated.  A request of 16 bytes exceeds the limit: the
    callback runs at LOW, at LOW again and then at HIGH. *)
Lemma gc_escalation_low_then_high_witness :
  (exists n p st',
      (forall fuel, (n < fuel)%nat ->
          jmem_heap_gc_and_alloc_block cfg256 gc_release_first no_segment fuel 8
                                       false false st_full
          = Done (Returned p, (st', [JMEM_FREE_UNUSED_MEMORY_SEVERITY_LOW;
                                     JMEM_FREE_UNUSED_MEMORY_SEVERITY_HIGH])))
      /\ p <> NULL
      /\ area cfg256 <= p < area cfg256 + heap_size cfg256)
  /\ (exists n p st',
         (forall fuel, (n < fuel)%nat ->
             jmem_heap_gc_and_alloc_block cfg256 gc_release_first no_segment fuel 16
                                          false false st_full
             = Done (Returned p, (st', [JMEM_FREE_UNUSED_MEMORY_SEVERITY_LOW;
                                        JMEM_FREE_UNUSED_MEMORY_SEVERITY_LOW;
                                        JMEM_FREE_UNUSED_MEMORY_SEVERITY_HIGH])))
         /\ p <> NULL).
Proof.
  assert (Hhigh : forall need,
             need = 8 \/ need = 16 ->
             forall s, retried st_full s ->
               exists l' r, heap_inv cfg256
                              (gc_release_first JMEM_FREE_UNUSED_MEMORY_SEVERITY_HIGH s) l'
                            /\ aligned_regions cfg256 l'
                            /\ first_fit need l' = Some r).
  { intros need Hneed s Hs.
    pose proof (heap_inv_retried cfg256 st_full s [] Hs st_full_inv) as Hinv.
    assert (Hbs : jmem_heap_blocks_size s = 256).
    { destruct Hs as (stats & lim & -> & _). vm_compute. reflexivity. }
    assert (Huse : skip_usable cfg256 s []).
    { apply skip_usable_of_valid. left.
      destruct Hs as (stats & lim & -> & _). vm_compute. reflexivity. }
    assert (Hrel : releasable cfg256 [] (jmem_heap_blocks_size s) (4096, 128)).
    { apply releasable_of_block_okb; [vm_compute; reflexivity|].
      rewrite Hbs. apply Z.leb_le. vm_compute. reflexivity. }
    destruct (free_block_spec cfg256 cfg256_ok s [] 4096 128 false Hinv Huse Hrel)
      as (st' & Hrun & Hinv' & _).
    exists [(0, 128)], (0, 128).
    assert (Hgc : gc_release_first JMEM_FREE_UNUSED_MEMORY_SEVERITY_HIGH s = st').
    { unfold gc_release_first, jmem_heap_free_block. rewrite Hrun; [reflexivity|].
      change (Z.to_nat (heap_size cfg256)) with 256%nat. simpl length. lia. }
    rewrite Hgc. split; [exact Hinv'|].
    split; [apply aligned_regionsb_sound; vm_compute; reflexivity|].
    destruct Hneed as [-> | ->]; vm_compute; reflexivity. }
  split.
  - destruct (gc_escalation_low_then_high cfg256 cfg256_ok gc_release_first no_segment
                st_full [] 8 false false) as (n & p & st' & Hrun & Hp & Hin).
    + reflexivity.
    + lia.
    + unfold WORD. simpl. lia.
    + exact st_full_inv.
    + reflexivity.
    + reflexivity.
    + intros Hseg. discriminate Hseg.
    + intros s. reflexivity.
    + apply Hhigh. left. vm_compute. reflexivity.
    + assert (E : over_budget cfg256 (jmem_align cfg256 8) st_full = false)
        by (vm_compute; reflexivity).
      rewrite E in Hrun. exists n, p, st'. split; [exact Hrun|split; [exact Hp|exact Hin]].
  - destruct (gc_escalation_low_then_high cfg256 cfg256_ok gc_release_first no_segment
                st_full [] 16 false false) as (n & p & st' & Hrun & Hp & _).
    + reflexivity.
    + lia.
    + unfold WORD. simpl. lia.
    + exact st_full_inv.
    + reflexivity.
    + intros E. vm_compute in E. discriminate E.
    + intros Hseg. discriminate Hseg.
    + intros s. reflexivity.
    + apply Hhigh. right. vm_compute. reflexivity.
    + assert (E : over_budget cfg256 (jmem_align cfg256 16) st_full = true)
        by (vm_compute; reflexivity).
      rewrite E in Hrun. exists n, p, st'. split; [exact Hrun|exact Hp].
Defined.

(** C6 as first stated fails, in two ways.  On the full heap of two
    blocks of 128 bytes, with a callback that releases nothing at LOW and
    128 bytes at HIGH, a request of 16 bytes exceeds the limit, so the
    callback runs at LOW before the first attempt and again on the ladder:
    LOW is seen twice.  And on the full heap of blocks of 8, 8, 8 and 232
    bytes, with a callback that releases nothing at LOW and, at HIGH, the
    16 bytes of the first and the third block, a request of 16 bytes finds
    no region of 16 bytes: the call does not return a pointer, it ends in
    [jerry_fatal]. *)
Lemma gc_escalation_as_stated_fails :
  ((forall s, gc_release_first JMEM_FREE_UNUSED_MEMORY_SEVERITY_LOW s = s)
   /\ jmem_heap_blocks_size
        (gc_release_first JMEM_FREE_UNUSED_MEMORY_SEVERITY_HIGH st_full)
      = jmem_heap_blocks_size st_full - 128
   /\ match jmem_heap_gc_and_alloc_block cfg256 gc_release_first no_segment 1000 16
                                         false false st_full with
      | Done (Returned p, (_, trace)) =>
        p = 4096
        /\ trace = [JMEM_FREE_UNUSED_MEMORY_SEVERITY_LOW;
                    JMEM_FREE_UNUSED_MEMORY_SEVERITY_LOW;
                    JMEM_FREE_UNUSED_MEMORY_SEVERITY_HIGH]
        /\ trace <> [JMEM_FREE_UNUSED_MEMORY_SEVERITY_LOW;
                     JMEM_FREE_UNUSED_MEMORY_SEVERITY_HIGH]
      | _ => False
      end)
  /\ ((forall s, gc_release_apart JMEM_FREE_UNUSED_MEMORY_SEVERITY_LOW s = s)
      /\ jmem_heap_blocks_size
           (gc_release_apart JMEM_FREE_UNUSED_MEMORY_SEVERITY_HIGH st_packed)
         = jmem_heap_blocks_size st_packed - 16
      /\ read_list 10 cfg256
                   (mem (gc_release_apart JMEM_FREE_UNUSED_MEMORY_SEVERITY_HIGH st_packed))
                   (next_offset
                      (mem (gc_release_apart JMEM_FREE_UNUSED_MEMORY_SEVERITY_HIGH st_packed)
                           (first_p cfg256)))
         = [(0, 8); (16, 8)]
      /\ match jmem_heap_gc_and_alloc_block cfg256 gc_release_apart no_segment 1000 16
                                            false false st_packed with
         | Done (Fatal code, (_, trace)) =>
           code = ERR_OUT_OF_MEMORY
           /\ trace = [JMEM_FREE_UNUSED_MEMORY_SEVERITY_LOW;
                       JMEM_FREE_UNUSED_MEMORY_SEVERITY_LOW;
                       JMEM_FREE_UNUSED_MEMORY_SEVERITY_HIGH]
         | _ => False
         end).
Proof.
  split.
  - split; [intros s; reflexivity|].
    split; [vm_compute; reflexivity|].
    vm_compute. split; [reflexivity|]. split; [reflexivity|discriminate].
  - split; [intros s; reflexivity|].
    split; [vm_compute; reflexivity|].
    split; [vm_compute; reflexivity|].
    vm_compute. split; reflexivity.
Qed.

(** C7.  The statistics of an allocation.  From the empty heap of 256
    bytes, [jmem_heap_alloc_block] of 5 bytes returns the start of the area
    and accounts 8 allocated bytes and one allocation, but no waste: the
    size reaches [jmem_heap_stat_alloc] already aligned (a request of 5
    bytes wastes 3).  The release of the block with its 5 bytes then
    subtracts the 3 bytes that were never added, and the waste wraps
    around. *)
Theorem stat_alloc_sees_aligned_size :
  match bind (jmem_heap_init cfg256 blank_context)
             (jmem_heap_alloc_block cfg256 gc_nothing no_segment 64 5) with
  | Done (Returned p, (st1, _)) =>
    p = 4096
    /\ allocated_bytes (jmem_heap_stats st1) = jmem_align cfg256 5
    /\ alloc_count (jmem_heap_stats st1) = 1
    /\ waste_bytes (jmem_heap_stats st1) = 0
    /\ waste_bytes (jmem_heap_stats st1) <> jmem_align cfg256 5 - 5
    /\ match jmem_heap_free_block cfg256 64 p 5 st1 with
       | Done st2 => waste_bytes (jmem_heap_stats st2) = 4294967293
       | Stuck _ => False
       end
  | _ => False
  end.
Proof.
  vm_compute. repeat split; discriminate.
Qed.



(** C9 on the heap of 256 bytes with one block of 8 bytes: the release of
    zero bytes at the start of the area stops at the assertion in a debug
    build; in a release build it returns with the block size unchanged and
    the block count decremented. *)
Lemma free_zero_size_witness :
  (forall fuel,
      jmem_heap_free_block_internal cfg256_debug fuel 4096 0 false st_one_block
      = Stuck AssertFailed)
  /\ exists st',
      jmem_heap_free_block_internal cfg256 600 4096 0 false st_one_block = Done st'
      /\ jmem_heap_blocks_size st' = jmem_heap_blocks_size st_one_block
      /\ jmem_heap_allocated_blocks_count st' = 0.
Proof.
  split.
  - destruct (free_zero_size cfg256_debug cfg256_debug_ok st_one_block [(8, 248)]
                             4096 false) as [Hdebug _].
    + exact st_one_block_inv_debug.
    + unfold heap_size. simpl. lia.
    + apply Hdebug. reflexivity.
  - destruct (free_zero_size cfg256 cfg256_ok st_one_block [(8, 248)] 4096 false)
      as [_ Hrelease].
    + exact st_one_block_inv.
    + unfold heap_size. simpl. lia.
    + assert (Huse : skip_usable cfg256 st_one_block [(8, 248)])
        by (apply skip_usable_of_valid, skip_validb_sound; vm_compute; reflexivity).
      destruct (Hrelease eq_refl Huse) as (st' & Hrun & Hbs & _ & Hcount & _).
      exists st'. split; [|split; [exact Hbs|]].
      * apply Hrun. apply Nat.ltb_lt. vm_compute. reflexivity.
      * rewrite Hcount. vm_compute. reflexivity.
Defined.

(** C9 as first stated fails: in a release build the release of zero bytes
    decrements the block count, lowers the limit and links a region of no
    bytes into the free list. *)
Lemma free_zero_size_changes_heap :
  match jmem_heap_free_block cfg256 600 4096 0 st_one_block with
  | Done st' =>
    jmem_heap_allocated_blocks_count st_one_block = 1
    /\ jmem_heap_allocated_blocks_count st' = 0
    /\ jmem_heap_limit st_one_block = 16
    /\ jmem_heap_limit st' = 8
    /\ read_list 10 cfg256 (mem st_one_block) (next_offset (mem st_one_block (first_p cfg256)))
       = [(8, 248)]
    /\ read_list 10 cfg256 (mem st') (next_offset (mem st' (first_p cfg256)))
       = [(0, 0); (8, 248)]
  | Stuck _ => False
  end.
Proof.
  vm_compute. repeat split; reflexivity.
Qed.



(** ** The heap in use *)

Section HeapInUse.

Variable cfg : config.
Hypothesis cfg_ok : config_ok cfg.

Local Abbreviation A := (JMEM_ALIGNMENT cfg).
Local Abbreviation END_OF_LIST := (JMEM_HEAP_END_OF_LIST cfg).
Local Abbreviation SEG := (SEG_SEGMENT_SIZE cfg).
Local Abbreviation LIMIT := (CONFIG_MEM_HEAP_DESIRED_LIMIT cfg).
Local Abbreviation first := (first_p cfg).

(** *** Lists of regions, continued *)

Lemma free_bytes_app (l1 l2 : list region) :
  free_bytes (l1 ++ l2) = free_bytes l1 + free_bytes l2.
Proof.
  unfold free_bytes. induction l1 as [|r t IH]; simpl; [reflexivity|].
  rewrite IH. lia.
Qed.

Lemma free_bytes_cons (r : region) (l : list region) :
  free_bytes (r :: l) = snd r + free_bytes l.
Proof. reflexivity. Qed.

Lemma free_bytes_carve (need : Z) (r : region) :
  free_bytes (carve need r) = snd r - need.
Proof.
  unfold carve. destruct (Z.eqb_spec (snd r) need) as [E|E].
  - unfold free_bytes. simpl. lia.
  - unfold free_bytes. simpl. lia.
Qed.

Lemma allocate_from_split (need : Z) (l : list region) (r : region) :
  first_fit need l = Some r ->
  exists la lb,
    l = la ++ r :: lb /\ Forall (fun x => snd x < need) la /\ need <= snd r
    /\ allocate_from need l = la ++ carve need r ++ lb.
Proof.
  unfold first_fit. induction l as [|a t IH]; simpl; [discriminate|].
  destruct (need <=? snd a) eqn:E.
  - intros H. injection H as <-. exists [], t. simpl.
    split; [reflexivity|]. split; [constructor|].
    split; [apply Z.leb_le; exact E|reflexivity].
  - intros H. destruct (IH H) as (la & lb & -> & Hla & Hr & Hal).
    exists (a :: la), lb. split; [reflexivity|].
    split; [constructor; [apply Z.leb_gt; exact E|exact Hla]|].
    split; [exact Hr|]. simpl. rewrite Hal. reflexivity.
Qed.

Lemma allocate_from_none (need : Z) (l : list region) :
  first_fit need l = None -> allocate_from need l = l.
Proof.
  unfold first_fit. induction l as [|a t IH]; simpl; [reflexivity|].
  destruct (need <=? snd a); [discriminate|]. intros H. rewrite (IH H). reflexivity.
Qed.

Lemma gaps_remove (la : list region) (r : region) (lb : list region) :
  gaps (la ++ r :: lb) -> 0 < snd r -> gaps (la ++ lb).
Proof.
  intros H Hr. induction la as [|a t IH]; simpl in *.
  - eapply gaps_tail. exact H.
  - destruct t as [|a2 t']; simpl in *.
    + destruct H as [H1 H2]. destruct lb as [|b lb']; [exact I|].
      simpl in H2. destruct H2 as [H2 H3]. split; [lia|exact H3].
    + destruct H as [H1 H2]. split; [exact H1|]. apply IH. exact H2.
Qed.

Lemma gaps_shift_last (la : list region) (r r' : region) :
  fst r <= fst r' -> gaps (la ++ [r]) -> gaps (la ++ [r']).
Proof.
  intros Hle. induction la as [|a t IH]; simpl; [trivial|].
  destruct t as [|a2 t']; simpl in *.
  - intros [H _]. split; [lia|exact I].
  - intros [H1 H2]. split; [exact H1|]. apply IH. exact H2.
Qed.

(** In a list with gaps, the regions in front of [r] end below it. *)
Lemma gaps_front (la : list region) (r : region) (lb : list region) :
  gaps (la ++ r :: lb) -> Forall (fun x => 0 < snd x) (la ++ r :: lb) ->
  Forall (fun x => fst x + snd x < fst r) la.
Proof.
  induction la as [|a t IH]; simpl; intros Hg Hp; [constructor|].
  inversion Hp as [|? ? Ha Hp']; subst.
  pose proof (gaps_beyond a (t ++ r :: lb) Hg Hp') as Hb.
  constructor.
  - rewrite Forall_forall in Hb. apply Hb. apply in_elt.
  - apply IH; [eapply gaps_tail; exact Hg|exact Hp'].
Qed.

Lemma regions_ok_carve (need : Z) (la : list region) (r : region) (lb : list region) :
  regions_ok cfg (la ++ r :: lb) -> 0 < need <= snd r ->
  regions_ok cfg (la ++ carve need r ++ lb).
Proof.
  intros [Hf Hg] Hn.
  pose proof Hf as Hf0.
  apply Forall_app in Hf. destruct Hf as [Hfa Hfr].
  inversion Hfr as [|? ? (R1 & R2 & R3) Hfb]; subst.
  unfold carve. destruct (Z.eqb_spec (snd r) need) as [E|E]; simpl.
  - split; [apply Forall_app; split; assumption|].
    eapply gaps_remove; [exact Hg|exact R2].
  - split.
    + apply Forall_app. split; [exact Hfa|]. constructor; [|exact Hfb].
      unfold region_ok. simpl. lia.
    + apply gaps_split in Hg. destruct Hg as [Hg1 Hg2].
      apply gaps_join.
      * eapply gaps_shift_last; [|exact Hg1]. simpl. lia.
      * eapply gaps_resize_head; [|exact Hg2]. simpl. lia.
Qed.

Lemma mod_add_zero (a b : Z) : a mod A = 0 -> b mod A = 0 -> (a + b) mod A = 0.
Proof.
  intros Ha Hb. rewrite Z.add_mod by (pose proof (ok_align cfg cfg_ok); lia).
  rewrite Ha, Hb. reflexivity.
Qed.

Lemma mod_sub_zero (a b : Z) : a mod A = 0 -> b mod A = 0 -> (a - b) mod A = 0.
Proof.
  intros Ha Hb. rewrite Zminus_mod. rewrite Ha, Hb. reflexivity.
Qed.

Lemma aligned_carve (need : Z) (la : list region) (r : region) (lb : list region) :
  aligned_regions cfg (la ++ r :: lb) -> need mod A = 0 ->
  aligned_regions cfg (la ++ carve need r ++ lb).
Proof.
  unfold aligned_regions. intros H Hn.
  apply Forall_app in H. destruct H as [Ha Hr].
  inversion Hr as [|? ? (R1 & R2) Hb]; subst.
  apply Forall_app. split; [exact Ha|]. apply Forall_app. split; [|exact Hb].
  unfold carve. destruct (snd r =? need); constructor; [|constructor].
  simpl. split; [apply mod_add_zero|apply mod_sub_zero]; assumption.
Qed.

(** With the regions of [la] below [bo] and the rest from [bo] on, the
    search of the release splits the list between them. *)
Lemma before_after_split (bo : Z) (la rest : list region) :
  Forall (fun x => fst x < bo) la ->
  match rest with
  | [] => True
  | x :: _ => bo <= fst x
  end ->
  before bo (la ++ rest) = la /\ after bo (la ++ rest) = rest.
Proof.
  intros Hla Hrest. induction la as [|a t IH]; simpl.
  - destruct rest as [|x rest']; simpl; [split; reflexivity|].
    replace (fst x <? bo) with false by (symmetry; apply Z.ltb_ge; exact Hrest).
    split; reflexivity.
  - inversion Hla as [|? ? Ha Ht]; subst.
    replace (fst a <? bo) with true by (symmetry; apply Z.ltb_lt; exact Ha).
    destruct (IH Ht) as [IH1 IH2]. rewrite IH1, IH2. split; reflexivity.
Qed.

Lemma merge_prev_apart (la : list region) (bo n : Z) :
  Forall (fun x => fst x + snd x < bo) la ->
  merge_prev la bo n = (la, (bo, n)).
Proof.
  intros H. destruct (list_last_case la) as [->|(l' & p & ->)]; [reflexivity|].
  rewrite merge_prev_snoc. apply Forall_app in H. destruct H as [_ H].
  apply Forall_inv in H.
  replace (fst p + snd p =? bo) with false by (symmetry; apply Z.eqb_neq; lia).
  reflexivity.
Qed.

(** Releasing what an allocation has just cut restores the list. *)
Lemma coalesce_carve (need : Z) (la : list region) (r : region) (lb : list region) :
  regions_ok cfg (la ++ r :: lb) -> 0 < need <= snd r ->
  coalesce (fst r) need (la ++ carve need r ++ lb) = la ++ r :: lb.
Proof.
  intros [Hf Hg] Hn.
  pose proof (regions_pos cfg _ Hf) as Hp.
  pose proof (gaps_front la r lb Hg Hp) as Hfront.
  assert (Hlow : Forall (fun x => fst x < fst r) la).
  { apply Forall_app in Hp. destruct Hp as [Hpa _].
    rewrite Forall_forall in *. intros x Hx.
    specialize (Hfront x Hx). specialize (Hpa x Hx). simpl in *. lia. }
  assert (Hbeyond : Forall (fun x => fst r + snd r < fst x) lb).
  { apply gaps_app_r in Hg. apply Forall_app in Hp. destruct Hp as [_ Hp].
    inversion Hp; subst. apply gaps_beyond; assumption. }
  assert (Hrest : match carve need r ++ lb with
                  | [] => True
                  | x :: _ => fst r <= fst x
                  end).
  { unfold carve. destruct (snd r =? need); simpl; [|lia].
    destruct lb as [|b lb']; [exact I|]. apply Forall_inv in Hbeyond. lia. }
  unfold coalesce.
  destruct (before_after_split (fst r) la (carve need r ++ lb) Hlow Hrest) as [-> ->].
  rewrite merge_prev_apart by exact Hfront.
  f_equal. unfold carve, merge_next.
  destruct (Z.eqb_spec (snd r) need) as [E|E]; simpl.
  - destruct lb as [|b lb'].
    + destruct r as [o s]. simpl in *. subst s. reflexivity.
    + apply Forall_inv in Hbeyond.
      replace (fst r + need =? fst b) with false by (symmetry; apply Z.eqb_neq; lia).
      destruct r as [o s]. simpl in *. subst s. reflexivity.
  - rewrite Z.eqb_refl. destruct r as [o s]. simpl in *.
    replace (need + (s - need)) with s by lia. reflexivity.
Qed.

Lemma free_bytes_coalesce (bo n : Z) (l : list region) :
  free_bytes (coalesce bo n l) = free_bytes l + n.
Proof.
  unfold coalesce. rewrite <- (before_after bo l) at 2.
  rewrite free_bytes_app.
  assert (Hprev : forall l1 b, merge_prev (before bo l) bo n = (l1, b) ->
                               free_bytes l1 + snd b = free_bytes (before bo l) + n).
  { intros l1 b. destruct (list_last_case (before bo l)) as [E|(l' & p & E)]; rewrite E.
    - rewrite merge_prev_nil. intros H. injection H as <- <-. simpl. lia.
    - rewrite merge_prev_snoc. destruct (fst p + snd p =? bo); intros H;
        injection H as <- <-; rewrite free_bytes_app; unfold free_bytes; simpl; lia. }
  destruct (merge_prev (before bo l) bo n) as [l1 b] eqn:Em.
  specialize (Hprev l1 b eq_refl). rewrite free_bytes_app.
  assert (Hnext : free_bytes (merge_next b (after bo l)) = snd b + free_bytes (after bo l)).
  { unfold merge_next. destruct (after bo l) as [|nx t]; [unfold free_bytes; simpl; lia|].
    destruct (fst b + snd b =? fst nx); unfold free_bytes; simpl; lia. }
  rewrite Hnext. lia.
Qed.

Lemma aligned_coalesce (bo n : Z) (l : list region) :
  aligned_regions cfg l -> bo mod A = 0 -> n mod A = 0 ->
  aligned_regions cfg (coalesce bo n l).
Proof.
  unfold aligned_regions. intros Hl Hbo Hn.
  rewrite <- (before_after bo l) in Hl. apply Forall_app in Hl. destruct Hl as [Hb Ha].
  unfold coalesce.
  assert (Hprev : forall l1 b, merge_prev (before bo l) bo n = (l1, b) ->
                               Forall (fun r => fst r mod A = 0 /\ snd r mod A = 0) l1
                               /\ fst b mod A = 0 /\ snd b mod A = 0).
  { intros l1 b. destruct (list_last_case (before bo l)) as [E|(l' & p & E)]; rewrite E in *.
    - rewrite merge_prev_nil. intros H. injection H as <- <-. simpl. tauto.
    - rewrite merge_prev_snoc. apply Forall_app in Hb. destruct Hb as [Hb1 Hb2].
      apply Forall_inv in Hb2. destruct Hb2 as [P1 P2].
      destruct (fst p + snd p =? bo); intros H; injection H as <- <-; simpl.
      + split; [exact Hb1|]. split; [exact P1|apply mod_add_zero; assumption].
      + split; [|tauto]. apply Forall_app. split; [exact Hb1|].
        constructor; [tauto|constructor]. }
  destruct (merge_prev (before bo l) bo n) as [l1 b] eqn:Em.
  destruct (Hprev l1 b eq_refl) as (H1 & H2 & H3).
  apply Forall_app. split; [exact H1|].
  unfold merge_next. destruct (after bo l) as [|nx t]; [constructor; [tauto|constructor]|].
  inversion Ha as [|? ? (N1 & N2) Ht]; subst.
  destruct (fst b + snd b =? fst nx).
  - constructor; [|exact Ht]. simpl. split; [exact H2|apply mod_add_zero; assumption].
  - constructor; [tauto|]. constructor; [tauto|exact Ht].
Qed.

(** Regions with gaps between them, inside [[lo, hi]], hold fewer than
    [hi - lo] bytes, unless there is one region and it is all of it. *)
Lemma free_bytes_bound (hi : Z) (l : list region) :
  forall lo, lo <= hi -> gaps l ->
    Forall (fun r => lo <= fst r /\ 0 < snd r /\ fst r + snd r <= hi) l ->
    free_bytes l <= hi - lo
    /\ (free_bytes l = hi - lo -> l = [] \/ l = [(lo, hi - lo)]).
Proof.
  induction l as [|r t IH]; intros lo Hlo Hg Hf.
  - unfold free_bytes. simpl. split; [lia|]. intros _. left. reflexivity.
  - inversion Hf as [|? ? (R1 & R2 & R3) Hft]; subst.
    rewrite free_bytes_cons.
    destruct t as [|r2 t'].
    + unfold free_bytes. simpl. split; [lia|]. intros E. right.
      destruct r as [o s]. simpl in *. f_equal. f_equal; lia.
    + assert (Hp : Forall (fun x => 0 < snd x) (r2 :: t')).
      { eapply Forall_impl; [|exact Hft]. simpl. tauto. }
      pose proof (gaps_beyond r (r2 :: t') Hg Hp) as Hb.
      pose proof (Forall_inv Hb) as Hb2. pose proof (Forall_inv Hft) as (_ & Q2 & Q3).
      cbv beta in Hb2.
      destruct (IH (fst r + snd r + 1)) as [IH1 _].
      * lia.
      * eapply gaps_tail. exact Hg.
      * rewrite Forall_forall in *. intros x Hx.
        specialize (Hb x Hx). specialize (Hft x Hx). simpl in *. lia.
      * split; [lia|]. intros E. lia.
Qed.

(** The heap with every byte free is one region. *)
Lemma single_region (l : list region) :
  regions_ok cfg l -> free_bytes l = heap_size cfg -> l = [(0, heap_size cfg)].
Proof.
  intros [Hf Hg] E. pose proof (ok_heap cfg cfg_ok) as Hh.
  destruct (free_bytes_bound (heap_size cfg) l 0 ltac:(lia) Hg) as [_ H].
  - eapply Forall_impl; [|exact Hf]. intros r (R1 & R2 & R3). lia.
  - rewrite Z.sub_0_r in H. destruct (H E) as [->| ->]; [|reflexivity].
    unfold free_bytes in E. simpl in E. lia.
Qed.

(** *** The links after an allocation *)

Ltac mem_simpl :=
  repeat first [ rewrite size_set_size | rewrite next_set_size
               | rewrite size_set_next | rewrite next_set_next
               | rewrite Z.eqb_refl ].

Lemma eqb_false_of_lt (a b : Z) : a < b -> (a =? b) = false.
Proof. intros H. apply Z.eqb_neq. lia. Qed.

Lemma eqb_false_of_gt (a b : Z) : b < a -> (a =? b) = false.
Proof. intros H. apply Z.eqb_neq. lia. Qed.

Lemma free_bytes_nonneg (l : list region) :
  Forall (fun x => 0 < snd x) l -> 0 <= free_bytes l.
Proof.
  induction 1 as [|a t Ha Ht IH]; [unfold free_bytes; simpl; lia|].
  rewrite free_bytes_cons. lia.
Qed.

Lemma free_bytes_in (l : list region) (r : region) :
  Forall (fun x => 0 < snd x) l -> In r l -> snd r <= free_bytes l.
Proof.
  induction l as [|a t IH]; intros Hp Hin; [contradiction|].
  inversion Hp as [|? ? Ha Ht]; subst. rewrite free_bytes_cons.
  pose proof (free_bytes_nonneg t Ht) as H0.
  destruct Hin as [->|Hin]; [lia|]. specialize (IH Ht Hin). lia.
Qed.

(** The statements "Region was larger than necessary." and "Block is an
    exact fit." of the slow path: the region found gives way to what is
    left of it, and the rest of the list stays linked. *)
Lemma slow_relink_links (m : memory) (la : list region) (r : region)
      (lb : list region) (need : Z) :
  regions_ok cfg (la ++ r :: lb) ->
  lseg cfg m (next_offset (m first)) (la ++ r :: lb) END_OF_LIST ->
  A <= need <= snd r ->
  let m' := slow_relink cfg m need (fst r) (walk_end cfg first la)
                        (next_offset (m (node cfg r))) in
  lseg cfg m' (next_offset (m' first)) (la ++ carve need r ++ lb) END_OF_LIST
  /\ size (m' first) = size (m first).
Proof.
  intros Hok Hl Hneed.
  pose proof (ok_align cfg cfg_ok) as HA.
  pose proof (ok_first cfg cfg_ok) as Hfst.
  pose proof (ok_end cfg cfg_ok) as Hend.
  pose proof (ok_area cfg cfg_ok) as Harea.
  pose proof (ascending_regions cfg cfg_ok _ Hok) as Hasc.
  pose proof (ascending_app_l cfg _ _ _ Hasc) as Hasc_a.
  pose proof (ascending_app_r cfg _ _ _ Hasc) as Hasc_r.
  simpl in Hasc_r. destruct Hasc_r as [Hprev Hasc_b].
  pose proof (ascending_above cfg _ _ Hasc_b) as Habove.
  destruct Hok as [Hf Hg].
  pose proof (regions_pos cfg _ Hf) as Hp.
  pose proof (gaps_front la r lb Hg Hp) as Hfront.
  assert (Hbeyond : Forall (fun x => fst r + snd r < fst x) lb).
  { apply gaps_app_r in Hg. apply Forall_app in Hp. destruct Hp as [_ Hp'].
    inversion Hp'; subst. apply gaps_beyond; assumption. }
  apply Forall_app in Hf. destruct Hf as [Hfa Hfr].
  inversion Hfr as [|? ? (R1 & R2 & R3) Hfb]; subst.
  assert (Hlow : Forall (fun x => node cfg x < node cfg r) la).
  { apply Forall_app in Hp. destruct Hp as [Hpa _].
    rewrite Forall_forall in *. intros x Hx.
    specialize (Hfront x Hx). specialize (Hpa x Hx). unfold node. simpl in *. lia. }
  apply lseg_app in Hl. destruct Hl as (mid & Hla & Hr).
  simpl in Hr. destruct Hr as (-> & Hsz & Hlb).
  set (prev := walk_end cfg first la) in *.
  set (nxt := next_offset (m (node cfg r))) in *.
  assert (Hpf : first <= prev) by (apply walk_end_ge; exact Hasc_a).
  intros m'.
  assert (Em0 : m' = if snd r >? need
                     then
                       let m2 := set_next_offset
                                   (set_size m (node cfg r + need)
                                             (u32 (snd r - u32 need)))
                                   (node cfg r + need) nxt in
                       if JMEM_SEGMENTED_HEAP cfg
                       then set_next_offset m2 prev (u32 (fst r + u32 need))
                       else set_next_offset m2 prev
                              (JMEM_COMPRESS_POINTER_INTERNAL cfg (node cfg r + need))
                     else set_next_offset m prev nxt).
  { unfold m', slow_relink.
    rewrite (decompress_node cfg cfg_ok r (conj R1 (conj R2 R3))).
    rewrite Hsz. reflexivity. }
  clearbody m'. subst m'.
  destruct (Z.gtb_spec (snd r) need) as [Hgt|Hle].
  - (* the region is larger *)
    cbv zeta.
    set (rp := node cfg r + need) in *.
    assert (Hrem : u32 (snd r - u32 need) = snd r - need).
    { rewrite (u32_small need) by (unfold WORD in *; lia).
      apply u32_small. unfold WORD in *. lia. }
    rewrite Hrem.
    assert (Hlink : (if JMEM_SEGMENTED_HEAP cfg then u32 (fst r + u32 need)
                     else JMEM_COMPRESS_POINTER_INTERNAL cfg rp) = fst r + need).
    { destruct (JMEM_SEGMENTED_HEAP cfg).
      - rewrite (u32_small need) by (unfold WORD in *; lia).
        apply u32_small. unfold WORD in *. lia.
      - replace rp with (JMEM_DECOMPRESS_POINTER_INTERNAL cfg (fst r + need))
          by (rewrite (decompress_in_heap cfg cfg_ok) by lia; unfold rp, node; lia).
        apply compress_decompress. unfold WORD in *. lia. }
    set (m2 := set_next_offset (set_size m rp (snd r - need)) rp nxt) in *.
    assert (Em' : (if JMEM_SEGMENTED_HEAP cfg
                   then set_next_offset m2 prev (u32 (fst r + u32 need))
                   else set_next_offset m2 prev (JMEM_COMPRESS_POINTER_INTERNAL cfg rp))
                  = set_next_offset m2 prev (fst r + need)).
    { destruct (JMEM_SEGMENTED_HEAP cfg); rewrite Hlink; reflexivity. }
    rewrite Em'. clear Em'.
    assert (Hm2 : forall q, q <> rp -> m2 q = m q).
    { intros q Hq. unfold m2, set_next_offset, set_size.
      apply Z.eqb_neq in Hq. rewrite Hq. reflexivity. }
    assert (Hrp : first < rp /\ prev < rp) by (unfold rp, node in *; lia).
    assert (Hcarve : carve need r = [(fst r + need, snd r - need)]).
    { unfold carve. rewrite eqb_false_of_gt by lia. reflexivity. }
    rewrite Hcarve. split.
    + apply lseg_app. exists (fst r + need). split.
      * apply (lseg_set_last cfg la m2 first (fst r + need) (fst r) Hasc_a).
        rewrite Hm2 by lia. eapply lseg_frame; [|exact Hla].
        intros x Hx. apply Hm2. rewrite Forall_forall in Hlow.
        specialize (Hlow x Hx). unfold rp. lia.
      * simpl. replace (node cfg (fst r + need, snd r - need)) with rp
          by (unfold rp, node; simpl; lia).
        split; [reflexivity|]. mem_simpl.
        rewrite (eqb_false_of_gt rp prev) by lia.
        unfold m2. mem_simpl. split; [reflexivity|].
        eapply lseg_frame; [|exact Hlb].
        intros x Hx. rewrite Forall_forall in Habove, Hbeyond.
        specialize (Habove x Hx). specialize (Hbeyond x Hx).
        unfold set_next_offset, set_size.
        rewrite (eqb_false_of_gt (node cfg x) prev) by lia.
        rewrite (eqb_false_of_gt (node cfg x) rp) by (unfold rp, node; lia).
        reflexivity.
    + mem_simpl. unfold m2. mem_simpl.
      rewrite (eqb_false_of_lt first rp) by lia. reflexivity.
  - (* an exact fit *)
    assert (Hcarve : carve need r = []).
    { unfold carve. replace (snd r =? need) with true
        by (symmetry; apply Z.eqb_eq; lia). reflexivity. }
    rewrite Hcarve. simpl. split.
    + apply lseg_app. exists nxt. split.
      * apply (lseg_set_last cfg la m first nxt (fst r) Hasc_a). exact Hla.
      * eapply lseg_frame; [|exact Hlb].
        intros x Hx. rewrite Forall_forall in Habove. specialize (Habove x Hx).
        unfold set_next_offset.
        rewrite (eqb_false_of_gt (node cfg x) prev) by lia. reflexivity.
    + mem_simpl. reflexivity.
Qed.

(** *** One allocation, with the list it leaves *)

Lemma allocate_from_head (need : Z) (r : region) (t : list region) :
  need <= snd r -> allocate_from need (r :: t) = carve need r ++ t.
Proof.
  intros H. simpl. replace (need <=? snd r) with true
    by (symmetry; apply Z.leb_le; exact H). reflexivity.
Qed.

(** A region holds the request: the allocation returns the first such
    region and keeps the invariant on the list cut at that region. *)
Lemma alloc_take (st : heap) (l : list region) (sz : Z) (small : bool) (r : region) :
  heap_inv cfg st l -> aligned_regions cfg l ->
  jmem_heap_blocks_size st + free_bytes l <= heap_size cfg ->
  0 < sz -> sz + A - 1 < WORD ->
  first_fit (jmem_align cfg sz) l = Some r ->
  exists st',
    (forall fuel,
        (length l + Z.to_nat (2 * heap_size cfg + 1) < fuel)%nat ->
        jmem_heap_alloc_block_internal cfg fuel sz small st = Done (node cfg r, st'))
    /\ heap_inv cfg st' (allocate_from (jmem_align cfg sz) l)
    /\ jmem_heap_blocks_size st' = jmem_heap_blocks_size st + jmem_align cfg sz
    /\ jmem_heap_allocated_blocks_count st'
       = size_t (jmem_heap_allocated_blocks_count st + 1)
    /\ (jmem_align cfg sz <> A ->
        skip_valid cfg st' (allocate_from (jmem_align cfg sz) l))
    /\ (skip_valid cfg st l -> allocate_from (jmem_align cfg sz) l <> [] ->
        skip_valid cfg st' (allocate_from (jmem_align cfg sz) l))
    /\ (allocate_from (jmem_align cfg sz) l = [] -> jmem_align cfg sz = A ->
        jmem_heap_list_skip_p st = node cfg r ->
        jmem_heap_list_skip_p st' = JMEM_DECOMPRESS_POINTER_INTERNAL cfg END_OF_LIST)
    /\ (skip_valid cfg st l -> jmem_heap_list_skip_p st <> node cfg r ->
        skip_valid cfg st' (allocate_from (jmem_align cfg sz) l)).
Proof.
  intros Hinv Hal Hacc Hsz Hov Hfit.
  pose proof Hinv as (Hl & Hok & Hz & Hskip & (Hbs & Hlim) & Hsegs).
  pose proof (ok_align cfg cfg_ok) as HA.
  pose proof (ok_small cfg cfg_ok) as Hsmall.
  pose proof (ok_limit cfg cfg_ok) as HL.
  pose proof (ok_first cfg cfg_ok) as Hfst.
  pose proof (ok_end cfg cfg_ok) as Hend.
  destruct (jmem_align_bounds cfg cfg_ok sz Hsz Hov) as [Hnb Hna].
  set (need := jmem_align cfg sz) in *.
  assert (HnA : A <= need) by (apply (aligned_ge cfg cfg_ok); lia).
  destruct (allocate_from_split need l r Hfit) as (la & lb & El & Hla & Hr & Hl').
  assert (Hin : In r l) by (rewrite El; apply in_elt).
  pose proof Hok as [Hf Hg].
  assert (Hrok : region_ok cfg r) by (rewrite Forall_forall in Hf; apply Hf, Hin).
  pose proof Hrok as (R1 & R2 & R3).
  assert (Hnn : node cfg r <> NULL) by (unfold node, NULL; lia).
  assert (Hfree : snd r <= free_bytes l).
  { apply free_bytes_in; [apply (regions_pos cfg); exact Hf|exact Hin]. }
  assert (Hok' : regions_ok cfg (allocate_from need l)).
  { rewrite Hl'. apply regions_ok_carve; [rewrite <- El; exact Hok|lia]. }
  destruct (Z.eqb_spec need A) as [EA|EA].
  - (* the fast path *)
    destruct l as [|r0 t]; [contradiction|].
    assert (Hr0 : A <= snd r0).
    { unfold aligned_regions in Hal. apply Forall_inv in Hal. destruct Hal as [_ Hs0].
      apply Forall_inv in Hf. destruct Hf as (_ & Hp0 & _).
      apply (aligned_ge cfg cfg_ok); assumption. }
    assert (r = r0).
    { unfold first_fit in Hfit. simpl in Hfit.
      replace (need <=? snd r0) with true in Hfit by (symmetry; apply Z.leb_le; lia).
      congruence. }
    subst r0.
    destruct (fast_path_spec cfg cfg_ok st r t small Hinv Hr0)
      as (st1 & Hrun & Hlist1 & _ & Hz1 & Hskip1 & Hb1 & Hc1 & Hl1 & Hlen1 & _).
    destruct (alloc_finish_spec cfg cfg_ok sz (node cfg r) st1)
      as (lim' & Hfin & F1 & F2 & F3 & F4 & _);
      try (rewrite ?Hb1, ?Hl1; unfold WORD in *; lia).
    exists (on_stats (jmem_heap_stat_alloc cfg sz) (with_limit st1 lim')).
    assert (Elist : allocate_from need (r :: t)
                    = if snd r =? A then t else (fst r + A, snd r - A) :: t).
    { rewrite allocate_from_head by lia. unfold carve. rewrite EA.
      destruct (snd r =? A); reflexivity. }
    pose proof Hok' as Hok2. rewrite Elist in Hok2.
    split; [|split; [|split; [|split; [|split; [|split; [|split]]]]]].
    + intros fuel Hfu. unfold jmem_heap_alloc_block_internal. fold need.
      replace ((need =? A) && negb (next_offset (mem st first) =? END_OF_LIST)) with true.
      * rewrite Hrun. rewrite bind_done. rewrite Hfin by (rewrite Hb1; lia).
        replace (node cfg r =? NULL) with false by (symmetry; apply Z.eqb_neq; exact Hnn).
        reflexivity.
      * symmetry. apply andb_true_iff. split; [apply Z.eqb_eq; exact EA|].
        apply negb_true_iff, Z.eqb_neq. unfold free_list in Hl. simpl in Hl.
        destruct Hl as (-> & _). lia.
    + unfold heap_inv.
      split; [unfold free_list in *; cbn [mem on_stats with_stats with_limit];
              rewrite Elist; exact Hlist1|].
      split; [exact Hok'|].
      split; [cbn [mem on_stats with_stats with_limit]; exact Hz1|].
      split.
      { unfold skip_ok.
        cbn [jmem_heap_list_skip_p on_stats with_stats with_limit].
        rewrite Hskip1. rewrite Elist.
        destruct (Z.eqb_spec (node cfg r) (jmem_heap_list_skip_p st)) as [Es|Es].
        - unfold free_list in Hlist1.
          destruct (if snd r =? A then t else (fst r + A, snd r - A) :: t) as [|h t'].
          + simpl in Hlist1. rewrite Hlist1. right. left. reflexivity.
          + simpl in Hlist1. destruct Hlist1 as (Eh & _). rewrite Eh.
            right. right. exists h.
            split; [left; reflexivity|
                    apply (decompress_node cfg cfg_ok); exact (Forall_inv (proj1 Hok2))].
        - destruct Hskip as [Hs|[Hs|(x & Hx & Hs)]]; [left; exact Hs|right; left; exact Hs|].
          right. right. exists x. split; [|exact Hs].
          destruct Hx as [<-|Hx]; [contradiction Es; symmetry; exact Hs|].
          destruct (snd r =? A); [exact Hx|right; exact Hx]. }
      split.
      { unfold counters_ok.
        cbn [jmem_heap_blocks_size jmem_heap_limit on_stats with_stats with_limit].
        rewrite Hb1 in *. lia. }
      cbn [segments on_stats with_stats with_limit]. rewrite Hlen1. exact Hsegs.
    + cbn [jmem_heap_blocks_size on_stats with_stats with_limit]. rewrite Hb1. lia.
    + cbn [jmem_heap_allocated_blocks_count on_stats with_stats with_limit]. exact Hc1.
    + intros Hne. contradiction.
    + intros Hv Hne. unfold skip_valid.
      cbn [jmem_heap_list_skip_p on_stats with_stats with_limit].
      rewrite Hskip1. rewrite Elist in *.
      destruct (Z.eqb_spec (node cfg r) (jmem_heap_list_skip_p st)) as [Es|Es].
      * unfold free_list in Hlist1.
        destruct (if snd r =? A then t else (fst r + A, snd r - A) :: t) as [|h t'];
          [contradiction Hne; reflexivity|].
        simpl in Hlist1. destruct Hlist1 as (Eh & _). rewrite Eh.
        right. exists h.
        split; [left; reflexivity|
                apply (decompress_node cfg cfg_ok); exact (Forall_inv (proj1 Hok2))].
      * destruct Hv as [Hs|(x & Hx & Hs)]; [left; exact Hs|].
        right. exists x. split; [|exact Hs].
        destruct Hx as [<-|Hx]; [contradiction Es; symmetry; exact Hs|].
        destruct (snd r =? A); [exact Hx|right; exact Hx].
    + intros Hnil _ Hs.
      cbn [jmem_heap_list_skip_p on_stats with_stats with_limit].
      rewrite Hskip1. rewrite Elist in Hnil. rewrite Hnil in Hlist1.
      unfold free_list in Hlist1. simpl in Hlist1. rewrite Hlist1.
      replace (node cfg r =? jmem_heap_list_skip_p st) with true
        by (symmetry; apply Z.eqb_eq; symmetry; exact Hs).
      reflexivity.
    + intros Hv Hne. unfold skip_valid.
      cbn [jmem_heap_list_skip_p on_stats with_stats with_limit].
      rewrite Hskip1. rewrite Elist.
      destruct (Z.eqb_spec (node cfg r) (jmem_heap_list_skip_p st)) as [Es|Es];
        [contradiction Hne; symmetry; exact Es|].
      destruct Hv as [Hs|(x & Hx & Hs)]; [left; exact Hs|].
      right. exists x. split; [|exact Hs].
      destruct Hx as [<-|Hx]; [contradiction Es; symmetry; exact Hs|].
      destruct (snd r =? A); [exact Hx|right; exact Hx].
  - (* the slow path *)
    subst l.
    destruct (slow_loop_fit cfg cfg_ok need la r lb (next_offset (mem st first)) first st Hl)
      as [stats Hslow]; try assumption.
    { apply (regions_too_small cfg); [|exact Hla].
      apply Forall_app in Hf. apply Hf. }
    destruct (slow_take_spec cfg cfg_ok need r (walk_end cfg first la)
                             (with_stats st stats) Hrok ltac:(lia) Hbs Hsegs)
      as (segs' & Htake & Hlen' & _).
    cbn [mem with_stats jmem_heap_blocks_size jmem_heap_allocated_blocks_count segments]
      in Htake, Hlen'.
    match type of Htake with
    | forall fuel, _ -> _ = Done (_, ?s1) => set (st1 := s1) in *
    end.
    destruct (alloc_finish_spec cfg cfg_ok sz (node cfg r) st1)
      as (lim' & Hfin & F1 & F2 & F3 & F4 & _); try (simpl; unfold WORD in *; lia).
    exists (on_stats (jmem_heap_stat_alloc cfg sz) (with_limit st1 lim')).
    destruct (slow_relink_links (mem st) la r lb need Hok Hl ltac:(lia)) as [Hlinks Hzero].
    assert (Hvalid : skip_valid cfg (on_stats (jmem_heap_stat_alloc cfg sz)
                                             (with_limit st1 lim'))
                                (la ++ carve need r ++ lb)).
    { unfold skip_valid.
      change (jmem_heap_list_skip_p
                (on_stats (jmem_heap_stat_alloc cfg sz) (with_limit st1 lim')))
        with (walk_end cfg first la).
      destruct (walk_end_cases cfg la first) as [E|(x & Hx & E)].
      - left. exact E.
      - right. exists x. split; [apply in_or_app; left; exact Hx|exact E]. }
    split; [|split; [|split; [|split; [|split; [|split; [|split]]]]]].
    + intros fuel Hfu. unfold jmem_heap_alloc_block_internal. fold need.
      replace ((need =? A) && negb (next_offset (mem st first) =? END_OF_LIST)) with false
        by (symmetry; apply andb_false_iff; left; apply Z.eqb_neq; exact EA).
      unfold jmem_heap_alloc_block_internal_slow.
      rewrite length_app in Hfu. cbn [length] in Hfu.
      replace fuel with (length la + S (fuel - length la - 1))%nat by lia.
      rewrite Hslow. rewrite Htake by lia. rewrite bind_done.
      rewrite Hfin by (simpl; lia).
      replace (node cfg r =? NULL) with false by (symmetry; apply Z.eqb_neq; exact Hnn).
      reflexivity.
    + unfold heap_inv. rewrite Hl'.
      split; [unfold free_list; exact Hlinks|].
      split; [rewrite <- Hl'; exact Hok'|].
      split; [cbn [mem on_stats with_stats with_limit st1 with_skip with_mem];
              rewrite Hzero; exact Hz|].
      split.
      { unfold skip_ok.
        change (jmem_heap_list_skip_p
                  (on_stats (jmem_heap_stat_alloc cfg sz) (with_limit st1 lim')))
          with (walk_end cfg first la).
        destruct (walk_end_cases cfg la first) as [E|(x & Hx & E)].
        - left. exact E.
        - right. right. exists x. split; [apply in_or_app; left; exact Hx|exact E]. }
      split.
      { unfold counters_ok.
        change (jmem_heap_blocks_size
                  (on_stats (jmem_heap_stat_alloc cfg sz) (with_limit st1 lim')))
          with (jmem_heap_blocks_size st + need).
        change (jmem_heap_limit
                  (on_stats (jmem_heap_stat_alloc cfg sz) (with_limit st1 lim')))
          with lim'.
        change (jmem_heap_blocks_size st1) with (jmem_heap_blocks_size st + need) in F1.
        lia. }
      change (segments (on_stats (jmem_heap_stat_alloc cfg sz) (with_limit st1 lim')))
        with segs'.
      rewrite Hlen'. exact Hsegs.
    + reflexivity.
    + reflexivity.
    + intros _. rewrite Hl'. exact Hvalid.
    + intros _ _. rewrite Hl'. exact Hvalid.
    + intros _ E. contradiction.
    + intros _ _. rewrite Hl'. exact Hvalid.
Qed.

(** The block cut from [r] shares no byte with the list that is left. *)
Lemma carve_apart (need : Z) (la : list region) (r : region) (lb : list region) :
  regions_ok cfg (la ++ r :: lb) -> 0 < need <= snd r ->
  Forall (fun x => fst x + snd x <= fst r \/ fst r + need <= fst x)
         (la ++ carve need r ++ lb).
Proof.
  intros [Hf Hg] Hn.
  pose proof (regions_pos cfg _ Hf) as Hp.
  pose proof (gaps_front la r lb Hg Hp) as Hfront.
  assert (Hbeyond : Forall (fun x => fst r + snd r < fst x) lb).
  { apply gaps_app_r in Hg. apply Forall_app in Hp. destruct Hp as [_ Hp'].
    inversion Hp'; subst. apply gaps_beyond; assumption. }
  apply Forall_app. split.
  - eapply Forall_impl; [|exact Hfront]. simpl. intros x Hx. lia.
  - apply Forall_app. split.
    + unfold carve. destruct (snd r =? need); constructor; [|constructor].
      simpl. lia.
    + eapply Forall_impl; [|exact Hbeyond]. simpl. intros x Hx. lia.
Qed.

Lemma length_allocate_from (need : Z) (l : list region) :
  (length (allocate_from need l) <= length l)%nat.
Proof.
  induction l as [|r t IH]; simpl; [lia|].
  destruct (need <=? snd r); simpl; [|lia].
  unfold carve. destruct (snd r =? need); simpl; lia.
Qed.

(** The block an allocation has returned may be released. *)
Lemma alloc_releasable (l : list region) (sz bs : Z) (r : region) :
  regions_ok cfg l -> 0 < sz -> sz + A - 1 < WORD ->
  first_fit (jmem_align cfg sz) l = Some r ->
  jmem_align cfg sz <= bs ->
  releasable cfg (allocate_from (jmem_align cfg sz) l) bs (node cfg r, sz).
Proof.
  intros Hok Hsz Hov Hfit Hbs.
  destruct (jmem_align_bounds cfg cfg_ok sz Hsz Hov) as [Hnb Hna].
  destruct (allocate_from_split _ l r Hfit) as (la & lb & El & Hla & Hr & Hl').
  rewrite Hl'. subst l.
  pose proof Hok as [Hf _]. apply Forall_app in Hf. destruct Hf as [_ Hf].
  apply Forall_inv in Hf. destruct Hf as (R1 & R2 & R3).
  unfold releasable. cbn [fst snd].
  replace (block_offset_of cfg (node cfg r)) with (fst r)
    by (unfold block_offset_of, node; lia).
  repeat split; try lia.
  apply carve_apart; [exact Hok|lia].
Qed.

(** *** What an allocation gives *)

(** An allocation that finds a region returns the address of the first
    region of the list, in address order, that holds the aligned request,
    with enough fuel whatever the heap; the free list is then the old one
    with the request cut from the start of that region; the invariant and
    the alignment of the regions are kept; the block is counted; and the
    bytes in blocks and the bytes on the free list still add up to the same
    total. *)
Theorem alloc_first_fit (st : heap) (l : list region) (sz : Z) (small : bool)
        (r : region) :
  heap_inv cfg st l -> aligned_regions cfg l ->
  jmem_heap_blocks_size st + free_bytes l <= heap_size cfg ->
  0 < sz -> sz + A - 1 < WORD ->
  first_fit (jmem_align cfg sz) l = Some r ->
  exists st' la lb,
    (forall fuel,
        (length l + Z.to_nat (2 * heap_size cfg + 1) < fuel)%nat ->
        jmem_heap_alloc_block_internal cfg fuel sz small st
        = Done (JMEM_DECOMPRESS_POINTER_INTERNAL cfg (fst r), st'))
    /\ l = la ++ r :: lb
    /\ Forall (fun x => snd x < jmem_align cfg sz) la
    /\ jmem_align cfg sz <= snd r
    /\ heap_inv cfg st' (la ++ carve (jmem_align cfg sz) r ++ lb)
    /\ aligned_regions cfg (la ++ carve (jmem_align cfg sz) r ++ lb)
    /\ jmem_heap_blocks_size st' = jmem_heap_blocks_size st + jmem_align cfg sz
    /\ jmem_heap_allocated_blocks_count st'
       = size_t (jmem_heap_allocated_blocks_count st + 1)
    /\ jmem_heap_blocks_size st' + free_bytes (la ++ carve (jmem_align cfg sz) r ++ lb)
       = jmem_heap_blocks_size st + free_bytes l.
Proof.
  intros Hinv Hal Hacc Hsz Hov Hfit.
  destruct (alloc_take st l sz small r Hinv Hal Hacc Hsz Hov Hfit)
    as (st' & Hrun & Hinv' & Hbs & Hcnt & _).
  destruct (jmem_align_bounds cfg cfg_ok sz Hsz Hov) as [Hnb Hna].
  destruct (allocate_from_split _ l r Hfit) as (la & lb & El & Hla & Hr & Hl').
  rewrite Hl' in Hinv'.
  assert (Hrok : region_ok cfg r).
  { destruct Hinv as (_ & (Hf & _) & _). rewrite Forall_forall in Hf.
    apply Hf. rewrite El. apply in_elt. }
  rewrite (decompress_node cfg cfg_ok r Hrok).
  exists st', la, lb.
  split; [exact Hrun|]. split; [exact El|]. split; [exact Hla|]. split; [exact Hr|].
  split; [exact Hinv'|].
  split; [apply aligned_carve; [rewrite <- El; exact Hal|exact Hna]|].
  split; [exact Hbs|]. split; [exact Hcnt|].
  rewrite Hbs, El. rewrite !free_bytes_app, free_bytes_cons, free_bytes_carve. lia.
Qed.

(** Whatever an allocation returns: it is [NULL] exactly when no free
    region holds the aligned request; and a block that is returned lies
    inside the heap area at an aligned offset, inside a region that was
    free, and shares no byte with a region that is still free. *)
Theorem alloc_block_placement (st : heap) (l : list region) (sz : Z) (small : bool)
        (fuel : nat) (p : Z) (st' : heap) :
  heap_inv cfg st l -> aligned_regions cfg l ->
  jmem_heap_blocks_size st + free_bytes l <= heap_size cfg ->
  0 < sz -> sz + A - 1 < WORD ->
  (length l + Z.to_nat (2 * heap_size cfg + 1) < fuel)%nat ->
  jmem_heap_alloc_block_internal cfg fuel sz small st = Done (p, st') ->
  (p = NULL <-> first_fit (jmem_align cfg sz) l = None)
  /\ (p <> NULL ->
      area cfg <= p /\ p + jmem_align cfg sz <= area cfg + heap_size cfg
      /\ (p - area cfg) mod A = 0
      /\ (exists r, In r l /\ fst r = p - area cfg /\ jmem_align cfg sz <= snd r)
      /\ Forall (apart (p - area cfg, jmem_align cfg sz))
                (allocate_from (jmem_align cfg sz) l)).
Proof.
  intros Hinv Hal Hacc Hsz Hov Hfu Hrun.
  pose proof Hinv as (_ & Hok & _ & _ & (Hbs & _) & _).
  destruct (first_fit (jmem_align cfg sz) l) as [r|] eqn:Hfit.
  - destruct (alloc_take st l sz small r Hinv Hal Hacc Hsz Hov Hfit)
      as (st1 & Hrun1 & _).
    rewrite (Hrun1 fuel Hfu) in Hrun. injection Hrun as <- <-.
    destruct (allocate_from_split _ l r Hfit) as (la & lb & El & Hla & Hr & Hl').
    assert (Hin : In r l) by (rewrite El; apply in_elt).
    pose proof Hok as [Hf _]. rewrite Forall_forall in Hf.
    destruct (Hf r Hin) as (R1 & R2 & R3).
    pose proof (ok_first cfg cfg_ok) as Hfst.
    assert (Hnn : node cfg r <> NULL) by (unfold node, NULL; lia).
    split; [split; [intros E; contradiction|discriminate]|].
    intros _. replace (node cfg r - area cfg) with (fst r) by (unfold node; lia).
    split; [unfold node; lia|]. split; [unfold node; lia|].
    split.
    { unfold aligned_regions in Hal. rewrite Forall_forall in Hal.
      apply (Hal r Hin). }
    split; [exists r; repeat split; assumption|].
    rewrite Hl'. destruct (jmem_align_bounds cfg cfg_ok sz Hsz Hov) as [Hnb _].
    pose proof (carve_apart (jmem_align cfg sz) la r lb ltac:(rewrite <- El; exact Hok)
                            ltac:(lia)) as Hap.
    eapply Forall_impl; [|exact Hap]. intros x Hx. cbv beta in Hx.
    unfold apart. cbn [fst snd]. lia.
  - assert (Hfast : jmem_align cfg sz = A -> l = []).
    { intros E. destruct Hok as [Hf _].
      eapply (first_fit_aligned_head cfg cfg_ok); eassumption. }
    destruct (alloc_fail cfg cfg_ok st l sz small Hinv Hfit Hfast)
      as (stats & lim' & Hrun1 & _).
    rewrite Hrun1 in Hrun by lia. injection Hrun as <- <-.
    split; [split; reflexivity|]. intros H. contradiction H. reflexivity.
Qed.

(** *** What a release leaves *)

(** A release of a block that lies in the heap, is counted and shares no
    byte with a free region, from a heap whose skip pointer the release can
    use (in a static build: the sentinel or a node of the list), returns,
    given enough fuel, in debug and release builds alike; it keeps the
    invariant on the coalesced list and
    the alignment of the regions; the skip pointer is then the sentinel or
    a node of the list; the block leaves the counters; and the bytes in
    blocks and on the free list add up to the same total. *)
Theorem free_keeps_invariant (st : heap) (l : list region) (ptr sz : Z) (small : bool) :
  heap_inv cfg st l -> aligned_regions cfg l ->
  skip_usable cfg st l ->
  releasable cfg l (jmem_heap_blocks_size st) (ptr, sz) ->
  (ptr - area cfg) mod A = 0 ->
  exists st',
    (forall fuel,
        (length l + Z.to_nat (jmem_heap_limit st) + Z.to_nat (heap_size cfg) < fuel)%nat ->
        jmem_heap_free_block_internal cfg fuel ptr sz small st = Done st')
    /\ heap_inv cfg st' (coalesce (ptr - area cfg) (jmem_align cfg sz) l)
    /\ aligned_regions cfg (coalesce (ptr - area cfg) (jmem_align cfg sz) l)
    /\ skip_valid cfg st' (coalesce (ptr - area cfg) (jmem_align cfg sz) l)
    /\ jmem_heap_blocks_size st' = jmem_heap_blocks_size st - jmem_align cfg sz
    /\ jmem_heap_allocated_blocks_count st'
       = size_t (jmem_heap_allocated_blocks_count st - 1)
    /\ jmem_heap_blocks_size st'
       + free_bytes (coalesce (ptr - area cfg) (jmem_align cfg sz) l)
       = jmem_heap_blocks_size st + free_bytes l.
Proof.
  intros Hinv Hal Huse Hrel Hpa.
  destruct (free_block_spec cfg cfg_ok st l ptr sz small Hinv Huse Hrel)
    as (st' & Hrun & Hinv' & Hskip & Hbs & Hcnt & _).
  unfold block_offset_of in *.
  destruct Hrel as (S1 & S2 & _).
  destruct (jmem_align_bounds cfg cfg_ok sz S1 S2) as [_ Hna].
  exists st'. split; [exact Hrun|]. split; [exact Hinv'|].
  split; [apply aligned_coalesce; assumption|].
  split; [exact Hskip|]. split; [exact Hbs|]. split; [exact Hcnt|].
  rewrite free_bytes_coalesce, Hbs. lia.
Qed.

(** *** Start-up *)

Lemma heap_size_static : JMEM_SEGMENTED_HEAP cfg = false ->
                         heap_size cfg = JMEM_HEAP_AREA_SIZE cfg.
Proof. intros E. unfold heap_size. rewrite E. reflexivity. Qed.

Lemma compress_area : JMEM_COMPRESS_POINTER_INTERNAL cfg (area cfg) = 0.
Proof.
  unfold JMEM_COMPRESS_POINTER_INTERNAL, u32. rewrite Z.sub_diag. reflexivity.
Qed.

(** The statements of [jmem_heap_init] that follow the assertions. *)
Lemma init_done (ctx st : heap) :
  jmem_heap_init cfg ctx = Done st ->
  st = on_stats (jmem_heap_stat_init cfg)
         (jmem_heap_init_first_free_region cfg
            (with_limit (if JMEM_SEGMENTED_HEAP cfg then init_segmented_heap cfg ctx
                         else ctx) LIMIT)).
Proof.
  unfold jmem_heap_init.
  match goal with |- bind ?a _ = _ -> _ => destruct a as [[]|]; [|discriminate] end.
  rewrite bind_done.
  match goal with |- bind ?a _ = _ -> _ => destruct a as [[]|]; [|discriminate] end.
  rewrite bind_done.
  intros H. injection H as <-. reflexivity.
Qed.

Lemma init_static (ctx st : heap) :
  JMEM_SEGMENTED_HEAP cfg = false ->
  jmem_heap_init cfg ctx = Done st ->
  (jmem_heap_blocks_size ctx = 0 -> heap_inv cfg st [(0, JMEM_HEAP_AREA_SIZE cfg)])
  /\ free_list cfg st [(0, JMEM_HEAP_AREA_SIZE cfg)]
  /\ jmem_heap_list_skip_p st = first
  /\ jmem_heap_blocks_size st = jmem_heap_blocks_size ctx
  /\ jmem_heap_allocated_blocks_count st = jmem_heap_allocated_blocks_count ctx
  /\ jmem_heap_limit st = LIMIT.
Proof.
  intros Eseg Hrun. apply init_done in Hrun. subst st.
  pose proof (heap_size_static Eseg) as Hsize.
  pose proof (ok_heap cfg cfg_ok) as Hh.
  pose proof (ok_end cfg cfg_ok) as Hend.
  pose proof (ok_first cfg cfg_ok) as Hfst.
  pose proof (ok_small cfg cfg_ok) as Hsmall.
  pose proof (ok_limit cfg cfg_ok) as HL.
  rewrite Hsize in *.
  unfold jmem_heap_init_first_free_region. rewrite Eseg.
  rewrite compress_area.
  cbn [mem jmem_heap_list_skip_p jmem_heap_blocks_size jmem_heap_limit segments
       jmem_heap_allocated_blocks_count on_stats with_stats with_limit with_skip with_mem].
  assert (Hne : (area cfg =? first) = false) by (apply Z.eqb_neq; lia).
  assert (Hlist : free_list cfg
                    (on_stats (jmem_heap_stat_init cfg)
                       (with_skip
                          (with_mem (with_limit ctx LIMIT)
                             (set_next_offset
                                (set_size
                                   (set_next_offset
                                      (set_size (mem ctx) (area cfg)
                                                (u32 (JMEM_HEAP_AREA_SIZE cfg)))
                                      (area cfg) END_OF_LIST) first 0) first 0)) first))
                    [(0, JMEM_HEAP_AREA_SIZE cfg)]).
  { unfold free_list.
    cbn [mem on_stats with_stats with_limit with_skip with_mem].
    simpl. unfold node. simpl. rewrite Z.add_0_r. mem_simpl. rewrite Hne. mem_simpl.
    split; [reflexivity|]. split; [apply u32_small; unfold WORD in *; lia|reflexivity]. }
  split; [|split; [exact Hlist|repeat split]].
  intros Hbs0.
  unfold heap_inv. split; [exact Hlist|].
  unfold skip_ok, counters_ok.
  cbn [mem jmem_heap_list_skip_p jmem_heap_blocks_size jmem_heap_limit segments
       jmem_heap_allocated_blocks_count on_stats with_stats with_limit with_skip with_mem].
  split.
  { split; [|exact I]. constructor; [|constructor]. unfold region_ok. simpl. lia. }
  split; [mem_simpl; reflexivity|].
  split; [left; reflexivity|].
  split; [unfold WORD in *; lia|].
  intros E. rewrite E in Eseg. discriminate Eseg.
Qed.

(** *** Blocks in use *)

Lemma live_size_app (l1 l2 : list (Z * Z)) :
  live_size cfg (l1 ++ l2) = live_size cfg l1 + live_size cfg l2.
Proof.
  unfold live_size. rewrite map_app.
  induction (map (fun b => snd (block_span cfg b)) l1) as [|v t IH];
    [reflexivity|].
  change (sum_list ((v :: t) ++ map (fun b => snd (block_span cfg b)) l2))
    with (v + sum_list (t ++ map (fun b => snd (block_span cfg b)) l2)).
  rewrite IH. change (sum_list (v :: t)) with (v + sum_list t). lia.
Qed.

Lemma live_size_cons (b : Z * Z) (l : list (Z * Z)) :
  live_size cfg (b :: l) = jmem_align cfg (snd b) + live_size cfg l.
Proof. reflexivity. Qed.

Lemma live_size_nonneg (l : list (Z * Z)) :
  Forall (fun b => 0 < snd b /\ snd b + A - 1 < WORD) l -> 0 <= live_size cfg l.
Proof.
  induction 1 as [|b t [B1 B2] Ht IH]; [unfold live_size; simpl; lia|].
  rewrite live_size_cons.
  destruct (jmem_align_bounds cfg cfg_ok (snd b) B1 B2) as [Hnb _]. lia.
Qed.

Lemma ord_pairs_remove {T : Type} (R : T -> T -> Prop) (la : list T) (b : T)
      (lb : list T) :
  ForallOrdPairs R (la ++ b :: lb) ->
  ForallOrdPairs R (la ++ lb) /\ Forall (fun c => R c b) la /\ Forall (R b) lb.
Proof.
  induction la as [|a t IH]; simpl; intros H.
  - inversion H; subst. split; [assumption|]. split; [constructor|assumption].
  - inversion H as [|? ? Ha Ht]; subst.
    destruct (IH Ht) as (I1 & I2 & I3).
    apply Forall_app in Ha. destruct Ha as [Ha1 Ha2].
    inversion Ha2 as [|? ? Hab Ha3]; subst.
    split; [constructor; [apply Forall_app; split; assumption|exact I1]|].
    split; [constructor; assumption|exact I3].
Qed.

(** A span that shares no byte with the free regions nor with the block
    released shares none with the coalesced list. *)
Lemma apart_coalesce (c : region) (bo n : Z) (l : list region) :
  regions_ok cfg l -> 0 <= bo -> 0 < n -> bo + n <= heap_size cfg ->
  Forall (fun r => fst r + snd r <= bo \/ bo + n <= fst r) l ->
  0 < snd c ->
  Forall (apart c) l -> apart c (bo, n) ->
  Forall (apart c) (coalesce bo n l).
Proof.
  intros Hok H0 Hn Hh Hrel Hc Hl Hb.
  pose proof (coalesce_regions_ok cfg bo n l Hok H0 Hn Hh Hrel) as [Hf' _].
  assert (Hpoint : forall x, fst c <= x < fst c + snd c -> ~ covers (coalesce bo n l) x).
  { intros x Hx Hcov. apply (coalesce_covers cfg) in Hcov; [|exact Hok|exact Hn].
    destruct Hcov as [Hcov|Hcov].
    - apply Exists_exists in Hcov. destruct Hcov as (r & Hr & Hrx).
      rewrite Forall_forall in Hl. specialize (Hl r Hr). unfold apart in Hl. lia.
    - unfold apart in Hb. simpl in Hb. lia. }
  pose proof (apart_of_pointwise (coalesce bo n l) (fst c) (snd c)
                                 (regions_pos cfg _ Hf') Hc Hpoint) as H.
  eapply Forall_impl; [|exact H]. intros r Hr. cbv beta in Hr. unfold apart. lia.
Qed.

(** A span that shares no byte with a region shares none with what is
    left of the region, nor with the block cut from it. *)
Lemma apart_carve (c : region) (need : Z) (la : list region) (r : region)
      (lb : list region) :
  0 < need <= snd r ->
  Forall (apart c) (la ++ r :: lb) ->
  Forall (apart c) (la ++ carve need r ++ lb) /\ apart (fst r, need) c.
Proof.
  intros Hn H. apply Forall_app in H. destruct H as [Ha Hr].
  inversion Hr as [|? ? Hcr Hb]; subst. split.
  - apply Forall_app. split; [exact Ha|]. apply Forall_app. split; [|exact Hb].
    unfold carve. destruct (snd r =? need); constructor; [|constructor].
    unfold apart in *. simpl. lia.
  - unfold apart in *. simpl. lia.
Qed.

Lemma block_span_node (r : region) (sz : Z) :
  block_span cfg (node cfg r, sz) = (fst r, jmem_align cfg sz).
Proof.
  unfold block_span, block_offset_of, node. cbn [fst snd]. f_equal. lia.
Qed.

Lemma apart_sym (r1 r2 : region) : apart r1 r2 -> apart r2 r1.
Proof. unfold apart. tauto. Qed.

(** *** One release, on a heap in use *)

Lemma in_use_release (st : heap) (l : list region) (la : list (Z * Z)) (b : Z * Z)
      (lb : list (Z * Z)) (small : bool) :
  heap_in_use cfg st l (la ++ b :: lb) ->
  skip_usable cfg st l ->
  exists st',
    (forall fuel,
        (length l + Z.to_nat (jmem_heap_limit st) + Z.to_nat (heap_size cfg) < fuel)%nat ->
        jmem_heap_free_block_internal cfg fuel (fst b) (snd b) small st = Done st')
    /\ heap_in_use cfg st' (coalesce (fst (block_span cfg b)) (snd (block_span cfg b)) l)
                   (la ++ lb)
    /\ skip_valid cfg st' (coalesce (fst (block_span cfg b)) (snd (block_span cfg b)) l).
Proof.
  pose proof (ok_align cfg cfg_ok) as HA.
  pose proof (ok_first cfg cfg_ok) as Hfst.
  intros (Hinv & Hal & (Hall & Hpair & Hsum) & Hoff & Hbs & Hacc) Huse.
  pose proof Hinv as (_ & Hok & _).
  set (bo := fst (block_span cfg b)) in *.
  set (n := snd (block_span cfg b)) in *.
  pose proof Hall as Hall0.
  apply Forall_app in Hall. destruct Hall as [Halla Hallb].
  inversion Hallb as [|? ? (B1 & B2 & B3 & B4 & B5) Hallc]; subst.
  fold bo in B3, B4. fold n in B4.
  destruct (jmem_align_bounds cfg cfg_ok (snd b) B1 B2) as [Hnb Hna].
  change (jmem_align cfg (snd b)) with n in Hnb, Hna.
  assert (Hcond : Forall (fun c => 0 < snd c /\ snd c + A - 1 < WORD) (la ++ lb)).
  { apply Forall_app. split; [eapply Forall_impl; [|exact Halla]
                             |eapply Forall_impl; [|exact Hallc]];
                        intros c (C1 & C2 & _); split; assumption. }
  apply Forall_app in Hcond. destruct Hcond as [Hca Hcb].
  pose proof (live_size_nonneg la Hca) as Hna0.
  pose proof (live_size_nonneg lb Hcb) as Hnb0.
  assert (Hsize : live_size cfg (la ++ b :: lb)
                  = live_size cfg la + (n + live_size cfg lb)).
  { rewrite live_size_app, live_size_cons. reflexivity. }
  assert (Hrelf : Forall (fun r => fst r + snd r <= bo \/ bo + n <= fst r) l).
  { eapply Forall_impl; [|exact B5]. intros x Hx. unfold apart in Hx.
    fold bo in Hx. fold n in Hx. lia. }
  assert (Hrel : releasable cfg l (jmem_heap_blocks_size st) (fst b, snd b)).
  { unfold releasable. cbn [fst snd].
    change (block_offset_of cfg (fst b)) with bo.
    change (jmem_align cfg (snd b)) with n.
    repeat split; try assumption; lia. }
  destruct (free_block_spec cfg cfg_ok st l (fst b) (snd b) small Hinv Huse Hrel)
    as (st1 & Hrun1 & Hinv1 & Hsv1 & Hbs1 & _).
  change (block_offset_of cfg (fst b)) with bo in Hinv1, Hsv1.
  change (jmem_align cfg (snd b)) with n in Hinv1, Hsv1, Hbs1.
  exists st1. split; [exact Hrun1|]. split; [|exact Hsv1].
  destruct (ord_pairs_remove _ la b lb Hpair) as (Hpair' & Hpa & Hpb).
  apply Forall_app in Hoff. destruct Hoff as [Hoffa Hoffb].
  inversion Hoffb as [|? ? Hob Hoffc]; subst. fold bo in Hob.
  unfold heap_in_use.
  split; [exact Hinv1|].
  split; [apply aligned_coalesce; assumption|].
  split; [split; [|split]|].
  + rewrite Forall_forall. intros c Hc.
    assert (Hcb' : apart (block_span cfg c) (bo, n)).
    { apply in_app_or in Hc. destruct Hc as [Hc|Hc].
      - rewrite Forall_forall in Hpa. specialize (Hpa c Hc).
        cbv beta in Hpa. unfold apart in Hpa |- *.
        fold bo in Hpa. fold n in Hpa. cbn [fst snd]. lia.
      - rewrite Forall_forall in Hpb. specialize (Hpb c Hc).
        cbv beta in Hpb. unfold apart in Hpb |- *.
        fold bo in Hpb. fold n in Hpb. cbn [fst snd]. lia. }
    assert (Hc0 : In c (la ++ b :: lb)).
    { apply in_app_or in Hc. apply in_or_app.
      destruct Hc as [Hc|Hc]; [left; exact Hc|right; right; exact Hc]. }
    rewrite Forall_forall in Hall0. destruct (Hall0 c Hc0) as (C1 & C2 & C3 & C4 & C5).
    repeat split; try assumption.
    apply apart_coalesce; try assumption; try lia.
    destruct (jmem_align_bounds cfg cfg_ok (snd c) C1 C2) as [Hcn _].
    unfold block_span. cbn [fst snd]. lia.
  + exact Hpair'.
  + rewrite Hbs1, Hbs, Hsize.
    change (sum_list (map (fun b0 => snd (block_span cfg b0)) (la ++ lb)))
      with (live_size cfg (la ++ lb)).
    rewrite live_size_app. lia.
  + split; [apply Forall_app; split; assumption|].
    split; [rewrite Hbs1, Hbs, Hsize, live_size_app; lia|].
    rewrite free_bytes_coalesce, Hbs1. lia.
Qed.

(** *** Every heap that calls can reach *)

(** In a static build whose area is a multiple of the alignment, every
    heap reached from [jmem_heap_init], started on a context that counts
    no block, by allocations of positive sizes whose rounding does not
    overflow and by releases of blocks in use, each release finding a skip
    pointer that is the sentinel or a node, satisfies the invariant; its
    free regions are aligned;
    the blocks in use lie in the heap and share no byte with each other or
    with a free region, so no byte is handed out twice; [jmem_heap_blocks_size]
    is the sum of their aligned sizes; and every byte of the heap is in a
    block in use or on the free list. *)
Theorem reachable_heap_in_use (st : heap) (l : list region) (live : list (Z * Z)) :
  JMEM_SEGMENTED_HEAP cfg = false ->
  JMEM_HEAP_AREA_SIZE cfg mod A = 0 ->
  reachable cfg st l live -> heap_in_use cfg st l live.
Proof.
  intros Eseg Harea Hreach.
  pose proof (ok_align cfg cfg_ok) as HA.
  pose proof (ok_first cfg cfg_ok) as Hfst.
  induction Hreach
    as [ctx st0 Hinit Hbs0
       |st l live fuel sz small p st' Hr IH Hsz Hov Hfu Hrun Hp
       |st l live fuel sz small st' Hr IH Hsz Hov Hfu Hrun
       |st l la b lb fuel small st' Hr IH Huse Hfu Hrun].
  - (* start-up *)
    destruct (init_static ctx st0 Eseg Hinit) as (Hinv & _ & _ & Hbs & _).
    unfold heap_in_use. rewrite Hbs, Hbs0.
    split; [exact (Hinv Hbs0)|].
    split; [constructor; [|constructor]; simpl; split;
            [apply Z.mod_0_l; lia|exact Harea]|].
    split; [split; [constructor|split; [constructor|simpl; lia]]|].
    split; [constructor|]. split; [reflexivity|].
    rewrite (heap_size_static Eseg). unfold free_bytes. simpl. lia.
  - (* an allocation that returns a block *)
    destruct IH as (Hinv & Hal & (Hall & Hpair & Hsum) & Hoff & Hbs & Hacc).
    pose proof Hinv as (_ & Hok & _).
    destruct (first_fit (jmem_align cfg sz) l) as [r|] eqn:Hfit.
    + destruct (alloc_take st l sz small r Hinv Hal ltac:(lia) Hsz Hov Hfit)
        as (st1 & Hrun1 & Hinv1 & Hbs1 & _).
      rewrite (Hrun1 fuel Hfu) in Hrun. injection Hrun as <- <-.
      destruct (jmem_align_bounds cfg cfg_ok sz Hsz Hov) as [Hnb Hna].
      destruct (allocate_from_split _ l r Hfit) as (la & lb & El & Hla & Hfitr & Hl').
      assert (Hin : In r l) by (rewrite El; apply in_elt).
      pose proof Hok as [Hf _]. rewrite Forall_forall in Hf.
      destruct (Hf r Hin) as (R1 & R2 & R3).
      assert (Hold : Forall (fun b => Forall (apart (block_span cfg b))
                                             (la ++ carve (jmem_align cfg sz) r ++ lb)
                                      /\ apart (fst r, jmem_align cfg sz)
                                               (block_span cfg b)) live).
      { eapply Forall_impl; [|exact Hall]. intros b (_ & _ & _ & _ & B5).
        rewrite El in B5. apply apart_carve; [lia|exact B5]. }
      unfold heap_in_use. rewrite Hl' in *.
      split; [exact Hinv1|].
      split; [apply aligned_carve; [rewrite <- El; exact Hal|exact Hna]|].
      split; [split; [|split]|].
      * constructor.
        -- rewrite block_span_node. cbn [fst snd]. repeat split; try lia.
           pose proof (carve_apart (jmem_align cfg sz) la r lb
                                   ltac:(rewrite <- El; exact Hok) ltac:(lia)) as Hap.
           eapply Forall_impl; [|exact Hap]. intros x Hx. cbv beta in Hx.
           unfold apart. cbn [fst snd]. lia.
        -- rewrite Forall_forall in *. intros b Hb.
           destruct (Hall b Hb) as (B1 & B2 & B3 & B4 & _).
           destruct (Hold b Hb) as [B5 _]. repeat split; assumption.
      * constructor; [|exact Hpair]. rewrite block_span_node.
        eapply Forall_impl; [|exact Hold]. intros b [_ Hb]. exact Hb.
      * rewrite Hbs1.
        change (sum_list (map (fun b => snd (block_span cfg b)) ((node cfg r, sz) :: live)))
          with (jmem_align cfg sz + live_size cfg live).
        unfold live_size. lia.
      * split.
        { constructor; [|exact Hoff]. rewrite block_span_node. cbn [fst].
          unfold aligned_regions in Hal. rewrite Forall_forall in Hal.
          apply (Hal r Hin). }
        split; [rewrite Hbs1, live_size_cons; cbn [snd]; lia|].
        rewrite Hbs1, <- Hacc, El.
        rewrite !free_bytes_app, free_bytes_cons, free_bytes_carve. lia.
    + assert (Hfast : jmem_align cfg sz = A -> l = []).
      { intros E. destruct Hok as [Hf _].
        eapply (first_fit_aligned_head cfg cfg_ok); eassumption. }
      destruct (alloc_fail cfg cfg_ok st l sz small Hinv Hfit Hfast)
        as (stats & lim' & Hrun1 & _).
      destruct Hinv as (_ & _ & _ & _ & (Hb0 & _) & _).
      rewrite Hrun1 in Hrun by lia. injection Hrun as <- _. contradiction Hp. reflexivity.
  - (* an allocation that returns NULL *)
    destruct IH as (Hinv & Hal & Hlive & Hoff & Hbs & Hacc).
    pose proof Hinv as (_ & Hok & _ & _ & (Hb0 & _) & _).
    destruct (first_fit (jmem_align cfg sz) l) as [r|] eqn:Hfit.
    + destruct (alloc_take st l sz small r Hinv Hal ltac:(lia) Hsz Hov Hfit)
        as (st1 & Hrun1 & _).
      rewrite (Hrun1 fuel Hfu) in Hrun. injection Hrun as Hnull _.
      exfalso. destruct (allocate_from_split _ l r Hfit) as (la & lb & El & _).
      destruct Hok as [Hf _]. rewrite Forall_forall in Hf.
      destruct (Hf r ltac:(rewrite El; apply in_elt)) as (R1 & _).
      unfold node, NULL in Hnull. lia.
    + assert (Hfast : jmem_align cfg sz = A -> l = []).
      { intros E. destruct Hok as [Hf _].
        eapply (first_fit_aligned_head cfg cfg_ok); eassumption. }
      destruct (alloc_fail cfg cfg_ok st l sz small Hinv Hfit Hfast)
        as (stats & lim' & Hrun1 & Hlim & _).
      rewrite Hrun1 in Hrun by lia. injection Hrun as <-.
      unfold heap_in_use.
      change (jmem_heap_blocks_size (with_limit (with_stats st stats) lim'))
        with (jmem_heap_blocks_size st).
      refine (conj _ (conj Hal (conj Hlive (conj Hoff (conj Hbs Hacc))))).
      apply (heap_inv_retried cfg st); [|exact Hinv].
      exists stats, lim'. split; [reflexivity|lia].
  - (* a release *)
    destruct (in_use_release st l la b lb small IH Huse) as (st1 & Hrun1 & Huse1 & _).
    rewrite (Hrun1 fuel Hfu) in Hrun. injection Hrun as <-. exact Huse1.
Qed.

(** *** An allocation and its release *)

Lemma u32_add_sub (x s : Z) : 0 <= x < WORD -> u32 (u32 (x + s) - s) = x.
Proof.
  intros Hx. unfold u32. rewrite Zminus_mod_idemp_l.
  replace (x + s - s) with x by lia. apply Z.mod_small. exact Hx.
Qed.

Lemma nth_in_range (l : list Z) (i : nat) :
  Forall (fun v => 0 <= v < WORD) l -> 0 <= nth i l 0 < WORD.
Proof.
  intros H. destruct (Nat.lt_ge_cases i (length l)) as [Hlt|Hge].
  - rewrite Forall_forall in H. apply H. apply nth_In. exact Hlt.
  - rewrite nth_overflow by exact Hge. unfold WORD. lia.
Qed.

(** Releasing the block an allocation has just returned, with the size
    that was asked for, undoes the allocation: both calls return, given
    enough fuel, and the free list, the block size, the block count and the
    occupancy of every segment are what they were; the skip pointer is the
    sentinel or a node of the list.  In a static build this needs the
    allocation to leave a skip pointer the release can use: either the slow
    path runs, or the skip pointer is the sentinel or a node and the
    allocation does not take the last region of the list while the skip
    pointer refers to it. *)
Theorem alloc_then_free_restores (st : heap) (l : list region) (sz : Z)
        (small small' : bool) (r : region) :
  heap_inv cfg st l -> aligned_regions cfg l ->
  jmem_heap_blocks_size st + free_bytes l <= heap_size cfg ->
  0 < sz -> sz + A - 1 < WORD ->
  first_fit (jmem_align cfg sz) l = Some r ->
  0 <= jmem_heap_allocated_blocks_count st < WORD ->
  Forall (fun v => 0 <= v < WORD) (segments st) ->
  (JMEM_SEGMENTED_HEAP cfg = false -> jmem_align cfg sz = A ->
   skip_valid cfg st l
   /\ (jmem_heap_list_skip_p st = JMEM_DECOMPRESS_POINTER_INTERNAL cfg (fst r) ->
       allocate_from (jmem_align cfg sz) l <> [])) ->
  exists st1 st2,
    (forall fuel,
        (length l + Z.to_nat (2 * heap_size cfg + 1) < fuel)%nat ->
        jmem_heap_alloc_block_internal cfg fuel sz small st
        = Done (JMEM_DECOMPRESS_POINTER_INTERNAL cfg (fst r), st1))
    /\ (forall fuel,
           (length l + Z.to_nat (jmem_heap_limit st1) + Z.to_nat (heap_size cfg)
            < fuel)%nat ->
           jmem_heap_free_block_internal
             cfg fuel (JMEM_DECOMPRESS_POINTER_INTERNAL cfg (fst r)) sz small' st1
           = Done st2)
    /\ heap_inv cfg st2 l
    /\ skip_valid cfg st2 l
    /\ jmem_heap_blocks_size st2 = jmem_heap_blocks_size st
    /\ jmem_heap_allocated_blocks_count st2 = jmem_heap_allocated_blocks_count st
    /\ segments st2 = segments st.
Proof.
  intros Hinv Hal Hacc Hsz Hov Hfit Hcount Hsegs Hskip.
  pose proof Hinv as (_ & Hok & _).
  destruct (jmem_align_bounds cfg cfg_ok sz Hsz Hov) as [Hnb Hna].
  destruct (alloc_take st l sz small r Hinv Hal Hacc Hsz Hov Hfit)
    as (st1 & Hrun1 & Hinv1 & Hbs1 & Hcnt1 & Hslow & Hkeep & _ & Hother).
  destruct (alloc_success cfg cfg_ok st l sz small r Hinv Hal Hsz Hov Hfit)
    as (st1' & Hrun1' & Hin & _ & _ & _ & _ & _ & Hlen1 & Hnth1 & _).
  assert (Est : st1' = st1).
  { pose proof (Hrun1 (S (length l + Z.to_nat (2 * heap_size cfg + 1))) ltac:(lia)) as E1.
    pose proof (Hrun1' (S (length l + Z.to_nat (2 * heap_size cfg + 1))) ltac:(lia)) as E2.
    rewrite E1 in E2. injection E2 as E2. symmetry. exact E2. }
  subst st1'.
  assert (Hrok : region_ok cfg r).
  { destruct Hok as [Hf _]. rewrite Forall_forall in Hf. apply Hf, Hin. }
  rewrite (decompress_node cfg cfg_ok r Hrok) in *.
  assert (Huse1 : skip_usable cfg st1 (allocate_from (jmem_align cfg sz) l)).
  { intros Eseg. destruct (Z.eq_dec (jmem_align cfg sz) A) as [EA|EA];
      [|apply Hslow; exact EA].
    destruct (Hskip Eseg EA) as [Hv Hlast].
    destruct (Z.eq_dec (jmem_heap_list_skip_p st) (node cfg r)) as [Es|Es].
    - apply Hkeep; [exact Hv|apply Hlast; exact Es].
    - apply Hother; assumption. }
  assert (Hrel : releasable cfg (allocate_from (jmem_align cfg sz) l)
                            (jmem_heap_blocks_size st1) (node cfg r, sz)).
  { apply alloc_releasable; try assumption. rewrite Hbs1.
    destruct Hinv as (_ & _ & _ & _ & (Hb0 & _) & _). lia. }
  destruct (free_block_spec cfg cfg_ok st1 _ (node cfg r) sz small' Hinv1 Huse1 Hrel)
    as (st2 & Hrun2 & Hinv2 & Hskip2 & Hbs2 & Hcnt2 & _ & _ & _ & Hlen2 & Hnth2).
  replace (block_offset_of cfg (node cfg r)) with (fst r) in *
    by (unfold block_offset_of, node; lia).
  destruct (allocate_from_split _ l r Hfit) as (la & lb & El & Hla & Hr & Hl').
  assert (Hback : coalesce (fst r) (jmem_align cfg sz) (allocate_from (jmem_align cfg sz) l)
                  = l).
  { rewrite Hl', El. apply coalesce_carve; [rewrite <- El; exact Hok|lia]. }
  rewrite Hback in *.
  exists st1, st2.
  split; [exact Hrun1|].
  split.
  { intros fuel Hfu. apply Hrun2.
    pose proof (length_allocate_from (jmem_align cfg sz) l). lia. }
  split; [exact Hinv2|]. split; [exact Hskip2|].
  split; [lia|].
  split.
  { rewrite Hcnt2, Hcnt1. unfold size_t. rewrite Zminus_mod_idemp_l.
    replace (jmem_heap_allocated_blocks_count st + 1 - 1)
      with (jmem_heap_allocated_blocks_count st) by lia.
    apply Z.mod_small. exact Hcount. }
  apply (nth_ext _ _ 0 0); [rewrite Hlen2, Hlen1; reflexivity|].
  intros i _. rewrite Hnth2, Hnth1.
  destruct (JMEM_SEGMENTED_HEAP cfg
            && (0 <? seg_share cfg (fst r) (jmem_align cfg sz) (Z.of_nat i)));
    [|reflexivity].
  apply u32_add_sub. apply nth_in_range. exact Hsegs.
Qed.

(** *** The heap with no block in use *)

(** Releasing every block in use, in any order, leaves no fragmentation
    behind.  From a heap in use whose skip pointer the release can use,
    the releases of all the blocks in use, in the order of the list,
    return, given enough fuel; the block size is then zero and the free
    list is the one region that spans the heap: [first] links to offset 0,
    and the header there holds the size of the heap and ends the list. *)
Theorem release_all_single_region (live : list (Z * Z)) :
  forall (st : heap) (l : list region),
    heap_in_use cfg st l live ->
    skip_usable cfg st l ->
    exists st',
      (forall fuel,
          (length l + length live + Z.to_nat (jmem_heap_limit st)
           + Z.to_nat (heap_size cfg) < fuel)%nat ->
          free_blocks cfg fuel live st = Done st')
      /\ heap_in_use cfg st' [(0, heap_size cfg)] []
      /\ jmem_heap_blocks_size st' = 0
      /\ free_list cfg st' [(0, heap_size cfg)]
      /\ next_offset (mem st' first) = 0
      /\ mem st' (area cfg) = mkFree END_OF_LIST (heap_size cfg).
Proof.
  induction live as [|b rest IH]; intros st l Huse Hskip.
  - exists st. split; [intros fuel _; reflexivity|].
    pose proof Huse as (Hinv & _ & _ & _ & Hbs & Hacc).
    pose proof Hinv as (Hl & Hok & _).
    assert (Hbs0 : jmem_heap_blocks_size st = 0) by (rewrite Hbs; reflexivity).
    assert (E : l = [(0, heap_size cfg)]) by (apply single_region; [exact Hok|lia]).
    subst l. split; [exact Huse|]. split; [exact Hbs0|]. split; [exact Hl|].
    unfold free_list in Hl. simpl in Hl. unfold node in Hl. simpl in Hl.
    rewrite Z.add_0_r in Hl. destruct Hl as (H1 & H2 & H3).
    split; [exact H1|].
    destruct (mem st (area cfg)) as [nx sz]. simpl in H2, H3. subst. reflexivity.
  - destruct (in_use_release st l [] b rest false Huse Hskip)
      as (st1 & Hrun1 & Huse1 & Hsv1).
    pose proof Huse as (Hinv & _).
    pose proof Huse1 as (Hinv1 & _).
    destruct (free_block_spec cfg cfg_ok st l (fst b) (snd b) false Hinv Hskip)
      as (st1' & Hrun1' & _ & _ & _ & _ & Hlim1 & _).
    { destruct Huse as (_ & _ & (Hall & _ & Hsum) & _).
      inversion Hall as [|? ? (B1 & B2 & B3 & B4 & B5) _]; subst.
      unfold releasable. cbn [fst snd].
      change (block_offset_of cfg (fst b)) with (fst (block_span cfg b)).
      change (jmem_align cfg (snd b)) with (snd (block_span cfg b)).
      assert (Hrest : 0 <= live_size cfg rest).
      { apply live_size_nonneg. inversion Hall as [|? ? _ Hr]; subst.
        eapply Forall_impl; [|exact Hr]. intros c (C1 & C2 & _). split; assumption. }
      change (sum_list (map (fun b => snd (block_span cfg b)) (b :: rest)))
        with (snd (block_span cfg b) + live_size cfg rest) in Hsum.
      repeat split; try assumption; try lia.
      eapply Forall_impl; [|exact B5]. intros x Hx. unfold apart in Hx. lia. }
    assert (Est : st1' = st1).
    { pose proof (Hrun1 _ (Nat.lt_succ_diag_r _)) as E1.
      pose proof (Hrun1' _ (Nat.lt_succ_diag_r _)) as E2.
      rewrite E1 in E2. injection E2 as E2. symmetry. exact E2. }
    subst st1'.
    destruct (IH st1 _ Huse1 (fun _ => Hsv1)) as (st' & Hrun & Hrest).
    exists st'. split; [|exact Hrest].
    intros fuel Hf. cbn [free_blocks]. unfold jmem_heap_free_block.
    rewrite Hrun1 by (cbn [length] in Hf; lia). rewrite bind_done. apply Hrun.
    pose proof (length_coalesce (fst (block_span cfg b)) (snd (block_span cfg b)) l).
    cbn [length] in Hf. lia.
Qed.

(** *** Start-up and shut-down *)

(** [jmem_heap_init] in a static build, on any context.  A release build
    returns; a debug build returns when the area is aligned (and, with
    compressed pointers of 16 bits, the heap is no larger than they can
    address), and stops at the assertion when the area is not aligned.
    When it returns, [first] has size 0 and links to offset 0, the header
    at the start of the area holds the size of the area and ends the list,
    the rest of the memory is as it was, the skip pointer is the sentinel,
    the limit is the desired limit and the statistics record the size of
    the heap.  The block size and the block count are not written: they
    are those of the context.  On a context that counts no block, as at
    the start of the program, the heap satisfies the invariant with the
    whole area as its one free region. *)
Theorem heap_init_static (ctx : heap) :
  JMEM_SEGMENTED_HEAP cfg = false ->
  (JERRY_NDEBUG cfg = true
   \/ (area cfg mod A = 0
       /\ (JERRY_CPOINTER_32_BIT cfg = true
           \/ JMEM_HEAP_SIZE cfg
              <= int32 (Z.shiftl (UINT16_MAX + 1) (JMEM_ALIGNMENT_LOG cfg)))) ->
   exists st,
     jmem_heap_init cfg ctx = Done st
     /\ mem st first = mkFree 0 0
     /\ mem st (area cfg) = mkFree END_OF_LIST (JMEM_HEAP_AREA_SIZE cfg)
     /\ (forall q, q <> first -> q <> area cfg -> mem st q = mem ctx q)
     /\ free_list cfg st [(0, JMEM_HEAP_AREA_SIZE cfg)]
     /\ jmem_heap_list_skip_p st = first
     /\ jmem_heap_limit st = LIMIT
     /\ stat_size (jmem_heap_stats st) = JMEM_HEAP_AREA_SIZE cfg
     /\ jmem_heap_blocks_size st = jmem_heap_blocks_size ctx
     /\ jmem_heap_allocated_blocks_count st = jmem_heap_allocated_blocks_count ctx
     /\ (jmem_heap_blocks_size ctx = 0 ->
         heap_inv cfg st [(0, JMEM_HEAP_AREA_SIZE cfg)]
         /\ jmem_heap_blocks_size st + free_bytes [(0, JMEM_HEAP_AREA_SIZE cfg)]
            = heap_size cfg))
  /\ (JERRY_NDEBUG cfg = false -> area cfg mod A <> 0 ->
      jmem_heap_init cfg ctx = Stuck AssertFailed).
Proof.
  intros Eseg.
  pose proof (heap_size_static Eseg) as Hsize.
  pose proof (ok_heap cfg cfg_ok) as Hh.
  pose proof (ok_end cfg cfg_ok) as Hend.
  pose proof (ok_first cfg cfg_ok) as Hfst.
  split.
  - intros Hpre.
    assert (Hrun : exists st, jmem_heap_init cfg ctx = Done st).
    { unfold jmem_heap_init, JERRY_ASSERT.
      destruct Hpre as [Hnd|(Hal & Hcp)].
      - rewrite Hnd. cbn [orb]. destruct (JERRY_CPOINTER_32_BIT cfg);
          rewrite !bind_done; eexists; reflexivity.
      - replace (area cfg mod A =? 0) with true by (symmetry; apply Z.eqb_eq; exact Hal).
        rewrite orb_true_r.
        destruct Hcp as [Hcp|Hcp].
        + rewrite Hcp. rewrite !bind_done. eexists. reflexivity.
        + replace (int32 (Z.shiftl (UINT16_MAX + 1) (JMEM_ALIGNMENT_LOG cfg))
                   >=? JMEM_HEAP_SIZE cfg) with true
            by (symmetry; rewrite Z.geb_leb; apply Z.leb_le; exact Hcp).
          rewrite orb_true_r.
          destruct (JERRY_CPOINTER_32_BIT cfg); rewrite !bind_done; eexists; reflexivity. }
    destruct Hrun as [st Hrun]. exists st. split; [exact Hrun|].
    destruct (init_static ctx st Eseg Hrun) as (Hinv & Hlist & Hskip & Hbs & Hcnt & Hlim).
    pose proof (init_done ctx st Hrun) as Est.
    rewrite Eseg in Est. unfold jmem_heap_init_first_free_region in Est.
    rewrite Eseg, compress_area in Est.
    assert (Hne : (area cfg =? first) = false) by (apply Z.eqb_neq; lia).
    assert (Hne' : (first =? area cfg) = false) by (apply Z.eqb_neq; lia).
    split.
    { rewrite Est. cbn [mem on_stats with_stats with_limit with_skip with_mem].
      unfold set_next_offset, set_size. rewrite Z.eqb_refl. reflexivity. }
    split.
    { rewrite Est. cbn [mem on_stats with_stats with_limit with_skip with_mem].
      unfold set_next_offset, set_size. rewrite Hne, Z.eqb_refl.
      cbn [next_offset size]. rewrite u32_small by (unfold WORD in *; lia).
      reflexivity. }
    split.
    { intros q Hq1 Hq2. rewrite Est.
      cbn [mem on_stats with_stats with_limit with_skip with_mem].
      unfold set_next_offset, set_size.
      apply Z.eqb_neq in Hq1, Hq2. rewrite Hq1, Hq2. reflexivity. }
    split; [exact Hlist|]. split; [exact Hskip|]. split; [exact Hlim|].
    split; [rewrite Est; reflexivity|].
    split; [exact Hbs|]. split; [exact Hcnt|].
    intros Hbs0. split; [exact (Hinv Hbs0)|].
    rewrite Hbs, Hbs0, Hsize. unfold free_bytes. simpl. lia.
  - intros Hd Hmis. unfold jmem_heap_init, JERRY_ASSERT. rewrite Hd. cbn [orb].
    replace (area cfg mod A =? 0) with false by (symmetry; apply Z.eqb_neq; exact Hmis).
    destruct (JERRY_CPOINTER_32_BIT cfg); [reflexivity|].
    destruct (_ >=? _); reflexivity.
Qed.

Section FinalizeProofs.

Variable free_segment_groups : heap -> heap * Z.

(** [jmem_heap_finalize] checks for leaks.  In a static build, on a heap
    in use: a debug build passes the assertion exactly when no block is in
    use, and then the free list is the one region that spans the heap; with
    a block still in use it stops at the assertion.  A release build
    returns whatever the heap. *)
Theorem finalize_checks_leaks (st : heap) (l : list region) (live : list (Z * Z)) :
  JMEM_SEGMENTED_HEAP cfg = false ->
  heap_in_use cfg st l live ->
  (JERRY_NDEBUG cfg = false ->
   (live = [] ->
    jmem_heap_finalize cfg free_segment_groups st = Done st
    /\ l = [(0, heap_size cfg)])
   /\ (live <> [] ->
       jmem_heap_finalize cfg free_segment_groups st = Stuck AssertFailed))
  /\ (JERRY_NDEBUG cfg = true ->
      jmem_heap_finalize cfg free_segment_groups st = Done st).
Proof.
  intros Eseg (Hinv & _ & (Hall & _ & _) & _ & Hbs & Hacc).
  unfold jmem_heap_finalize, JERRY_ASSERT. rewrite Eseg. rewrite bind_done.
  split.
  - intros Edbg. rewrite Edbg. cbn [orb]. split.
    + intros ->. unfold live_size in Hbs. simpl in Hbs. rewrite Hbs.
      split; [reflexivity|].
      destruct Hinv as (_ & Hok & _). apply single_region; [exact Hok|lia].
    + intros Hne. destruct live as [|b t]; [contradiction Hne; reflexivity|].
      inversion Hall as [|? ? (B1 & B2 & _) Ht]; subst.
      destruct (jmem_align_bounds cfg cfg_ok (snd b) B1 B2) as [Hnb _].
      assert (Hpos : 0 <= live_size cfg t).
      { apply live_size_nonneg. eapply Forall_impl; [|exact Ht].
        intros c (C1 & C2 & _). split; assumption. }
      rewrite live_size_cons in Hbs.
      replace (jmem_heap_blocks_size st =? 0) with false
        by (symmetry; apply Z.eqb_neq; lia).
      reflexivity.
  - intros Erel. rewrite Erel. reflexivity.
Qed.

End FinalizeProofs.

(** *** Pointers and sizes *)

(** [static_compress_pointer_internal] and
    [static_decompress_pointer_internal] are inverse to each other on the
    32-bit target: every offset of 32 bits decompresses to an address that
    compresses back to it, and every address compresses to an offset that
    decompresses back to it, so that different addresses have different
    offsets.  The start of the area has offset 0 and an address of the heap
    has its distance from the start as offset; an address below the area,
    such as that of the sentinel, has an offset that wraps around, above
    every offset of the heap; and the end-of-list offset decompresses to an
    address outside the heap. *)
Theorem pointer_compression_round_trip :
  (forall o, 0 <= o < WORD ->
             0 <= JMEM_DECOMPRESS_POINTER_INTERNAL cfg o < WORD
             /\ JMEM_COMPRESS_POINTER_INTERNAL cfg (JMEM_DECOMPRESS_POINTER_INTERNAL cfg o)
                = o)
  /\ (forall p, 0 <= p < WORD ->
                0 <= JMEM_COMPRESS_POINTER_INTERNAL cfg p < WORD
                /\ JMEM_DECOMPRESS_POINTER_INTERNAL cfg (JMEM_COMPRESS_POINTER_INTERNAL cfg p)
                   = p)
  /\ JMEM_COMPRESS_POINTER_INTERNAL cfg (area cfg) = 0
  /\ (forall p, area cfg <= p <= area cfg + heap_size cfg ->
                JMEM_COMPRESS_POINTER_INTERNAL cfg p = p - area cfg)
  /\ (forall p, 0 <= p < area cfg ->
                JMEM_COMPRESS_POINTER_INTERNAL cfg p = p - area cfg + WORD
                /\ heap_size cfg < JMEM_COMPRESS_POINTER_INTERNAL cfg p)
  /\ (forall p q, 0 <= p < WORD -> 0 <= q < WORD ->
                  JMEM_COMPRESS_POINTER_INTERNAL cfg p
                  = JMEM_COMPRESS_POINTER_INTERNAL cfg q -> p = q)
  /\ ~ (area cfg <= JMEM_DECOMPRESS_POINTER_INTERNAL cfg END_OF_LIST
                 <= area cfg + heap_size cfg).
Proof.
  pose proof (ok_first cfg cfg_ok) as Hfst.
  pose proof (ok_area cfg cfg_ok) as Harea.
  pose proof (ok_heap cfg cfg_ok) as Hh.
  assert (HW : 0 < WORD) by (unfold WORD; lia).
  assert (Hback : forall p, 0 <= p < WORD ->
                            JMEM_DECOMPRESS_POINTER_INTERNAL
                              cfg (JMEM_COMPRESS_POINTER_INTERNAL cfg p) = p).
  { intros p Hp.
    unfold JMEM_COMPRESS_POINTER_INTERNAL, JMEM_DECOMPRESS_POINTER_INTERNAL, u32, ptr32.
    rewrite <- Zminus_mod. rewrite Zplus_mod_idemp_r.
    replace (area cfg + (p - area cfg)) with p by lia.
    apply Z.mod_small. exact Hp. }
  split.
  { intros o Ho. split; [|apply (compress_decompress cfg); exact Ho].
    unfold JMEM_DECOMPRESS_POINTER_INTERNAL, ptr32. apply Z.mod_pos_bound. exact HW. }
  split.
  { intros p Hp. split; [|apply Hback; exact Hp].
    unfold JMEM_COMPRESS_POINTER_INTERNAL, u32. apply Z.mod_pos_bound. exact HW. }
  split; [apply compress_area|].
  split.
  { intros p Hp. unfold JMEM_COMPRESS_POINTER_INTERNAL, u32.
    rewrite <- Zminus_mod. apply Z.mod_small. lia. }
  split.
  { intros p Hp.
    assert (E : JMEM_COMPRESS_POINTER_INTERNAL cfg p = p - area cfg + WORD).
    { unfold JMEM_COMPRESS_POINTER_INTERNAL, u32. rewrite <- Zminus_mod.
      assert (Em : (p - area cfg) mod WORD = (p - area cfg + WORD) mod WORD).
      { replace (p - area cfg + WORD) with (p - area cfg + 1 * WORD) by lia.
        rewrite Z.mod_add by lia. reflexivity. }
      rewrite Em. apply Z.mod_small. lia. }
    split; [exact E|]. rewrite E. lia. }
  split.
  { intros p q Hp Hq E. rewrite <- (Hback p Hp), <- (Hback q Hq), E. reflexivity. }
  intros Hin. destruct (decompress_end_outside cfg cfg_ok); lia.
Qed.

(** The size an allocation or a release works with is the request rounded
    up to the alignment: for a request that does not overflow, a multiple
    of the alignment, at least the request and less than one granule above
    it, the least such multiple; a request that is a multiple is its own
    rounding. *)
Theorem align_up_least_multiple (sz : Z) :
  0 < sz -> sz + A - 1 < WORD ->
  jmem_align cfg sz mod A = 0
  /\ sz <= jmem_align cfg sz < sz + A
  /\ (forall m, m mod A = 0 -> sz <= m -> jmem_align cfg sz <= m)
  /\ (sz mod A = 0 -> jmem_align cfg sz = sz).
Proof.
  intros Hsz Hov. pose proof (ok_align cfg cfg_ok) as HA.
  destruct (jmem_align_bounds cfg cfg_ok sz Hsz Hov) as [Hb Hm].
  split; [exact Hm|]. split; [exact Hb|]. split.
  - intros m Hmm Hle.
    pose proof (Z.div_mod m A ltac:(lia)) as Dm. rewrite Hmm in Dm.
    pose proof (Z.div_mod (jmem_align cfg sz) A ltac:(lia)) as Da. rewrite Hm in Da.
    destruct (Z_le_gt_dec (jmem_align cfg sz) m) as [H|H]; [exact H|].
    assert (m / A < jmem_align cfg sz / A) by nia.
    assert (m + A <= jmem_align cfg sz) by nia. lia.
  - intros Hs. apply (jmem_align_idem cfg cfg_ok); lia.
Qed.

(** *** Statistics *)

(** [jmem_heap_stat_alloc] followed by [jmem_heap_stat_free] with the same
    size leaves the allocated and the wasted bytes as they were and counts
    one allocation and one release; the peaks never decrease and, after
    [jmem_heap_stat_alloc], are at least the current values. *)
Theorem stat_alloc_then_free (sz : Z) (s : jmem_heap_stats_t) :
  0 <= allocated_bytes s < WORD -> 0 <= waste_bytes s < WORD ->
  let s1 := jmem_heap_stat_alloc cfg sz s in
  let s2 := jmem_heap_stat_free cfg sz s1 in
  allocated_bytes s2 = allocated_bytes s
  /\ waste_bytes s2 = waste_bytes s
  /\ alloc_count s2 = size_t (alloc_count s + 1)
  /\ free_count s2 = size_t (free_count s + 1)
  /\ allocated_bytes s1 <= peak_allocated_bytes s1
  /\ waste_bytes s1 <= peak_waste_bytes s1
  /\ peak_allocated_bytes s <= peak_allocated_bytes s1
  /\ peak_waste_bytes s <= peak_waste_bytes s1
  /\ peak_allocated_bytes s2 = peak_allocated_bytes s1
  /\ peak_waste_bytes s2 = peak_waste_bytes s1.
Proof.
  intros Ha Hw s1 s2. unfold s2, s1, jmem_heap_stat_free, jmem_heap_stat_alloc.
  cbn [allocated_bytes waste_bytes alloc_count free_count peak_allocated_bytes
       peak_waste_bytes].
  set (a := jmem_align cfg sz). set (w := size_t (a - sz)).
  split.
  { unfold size_t. rewrite Zminus_mod_idemp_l.
    replace (allocated_bytes s + a - a) with (allocated_bytes s) by lia.
    apply Z.mod_small. exact Ha. }
  split.
  { unfold size_t at 1 2. rewrite Zminus_mod_idemp_l.
    replace (waste_bytes s + w - w) with (waste_bytes s) by lia.
    apply Z.mod_small. exact Hw. }
  split; [reflexivity|]. split; [reflexivity|].
  split.
  { destruct (Z.gtb_spec (size_t (allocated_bytes s + a)) (peak_allocated_bytes s)); lia. }
  split.
  { destruct (Z.gtb_spec (size_t (waste_bytes s + w)) (peak_waste_bytes s)); lia. }
  split.
  { destruct (Z.gtb_spec (size_t (allocated_bytes s + a)) (peak_allocated_bytes s)); lia. }
  split.
  { destruct (Z.gtb_spec (size_t (waste_bytes s + w)) (peak_waste_bytes s)); lia. }
  split; reflexivity.
Qed.

(** *** The ladder, continued *)

Section LadderMore.

Variable gc : jmem_free_unused_memory_severity_t -> heap -> heap.
Variable seg_alloc : Z -> heap -> Z * heap.

Local Abbreviation LOW := JMEM_FREE_UNUSED_MEMORY_SEVERITY_LOW.
Local Abbreviation HIGH := JMEM_FREE_UNUSED_MEMORY_SEVERITY_HIGH.

(** A request that a free region holds and that stays within the budget
    is served at the first attempt: no callback is run, whatever the
    callbacks are, and the block is the start of the first region that
    holds the aligned request. *)
Theorem alloc_without_callbacks (st : heap) (l : list region) (required : Z)
        (ret small : bool) (r : region) :
  JMEM_GC_BEFORE_EACH_ALLOC cfg = false ->
  heap_inv cfg st l -> aligned_regions cfg l ->
  jmem_heap_blocks_size st + free_bytes l <= heap_size cfg ->
  0 < required -> required + 2 * A <= WORD ->
  first_fit (jmem_align cfg required) l = Some r ->
  (if JMEM_LAZY_GC cfg
   then size_t (jmem_heap_blocks_size st + jmem_align cfg required) <= JMEM_HEAP_SIZE cfg
   else size_t (jmem_heap_blocks_size st + jmem_align cfg required) <= jmem_heap_limit st) ->
  exists st',
    (forall fuel,
        (length l + Z.to_nat (2 * heap_size cfg + 1) < fuel)%nat ->
        jmem_heap_gc_and_alloc_block cfg gc seg_alloc fuel required ret small st
        = Done (Returned (JMEM_DECOMPRESS_POINTER_INTERNAL cfg (fst r)), (st', [])))
    /\ JMEM_DECOMPRESS_POINTER_INTERNAL cfg (fst r) <> NULL
    /\ heap_inv cfg st' (allocate_from (jmem_align cfg required) l)
    /\ jmem_heap_blocks_size st'
       = jmem_heap_blocks_size st + jmem_align cfg required.
Proof.
  intros Hpre Hinv Hal Hacc Hreq Hov Hfit Hbudget.
  pose proof (ok_align cfg cfg_ok) as HA.
  pose proof (ok_first cfg cfg_ok) as Hfst.
  destruct (jmem_align_bounds cfg cfg_ok required Hreq ltac:(lia)) as [Hnb Hna].
  set (need := jmem_align cfg required) in *.
  assert (Hid : jmem_align cfg need = need) by (apply (jmem_align_idem cfg cfg_ok); lia).
  destruct (alloc_take st l need small r Hinv Hal Hacc ltac:(lia) ltac:(lia))
    as (st' & Hrun & Hinv' & Hbs & _); [rewrite Hid; exact Hfit|].
  rewrite Hid in Hinv', Hbs.
  assert (Hrok : region_ok cfg r).
  { destruct (allocate_from_split _ l r Hfit) as (la & lb & El & _).
    destruct Hinv as (_ & (Hf & _) & _). rewrite Forall_forall in Hf.
    apply Hf. rewrite El. apply in_elt. }
  assert (Hnn : node cfg r <> NULL).
  { destruct Hrok as (R1 & _). unfold node, NULL. lia. }
  rewrite (decompress_node cfg cfg_ok r Hrok).
  exists st'. split; [|split; [exact Hnn|split; [exact Hinv'|exact Hbs]]].
  intros fuel Hf.
  unfold jmem_heap_gc_and_alloc_block.
  replace (required =? 0) with false by (symmetry; apply Z.eqb_neq; lia).
  fold need. rewrite Hpre. cbn [fst snd].
  assert (Hover : (if JMEM_LAZY_GC cfg
                   then size_t (jmem_heap_blocks_size st + need) >? JMEM_HEAP_SIZE cfg
                   else size_t (jmem_heap_blocks_size st + need) >? jmem_heap_limit st)
                  = false).
  { destruct (JMEM_LAZY_GC cfg); rewrite Z.gtb_ltb; apply Z.ltb_ge; exact Hbudget. }
  rewrite Hover. cbn [fst snd].
  rewrite Hrun by lia. rewrite bind_done. cbv beta iota.
  replace (negb (node cfg r =? NULL)) with true
    by (symmetry; apply negb_true_iff, Z.eqb_neq; exact Hnn).
  reflexivity.
Qed.

Lemma gc_retry_trace (need : Z) (small : bool) (fuel : nat) :
  forall (sevs : gc_trace) (w w' : heap * gc_trace) (o : option Z),
    gc_retry cfg gc sevs fuel need small w = Done (o, w') ->
    (exists k, snd w' = snd w ++ firstn k sevs)
    /\ (o = None -> snd w' = snd w ++ sevs).
Proof.
  induction sevs as [|sev rest IH]; intros w w' o H.
  - simpl in H. injection H as <- <-. split.
    + exists 0%nat. simpl. rewrite app_nil_r. reflexivity.
    + intros _. rewrite app_nil_r. reflexivity.
  - cbn [gc_retry] in H.
    match type of H with
    | bind ?x _ = _ => destruct x as [[p s]|] eqn:E; [|discriminate H]
    end.
    rewrite bind_done in H. cbv beta iota in H.
    destruct (p =? NULL) eqn:Ep; cbn [negb] in H; cbv iota in H.
    + destruct (IH _ _ _ H) as [(k & Hk) Hnone].
      cbn [snd run_gc] in Hk, Hnone. split.
      * exists (S k). rewrite Hk, <- app_assoc. reflexivity.
      * intros Ho. rewrite (Hnone Ho), <- app_assoc. reflexivity.
    + injection H as <- <-. cbn [snd run_gc]. split.
      * exists 1%nat. reflexivity.
      * discriminate.
Qed.

(** The callbacks of one call of [jmem_heap_gc_and_alloc_block].  Before
    the first attempt the callback is run at most at HIGH (builds with a GC
    before each allocation) and then at LOW (a request over the budget);
    after a failed attempt it is run at LOW and, if that does not help, at
    HIGH, and at no other severity or order: at most four runs in all.  A
    call that ends in [jerry_fatal], or that returns [NULL] for a request
    of some bytes in a build without segments, has run both LOW and
    HIGH. *)
Theorem gc_callback_trace (fuel : nat) (required : Z) (ret small : bool)
        (st st' : heap) (out : alloc_outcome) (trace : gc_trace) :
  jmem_heap_gc_and_alloc_block cfg gc seg_alloc fuel required ret small st
  = Done (out, (st', trace)) ->
  exists before ladder,
    trace = before ++ ladder
    /\ (before = [] \/ before = [LOW] \/ before = [HIGH] \/ before = [HIGH; LOW])
    /\ (JMEM_GC_BEFORE_EACH_ALLOC cfg = false -> before = [] \/ before = [LOW])
    /\ (ladder = [] \/ ladder = [LOW] \/ ladder = [LOW; HIGH])
    /\ match out with
       | Fatal _ => ladder = [LOW; HIGH]
       | Returned p =>
         p = NULL -> required <> 0 -> JMEM_SEGMENTED_HEAP cfg = false ->
         ladder = [LOW; HIGH]
       end.
Proof.
  intros Hrun. unfold jmem_heap_gc_and_alloc_block in Hrun.
  destruct (Z.eqb_spec required 0) as [E0|E0].
  { injection Hrun as <- <- <-. exists [], []. split; [reflexivity|].
    split; [left; reflexivity|]. split; [intros _; left; reflexivity|].
    split; [left; reflexivity|]. intros _ H. contradiction. }
  set (need := jmem_align cfg required) in *.
  set (w0 := if JMEM_GC_BEFORE_EACH_ALLOC cfg then run_gc gc HIGH (st, []) else (st, []))
    in *.
  match type of Hrun with
  | context [if ?c then run_gc gc LOW w0 else w0] =>
    set (w1 := if c then run_gc gc LOW w0 else w0) in *;
      assert (Hbefore : (snd w1 = [] \/ snd w1 = [LOW] \/ snd w1 = [HIGH]
                         \/ snd w1 = [HIGH; LOW])
                        /\ (JMEM_GC_BEFORE_EACH_ALLOC cfg = false ->
                            snd w1 = [] \/ snd w1 = [LOW]))
        by (unfold w1; destruct c; unfold w0;
            destruct (JMEM_GC_BEFORE_EACH_ALLOC cfg);
            cbn [run_gc fst snd app];
            (split; [|intros Hx; try discriminate Hx]);
            repeat first [reflexivity | left; reflexivity | right])
  end.
  clearbody w1. clear w0. destruct Hbefore as [Hb1 Hb2].
  exists (snd w1).
  match type of Hrun with
  | bind ?x _ = _ => destruct x as [[p s1]|] eqn:E1; [|discriminate Hrun]
  end.
  rewrite bind_done in Hrun. cbv beta iota in Hrun.
  destruct (p =? NULL) eqn:Ep; cbn [negb] in Hrun; cbv iota in Hrun.
  2: { injection Hrun as <- <- <-. exists []. rewrite app_nil_r.
       split; [reflexivity|]. split; [exact Hb1|]. split; [exact Hb2|].
       split; [left; reflexivity|]. intros ->. discriminate Ep. }
  match type of Hrun with
  | bind ?x _ = _ => destruct x as [[o s2]|] eqn:E2; [|discriminate Hrun]
  end.
  rewrite bind_done in Hrun. cbv beta iota in Hrun.
  destruct o as [q|].
  { injection Hrun as <- <- <-. exists []. rewrite app_nil_r.
    split; [reflexivity|]. split; [exact Hb1|]. split; [exact Hb2|].
    split; [left; reflexivity|]. intros _ _ Hs.
    destruct (segment_retry_some cfg seg_alloc _ _ _ _ _ _ E2) as [Hs' _].
    rewrite Hs in Hs'. discriminate Hs'. }
  match type of Hrun with
  | bind ?x _ = _ => destruct x as [[o w3]|] eqn:E3; [|discriminate Hrun]
  end.
  rewrite bind_done in Hrun. cbv beta iota in Hrun.
  destruct (gc_retry_trace _ _ _ _ _ _ _ E3) as [(k & Hk) Hnone].
  destruct w3 as [s3 t3]. cbn [fst snd] in Hk, Hnone, Hrun.
  assert (Hladder : forall k, firstn k [LOW; HIGH] = [] \/ firstn k [LOW; HIGH] = [LOW]
                              \/ firstn k [LOW; HIGH] = [LOW; HIGH]).
  { intros [|[|[|j]]]; simpl; tauto. }
  destruct o as [q|].
  { injection Hrun as <- <- <-. exists (firstn k [LOW; HIGH]).
    split; [exact Hk|]. split; [exact Hb1|]. split; [exact Hb2|].
    split; [apply Hladder|]. intros Hq. exfalso.
    exact (gc_retry_some cfg gc _ _ _ _ _ _ _ E3 Hq). }
  specialize (Hnone eq_refl).
  match type of Hrun with
  | bind ?x _ = _ => destruct x as [[o s4]|] eqn:E4; [|discriminate Hrun]
  end.
  rewrite bind_done in Hrun. cbv beta iota in Hrun.
  exists [LOW; HIGH].
  destruct o as [q|].
  { injection Hrun as <- <- <-.
    split; [exact Hnone|]. split; [exact Hb1|]. split; [exact Hb2|].
    split; [right; right; reflexivity|]. intros _ _ _. reflexivity. }
  destruct ret; cbn [negb] in Hrun; cbv iota in Hrun; injection Hrun as <- <- <-.
  - split; [exact Hnone|]. split; [exact Hb1|]. split; [exact Hb2|].
    split; [right; right; reflexivity|]. intros _ _ _. reflexivity.
  - split; [exact Hnone|]. split; [exact Hb1|]. split; [exact Hb2|].
    split; [right; right; reflexivity|]. reflexivity.
Qed.

End LadderMore.

(** *** The skip pointer after an allocation *)

(** After an allocation that finds a region, the skip pointer is the
    sentinel or a node of the free list whenever the slow path ran,
    whenever it was so before and the list is not left empty, and whenever
    it was so before and did not refer to the region taken.  The one
    exception is the fast path taking the last region of the list while the
    skip pointer refers to it: the skip pointer is then the address that
    the end-of-list offset decompresses to, which lies outside the heap; it
    is no node, the list being empty, and it is not the sentinel unless the
    sentinel happens to lie at that address. *)
Theorem skip_pointer_after_alloc (st : heap) (l : list region) (sz : Z)
        (small : bool) (r : region) :
  heap_inv cfg st l -> aligned_regions cfg l ->
  jmem_heap_blocks_size st + free_bytes l <= heap_size cfg ->
  0 < sz -> sz + A - 1 < WORD ->
  first_fit (jmem_align cfg sz) l = Some r ->
  exists st',
    (forall fuel,
        (length l + Z.to_nat (2 * heap_size cfg + 1) < fuel)%nat ->
        jmem_heap_alloc_block_internal cfg fuel sz small st
        = Done (JMEM_DECOMPRESS_POINTER_INTERNAL cfg (fst r), st'))
    /\ (jmem_align cfg sz <> A ->
        skip_valid cfg st' (allocate_from (jmem_align cfg sz) l))
    /\ (skip_valid cfg st l -> allocate_from (jmem_align cfg sz) l <> [] ->
        skip_valid cfg st' (allocate_from (jmem_align cfg sz) l))
    /\ (skip_valid cfg st l ->
        jmem_heap_list_skip_p st <> JMEM_DECOMPRESS_POINTER_INTERNAL cfg (fst r) ->
        skip_valid cfg st' (allocate_from (jmem_align cfg sz) l))
    /\ (allocate_from (jmem_align cfg sz) l = [] -> jmem_align cfg sz = A ->
        jmem_heap_list_skip_p st = JMEM_DECOMPRESS_POINTER_INTERNAL cfg (fst r) ->
        jmem_heap_list_skip_p st' = JMEM_DECOMPRESS_POINTER_INTERNAL cfg END_OF_LIST
        /\ ~ (area cfg <= jmem_heap_list_skip_p st' <= area cfg + heap_size cfg)
        /\ (first <> JMEM_DECOMPRESS_POINTER_INTERNAL cfg END_OF_LIST ->
            ~ skip_valid cfg st' (allocate_from (jmem_align cfg sz) l))).
Proof.
  intros Hinv Hal Hacc Hsz Hov Hfit.
  destruct (alloc_take st l sz small r Hinv Hal Hacc Hsz Hov Hfit)
    as (st' & Hrun & _ & _ & _ & Hslow & Hkeep & Hdangle & Hother).
  assert (Hrok : region_ok cfg r).
  { destruct Hinv as (_ & (Hf & _) & _). rewrite Forall_forall in Hf. apply Hf.
    destruct (allocate_from_split _ l r Hfit) as (la & lb & El & _).
    rewrite El. apply in_elt. }
  rewrite (decompress_node cfg cfg_ok r Hrok).
  exists st'. split; [exact Hrun|]. split; [exact Hslow|]. split; [exact Hkeep|].
  split; [exact Hother|].
  intros Hnil HA Hs. specialize (Hdangle Hnil HA Hs). split; [exact Hdangle|].
  split.
  { rewrite Hdangle. intros Hin. destruct (decompress_end_outside cfg cfg_ok); lia. }
  intros Hfirst. rewrite Hnil. unfold skip_valid. rewrite Hdangle.
  intros [E|(x & [] & _)]. apply Hfirst. symmetry. exact E.
Qed.

(** *** Requests that overflow the rounding *)

Lemma jmem_align_wraps (sz : Z) :
  WORD - A < sz < WORD -> jmem_align cfg sz = 0.
Proof.
  intros Hsz. pose proof (ok_align cfg cfg_ok) as HA.
  pose proof (ok_granule cfg cfg_ok) as Hg. pose proof (ok_end cfg cfg_ok) as Hend.
  unfold jmem_align, size_t.
  assert (E : (sz + A - 1) mod WORD = sz + A - 1 - WORD).
  { symmetry. apply (Z.mod_unique _ _ 1); unfold WORD in *; lia. }
  rewrite E. rewrite Z.div_small by lia. reflexivity.
Qed.

(** An aligned size of zero: the slow path takes "zero bytes" from the
    first free region, which stays on the list as it is. *)
Lemma alloc_zero_rounded (st : heap) (r : region) (t : list region) (sz : Z)
      (small : bool) :
  heap_inv cfg st (r :: t) -> jmem_align cfg sz = 0 ->
  exists st',
    (forall fuel,
        (Z.to_nat (jmem_heap_blocks_size st + 1) + 2 < fuel)%nat ->
        jmem_heap_alloc_block_internal cfg fuel sz small st = Done (node cfg r, st'))
    /\ heap_inv cfg st' (r :: t)
    /\ jmem_heap_blocks_size st' = jmem_heap_blocks_size st
    /\ jmem_heap_allocated_blocks_count st'
       = size_t (jmem_heap_allocated_blocks_count st + 1)
    /\ segments st' = segments st.
Proof.
  intros Hinv Hzero.
  pose proof Hinv as (Hl & Hok & Hz & Hskip & (Hbs & Hlim) & Hsegs).
  pose proof (ok_align cfg cfg_ok) as HA.
  pose proof (ok_small cfg cfg_ok) as Hsmall.
  pose proof (ok_limit cfg cfg_ok) as HL.
  pose proof (ok_first cfg cfg_ok) as Hfst.
  pose proof (ok_end cfg cfg_ok) as Hend.
  pose proof Hok as [Hf Hg].
  pose proof (Forall_inv Hf) as (R1 & R2 & R3).
  assert (Hnn : node cfg r <> NULL) by (unfold node, NULL; lia).
  pose proof Hl as Hl0. unfold free_list in Hl0. simpl in Hl0.
  destruct Hl0 as (Hhead & Hsz & Hrest).
  destruct (slow_loop_fit cfg cfg_ok 0 [] r t (next_offset (mem st first)) first st Hl
                          ltac:(constructor) (Forall_inv Hf) ltac:(lia)) as [stats Hslow].
  cbn [length walk_end Nat.add] in Hslow.
  set (m' := slow_relink cfg (mem st) 0 (fst r) first (next_offset (mem st (node cfg r)))).
  set (st1 := with_skip
                (with_mem
                   (with_blocks (with_stats st stats) (jmem_heap_blocks_size st)
                                (size_t (jmem_heap_allocated_blocks_count st + 1)))
                   m')
                first).
  assert (Htake : forall fuel,
             slow_take cfg (S fuel) 0 (fst r) first (with_stats st stats)
             = Done (node cfg r, st1)).
  { intros fuel. unfold slow_take.
    rewrite (decompress_node cfg cfg_ok r (conj R1 (conj R2 R3))).
    cbn [mem with_stats with_blocks jmem_heap_blocks_size
         jmem_heap_allocated_blocks_count segments].
    rewrite (Z.add_0_r (jmem_heap_blocks_size st)).
    rewrite (size_t_small (jmem_heap_blocks_size st)) by (unfold WORD in *; lia).
    change (int32 0) with 0. cbn [alloc_occupancy_loop].
    change (0 >? 0) with false. cbv iota.
    destruct (JMEM_SEGMENTED_HEAP cfg); rewrite ?bind_done; destruct st; reflexivity. }
  assert (Hm' : lseg cfg m' (next_offset (m' first)) (r :: t) END_OF_LIST
                /\ size (m' first) = 0).
  { pose proof (ascending_regions cfg cfg_ok _ Hok) as Hasc.
    simpl in Hasc. destruct Hasc as [_ Hasc].
    pose proof (ascending_above cfg _ _ Hasc) as Habove.
    assert (Em : m' = set_next_offset
                        (set_next_offset
                           (set_size (mem st) (node cfg r) (snd r))
                           (node cfg r) (next_offset (mem st (node cfg r))))
                        first (fst r)).
    { unfold m', slow_relink.
      rewrite (decompress_node cfg cfg_ok r (Forall_inv Hf)).
      rewrite Hsz. replace (snd r >? 0) with true
        by (symmetry; rewrite Z.gtb_ltb; apply Z.ltb_lt; lia).
      change (u32 0) with 0. rewrite !Z.add_0_r, Z.sub_0_r.
      rewrite (u32_small (snd r)) by (unfold WORD in *; lia).
      rewrite (u32_small (fst r)) by (unfold WORD in *; lia).
      replace (JMEM_COMPRESS_POINTER_INTERNAL cfg (node cfg r)) with (fst r).
      - destruct (JMEM_SEGMENTED_HEAP cfg); reflexivity.
      - symmetry. rewrite <- (decompress_node cfg cfg_ok r (Forall_inv Hf)).
        apply (compress_decompress cfg). unfold WORD in *. lia. }
    rewrite Em. split.
    - simpl. mem_simpl.
      rewrite (eqb_false_of_gt (node cfg r) first) by (unfold node; lia).
      mem_simpl. split; [reflexivity|]. split; [reflexivity|].
      eapply lseg_frame; [|exact Hrest].
      intros x Hx. rewrite Forall_forall in Habove. specialize (Habove x Hx).
      unfold set_next_offset, set_size.
      rewrite (eqb_false_of_gt (node cfg x) first) by (unfold node in *; lia).
      rewrite (eqb_false_of_gt (node cfg x) (node cfg r)) by lia.
      reflexivity.
    - mem_simpl. rewrite (eqb_false_of_lt first (node cfg r)) by (unfold node; lia).
      exact Hz. }
  destruct Hm' as [Hlinks Hzero'].
  destruct (alloc_finish_spec cfg cfg_ok sz (node cfg r) st1)
    as (lim' & Hfin & F1 & F2 & F3 & F4 & _); try (simpl; unfold WORD in *; lia).
  exists (on_stats (jmem_heap_stat_alloc cfg sz) (with_limit st1 lim')).
  split; [|split; [|split; [|split]]]; try reflexivity.
  - intros fuel Hfu. unfold jmem_heap_alloc_block_internal. rewrite Hzero.
    replace ((0 =? A) && negb (next_offset (mem st first) =? END_OF_LIST)) with false
      by (symmetry; apply andb_false_iff; left; apply Z.eqb_neq; lia).
    unfold jmem_heap_alloc_block_internal_slow.
    replace fuel with (S (S (fuel - 2))) by lia.
    rewrite Hslow, Htake. rewrite bind_done.
    rewrite Hfin by (simpl; lia).
    replace (node cfg r =? NULL) with false by (symmetry; apply Z.eqb_neq; exact Hnn).
    reflexivity.
  - unfold heap_inv. split; [exact Hlinks|]. split; [exact Hok|].
    split; [exact Hzero'|]. split; [left; reflexivity|].
    split; [|exact Hsegs].
    unfold counters_ok. simpl in F1 |- *. lia.
Qed.

Section LadderOverflow.

Variable gc : jmem_free_unused_memory_severity_t -> heap -> heap.
Variable seg_alloc : Z -> heap -> Z * heap.

(** A request within one granule of 2^32 bytes overflows the rounding
    ([size_t] has 32 bits): the aligned size is zero, so that, where the
    budget is not exceeded, the call runs no callback and returns the
    address of the first free region without taking a byte from it; the
    region stays on the free list, and only the block count changes. *)
Theorem alloc_request_overflow (st : heap) (r : region) (t : list region)
        (required : Z) (ret small : bool) :
  JMEM_GC_BEFORE_EACH_ALLOC cfg = false ->
  heap_inv cfg st (r :: t) ->
  WORD - A < required < WORD ->
  (JMEM_LAZY_GC cfg = true -> jmem_heap_blocks_size st <= JMEM_HEAP_SIZE cfg) ->
  jmem_align cfg required = 0
  /\ exists st',
      (forall fuel,
          (Z.to_nat (jmem_heap_blocks_size st + 1) + 2 < fuel)%nat ->
          jmem_heap_gc_and_alloc_block cfg gc seg_alloc fuel required ret small st
          = Done (Returned (JMEM_DECOMPRESS_POINTER_INTERNAL cfg (fst r)), (st', [])))
      /\ JMEM_DECOMPRESS_POINTER_INTERNAL cfg (fst r) <> NULL
      /\ free_list cfg st' (r :: t)
      /\ jmem_heap_blocks_size st' = jmem_heap_blocks_size st
      /\ jmem_heap_allocated_blocks_count st'
         = size_t (jmem_heap_allocated_blocks_count st + 1).
Proof.
  intros Hpre Hinv Hreq Hlazy.
  pose proof (ok_align cfg cfg_ok) as HA.
  pose proof (ok_first cfg cfg_ok) as Hfst.
  pose proof (ok_small cfg cfg_ok) as Hsmall.
  pose proof (ok_limit cfg cfg_ok) as HL.
  pose proof (ok_granule cfg cfg_ok) as Hgr.
  pose proof (ok_end cfg cfg_ok) as Hend.
  pose proof (jmem_align_wraps required Hreq) as Hwrap.
  split; [exact Hwrap|].
  assert (Hzz : jmem_align cfg 0 = 0).
  { unfold jmem_align, size_t. rewrite Z.add_0_l.
    rewrite (Z.mod_small (A - 1)) by (unfold WORD in *; lia).
    rewrite Z.div_small by lia. reflexivity. }
  destruct (alloc_zero_rounded st r t 0 small Hinv Hzz)
    as (st' & Hrun & Hinv' & Hbs & Hcnt & _).
  pose proof Hinv as (_ & (Hf & _) & _ & _ & (Hb0 & Hlim) & _).
  pose proof (Forall_inv Hf) as (R1 & _).
  assert (Hnn : node cfg r <> NULL) by (unfold node, NULL; lia).
  rewrite (decompress_node cfg cfg_ok r (Forall_inv Hf)).
  exists st'. split; [|split; [exact Hnn|split; [|split; assumption]]].
  - intros fuel Hf'. unfold jmem_heap_gc_and_alloc_block.
    replace (required =? 0) with false
      by (symmetry; apply Z.eqb_neq; unfold WORD in *; lia).
    rewrite Hwrap, Hpre. cbn [fst snd]. rewrite Z.add_0_r.
    rewrite (size_t_small (jmem_heap_blocks_size st)) by (unfold WORD in *; lia).
    assert (Hover : (if JMEM_LAZY_GC cfg
                     then jmem_heap_blocks_size st >? JMEM_HEAP_SIZE cfg
                     else jmem_heap_blocks_size st >? jmem_heap_limit st) = false).
    { destruct (JMEM_LAZY_GC cfg); rewrite Z.gtb_ltb; apply Z.ltb_ge;
        [apply Hlazy; reflexivity|lia]. }
    rewrite Hover. cbn [fst snd].
    rewrite Hrun by exact Hf'. rewrite bind_done. cbv beta iota.
    replace (negb (node cfg r =? NULL)) with true
      by (symmetry; apply negb_true_iff, Z.eqb_neq; exact Hnn).
    reflexivity.
  - destruct Hinv' as (Hl' & _). exact Hl'.
Qed.

End LadderOverflow.

End HeapInUse.
(** ** The system allocator back end *)

(** Under [JERRY_SYSTEM_ALLOCATOR] an allocation returns what [malloc]
    returns and charges the four counters whether or not that is [NULL]:
    the block size by the size asked for, the allocated heap size by that
    size plus the metadata size, rounded up to the alignment of the system
    allocator (where nothing overflows: the least multiple of the alignment
    that holds both), the metadata size by the metadata of one block, and
    the block count by one.  The release of the same number of bytes takes
    the same amounts off again, so that an allocation followed by its
    release leaves counters that were values of [size_t] as they were. *)
Theorem system_allocator_counters (meta align_bytes : Z) (malloc : Z -> Z)
        (sz ptr : Z) (small small' : bool) (c : SystemAllocator.context) :
  SystemAllocator.counters_in_range c ->
  let r := SystemAllocator.jmem_heap_alloc_block_internal meta align_bytes malloc
                                                          sz small c in
  fst r = malloc sz
  /\ SystemAllocator.jmem_heap_blocks_size (snd r)
     = size_t (SystemAllocator.jmem_heap_blocks_size c + sz)
  /\ SystemAllocator.jmem_allocated_heap_size (snd r)
     = size_t (SystemAllocator.jmem_allocated_heap_size c
               + SystemAllocator.aligned_size_of meta align_bytes sz)
  /\ (0 < align_bytes -> 0 <= meta -> 0 <= sz ->
      sz + meta + align_bytes - 1 < WORD ->
      SystemAllocator.aligned_size_of meta align_bytes sz mod align_bytes = 0
      /\ sz + meta <= SystemAllocator.aligned_size_of meta align_bytes sz
         < sz + meta + align_bytes)
  /\ SystemAllocator.jmem_heap_allocated_blocks_count (snd r)
     = size_t (SystemAllocator.jmem_heap_allocated_blocks_count c + 1)
  /\ SystemAllocator.jmem_system_allocator_metadata_size (snd r)
     = size_t (SystemAllocator.jmem_system_allocator_metadata_size c + meta)
  /\ SystemAllocator.jmem_heap_free_block_internal meta align_bytes ptr sz small' (snd r)
     = c.
Proof.
  intros (H1 & H2 & H3 & H4) r.
  unfold r, SystemAllocator.jmem_heap_alloc_block_internal,
    SystemAllocator.jmem_heap_alloc_block_internal_dynamic_real,
    SystemAllocator.jmem_heap_free_block_internal.
  cbn [fst snd SystemAllocator.jmem_heap_blocks_size
       SystemAllocator.jmem_allocated_heap_size
       SystemAllocator.jmem_system_allocator_metadata_size
       SystemAllocator.jmem_heap_allocated_blocks_count].
  split; [reflexivity|]. split; [reflexivity|]. split; [reflexivity|].
  split.
  { intros Ha Hm Hs Hov. unfold SystemAllocator.aligned_size_of, size_t.
    rewrite (Z.mod_small (sz + meta)) by lia.
    rewrite (Z.mod_small (sz + meta + align_bytes - 1)) by lia.
    pose proof (Z.div_mod (sz + meta + align_bytes - 1) align_bytes ltac:(lia)) as Hd.
    pose proof (Z.mod_pos_bound (sz + meta + align_bytes - 1) align_bytes Ha) as Hb.
    rewrite (Z.mul_comm align_bytes) in Hd.
    remember ((sz + meta + align_bytes - 1) / align_bytes * align_bytes) as qa eqn:Eqa.
    remember ((sz + meta + align_bytes - 1) mod align_bytes) as rm eqn:Erm.
    rewrite (Z.mod_small qa) by lia.
    split; [subst qa; apply Z.mod_mul; lia|lia]. }
  split; [reflexivity|]. split; [reflexivity|].
  assert (Hback : forall x d, 0 <= x < WORD -> size_t (size_t (x + d) - d) = x).
  { intros x d Hx. unfold size_t. rewrite Zminus_mod_idemp_l.
    replace (x + d - d) with x by lia. apply Z.mod_small. exact Hx. }
  rewrite !Hback by assumption. destruct c; reflexivity.
Qed.

(** ** The further properties on concrete heaps *)

Lemma done_with_pointer (r : res (Z * heap)) (p : Z) (d : heap) :
  match r with
  | Done (q, _) => q = p
  | Stuck _ => False
  end ->
  r = Done (p, heap_of r snd d).
Proof.
  destruct r as [[q s]|]; simpl; [intros ->; reflexivity|contradiction].
Qed.

Lemma done_with_outcome (r : res (alloc_outcome * (heap * gc_trace)))
      (out : alloc_outcome) (trace : gc_trace) (d : heap) :
  match r with
  | Done (o, (_, t)) => o = out /\ t = trace
  | Stuck _ => False
  end ->
  r = Done (out, (heap_of r (fun x => fst (snd x)) d, trace)).
Proof.
  destruct r as [[o [s t]]|]; simpl; [intros [-> ->]; reflexivity|contradiction].
Qed.

Lemma st_init_aligned : aligned_regions cfg256 [(0, 256)].
Proof. apply aligned_regionsb_sound. vm_compute. reflexivity. Defined.

(** Start-up of the static heap of 256 bytes, on the blank context. *)
Lemma heap_init_static_witness :
  exists st,
    jmem_heap_init cfg256 blank_context = Done st
    /\ heap_inv cfg256 st [(0, 256)]
    /\ jmem_heap_limit st = 8.
Proof.
  destruct (heap_init_static cfg256 cfg256_ok blank_context eq_refl) as [Hrun _].
  destruct (Hrun (or_introl eq_refl))
    as (st & Hst & _ & _ & _ & _ & _ & Hlim & _ & _ & _ & Hinv).
  exists st. split; [exact Hst|]. split; [exact (proj1 (Hinv eq_refl))|exact Hlim].
Defined.

(** The sentinel of the heap of 256 bytes lies 8 bytes below the area: its
    offset wraps around, and decompresses back to its address. *)
Lemma pointer_compression_round_trip_witness :
  JMEM_COMPRESS_POINTER_INTERNAL cfg256 (first_p cfg256) = 4294967288
  /\ JMEM_DECOMPRESS_POINTER_INTERNAL
       cfg256 (JMEM_COMPRESS_POINTER_INTERNAL cfg256 (first_p cfg256))
     = first_p cfg256.
Proof.
  destruct (pointer_compression_round_trip cfg256 cfg256_ok)
    as (_ & Hback & _ & _ & Hbelow & _).
  split.
  - destruct (Hbelow (first_p cfg256)) as [E _]; [simpl; lia|].
    rewrite E. reflexivity.
  - apply Hback. unfold WORD. simpl. lia.
Defined.

(** A request of 5 bytes with an alignment of 8 is rounded to 8. *)
Lemma align_up_least_multiple_witness :
  jmem_align cfg256 5 mod 8 = 0 /\ 5 <= jmem_align cfg256 5 < 5 + 8.
Proof.
  destruct (align_up_least_multiple cfg256 cfg256_ok 5) as (H1 & H2 & _).
  - lia.
  - unfold WORD. simpl. lia.
  - split; [exact H1|exact H2].
Defined.

(** An allocation of 16 bytes on the empty heap of 256 bytes. *)
Lemma alloc_first_fit_witness :
  exists st',
    jmem_heap_alloc_block_internal cfg256 600 16 false
                                   st_init
    = Done (4096, st')
    /\ heap_inv cfg256 st' [(16, 240)]
    /\ jmem_heap_blocks_size st' = 16.
Proof.
  destruct (alloc_first_fit cfg256 cfg256_ok st_init
                            [(0, 256)] 16 false (0, 256))
    as (st' & la & lb & Hrun & El & _ & _ & Hinv & _ & Hbs & _).
  - exact st_init_inv.
  - exact st_init_aligned.
  - apply Z.leb_le. vm_compute. reflexivity.
  - lia.
  - unfold WORD. simpl. lia.
  - reflexivity.
  - destruct la as [|a la'].
    + simpl in El. injection El as <-. exists st'.
      split; [apply Hrun; apply Nat.ltb_lt; vm_compute; reflexivity|].
      split; [exact Hinv|exact Hbs].
    + exfalso. injection El as _ El. destruct la'; discriminate El.
Defined.

(** The block that this allocation returns. *)
Lemma alloc_block_placement_witness :
  area cfg256 <= 4096 /\ (4096 - area cfg256) mod 8 = 0.
Proof.
  assert (Hp : 4096 <> NULL) by discriminate.
  destruct (alloc_block_placement
              cfg256 cfg256_ok st_init [(0, 256)] 16 false
              600 4096
              (heap_of (jmem_heap_alloc_block_internal
                          cfg256 600 16 false st_init)
                       snd st_init))
    as [_ H].
  - exact st_init_inv.
  - exact st_init_aligned.
  - apply Z.leb_le. vm_compute. reflexivity.
  - lia.
  - unfold WORD. simpl. lia.
  - apply Nat.ltb_lt. vm_compute. reflexivity.
  - apply done_with_pointer. vm_compute. reflexivity.
  - destruct (H Hp) as (H1 & _ & H3 & _). split; [exact H1|exact H3].
Defined.

(** The release of the block of 8 bytes of the heap with one block. *)
Lemma free_keeps_invariant_witness :
  exists st',
    jmem_heap_free_block_internal cfg256 600 4096 8 false st_one_block = Done st'
    /\ heap_inv cfg256 st' [(0, 256)]
    /\ jmem_heap_blocks_size st' = 0.
Proof.
  destruct (free_keeps_invariant cfg256 cfg256_ok st_one_block [(8, 248)] 4096 8 false)
    as (st' & Hrun & Hinv & _ & _ & Hbs & _).
  - exact st_one_block_inv.
  - apply aligned_regionsb_sound. vm_compute. reflexivity.
  - apply skip_usable_of_valid, skip_validb_sound. vm_compute. reflexivity.
  - apply releasable_of_block_okb; [vm_compute; reflexivity|].
    apply Z.leb_le. vm_compute. reflexivity.
  - reflexivity.
  - assert (E : coalesce (4096 - area cfg256) (jmem_align cfg256 8) [(8, 248)]
                = [(0, 256)]) by (vm_compute; reflexivity).
    rewrite E in Hinv.
    assert (Eb : jmem_heap_blocks_size st_one_block - jmem_align cfg256 8 = 0)
      by (vm_compute; reflexivity).
    rewrite Eb in Hbs.
    exists st'. split; [|split; assumption].
    apply Hrun. apply Nat.ltb_lt. vm_compute. reflexivity.
Defined.

(** An allocation of 16 bytes on the empty heap, and its release. *)
Lemma alloc_then_free_restores_witness :
  exists st1 st2,
    jmem_heap_alloc_block_internal cfg256 600 16 false
                                   st_init
    = Done (4096, st1)
    /\ heap_inv cfg256 st2 [(0, 256)]
    /\ jmem_heap_blocks_size st2 = 0.
Proof.
  destruct (alloc_then_free_restores
              cfg256 cfg256_ok st_init [(0, 256)] 16
              false false (0, 256))
    as (st1 & st2 & Hrun & _ & Hinv & _ & Hbs & _).
  - exact st_init_inv.
  - exact st_init_aligned.
  - apply Z.leb_le. vm_compute. reflexivity.
  - lia.
  - unfold WORD. simpl. lia.
  - reflexivity.
  - unfold WORD. simpl. lia.
  - constructor.
  - intros _ E. vm_compute in E. discriminate E.
  - exists st1, st2.
    split; [apply Hrun; apply Nat.ltb_lt; vm_compute; reflexivity|].
    split; [exact Hinv|exact Hbs].
Defined.

(** The heap of 256 bytes after an allocation of 16 bytes is a heap in
    use. *)
Lemma reachable_heap_in_use_witness :
  heap_in_use cfg256
              (heap_of (jmem_heap_alloc_block_internal cfg256 600 16 false st_init)
                       snd st_init)
              [(16, 240)] [(4096, 16)].
Proof.
  apply (reachable_heap_in_use cfg256 cfg256_ok); [reflexivity|reflexivity|].
  apply (reach_alloc cfg256 st_init [(0, 256)] [] 600 16 false 4096).
  - apply (reach_init cfg256 blank_context); [exact st_init_run|reflexivity].
  - lia.
  - unfold WORD. simpl. lia.
  - apply Nat.ltb_lt. vm_compute. reflexivity.
  - apply done_with_pointer. vm_compute. reflexivity.
  - discriminate.
Defined.

Lemma st_two_blocks_in_use :
  heap_in_use cfg256 st_two_blocks [(32, 224)] [(4112, 16); (4096, 16)].
Proof.
  unfold heap_in_use.
  split; [exact st_two_blocks_inv|].
  split; [apply aligned_regionsb_sound; vm_compute; reflexivity|].
  split; [apply live_blocksb_sound; vm_compute; reflexivity|].
  split; [repeat constructor|]. split; vm_compute; reflexivity.
Defined.

(** The two blocks of 16 bytes of [st_two_blocks], released second block
    first: the free list is again the one region of 256 bytes. *)
Lemma release_all_single_region_witness :
  exists st',
    free_blocks cfg256 600 [(4112, 16); (4096, 16)] st_two_blocks = Done st'
    /\ jmem_heap_blocks_size st' = 0
    /\ free_list cfg256 st' [(0, 256)].
Proof.
  destruct (release_all_single_region cfg256 cfg256_ok [(4112, 16); (4096, 16)]
                                      st_two_blocks [(32, 224)])
    as (st' & Hrun & _ & Hbs & Hlist & _).
  - exact st_two_blocks_in_use.
  - apply skip_usable_of_valid, skip_validb_sound. vm_compute. reflexivity.
  - exists st'. split; [|split; [exact Hbs|exact Hlist]].
    apply Hrun. apply Nat.ltb_lt. vm_compute. reflexivity.
Defined.

Lemma st_init_in_use_debug :
  heap_in_use cfg256_debug st_init_debug [(0, 256)] [].
Proof.
  unfold heap_in_use.
  split; [apply heap_invb_sound; vm_compute; reflexivity|].
  split; [apply aligned_regionsb_sound; vm_compute; reflexivity|].
  split; [apply live_blocksb_sound; vm_compute; reflexivity|].
  split; [constructor|]. split; vm_compute; reflexivity.
Defined.

(** Shut-down of the empty heap, debug build. *)
Lemma finalize_checks_leaks_witness :
  jmem_heap_finalize cfg256_debug (fun st => (st, 0))
                     st_init_debug
  = Done st_init_debug.
Proof.
  destruct (finalize_checks_leaks cfg256_debug cfg256_debug_ok (fun st => (st, 0))
                                  st_init_debug
                                  [(0, 256)] [] eq_refl st_init_in_use_debug)
    as [Hdebug _].
  destruct (Hdebug eq_refl) as [Hempty _].
  destruct (Hempty eq_refl) as [Hrun _]. exact Hrun.
Defined.

(** A request of 8 bytes on the heap with one block of 8 bytes, limit 16:
    no callback runs. *)
Lemma alloc_without_callbacks_witness :
  exists st',
    jmem_heap_gc_and_alloc_block cfg256 gc_release_first no_segment 600 8 false false
                                 st_one_block
    = Done (Returned 4104, (st', [])).
Proof.
  destruct (alloc_without_callbacks cfg256 cfg256_ok gc_release_first no_segment
                                    st_one_block [(8, 248)] 8 false false (8, 248))
    as (st' & Hrun & _).
  - reflexivity.
  - exact st_one_block_inv.
  - apply aligned_regionsb_sound. vm_compute. reflexivity.
  - apply Z.leb_le. vm_compute. reflexivity.
  - lia.
  - unfold WORD. simpl. lia.
  - reflexivity.
  - apply Z.leb_le. vm_compute. reflexivity.
  - exists st'. apply Hrun. apply Nat.ltb_lt. vm_compute. reflexivity.
Defined.

(** The callbacks of a request of 16 bytes on the full heap: LOW before
    the first attempt, then LOW and HIGH. *)
Lemma gc_callback_trace_witness :
  exists before ladder,
    [JMEM_FREE_UNUSED_MEMORY_SEVERITY_LOW; JMEM_FREE_UNUSED_MEMORY_SEVERITY_LOW;
     JMEM_FREE_UNUSED_MEMORY_SEVERITY_HIGH] = before ++ ladder
    /\ (before = [] \/ before = [JMEM_FREE_UNUSED_MEMORY_SEVERITY_LOW])
    /\ (ladder = [] \/ ladder = [JMEM_FREE_UNUSED_MEMORY_SEVERITY_LOW]
        \/ ladder = [JMEM_FREE_UNUSED_MEMORY_SEVERITY_LOW;
                     JMEM_FREE_UNUSED_MEMORY_SEVERITY_HIGH]).
Proof.
  destruct (gc_callback_trace
              cfg256 gc_release_first no_segment 1000 16 false false st_full
              (heap_of (jmem_heap_gc_and_alloc_block
                          cfg256 gc_release_first no_segment 1000 16 false false st_full)
                       (fun x => fst (snd x)) st_full)
              (Returned 4096)
              [JMEM_FREE_UNUSED_MEMORY_SEVERITY_LOW; JMEM_FREE_UNUSED_MEMORY_SEVERITY_LOW;
               JMEM_FREE_UNUSED_MEMORY_SEVERITY_HIGH])
    as (before & ladder & E & _ & Hb & Hl & _).
  - apply done_with_outcome. vm_compute. split; reflexivity.
  - exists before, ladder. split; [exact E|]. split; [apply Hb; reflexivity|exact Hl].
Defined.

(** The statistics of an allocation of 5 bytes and of its release. *)
Lemma stat_alloc_then_free_witness :
  allocated_bytes (jmem_heap_stat_free cfg256 5 (jmem_heap_stat_alloc cfg256 5 zero_stats))
  = 0
  /\ waste_bytes (jmem_heap_stat_free cfg256 5 (jmem_heap_stat_alloc cfg256 5 zero_stats))
     = 0.
Proof.
  destruct (stat_alloc_then_free cfg256 5 zero_stats) as (H1 & H2 & _).
  - unfold WORD. simpl. lia.
  - unfold WORD. simpl. lia.
  - split; [exact H1|exact H2].
Defined.

(** The skip pointer after an allocation of 16 bytes on the empty heap. *)
Lemma skip_pointer_after_alloc_witness :
  exists st',
    jmem_heap_alloc_block_internal cfg256 600 16 false
                                   st_init
    = Done (4096, st')
    /\ skip_valid cfg256 st' [(16, 240)].
Proof.
  destruct (skip_pointer_after_alloc
              cfg256 cfg256_ok st_init [(0, 256)] 16
              false (0, 256))
    as (st' & Hrun & Hslow & _).
  - exact st_init_inv.
  - exact st_init_aligned.
  - apply Z.leb_le. vm_compute. reflexivity.
  - lia.
  - unfold WORD. simpl. lia.
  - reflexivity.
  - exists st'.
    split; [apply Hrun; apply Nat.ltb_lt; vm_compute; reflexivity|].
    apply Hslow. vm_compute. discriminate.
Defined.

(** A request of 2^32 - 1 bytes on the empty heap of 256 bytes. *)
Lemma alloc_request_overflow_witness :
  jmem_align cfg256 4294967295 = 0
  /\ exists st',
      jmem_heap_gc_and_alloc_block cfg256 gc_nothing no_segment 600 4294967295
                                   false false st_init
      = Done (Returned 4096, (st', []))
      /\ free_list cfg256 st' [(0, 256)]
      /\ jmem_heap_blocks_size st' = 0.
Proof.
  destruct (alloc_request_overflow
              cfg256 cfg256_ok gc_nothing no_segment
              st_init (0, 256) [] 4294967295 false false)
    as (Hz & st' & Hrun & _ & Hlist & Hbs & _).
  - reflexivity.
  - exact st_init_inv.
  - unfold WORD. simpl. lia.
  - intros H. discriminate H.
  - split; [exact Hz|]. exists st'.
    split; [apply Hrun; apply Nat.ltb_lt; vm_compute; reflexivity|].
    split; [exact Hlist|exact Hbs].
Defined.

(** The counters of the system allocator around a block of 5 bytes, with
    8 bytes of metadata and an alignment of 8, when [malloc] fails: 5
    bytes are counted and 16 bytes are charged to the allocated heap
    size. *)
Lemma system_allocator_counters_witness :
  fst (SystemAllocator.jmem_heap_alloc_block_internal
         8 8 (fun _ => NULL) 5 false (SystemAllocator.mkContext 0 0 0 0)) = NULL
  /\ SystemAllocator.jmem_heap_blocks_size
       (snd (SystemAllocator.jmem_heap_alloc_block_internal
               8 8 (fun _ => NULL) 5 false (SystemAllocator.mkContext 0 0 0 0)))
     = 5
  /\ SystemAllocator.jmem_allocated_heap_size
       (snd (SystemAllocator.jmem_heap_alloc_block_internal
               8 8 (fun _ => NULL) 5 false (SystemAllocator.mkContext 0 0 0 0)))
     = 16.
Proof.
  destruct (system_allocator_counters 8 8 (fun _ => NULL) 5 NULL false false
                                      (SystemAllocator.mkContext 0 0 0 0))
    as (H1 & H2 & H3 & _).
  - unfold SystemAllocator.counters_in_range, WORD. simpl. lia.
  - split; [exact H1|]. split; [exact H2|]. rewrite H3. reflexivity.
Defined.
